(** * Spherical-harmonic particles: contact test, expansion factors and
      pair integrator (USER-SPHERHARM)

    A shallow embedding of [src/USER-SPHERHARM/atom_vec_spherharm.cpp]
    (classes [AtomVecSpherharm], [PairSH] and the Legendre helpers of
    [ComputeShcoeff]) together with the properties its specification states.

    Numbers.  A C++ [double] is modelled by the real numbers [R]: rounding,
    infinities and NaN are outside that model.  The vector helpers of
    [MathExtra] and the Newton's-third-law block of [PairSH::compute] are
    written once over an interface [Double] of arithmetic operations, with
    two instances: [R], used by every algebraic statement, and IEEE binary64
    ([PrimFloat]), used where the outcome depends on a division by zero.

    Arrays.  A C++ array is a [list]; the reads whose index the program
    computes at run time from the quadrature order ([abscissa], [weights] of
    [PairSH]) are checked and yield [OutOfBounds] past the end, where C++ has
    undefined behaviour. *)

From Stdlib Require Import PrimFloat.
From Stdlib Require Import Reals Lra Lia ZArith List Bool String.
Import ListNotations.

Set Implicit Arguments.

(** ** Results of fallible routines *)

Inductive error : Type :=
| ErrorAll (msg : string)               (* error->all(FLERR, msg) *)
| InvalidArgument (msg : string)        (* throw std::invalid_argument(msg) *)
| OutOfBounds (array : string) (index : Z) (* read past the end of an array *)
| OutOfFuel.                            (* a while loop of the model was cut *)

Inductive result (A : Type) : Type :=
| Ok (a : A)
| Err (e : error).

Arguments Ok {A} a.
Arguments Err {A} e.

Definition bind {A B : Type} (r : result A) (k : A -> result B) : result B :=
  match r with
  | Ok a => k a
  | Err e => Err e
  end.

Notation "'do' x <- r ; k" := (bind r (fun x => k))
  (at level 10, x pattern, r at level 100, k at level 200).

Definition is_error {A : Type} (r : result A) : bool :=
  match r with
  | Ok _ => false
  | Err _ => true
  end.

(** The message of the only [error->all] of [PairSH::compute]; the
    specification calls this failure [CenterInsideOther]. *)
Definition CenterInsideOther : error :=
  ErrorAll "Error, centre within radius!".

(** ** The arithmetic of [double] *)

Class Double (D : Type) : Type := {
  dzero : D;
  done : D;
  dadd : D -> D -> D;
  dsub : D -> D -> D;
  dmul : D -> D -> D;
  ddiv : D -> D -> D;
  dopp : D -> D;
  dsqrt : D -> D;
  dltb : D -> D -> bool;
  dleb : D -> D -> bool
}.

Declare Scope dbl_scope.
Delimit Scope dbl_scope with dbl.
Notation "a + b" := (dadd a b) : dbl_scope.
Notation "a - b" := (dsub a b) : dbl_scope.
Notation "a * b" := (dmul a b) : dbl_scope.
Notation "a / b" := (ddiv a b) : dbl_scope.
Notation "- a" := (dopp a) : dbl_scope.

Definition Rltb (a b : R) : bool := if Rlt_dec a b then true else false.
Definition Rleb (a b : R) : bool := if Rle_dec a b then true else false.
Definition Rgtb (a b : R) : bool := Rltb b a.
Definition Reqb (a b : R) : bool := if Req_dec_T a b then true else false.

#[export] Instance Double_R : Double R := {
  dzero := 0%R;
  done := 1%R;
  dadd := Rplus;
  dsub := Rminus;
  dmul := Rmult;
  ddiv := Rdiv;
  dopp := Ropp;
  dsqrt := sqrt;
  dltb := Rltb;
  dleb := Rleb
}.

(** IEEE 754 binary64, as the kernel's primitive floats compute it. *)
Definition Double_binary64 : Double float := {|
  dzero := 0%float;
  done := 1%float;
  dadd := PrimFloat.add;
  dsub := PrimFloat.sub;
  dmul := PrimFloat.mul;
  ddiv := PrimFloat.div;
  dopp := PrimFloat.opp;
  dsqrt := PrimFloat.sqrt;
  dltb := PrimFloat.ltb;
  dleb := PrimFloat.leb
|}.

(** ** Vectors, quaternions and matrices *)

Record vec3 (D : Type) : Type := V3 { c0 : D; c1 : D; c2 : D }.
Record quat4 (D : Type) : Type := Q4 { q0 : D; q1 : D; q2 : D; q3 : D }.
Record mat3 (D : Type) : Type := M3 { row0 : vec3 D; row1 : vec3 D; row2 : vec3 D }.

Arguments V3 {D} c0 c1 c2.
Arguments Q4 {D} q0 q1 q2 q3.
Arguments M3 {D} row0 row1 row2.

(** Modelled from the spec: the helpers of [MathExtra] ([math_extra.h] is not
    among the sources).  The specification writes them as the usual vector
    operations: the cross product, [|v|] for the Euclidean length, a unit
    quaternion [(w, x, y, z)] stands for a rotation, a rotation matrix acts
    on a vector, and its transpose is its inverse.  A C++ out-parameter is
    the returned value here. *)
Module MathExtra.
Section Ops.
Context {D : Type} {DD : Double D}.
Local Open Scope dbl_scope.

Definition two : D := done + done.

Definition zero3 : vec3 D := V3 dzero dzero dzero.
Definition copy3 (v : vec3 D) : vec3 D := v.
Definition negate3 (v : vec3 D) : vec3 D := V3 (- c0 v) (- c1 v) (- c2 v).
Definition add3 (v1 v2 : vec3 D) : vec3 D :=
  V3 (c0 v1 + c0 v2) (c1 v1 + c1 v2) (c2 v1 + c2 v2).
Definition sub3 (v1 v2 : vec3 D) : vec3 D :=
  V3 (c0 v1 - c0 v2) (c1 v1 - c1 v2) (c2 v1 - c2 v2).
Definition scale3 (s : D) (v : vec3 D) : vec3 D :=
  V3 (c0 v * s) (c1 v * s) (c2 v * s).
Definition dot3 (v1 v2 : vec3 D) : D :=
  c0 v1 * c0 v2 + c1 v1 * c1 v2 + c2 v1 * c2 v2.
Definition lensq3 (v : vec3 D) : D :=
  c0 v * c0 v + c1 v * c1 v + c2 v * c2 v.
Definition len3 (v : vec3 D) : D := dsqrt (lensq3 v).
Definition cross3 (v1 v2 : vec3 D) : vec3 D :=
  V3 (c1 v1 * c2 v2 - c2 v1 * c1 v2)
     (c2 v1 * c0 v2 - c0 v1 * c2 v2)
     (c0 v1 * c1 v2 - c1 v1 * c0 v2).

Definition matvec (m : mat3 D) (v : vec3 D) : vec3 D :=
  V3 (dot3 (row0 m) v) (dot3 (row1 m) v) (dot3 (row2 m) v).
Definition transpose_matvec (m : mat3 D) (v : vec3 D) : vec3 D :=
  V3 (c0 (row0 m) * c0 v + c0 (row1 m) * c1 v + c0 (row2 m) * c2 v)
     (c1 (row0 m) * c0 v + c1 (row1 m) * c1 v + c1 (row2 m) * c2 v)
     (c2 (row0 m) * c0 v + c2 (row1 m) * c1 v + c2 (row2 m) * c2 v).

Definition qconjugate (q : quat4 D) : quat4 D :=
  Q4 (q0 q) (- q1 q) (- q2 q) (- q3 q).
Definition qnormalize (q : quat4 D) : quat4 D :=
  let norm :=
    done / dsqrt (q0 q * q0 q + q1 q * q1 q + q2 q * q2 q + q3 q * q3 q) in
  Q4 (q0 q * norm) (q1 q * norm) (q2 q * norm) (q3 q * norm).
Definition quatquat (a b : quat4 D) : quat4 D :=
  Q4 (q0 a * q0 b - q1 a * q1 b - q2 a * q2 b - q3 a * q3 b)
     (q0 a * q1 b + q0 b * q1 a + q2 a * q3 b - q3 a * q2 b)
     (q0 a * q2 b + q0 b * q2 a + q3 a * q1 b - q1 a * q3 b)
     (q0 a * q3 b + q0 b * q3 a + q1 a * q2 b - q2 a * q1 b).
Definition quat_to_mat (q : quat4 D) : mat3 D :=
  let w2 := q0 q * q0 q in
  let i2 := q1 q * q1 q in
  let j2 := q2 q * q2 q in
  let k2 := q3 q * q3 q in
  let twoij := two * q1 q * q2 q in
  let twoik := two * q1 q * q3 q in
  let twojk := two * q2 q * q3 q in
  let twoiw := two * q1 q * q0 q in
  let twojw := two * q2 q * q0 q in
  let twokw := two * q3 q * q0 q in
  M3 (V3 (w2 + i2 - j2 - k2) (twoij - twokw) (twojw + twoik))
     (V3 (twoij + twokw) (w2 - i2 + j2 - k2) (twojk - twoiw))
     (V3 (twoik - twojw) (twojk + twoiw) (w2 - i2 - j2 + k2)).
End Ops.
End MathExtra.

(** ** Arrays *)

(** [a[i] = v] on an array of fixed size: a write past the end is not
    modelled (no such write occurs in the routines below). *)
Fixpoint upd {A : Type} (i : nat) (v : A) (l : list A) : list A :=
  match l, i with
  | [], _ => []
  | _ :: t, O => v :: t
  | h :: t, S i' => h :: upd i' v t
  end.

(** ** The Newton's-third-law block of [PairSH::compute]

    Lines 1743-1753, the body of [if (force->newton_pair || j < nlocal)]:
    [iforce] holds the force on particle [i] and [torsum] the torque on it.
    The result is the pair of arrays [(f, torque)]. *)
Section NewtonBlock.
Context {D : Type} {DD : Double D}.
Import MathExtra.
Local Open Scope dbl_scope.

Definition newton_pair_block (x f torque : list (vec3 D)) (i j : nat)
           (iforce torsum : vec3 D) : list (vec3 D) * list (vec3 D) :=
  (* Force on particle b *)
  let f := upd j (sub3 (nth j f zero3) iforce) f in
  (* Torque on particle b *)
  let fn := len3 iforce in
  let xcont := cross3 torsum iforce in
  let xcont := scale3 (- done / (fn * fn)) xcont in
  let xcont := add3 xcont (nth i x zero3) in
  let x_testpoint := sub3 xcont (nth j x zero3) in
  let torsum := cross3 iforce x_testpoint in
  let torque := upd j (add3 (nth j torque zero3) torsum) torque in
  (f, torque).
End NewtonBlock.

(** ** Loops *)

(** A [while (cond) body] loop cut after [fuel] passes: [OutOfFuel] when the
    condition still holds then. *)
Fixpoint while_loop {S : Type} (cond : S -> bool) (body : S -> S)
         (fuel : nat) (s : S) : result S :=
  match fuel with
  | O => if cond s then Err OutOfFuel else Ok s
  | Datatypes.S fuel' =>
    if cond s then while_loop cond body fuel' (body s) else Ok s
  end.

(** A [for] loop over [l] whose body may fail. *)
Fixpoint for_each {A S : Type} (body : S -> A -> result S) (l : list A)
         (s : S) : result S :=
  match l with
  | [] => Ok s
  | a :: l' => do s' <- body s a; for_each body l' s'
  end.

(** Checked read of [PairSH]'s quadrature arrays with an [int] index. *)
Definition read (name : string) (l : list R) (i : Z) : result R :=
  if (i <? 0)%Z then Err (OutOfBounds name i)
  else match nth_error l (Z.to_nat i) with
       | Some v => Ok v
       | None => Err (OutOfBounds name i)
       end.

Local Open Scope R_scope.

(** Modelled from the spec: the constants of [math_const.h], which is not
    among the sources; the specification writes them as pi, 2 pi and 4 pi. *)
Definition MY_PI : R := PI.
Definition MY_2PI : R := 2 * PI.
Definition MY_4PI : R := 4 * PI.

(** ** The interface of [math_spherharm.h]

    [AtomVecSpherharm] and [PairSH] call these functions of namespace
    [MathSpherharm]; their header and their tables are not among the
    sources, so they are operations of an interface and every statement
    below holds for each implementation of it. *)

(** A Gauss-Legendre node: the angle [theta] whose cosine is the abscissa on
    [[-1, 1]], and the weight. *)
Record QuadPair : Type := { theta : R; weight : R }.

(** Modelled from the spec: [QuadPair::x()], declared in the missing header;
    a node is ``expressed as (arccos abscissa, weight)''. *)
Definition x (p : QuadPair) : R := cos (theta p).

Class MathSpherharm : Type := {
  plegendre : nat -> nat -> R -> R;
  plegendre_nn : nat -> R -> R -> R;
  plegendre_recycle : nat -> nat -> R -> R -> R -> R;
  plgndr : nat -> nat -> R -> R;
  factorial : Z -> R;
  getIndex : Z -> Z -> nat;
  GLPair : nat -> nat -> QuadPair
}.

(** ** [ComputeShcoeff]: the Legendre kernel kept in this file *)

Module ComputeShcoeff.

Definition bad_arguments : error :=
  InvalidArgument "Bad arguments in routine plgndr".

(** The [for (ll=m+2; ll<=l; ll++)] loop of [plegendre]; the state is
    [(pmm, pmmp1, oldfact, pll)]. *)
Definition plegendre_step (m : nat) (x : R) (s : R * R * R * R) (ll : nat)
  : R * R * R * R :=
  let '(pmm, pmmp1, oldfact, _) := s in
  let fact :=
    sqrt ((4 * INR ll * INR ll - 1) / (INR ll * INR ll - INR m * INR m)) in
  let pll := (x * pmmp1 - pmm / oldfact) * fact in
  (pmmp1, pll, fact, pll).

Definition plegendre (l m : nat) (x : R) : result R :=
  (* [m < 0] of the source cannot occur: [m] is a [nat] here *)
  if (l <? m)%nat || Rgtb (Rabs x) 1 then Err bad_arguments
  else
    let pmm := 1 in
    let pmm :=
      if (0 <? m)%nat then
        let omx2 := (1 - x) * (1 + x) in
        fst (fold_left
               (fun (s : R * R) (_ : nat) =>
                  let '(pmm, fact) := s in
                  (pmm * (omx2 * fact / (fact + 1)), fact + 2))
               (seq 1 m) (pmm, 1))
      else pmm in
    let pmm := sqrt ((2 * INR m + 1) * pmm / (4 * PI)) in
    let pmm := if Nat.odd m then - pmm else pmm in
    if (l =? m)%nat then Ok pmm
    else
      let pmmp1 := x * sqrt (2 * INR m + 3) * pmm in
      if (l =? m + 1)%nat then Ok pmmp1
      else
        let oldfact := sqrt (2 * INR m + 3) in
        let '(_, _, _, pll) :=
          fold_left (plegendre_step m x) (seq (m + 2) (l - (m + 1)))
                    (pmm, pmmp1, oldfact, 0) in
        Ok pll.

Definition plegendre_nn (l : nat) (x : R) (Pnm_nn : R) : result R :=
  let ll := INR l in
  let llm1 := 2 * (ll - 1) in
  if Rgtb (Rabs x) 1 then Err bad_arguments
  else
    let fact := sqrt ((llm1 + 3) / (llm1 + 2)) in
    Ok (- sqrt (1 - x * x) * fact * Pnm_nn).

Definition plegendre_recycle (l m : nat) (x pnm_m1 pnm_m2 : R) : R :=
  let ll := INR l in
  let mm := INR m in
  let fact := sqrt ((4 * ll * ll - 1) / (ll * ll - mm * mm)) in
  let oldfact :=
    sqrt ((4 * (ll - 1) * (ll - 1) - 1) / ((ll - 1) * (ll - 1) - mm * mm)) in
  let pmn := (x * pnm_m1 - pnm_m2 / oldfact) * fact in
  pmn.

End ComputeShcoeff.

(** ** [AtomVecSpherharm] *)

Record AtomVecSpherharm : Type := {
  maxshexpan : nat;
  num_quadrature : nat;
  nshtypes : nat;
  shcoeffs_byshape : list (list R);
  expfacts_byshape : list (list R);
  quad_rads_byshape : list (list R);
  angles : list R * list R;      (* angles[0] (theta), angles[1] (phi) *)
  weights : list R;
  maxrad_byshape : list R
}.

(** [a[sht][k]] of a two-dimensional array of [double]. *)
Definition at2 (a : list (list R)) (sht k : nat) : R := nth k (nth sht a []) 0.

(** [a[sht][k] = v]. *)
Definition upd2 (sht k : nat) (v : R) (a : list (list R)) : list (list R) :=
  upd sht (upd k v (nth sht a [])) a.

(** The rolling Legendre buffers of the radius routines and the sum so far.
    [Pnm_nn] is read only from degree 3 on, after degree 2 has set it. *)
Record sh_buf : Type := {
  rad_val : R;
  Pnm_m2 : list R;
  Pnm_m1 : list R;
  Pnm_nn : R
}.

Section Shape.
Context {MS : MathSpherharm}.
Variable avec : AtomVecSpherharm.

Definition shcoeffs (sht k : nat) : R := at2 (shcoeffs_byshape avec) sht k.
Definition expfacts (sht n : nat) : R := at2 (expfacts_byshape avec) sht n.

(** The buffers after [resize(maxshexpan+1, 0.0)], around the degree-0
    radius. *)
Definition sh_buf_init (rad_val : R) : sh_buf :=
  {| rad_val := rad_val;
     Pnm_m2 := repeat 0 (maxshexpan avec + 1);
     Pnm_m1 := repeat 0 (maxshexpan avec + 1);
     Pnm_nn := 0 |}.

(** *** [check_contact]: the body of [while (n<=maxshexpan)] up to the
    update of [sh_dist], lines 698-747. *)
Definition check_contact_degree (sht : nat) (phi_proj x_val : R) (n : nat)
           (s : sh_buf) : sh_buf :=
  let nloc := (n * (n + 1))%nat in
  if (n =? 1)%nat then
    let P_n_m := plegendre 1 0 x_val in
    let m2 := upd 0 P_n_m (Pnm_m2 s) in
    let rad := rad_val s + shcoeffs sht 4 * P_n_m in
    let P_n_m := plegendre 1 1 x_val in
    let m2 := upd 1 P_n_m m2 in
    let mphi := 1 * phi_proj in
    let rad :=
      rad + (shcoeffs sht 2 * cos mphi - shcoeffs sht 3 * sin mphi)
            * 2 * P_n_m in
    {| rad_val := rad; Pnm_m2 := m2; Pnm_m1 := Pnm_m1 s; Pnm_nn := Pnm_nn s |}
  else if (n =? 2)%nat then
    let P_n_m := plegendre 2 0 x_val in
    let m1 := upd 0 P_n_m (Pnm_m1 s) in
    let rad := rad_val s + shcoeffs sht 10 * P_n_m in
    let '(rad, m1, _) :=
      fold_left
        (fun (st : R * list R * nat) (m : nat) =>
           let '(rad, m1, nloc) := st in
           let P_n_m := plegendre 2 m x_val in
           let m1 := upd m P_n_m m1 in
           let mphi := INR m * phi_proj in
           (rad + (shcoeffs sht nloc * cos mphi
                   - shcoeffs sht (nloc + 1) * sin mphi) * 2 * P_n_m,
            m1, (nloc + 2)%nat))
        [2%nat; 1%nat] (rad, m1, nloc) in
    {| rad_val := rad; Pnm_m2 := Pnm_m2 s; Pnm_m1 := m1; Pnm_nn := nth 2 m1 0 |}
  else
    let P_n_m :=
      plegendre_recycle n 0 x_val (nth 0 (Pnm_m1 s) 0) (nth 0 (Pnm_m2 s) 0) in
    let m2 := upd 0 (nth 0 (Pnm_m1 s) 0) (Pnm_m2 s) in
    let m1 := upd 0 P_n_m (Pnm_m1 s) in
    let loc := ((n + 1) * (n + 2) - 2)%nat in
    let rad := rad_val s + shcoeffs sht loc * P_n_m in
    let loc := (loc - 2)%nat in
    let '(rad, m1, m2, loc) :=
      fold_left
        (fun (st : R * list R * list R * nat) (m : nat) =>
           let '(rad, m1, m2, loc) := st in
           let P_n_m :=
             plegendre_recycle n m x_val (nth m m1 0) (nth m m2 0) in
           let m2 := upd m (nth m m1 0) m2 in
           let m1 := upd m P_n_m m1 in
           let mphi := INR m * phi_proj in
           (rad + (shcoeffs sht loc * cos mphi
                   - shcoeffs sht (loc + 1) * sin mphi) * 2 * P_n_m,
            m1, m2, (loc - 2)%nat))
        (seq 1 (n - 2)) (rad, m1, m2, loc) in
    let P_n_m := x_val * sqrt (2 * (INR n - 1) + 3) * Pnm_nn s in
    let m2 := upd (n - 1) (nth (n - 1) m1 0) m2 in
    let m1 := upd (n - 1) P_n_m m1 in
    let mphi := INR (n - 1) * phi_proj in
    let rad :=
      rad + (shcoeffs sht loc * cos mphi - shcoeffs sht (loc + 1) * sin mphi)
            * 2 * P_n_m in
    let loc := (loc - 2)%nat in
    let P_n_m := plegendre_nn n x_val (Pnm_nn s) in
    let m1 := upd n P_n_m m1 in
    let mphi := INR n * phi_proj in
    let rad :=
      rad + (shcoeffs sht loc * cos mphi - shcoeffs sht (loc + 1) * sin mphi)
            * 2 * P_n_m in
    {| rad_val := rad; Pnm_m2 := m2; Pnm_m1 := m1; Pnm_nn := P_n_m |}.

(** The [while (n<=maxshexpan)] loop, [n] running over the degrees left;
    the result is the returned [int] and the value of [finalrad]. *)
Fixpoint check_contact_while (sht : nat) (phi_proj x_val outerdist : R)
         (finalrad : R) (degrees : list nat) (s : sh_buf) : bool * R :=
  match degrees with
  | [] => (false, finalrad)
  | n :: degrees' =>
    let s := check_contact_degree sht phi_proj x_val n s in
    let sh_dist := expfacts sht n * rad_val s in
    if Rgtb outerdist sh_dist then (false, finalrad)
    else if (maxshexpan avec <? n + 1)%nat then
      if Rleb outerdist sh_dist then (true, rad_val s) else (false, finalrad)
    else check_contact_while sht phi_proj x_val outerdist finalrad degrees' s
  end.

Definition check_contact (sht : nat) (phi_proj theta_proj outerdist : R)
           (finalrad : R) : bool * R :=
  let rad_val := shcoeffs sht 0 * sqrt (1 / (4 * PI)) in
  let sh_dist := expfacts sht 0 * rad_val in
  if Rgtb outerdist sh_dist then (false, finalrad)
  else
    let x_val := cos theta_proj in
    check_contact_while sht phi_proj x_val outerdist finalrad
                        (seq 1 (maxshexpan avec)) (sh_buf_init rad_val).

(** *** [get_shape_radius]: the body of [for (n=1; n<=maxshexpan; n++)],
    lines 781-830. *)
Definition get_shape_radius_degree (sht : nat) (phi x_val : R)
           (s : sh_buf) (n : nat) : sh_buf :=
  let nloc := (n * (n + 1))%nat in
  if (n =? 1)%nat then
    let P_n_m := plegendre 1 0 x_val in
    let m2 := upd 0 P_n_m (Pnm_m2 s) in
    let rad := rad_val s + shcoeffs sht 4 * P_n_m in
    let P_n_m := plegendre 1 1 x_val in
    let m2 := upd 1 P_n_m m2 in
    let mphi := 1 * phi in
    let rad :=
      rad + (shcoeffs sht 2 * cos mphi - shcoeffs sht 3 * sin mphi)
            * 2 * P_n_m in
    {| rad_val := rad; Pnm_m2 := m2; Pnm_m1 := Pnm_m1 s; Pnm_nn := Pnm_nn s |}
  else if (n =? 2)%nat then
    let P_n_m := plegendre 2 0 x_val in
    let m1 := upd 0 P_n_m (Pnm_m1 s) in
    let rad := rad_val s + shcoeffs sht 10 * P_n_m in
    let '(rad, m1, _) :=
      fold_left
        (fun (st : R * list R * nat) (m : nat) =>
           let '(rad, m1, nloc) := st in
           let P_n_m := plegendre 2 m x_val in
           let m1 := upd m P_n_m m1 in
           let mphi := INR m * phi in
           (rad + (shcoeffs sht nloc * cos mphi
                   - shcoeffs sht (nloc + 1) * sin mphi) * 2 * P_n_m,
            m1, (nloc + 2)%nat))
        [2%nat; 1%nat] (rad, m1, nloc) in
    {| rad_val := rad; Pnm_m2 := Pnm_m2 s; Pnm_m1 := m1; Pnm_nn := nth 2 m1 0 |}
  else
    let P_n_m :=
      plegendre_recycle n 0 x_val (nth 0 (Pnm_m1 s) 0) (nth 0 (Pnm_m2 s) 0) in
    let m2 := upd 0 (nth 0 (Pnm_m1 s) 0) (Pnm_m2 s) in
    let m1 := upd 0 P_n_m (Pnm_m1 s) in
    let loc := ((n + 1) * (n + 2) - 2)%nat in
    let rad := rad_val s + shcoeffs sht loc * P_n_m in
    let loc := (loc - 2)%nat in
    let '(rad, m1, m2, loc) :=
      fold_left
        (fun (st : R * list R * list R * nat) (m : nat) =>
           let '(rad, m1, m2, loc) := st in
           let P_n_m :=
             plegendre_recycle n m x_val (nth m m1 0) (nth m m2 0) in
           let m2 := upd m (nth m m1 0) m2 in
           let m1 := upd m P_n_m m1 in
           let mphi := INR m * phi in
           (rad + (shcoeffs sht loc * cos mphi
                   - shcoeffs sht (loc + 1) * sin mphi) * 2 * P_n_m,
            m1, m2, (loc - 2)%nat))
        (seq 1 (n - 2)) (rad, m1, m2, loc) in
    let P_n_m := x_val * sqrt (2 * (INR n - 1) + 3) * Pnm_nn s in
    let m2 := upd (n - 1) (nth (n - 1) m1 0) m2 in
    let m1 := upd (n - 1) P_n_m m1 in
    let mphi := INR (n - 1) * phi in
    let rad :=
      rad + (shcoeffs sht loc * cos mphi - shcoeffs sht (loc + 1) * sin mphi)
            * 2 * P_n_m in
    let loc := (loc - 2)%nat in
    let P_n_m := plegendre_nn n x_val (Pnm_nn s) in
    let m1 := upd n P_n_m m1 in
    let mphi := INR n * phi in
    let rad :=
      rad + (shcoeffs sht loc * cos mphi - shcoeffs sht (loc + 1) * sin mphi)
            * 2 * P_n_m in
    {| rad_val := rad; Pnm_m2 := m2; Pnm_m1 := m1; Pnm_nn := P_n_m |}.

Definition get_shape_radius (sht : nat) (theta phi : R) : R :=
  let rad_val0 := shcoeffs sht 0 * sqrt (1 / (4 * PI)) in
  let x_val := cos theta in
  rad_val (fold_left (get_shape_radius_degree sht phi x_val)
                     (seq 1 (maxshexpan avec)) (sh_buf_init rad_val0)).

(** *** [get_normal]: the surface normal, not normalised. *)
Definition get_normal (theta phi r rp rt : R) : vec3 R :=
  let st := sin theta in
  let ct := cos theta in
  let sp := sin phi in
  let cp := cos phi in
  V3 (r * ((cp * r * st * st) + (sp * rp) - (cp * ct * st * rt)))
     (r * ((r * sp * st * st) - (cp * rp) - (ct * sp * st * rt)))
     (r * st * ((ct * r) + (st * rt))).

(** *** [get_shape_radius_and_normal]: radius, its two angular derivatives
    and the normal. *)
Record sh_grad_buf : Type := {
  g_rad : R;
  g_dphi : R;
  g_dtheta : R;
  g_m2 : list R;
  g_m1 : list R;
  g_nn : R
}.

Definition get_shape_radius_and_normal_degree (sht : nat)
           (phi x_val st : R) (s : sh_grad_buf) (n : nat) : sh_grad_buf :=
  let c := shcoeffs sht in
  let nloc := (n * (n + 1))%nat in
  if (n =? 1)%nat then
    (* n=1, m=0 *)
    let P_n_m := plegendre 1 0 x_val in
    let m2 := upd 0 P_n_m (g_m2 s) in
    let rad := g_rad s + c 4%nat * P_n_m in
    let fnm := sqrt (3 / MY_4PI) in
    let dtheta :=
      g_dtheta s - (c 4%nat * fnm / st)
                   * ((2 * x_val * plgndr 1 0 x_val) - (2 * plgndr 2 0 x_val)) in
    (* n=1, m=1 *)
    let P_n_m := plegendre 1 1 x_val in
    let m2 := upd 1 P_n_m m2 in
    let mphi := 1 * phi in
    let rad := rad + (c 2%nat * cos mphi - c 3%nat * sin mphi) * 2 * P_n_m in
    let dphi :=
      g_dphi s - (c 2%nat * sin mphi + c 3%nat * cos mphi) * 2 * P_n_m in
    let fnm := sqrt (3 / (2 * MY_4PI)) in
    let dtheta :=
      dtheta + 2 * (fnm / st)
               * ((2 * x_val * plgndr 1 1 x_val) - (plgndr 2 1 x_val))
               * ((c 3%nat * sin mphi) - (c 2%nat * cos mphi)) in
    {| g_rad := rad; g_dphi := dphi; g_dtheta := dtheta;
       g_m2 := m2; g_m1 := g_m1 s; g_nn := g_nn s |}
  else if (n =? 2)%nat then
    (* n=2, m=0 *)
    let P_n_m := plegendre 2 0 x_val in
    let m1 := upd 0 P_n_m (g_m1 s) in
    let rad := g_rad s + c 10%nat * P_n_m in
    let fnm := sqrt (5 / MY_4PI) in
    let dtheta :=
      g_dtheta s - (c 10%nat * fnm / st)
                   * ((3 * x_val * plgndr 2 0 x_val) - (3 * plgndr 3 0 x_val)) in
    (* n=2, 2>=m>0 *)
    let '(rad, dphi, dtheta, m1, _) :=
      fold_left
        (fun (t : R * R * R * list R * nat) (m : nat) =>
           let '(rad, dphi, dtheta, m1, nloc) := t in
           let P_n_m := plegendre 2 m x_val in
           let m1 := upd m P_n_m m1 in
           let mphi := INR m * phi in
           let rad :=
             rad + (c nloc * cos mphi - c (nloc + 1)%nat * sin mphi)
                   * 2 * P_n_m in
           let dphi :=
             dphi - (c nloc * sin mphi + c (nloc + 1)%nat * cos mphi)
                    * 2 * P_n_m * INR m in
           let fnm :=
             sqrt ((2 * INR n + 1) * factorial (Z.of_nat n - Z.of_nat m)
                   / (MY_4PI * factorial (Z.of_nat n + Z.of_nat m))) in
           let dtheta :=
             dtheta + 2 * (fnm / st)
                      * ((INR (n + 1) * x_val * plgndr n m x_val)
                         - (INR (n - m + 1) * plgndr (n + 1) m x_val))
                      * ((c (nloc + 1)%nat * sin mphi) - (c nloc * cos mphi)) in
           (rad, dphi, dtheta, m1, (nloc + 2)%nat))
        [2%nat; 1%nat] (rad, g_dphi s, dtheta, m1, nloc) in
    {| g_rad := rad; g_dphi := dphi; g_dtheta := dtheta;
       g_m2 := g_m2 s; g_m1 := m1; g_nn := nth 2 m1 0 |}
  else
    let P_n_m :=
      plegendre_recycle n 0 x_val (nth 0 (g_m1 s) 0) (nth 0 (g_m2 s) 0) in
    let m2 := upd 0 (nth 0 (g_m1 s) 0) (g_m2 s) in
    let m1 := upd 0 P_n_m (g_m1 s) in
    let loc := ((n + 1) * (n + 2) - 2)%nat in
    let rad := g_rad s + c loc * P_n_m in
    let fnm := sqrt ((2 * INR n + 1) / MY_4PI) in
    let dtheta :=
      g_dtheta s - (c loc * fnm / st)
                   * ((INR (n + 1) * x_val * plgndr n 0 x_val)
                      - (INR (n + 1) * plgndr (n + 1) 0 x_val)) in
    let loc := (loc - 2)%nat in
    let '(rad, dphi, dtheta, m1, m2, loc) :=
      fold_left
        (fun (t : R * R * R * list R * list R * nat) (m : nat) =>
           let '(rad, dphi, dtheta, m1, m2, loc) := t in
           let P_n_m :=
             plegendre_recycle n m x_val (nth m m1 0) (nth m m2 0) in
           let m2 := upd m (nth m m1 0) m2 in
           let m1 := upd m P_n_m m1 in
           let mphi := INR m * phi in
           let rad :=
             rad + (c loc * cos mphi - c (loc + 1)%nat * sin mphi)
                   * 2 * P_n_m in
           let dphi :=
             dphi - (c loc * sin mphi + c (loc + 1)%nat * cos mphi)
                    * 2 * P_n_m * INR m in
           let fnm :=
             sqrt ((2 * INR n + 1) * factorial (Z.of_nat n - Z.of_nat m)
                   / (MY_4PI * factorial (Z.of_nat n + Z.of_nat m))) in
           let dtheta :=
             dtheta + 2 * (fnm / st)
                      * ((INR (n + 1) * x_val * plgndr n m x_val)
                         - (INR (n - m + 1) * plgndr (n + 1) m x_val))
                      * ((c (loc + 1)%nat * sin mphi) - (c loc * cos mphi)) in
           (rad, dphi, dtheta, m1, m2, (loc - 2)%nat))
        (seq 1 (n - 2)) (rad, g_dphi s, dtheta, m1, m2, loc) in
    (* m = n-1 *)
    let P_n_m := x_val * sqrt (2 * (INR n - 1) + 3) * g_nn s in
    let m2 := upd (n - 1) (nth (n - 1) m1 0) m2 in
    let m1 := upd (n - 1) P_n_m m1 in
    let mphi := INR (n - 1) * phi in
    let rad :=
      rad + (c loc * cos mphi - c (loc + 1)%nat * sin mphi) * 2 * P_n_m in
    let dphi :=
      dphi - (c loc * sin mphi + c (loc + 1)%nat * cos mphi)
             * 2 * P_n_m * INR (n - 1) in
    let fnm :=
      sqrt ((2 * INR n + 1) / (MY_4PI * factorial (2 * Z.of_nat n - 1))) in
    let dtheta :=
      dtheta + 2 * (fnm / st)
               * ((INR (n + 1) * x_val * plgndr n (n - 1) x_val)
                  - (2 * plgndr (n + 1) (n - 1) x_val))
               * ((c (loc + 1)%nat * sin mphi) - (c loc * cos mphi)) in
    let loc := (loc - 2)%nat in
    (* m = n *)
    let P_n_m := plegendre_nn n x_val (g_nn s) in
    let m1 := upd n P_n_m m1 in
    let mphi := INR n * phi in
    let rad :=
      rad + (c loc * cos mphi - c (loc + 1)%nat * sin mphi) * 2 * P_n_m in
    let dphi :=
      dphi - (c loc * sin mphi + c (loc + 1)%nat * cos mphi)
             * 2 * P_n_m * INR n in
    let fnm :=
      sqrt ((2 * INR n + 1) / (MY_4PI * factorial (2 * Z.of_nat n))) in
    let dtheta :=
      dtheta + 2 * (fnm / st)
               * ((INR (n + 1) * x_val * plgndr n n x_val)
                  - (plgndr (n + 1) n x_val))
               * ((c (loc + 1)%nat * sin mphi) - (c loc * cos mphi)) in
    {| g_rad := rad; g_dphi := dphi; g_dtheta := dtheta;
       g_m2 := m2; g_m1 := m1; g_nn := P_n_m |}.

(** Returns the radius and [rnorm]. *)
Definition get_shape_radius_and_normal (sht : nat) (theta phi : R)
  : R * vec3 R :=
  let fnm := sqrt (1 / MY_4PI) in
  let rad_val0 := shcoeffs sht 0 * fnm in
  let theta := if Reqb (sin theta) 0 then theta + 1.0e-5 else theta in
  let phi := if Reqb (sin phi) 0 then phi + 1.0e-5 else phi in
  let x_val := cos theta in
  let st := sin theta in
  let s :=
    fold_left (get_shape_radius_and_normal_degree sht phi x_val st)
              (seq 1 (maxshexpan avec))
              {| g_rad := rad_val0; g_dphi := 0; g_dtheta := 0;
                 g_m2 := repeat 0 (maxshexpan avec + 1);
                 g_m1 := repeat 0 (maxshexpan avec + 1);
                 g_nn := 0 |} in
  (g_rad s, get_normal theta phi (g_rad s) (g_dphi s) (g_dtheta s)).
End Shape.

(** ** Shape initialisation *)

Definition set_quadrature (a : AtomVecSpherharm) (w : list R)
           (ang : list R * list R) (q : list (list R)) : AtomVecSpherharm :=
  {| maxshexpan := maxshexpan a;
     num_quadrature := num_quadrature a;
     nshtypes := nshtypes a;
     shcoeffs_byshape := shcoeffs_byshape a;
     expfacts_byshape := expfacts_byshape a;
     quad_rads_byshape := q;
     angles := ang;
     weights := w;
     maxrad_byshape := maxrad_byshape a |}.

Definition set_expfacts (a : AtomVecSpherharm) (e : list (list R))
           (mr : list R) : AtomVecSpherharm :=
  {| maxshexpan := maxshexpan a;
     num_quadrature := num_quadrature a;
     nshtypes := nshtypes a;
     shcoeffs_byshape := shcoeffs_byshape a;
     expfacts_byshape := e;
     quad_rads_byshape := quad_rads_byshape a;
     angles := angles a;
     weights := weights a;
     maxrad_byshape := mr |}.

(** The constructor ([maxshexpan = 20]) followed by the allocations of
    [process_args]: [memory->create] gives arrays of the stated sizes, the
    coefficients and [maxrad_byshape] are zeroed, and [read_sh_coeffs] then
    fills the coefficients read from the files, here [coeffs]. *)
Definition process_args_allocate (num_quadrature nshtypes : nat)
           (coeffs : list (list R)) : AtomVecSpherharm :=
  let maxshexpan := 20%nat in
  let num_quad2 := (num_quadrature * num_quadrature)%nat in
  {| maxshexpan := maxshexpan;
     num_quadrature := num_quadrature;
     nshtypes := nshtypes;
     shcoeffs_byshape := coeffs;
     expfacts_byshape := repeat (repeat 0 (maxshexpan + 1)) nshtypes;
     quad_rads_byshape := repeat (repeat 0 num_quad2) nshtypes;
     angles := (repeat 0 num_quad2, repeat 0 num_quad2);
     weights := repeat 0 num_quadrature;
     maxrad_byshape := repeat 0 nshtypes |}.

Section Initialisation.
Context {MS : MathSpherharm}.

(** *** [AtomVecSpherharm::get_quadrature_values] *)

(** The first loop: weights and the local array [abscissa]. *)
Definition quadrature_nodes (Q : nat) (w0 : list R) : list R * list R :=
  fold_left
    (fun (st : list R * list R) (i : nat) =>
       let '(w, abscissa) := st in
       let p := GLPair Q (i + 1) in
       (upd i (weight p) w, upd i (x p) abscissa))
    (seq 0 Q) (w0, repeat 0 Q).

(** The second loop: the grid of angles, written at [count]. *)
Definition quadrature_angles (Q : nat) (abscissa : list R)
           (ang : list R * list R) : list R * list R * nat :=
  fold_left
    (fun (st : list R * list R * nat) (i : nat) =>
       fold_left
         (fun (st : list R * list R * nat) (j : nat) =>
            let '(a0, a1, count) := st in
            (upd count (0.5 * MY_PI * (nth i abscissa 0 + 1)) a0,
             upd count (MY_PI * (nth j abscissa 0 + 1)) a1,
             S count))
         (seq 0 Q) st)
    (seq 0 Q) (fst ang, snd ang, 0%nat).

Definition get_quadrature_values (a : AtomVecSpherharm) : AtomVecSpherharm :=
  let Q := num_quadrature a in
  let '(w, abscissa) := quadrature_nodes Q (weights a) in
  let '(a0, a1, _) := quadrature_angles Q abscissa (angles a) in
  let num_quad2 := (Q * Q)%nat in
  let q :=
    fold_left
      (fun (q : list (list R)) (sht : nat) =>
         fold_left
           (fun (q : list (list R)) (k : nat) =>
              let theta := nth k a0 0 in
              let phi := nth k a1 0 in
              upd2 sht k (get_shape_radius a sht theta phi) q)
           (seq 0 num_quad2) q)
      (seq 0 (nshtypes a)) (quad_rads_byshape a) in
  set_quadrature a w (a0, a1) q.

(** *** [AtomVecSpherharm::calcexpansionfactors_gauss] *)

Definition safety_factor : R := 1.00.

(** The contribution of degree [n] added to a radius: the [m = 0] term,
    then [for (m = n; m > 0; m--)].  The source has this text twice, for
    [r_n[k]] and, one degree higher, for [r_npo[k]]. *)
Definition add_degree (a : AtomVecSpherharm) (sht n : nat)
           (x_val phi : R) (r : R) : R :=
  let P_n_m := plegendre n 0 x_val in
  let r := r + shcoeffs a sht ((n + 1) * (n + 2) - 2) * P_n_m in
  fst (fold_left
         (fun (st : R * nat) (m : nat) =>
            let '(r, loc) := st in
            let mphi := INR m * phi in
            let P_n_m := plegendre n m x_val in
            (r + (shcoeffs a sht loc * cos mphi
                  - shcoeffs a sht (loc + 1) * sin mphi) * 2 * P_n_m,
             (loc + 2)%nat))
         (rev (seq 1 n)) (r, (n * (n + 1))%nat)).

(** The vectors local to the routine, the per-shape maxima and the grid
    counter [k]. *)
Record expfac_grid : Type := {
  r_n : list R;
  r_npo : list R;
  ratios : list R;
  maxrad : list R;
  grid_k : nat
}.

(** [n <= maxshexpan - 1] on [int]s. *)
Definition below_last (a : AtomVecSpherharm) (n : nat) : bool :=
  (Z.of_nat n <=? Z.of_nat (maxshexpan a) - 1)%Z.

(** The body of the two quadrature loops for degree [n] at grid point [k]. *)
Definition expfac_point (a : AtomVecSpherharm) (sht n : nat)
           (g : expfac_grid) : expfac_grid :=
  let k := grid_k g in
  let theta := nth k (fst (angles a)) 0 in
  let phi := nth k (snd (angles a)) 0 in
  let x_val := cos theta in
  let rn := upd k (add_degree a sht n x_val phi (nth k (r_n g) 0)) (r_n g) in
  if below_last a n then
    let rnpo := upd k (nth k rn 0) (r_npo g) in
    let rnpo :=
      upd k (add_degree a sht (n + 1) x_val phi (nth k rnpo 0)) rnpo in
    let rat := upd k (nth k rnpo 0 / nth k rn 0) (ratios g) in
    {| r_n := rn; r_npo := rnpo; ratios := rat; maxrad := maxrad g;
       grid_k := S k |}
  else
    let mr :=
      if Rgtb (nth k rn 0) (nth sht (maxrad g) 0)
      then upd sht (nth k rn 0) (maxrad g) else maxrad g in
    {| r_n := rn; r_npo := r_npo g; ratios := ratios g; maxrad := mr;
       grid_k := S k |}.

(** [max_val] over the first [k] ratios, starting from 0. *)
Definition max_ratio (rat : list R) (k : nat) : R :=
  fold_left
    (fun (max_val : R) (ii : nat) =>
       if Rgtb (nth ii rat 0) max_val then nth ii rat 0 else max_val)
    (seq 0 k) 0.

(** One pass of [for (n = 0; n <= maxshexpan; n++)]. *)
Definition expfac_degree (a : AtomVecSpherharm) (sht : nat)
           (st : expfac_grid * list R) (n : nat) : expfac_grid * list R :=
  let '(g, expfactors) := st in
  let Q := num_quadrature a in
  let g0 := {| r_n := r_n g; r_npo := r_npo g; ratios := ratios g;
               maxrad := maxrad g; grid_k := 0 |} in
  let g :=
    fold_left
      (fun (g : expfac_grid) (_ : nat) =>
         fold_left (fun (g : expfac_grid) (_ : nat) => expfac_point a sht n g)
                   (seq 0 Q) g)
      (seq 0 Q) g0 in
  if below_last a n then
    let max_val := max_ratio (ratios g) (grid_k g) in
    let expfactors := upd n max_val expfactors in
    let expfactors :=
      if Rltb (nth n expfactors 0) 1 then upd n 1 expfactors else expfactors in
    (g, expfactors)
  else (g, expfactors).

(** [for (n = maxshexpan - 1; n >= 0; n--)]: the running product. *)
Definition expfac_accumulate (sht : nat)
           (st : R * list R * list (list R)) (n : nat)
  : R * list R * list (list R) :=
  let '(factor, expfactors, byshape) := st in
  let factor := factor * (nth n expfactors 0 * safety_factor) in
  (factor, upd n factor expfactors, upd2 sht n factor byshape).

(** One pass of [for (sht = 0; sht < nshtypes; sht++)]. *)
Definition expfac_shape (a : AtomVecSpherharm)
           (st : expfac_grid * list R * list (list R)) (sht : nat)
  : expfac_grid * list R * list (list R) :=
  let '(g, expfactors, byshape) := st in
  let N := maxshexpan a in
  let g := {| r_n := map (fun _ => 0) (r_n g); r_npo := r_npo g;
              ratios := ratios g; maxrad := maxrad g; grid_k := grid_k g |} in
  let '(g, expfactors) :=
    fold_left (expfac_degree a sht) (seq 0 (N + 1)) (g, expfactors) in
  let factor := nth N expfactors 0 in
  let '(_, expfactors, byshape) :=
    fold_left (expfac_accumulate sht) (rev (seq 0 N))
              (factor, expfactors, byshape) in
  let byshape := upd2 sht N 1.0 byshape in
  let mr := upd sht (nth sht (maxrad g) 0 * safety_factor) (maxrad g) in
  ({| r_n := r_n g; r_npo := r_npo g; ratios := ratios g; maxrad := mr;
      grid_k := grid_k g |}, expfactors, byshape).

Definition calcexpansionfactors_gauss (a : AtomVecSpherharm)
  : AtomVecSpherharm :=
  let num_quad2 := (num_quadrature a * num_quadrature a)%nat in
  let g := {| r_n := repeat 0 num_quad2; r_npo := repeat 0 num_quad2;
              ratios := repeat 0 num_quad2; maxrad := maxrad_byshape a;
              grid_k := 0 |} in
  let expfactors := upd (maxshexpan a) 1.0 (repeat 0 (maxshexpan a + 1)) in
  let '(g, _, byshape) :=
    fold_left (expfac_shape a) (seq 0 (nshtypes a))
              (g, expfactors, expfacts_byshape a) in
  set_expfacts a byshape (maxrad g).
End Initialisation.

(** ** [AtomVecSpherharm::doRotate] *)

(** [std::complex<double>] as a pair (real part, imaginary part). *)
Definition complex : Type := (R * R)%type.
Definition cmul (a b : complex) : complex :=
  (fst a * fst b - snd a * snd b, fst a * snd b + snd a * fst b).
Definition cconj (a : complex) : complex := (fst a, - snd a).
Definition cscale (s : R) (a : complex) : complex := (s * fst a, s * snd a).
(** [exp] of a purely imaginary number [(0, y)]. *)
Definition cexp_i (y : R) : complex := (cos y, sin y).

(** [lo, lo+1, ..., hi] for [int] loop counters that may be negative. *)
Definition zrange (lo hi : Z) : list Z :=
  map (fun k => (lo + Z.of_nat k)%Z) (seq 0 (Z.to_nat (hi - lo + 1))).

(** [pow(-1.0, k)] and [pow(b, k)] for the integer exponents the routine
    passes, all non-negative. *)
Definition pow_int (b : R) (k : Z) : R := b ^ Z.to_nat k.

(** A table indexed by three [int]s, and its update. *)
Definition table3 : Type := nat -> nat -> nat -> R.
Definition set3 (t : table3) (a b c : nat) (v : R) : table3 :=
  fun a' b' c' =>
    if ((a' =? a) && (b' =? b) && (c' =? c))%nat then v else t a' b' c'.
Definition table2c : Type := nat -> nat -> complex.
Definition add2c (t : table2c) (a b : nat) (v : complex) : table2c :=
  fun a' b' =>
    if ((a' =? a) && (b' =? b))%nat
    then (fst (t a' b') + fst v, snd (t a' b') + snd v) else t a' b'.

Section Rotation.
Context {MS : MathSpherharm}.
Variable avec : AtomVecSpherharm.

(** The seed of the recursion, degrees 0 and 1. *)
Definition dterm_seed (cosbeta sinbeta : R) (dterm : table3) : table3 :=
  fold_left
    (fun dterm n =>
       fold_left
         (fun dterm m =>
            fold_left
              (fun dterm mp =>
                 let realnum :=
                   sqrt (factorial (n + mp) * factorial (n - mp)
                         / factorial (n + m) / factorial (n - m)) in
                 let klow := Z.max 0 (m - mp) in
                 let khigh := Z.min (n - mp) (n + m) in
                 let total :=
                   fold_left
                     (fun total k =>
                        let abc := pow_int (-1) (k + mp - m) in
                        let abc :=
                          abc * (factorial (n + m) / factorial k
                                 / factorial (n + m - k)) in
                        let abc :=
                          abc * (factorial (n - m) / factorial (n - mp - k)
                                 / factorial (mp + k - m)) in
                        total + abc * (pow_int cosbeta (2 * n + m - mp - 2 * k))
                                * (pow_int sinbeta (2 * k + mp - m)))
                     (zrange klow khigh) 0 in
                 set3 dterm (Z.to_nat n) (getIndex n mp) (getIndex n m)
                      (total * realnum))
              (zrange (- n) n) dterm)
         (zrange (- n) n) dterm)
    (zrange 0 1) dterm.

(** The recursion for degrees 2 to [maxshexpan]. *)
Definition dterm_recursion (cosbeta sinbeta : R) (dterm : table3) : table3 :=
  let ss := sinbeta * sinbeta in
  let cc := cosbeta * cosbeta in
  let sc := sinbeta * cosbeta in
  let cms := (cosbeta * cosbeta) - (sinbeta * sinbeta) in
  fold_left
    (fun dterm n =>
       let rn := IZR n in
       fold_left
         (fun dterm m =>
            let rm := IZR m in
            fold_left
              (fun (dterm : table3) mp =>
                 let rmp := IZR mp in
                 let prev mp' m' :=
                   dterm (Z.to_nat (n - 1)) (getIndex (n - 1) mp')
                         (getIndex (n - 1) m') in
                 let term := 0 in
                 if ((- n <? mp) && (mp <? n))%Z then
                   let a := cms * sqrt ((rn + rm) * (rn - rm) / (rn + rmp)
                                        / (rn - rmp)) in
                   let b := sc * sqrt ((rn + rm) * (rn + rm - 1) / (rn + rmp)
                                       / (rn - rmp)) in
                   let nb := - (sc * sqrt ((rn - rm) * (rn - rm - 1)
                                           / (rn + rmp) / (rn - rmp))) in
                   let term := term + a * prev mp m in
                   let term := term + b * prev mp (m - 1)%Z in
                   let term := term + nb * prev mp (m + 1)%Z in
                   set3 dterm (Z.to_nat n) (getIndex n mp) (getIndex n m) term
                 else if (mp =? - n)%Z then
                   let c := 2 * sc * sqrt ((rn + rm) * (rn - rm) / (rn - rmp)
                                           / (rn - rmp - 1)) in
                   let d := ss * sqrt ((rn + rm) * (rn + rm - 1) / (rn - rmp)
                                       / (rn - rmp - 1)) in
                   let nd := cc * sqrt ((rn - rm) * (rn - rm - 1) / (rn - rmp)
                                        / (rn - rmp - 1)) in
                   let term := term + c * prev (mp + 1)%Z m in
                   let term := term + d * prev (mp + 1)%Z (m - 1)%Z in
                   let term := term + nd * prev (mp + 1)%Z (m + 1)%Z in
                   set3 dterm (Z.to_nat n) (getIndex n mp) (getIndex n m) term
                 else
                   let c := - (2 * sc * sqrt ((rn + rm) * (rn - rm)
                                              / (rn + rmp) / (rn + rmp - 1))) in
                   let d := cc * sqrt ((rn + rm) * (rn + rm - 1) / (rn + rmp)
                                       / (rn + rmp - 1)) in
                   let nd := ss * sqrt ((rn - rm) * (rn - rm - 1) / (rn + rmp)
                                        / (rn + rmp - 1)) in
                   let term := term + c * prev (mp - 1)%Z m in
                   let term := term + d * prev (mp - 1)%Z (m - 1)%Z in
                   let term := term + nd * prev (mp - 1)%Z (m + 1)%Z in
                   set3 dterm (Z.to_nat n) (getIndex n mp) (getIndex n m) term)
              (zrange (- n) n) dterm)
         (zrange (- n) n) dterm)
    (zrange 2 (Z.of_nat (maxshexpan avec))) dterm.

(** The sums [aa[n][m+n]] of the rotated coefficients. *)
Definition rotate_sums (coeffin : list R) (alpha gamma : R)
           (dterm : table3) : table2c :=
  fold_left
    (fun aa n =>
       let loc := ((n + 1) * (n + 2) - 2)%Z in
       fold_left
         (fun aa m =>
            fold_left
              (fun (aa : table2c) mp =>
                 let total := dterm (Z.to_nat n) (getIndex n mp) (getIndex n m) in
                 let ddd : complex := (total, 0) in
                 let aarg := IZR mp * alpha in
                 let garg := IZR mp * gamma in
                 let mloc := Z.to_nat (loc - 2 * Z.abs mp) in
                 let anm : complex :=
                   (nth mloc coeffin 0, nth (mloc + 1) coeffin 0) in
                 let anm :=
                   if (mp <? 0)%Z
                   then cscale (pow_int (-1) (Z.abs mp)) (cconj anm)
                   else anm in
                 let icmplx :=
                   cmul (cexp_i garg) (cmul ddd (cmul (cexp_i aarg) anm)) in
                 add2c aa (Z.to_nat n) (Z.to_nat (m + n)) icmplx)
              (zrange (- n) n) aa)
         (zrange (- n) n) aa)
    (zrange 0 (Z.of_nat (maxshexpan avec))) (fun _ _ => (0, 0)).

(** The last loop: [coeffout] in the storage order of the coefficients. *)
Definition rotate_store (aa : table2c) (coeffout : list R) : list R :=
  fold_left
    (fun (out : list R) (n : nat) =>
       fst (fold_left
              (fun (st : list R * nat) (m : nat) =>
                 let '(out, loc) := st in
                 (upd (loc + 1) (snd (aa n (m + n)%nat))
                      (upd loc (fst (aa n (m + n)%nat)) out),
                  (loc + 2)%nat))
              (rev (seq 0 (n + 1))) (out, (n * (n + 1))%nat)))
    (seq 0 (maxshexpan avec + 1)) coeffout.

(** The routine has no [error->all], no [error->one] and no [throw]: the
    range normalisation of the three angles is commented out in the
    source, and every path ends by storing [coeffout]. *)
Definition doRotate (sht : nat) (coeffin coeffout : list R)
           (alpha beta gamma : R) : result (list R) :=
  let cosbeta := cos (beta / 2) in
  let sinbeta := sin (beta / 2) in
  let '(beta, cosbeta) :=
    if Reqb cosbeta 0
    then (beta + 1.0e-10, cos ((beta + 1.0e-10) / 2)) else (beta, cosbeta) in
  let '(beta, sinbeta) :=
    if Reqb sinbeta 0
    then (beta + 1.0e-10, sin ((beta + 1.0e-10) / 2)) else (beta, sinbeta) in
  let dterm : table3 := fun _ _ _ => 0 in
  let dterm := dterm_seed cosbeta sinbeta dterm in
  let dterm := dterm_recursion cosbeta sinbeta dterm in
  let aa := rotate_sums coeffin alpha gamma dterm in
  Ok (rotate_store aa coeffout).
End Rotation.

(** ** [PairSH] *)

(** The functions of [<cmath>] without a counterpart among the real
    functions of the library: [std::atan2], and [std::pow] with a [double]
    exponent. *)
Class Cmath : Type := {
  std_atan2 : R -> R -> R;
  std_pow : R -> R -> R
}.

(** What the host program provides to the pair style. *)
Record Host : Type := {
  newton_pair : bool;          (* force->newton_pair *)
  dt : R;                      (* update->dt *)
  NEIGHMASK : Z
}.

(** The per-atom arrays of [atom]. *)
Record Atom : Type := {
  atom_x : list (vec3 R);
  atom_f : list (vec3 R);
  atom_torque : list (vec3 R);
  atom_quat : list (quat4 R);
  atom_type : list nat;
  atom_shtype : list nat;
  nlocal : Z
}.

(** The neighbour list [list]. *)
Record NeighList : Type := {
  inum : nat;
  ilist : list nat;
  numneigh : list nat;
  firstneigh : list (list Z)
}.

Record PairSH : Type := {
  exponent : R;
  num_pole_quad : Z;
  radius_tol : R;
  cur_time : R;
  file_count : Z;
  pair_weights : list R;
  abscissa : list R;
  normal_coeffs : nat -> nat -> R     (* normal_coeffs[itype][jtype][0] *)
}.

Definition vzero : vec3 R := V3 0 0 0.
Definition qzero : quat4 R := Q4 0 0 0 0.

Section Pair.
Context {MS : MathSpherharm} {CM : Cmath}.
Variable host : Host.
Variable avec : AtomVecSpherharm.

Import MathExtra.

(** *** [PairSH::get_contact_quat] *)
Definition get_contact_quat (xvecdist : vec3 R) : quat4 R :=
  let vert_unit_vec := V3 0 0 1.0 in
  let c := dot3 vert_unit_vec xvecdist in
  let cross_vec := cross3 vert_unit_vec xvecdist in
  qnormalize
    (Q4 (sqrt (lensq3 vert_unit_vec * lensq3 xvecdist) + c)
        (c0 cross_vec) (c1 cross_vec) (c2 cross_vec)).

(** *** [PairSH::get_quadrature_values]: the two arrays, of
    [num_quadrature] elements each, as [(weights, abscissa)]. *)
Definition pair_get_quadrature_values (num_quadrature : nat)
  : list R * list R :=
  fold_left
    (fun (st : list R * list R) (i : nat) =>
       let '(w, ab) := st in
       let p := GLPair num_quadrature (i + 1) in
       (upd i (weight p) w, upd i (x p) ab))
    (seq 0 num_quadrature)
    (repeat 0 num_quadrature, repeat 0 num_quadrature).

(** The constructor, then [init_style]: [num_pole_quad = 30],
    [radius_tol = 1e-3] and the quadrature arrays. *)
Definition init_style (expo : R) (coeffs : nat -> nat -> R) : PairSH :=
  let npq := 30%Z in
  let '(w, ab) := pair_get_quadrature_values (Z.to_nat npq) in
  {| exponent := expo;
     num_pole_quad := npq;
     radius_tol := 1e-3;
     cur_time := 0.0;
     file_count := 0;
     pair_weights := w;
     abscissa := ab;
     normal_coeffs := coeffs |}.

Variable pair : PairSH.

(** [phi = atan2(y, x); phi = phi > 0.0 ? phi : MY_2PI + phi]. *)
Definition atan2_2pi (y x : R) : R :=
  let phi := std_atan2 y x in
  if Rgtb phi 0.0 then phi else MY_2PI + phi.

(** The point of the pole quadrature at [(theta_pole, ll)]. *)
Definition pole_point (theta_pole : R) (ll : Z) (n : Z) : vec3 R :=
  let phi_pole := MY_2PI * IZR (ll - 1) / IZR (n + 1) in
  V3 (sin theta_pole * cos phi_pole)
     (sin theta_pole * sin phi_pole)
     (cos theta_pole).

(** A point at distance [rad] from [xi] in the direction [(theta, phi)]. *)
Definition ray_point (rad theta phi : R) (xi : vec3 R) : vec3 R :=
  V3 ((rad * sin theta * cos phi) + c0 xi)
     ((rad * sin theta * sin phi) + c1 xi)
     ((rad * cos theta) + c2 xi).

(** The test shared by the loops of both routines, from
    [sub3(.., xj, x_testpoint)] to the call of [check_contact]:
    [None] stands for [dtemp > radj], otherwise the answer of
    [check_contact]. *)
Definition contact_at (jshtype : nat) (radj : R) (xj : vec3 R)
           (jrot : mat3 R) (point : vec3 R) : option bool :=
  let x_testpoint := sub3 point xj in
  let dtemp := len3 x_testpoint in
  if Rgtb dtemp radj then None
  else
    let x_projtestpoint := transpose_matvec jrot x_testpoint in
    let phi_proj :=
      atan2_2pi (c1 x_projtestpoint) (c0 x_projtestpoint) in
    let theta_proj := acos (c2 x_projtestpoint / dtemp) in
    Some (fst (check_contact avec jshtype phi_proj theta_proj dtemp 0)).

(** *** [PairSH::refine_cap_angle] *)

(** [for (ll = 1; ll <= n+1; ll++)]: [true] when the routine returns 1
    from inside the loop. *)
Fixpoint refine_ll (ishtype jshtype : nat) (radj : R) (xi xj : vec3 R)
         (jrot rot_np_bf rot_np_sf : mat3 R) (theta_pole : R) (n : Z)
         (lls : list Z) : bool :=
  match lls with
  | [] => false
  | ll :: lls' =>
    let gp := pole_point theta_pole ll n in
    let gp_bf := matvec rot_np_bf gp in
    let phi := atan2_2pi (c1 gp_bf) (c0 gp_bf) in
    let theta := acos (c2 gp_bf) in
    let rad_body := get_shape_radius avec ishtype theta phi in
    let gp_sf := matvec rot_np_sf gp in
    let phi := atan2_2pi (c1 gp_sf) (c0 gp_sf) in
    let theta := acos (c2 gp_sf) in
    let ix_sf := ray_point rad_body theta phi xi in
    match contact_at jshtype radj xj jrot ix_sf with
    | Some true => true
    | _ => refine_ll ishtype jshtype radj xi xj jrot rot_np_bf rot_np_sf
                     theta_pole n lls'
    end
  end.

(** [for (kk = num_pole_quad-1; kk >= 0; kk--)]: the returned [int] and
    the value of [kk_count]. *)
Fixpoint refine_kk (kk_count : Z) (ishtype jshtype : nat) (radj : R)
         (xi xj : vec3 R) (jrot rot_np_bf rot_np_sf : mat3 R)
         (cosang : R) (n : Z) (kks : list Z) : result (bool * Z) :=
  match kks with
  | [] => Ok (false, kk_count)
  | kk :: kks' =>
    do a <- read "abscissa" (abscissa pair) kk;
    let theta_pole := acos ((a * ((1.0 - cosang) / 2.0))
                            + ((1.0 + cosang) / 2.0)) in
    if refine_ll ishtype jshtype radj xi xj jrot rot_np_bf rot_np_sf
                 theta_pole n (zrange 1 (n + 1))
    then Ok (true, (kk + 1)%Z)
    else refine_kk kk_count ishtype jshtype radj xi xj jrot
                   rot_np_bf rot_np_sf cosang n kks'
  end.

(** [kk = num_pole_quad-1, ..., 0]. *)
Definition kk_descending : list Z := rev (zrange 0 (num_pole_quad pair - 1)).

Definition refine_cap_angle (kk_count : Z) (ishtype jshtype : nat)
           (iang radj : R) (iquat_cont iquat_sf_bf : quat4 R)
           (xi xj : vec3 R) (jrot : mat3 R) : result (bool * Z) :=
  let rot_np_sf := quat_to_mat iquat_cont in
  let quat := qnormalize (quatquat iquat_sf_bf iquat_cont) in
  let rot_np_bf := quat_to_mat quat in
  let n := (2 * (num_pole_quad pair - 1))%Z in
  let cosang := cos iang in
  refine_kk kk_count ishtype jshtype radj xi xj jrot rot_np_bf rot_np_sf
            cosang n kk_descending.

(** *** [PairSH::calc_force_torque] *)

(** The bounds of the radial bisection and the sampled radius. *)
Record bisect_state : Type := {
  upper_bound : R;
  lower_bound : R;
  rad_sample : R
}.

(** [upper_bound - lower_bound > radtol]. *)
Definition bisect_cond (radtol : R) (s : bisect_state) : bool :=
  Rgtb (upper_bound s - lower_bound s) radtol.

(** The body of the [while] loop, lines 2138-2160. *)
Definition bisect_body (jshtype : nat) (radj : R) (xi xj : vec3 R)
           (jrot : mat3 R) (theta_sf phi_sf : R) (s : bisect_state)
  : bisect_state :=
  let jx_sf := ray_point (rad_sample s) theta_sf phi_sf xi in
  let '(u, l) :=
    match contact_at jshtype radj xj jrot jx_sf with
    | None => (upper_bound s, rad_sample s)
    | Some true => (rad_sample s, lower_bound s)
    | Some false => (upper_bound s, rad_sample s)
    end in
  {| upper_bound := u; lower_bound := l; rad_sample := (u + l) / 2.0 |}.

Definition bisect_init (rad_body : R) : bisect_state :=
  {| upper_bound := rad_body;
     lower_bound := 0.0;
     rad_sample := (rad_body + 0.0) / 2.0 |}.

(** The width of the bracket, [upper_bound - lower_bound]. *)
Definition gap (s : bisect_state) : R := upper_bound s - lower_bound s.

(** The body of the two quadrature loops at [(kk, ll)]; the state is
    [(vol_overlap, iforce, torsum)]. *)
Definition force_point (fuel : nat) (ishtype jshtype : nat)
           (radtol radj : R) (xi xj : vec3 R)
           (irot jrot rot_np_bf rot_np_sf : mat3 R)
           (theta_pole : R) (n kk : Z)
           (st : R * vec3 R * vec3 R) (ll : Z) : result (R * vec3 R * vec3 R) :=
  let '(vol_overlap, iforce, torsum) := st in
  let gp := pole_point theta_pole ll n in
  let gp_sf := matvec rot_np_sf gp in
  let phi_sf := atan2_2pi (c1 gp_sf) (c0 gp_sf) in
  let theta_sf := acos (c2 gp_sf) in
  let gp_bf := matvec rot_np_bf gp in
  let phi_bf := atan2_2pi (c1 gp_bf) (c0 gp_bf) in
  let theta_bf := acos (c2 gp_bf) in
  let '(rad_body, inorm_bf) :=
    get_shape_radius_and_normal avec ishtype theta_bf phi_bf in
  let ix_sf := ray_point rad_body theta_sf phi_sf xi in
  match contact_at jshtype radj xj jrot ix_sf with
  | Some true =>
    do s <- while_loop (bisect_cond radtol)
                       (bisect_body jshtype radj xi xj jrot theta_sf phi_sf)
                       fuel (bisect_init rad_body);
    do w <- read "weights" (pair_weights pair) kk;
    let dv := w * (rad_body ^ 3 - rad_sample s ^ 3) in
    let vol_overlap := vol_overlap + dv in
    let inorm_bf := scale3 (w / sin theta_bf) inorm_bf in
    let inorm_sf := matvec irot inorm_bf in
    let iforce := add3 iforce inorm_sf in
    let x_testpoint := sub3 ix_sf xi in
    let dtor := cross3 x_testpoint inorm_sf in
    let torsum := add3 torsum dtor in
    Ok (vol_overlap, iforce, torsum)
  | _ => Ok (vol_overlap, iforce, torsum)
  end.

(** The result is [(vol_overlap, iforce, torsum)]; the reference
    parameters [factor] and [first_call] are never assigned. *)
Definition calc_force_torque (fuel : nat) (kk_count : Z)
           (ishtype jshtype : nat) (iang radi radj : R)
           (iquat_cont iquat_sf_bf : quat4 R) (xi xj : vec3 R)
           (irot jrot : mat3 R) (vol_overlap : R) (iforce torsum : vec3 R)
  : result (R * vec3 R * vec3 R) :=
  let rot_np_sf := quat_to_mat iquat_cont in
  let quat := qnormalize (quatquat iquat_sf_bf iquat_cont) in
  let rot_np_bf := quat_to_mat quat in
  let radtol := radius_tol pair * radi in
  let n := (2 * (num_pole_quad pair - 1))%Z in
  let cosang := cos iang in
  do a <- read "abscissa" (abscissa pair) kk_count;
  let iang := acos ((a * ((1.0 - cosang) / 2.0)) + ((1.0 + cosang) / 2.0)) in
  let cosang := cos iang in
  let fac := ((1.0 - cosang) / 2.0) * (MY_2PI / IZR (n + 1)) in
  do st <-
     for_each
       (fun (st : R * vec3 R * vec3 R) (kk : Z) =>
          do a <- read "abscissa" (abscissa pair) kk;
          let theta_pole :=
            acos ((a * ((1.0 - cosang) / 2.0)) + ((1.0 + cosang) / 2.0)) in
          for_each
            (force_point fuel ishtype jshtype radtol radj xi xj irot jrot
                         rot_np_bf rot_np_sf theta_pole n kk)
            (zrange 1 (n + 1)) st)
       kk_descending (vol_overlap, iforce, torsum);
  let '(vol_overlap, iforce, torsum) := st in
  Ok (vol_overlap * (fac / 3.0), scale3 fac iforce, scale3 fac torsum).

(** *** [PairSH::compute] *)

Definition set_forces (a : Atom) (f torque : list (vec3 R)) : Atom :=
  {| atom_x := atom_x a;
     atom_f := f;
     atom_torque := torque;
     atom_quat := atom_quat a;
     atom_type := atom_type a;
     atom_shtype := atom_shtype a;
     nlocal := nlocal a |}.

(** The body of [for (jj = 0; jj < jnum; jj++)] for atom [i]; the state is
    [(delvec, cur_time, atom)], [jraw] is [jlist[jj]].  The two calls of
    [dump_ply] write files and leave the state alone. *)
Definition compute_pair (fuel : nat) (i : nat) (itype ishtype : nat)
           (radi : R) (irot : mat3 R) (iquat_sf_bf : quat4 R)
           (st : vec3 R * R * Atom) (jraw : Z) : result (vec3 R * R * Atom) :=
  let '(delvec, cur_time, atom) := st in
  let x := atom_x atom in
  let j := Z.to_nat (Z.land jraw (NEIGHMASK host)) in
  let delvec := sub3 delvec (nth j x vzero) in
  let jshtype := nth j (atom_shtype atom) 0%nat in
  let radj := nth jshtype (maxrad_byshape avec) 0 in
  let rsq := lensq3 delvec in
  let r := sqrt rsq in
  let jtype := nth j (atom_type atom) 0%nat in
  let kk_count := (-1)%Z in
  let vol_overlap := 0.0 in
  let iforce : vec3 R := zero3 in
  let torsum : vec3 R := zero3 in
  if Rltb r (radi + radj) then
    do iang <- (if Rgtb r radj then Ok (asin (radj / r))
                else Err CenterInsideOther);
    let delvec := negate3 delvec in
    let iquat_cont := get_contact_quat delvec in
    let jrot := quat_to_mat (nth j (atom_quat atom) qzero) in
    let cur_time := cur_time + (dt host) / 1000 in
    do found <- refine_cap_angle kk_count ishtype jshtype iang radj
                                 iquat_cont iquat_sf_bf
                                 (nth i x vzero) (nth j x vzero) jrot;
    let '(candidates_found, kk_count) := found in
    let kk_count :=
      if (kk_count >? num_pole_quad pair)%Z then num_pole_quad pair
      else kk_count in
    if candidates_found then
      do res <- calc_force_torque fuel kk_count ishtype jshtype iang radi radj
                                  iquat_cont iquat_sf_bf
                                  (nth i x vzero) (nth j x vzero) irot jrot
                                  vol_overlap iforce torsum;
      let '(vol_overlap, iforce, torsum) := res in
      let fpair := normal_coeffs pair itype jtype in
      let pn :=
        exponent pair * fpair * std_pow vol_overlap (exponent pair - 1.0) in
      let iforce := scale3 (- pn) iforce in
      let torsum := scale3 (- pn) torsum in
      (* Force and torque on particle a *)
      let f := upd i (add3 (nth i (atom_f atom) vzero) iforce) (atom_f atom) in
      let torque :=
        upd i (add3 (nth i (atom_torque atom) vzero) torsum)
            (atom_torque atom) in
      let '(f, torque) :=
        if newton_pair host || (Z.of_nat j <? nlocal atom)%Z
        then newton_pair_block x f torque i j iforce torsum
        else (f, torque) in
      Ok (delvec, cur_time, set_forces atom f torque)
    else Ok (delvec, cur_time, atom)
  else Ok (delvec, cur_time, atom).

(** The body of [for (ii = 0; ii < inum; ii++)]; the state is
    [(cur_time, atom)]. *)
Definition compute_atom (fuel : nat) (list : NeighList)
           (st : R * Atom) (ii : nat) : result (R * Atom) :=
  let '(cur_time, atom) := st in
  let i := nth ii (ilist list) 0%nat in
  let delvec := copy3 (nth i (atom_x atom) vzero) in
  let itype := nth i (atom_type atom) 0%nat in
  let ishtype := nth i (atom_shtype atom) 0%nat in
  let jlist := nth i (firstneigh list) [] in
  let jnum := nth i (numneigh list) 0%nat in
  let radi := nth ishtype (maxrad_byshape avec) 0 in
  let irot := quat_to_mat (nth i (atom_quat atom) qzero) in
  let iquat_sf_bf := qnormalize (qconjugate (nth i (atom_quat atom) qzero)) in
  do st' <- for_each (compute_pair fuel i itype ishtype radi irot iquat_sf_bf)
                     (firstn jnum jlist) (delvec, cur_time, atom);
  let '(_, cur_time, atom) := st' in
  Ok (cur_time, atom).

(** The result is [(cur_time, atom)]: [f] and [torque] are the arrays the
    routine updates. *)
Definition compute (fuel : nat) (list : NeighList) (atom : Atom)
  : result (R * Atom) :=
  for_each (compute_atom fuel list) (seq 0 (inum list))
           (cur_time pair, atom).
End Pair.

(** A row of stored expansion factors is non-increasing up to degree [N]
    and ends with 1. *)
Definition row_monotone (N : nat) (b : list (list R)) (sht : nat) : Prop :=
  (forall n, (n < N)%nat -> at2 b sht (n + 1) <= at2 b sht n)
  /\ at2 b sht N = 1.

(** [process_args], the part run on rank 0 after the coefficients are read:
    [get_quadrature_values], then [getI], which computes the inertia,
    leaves the arrays below alone and stops the program when the volume
    it integrates is not positive, then [calcexpansionfactors_gauss]. *)
Definition initialise {MS : MathSpherharm} (num_quadrature nshtypes : nat)
           (coeffs : list (list R)) : AtomVecSpherharm :=
  calcexpansionfactors_gauss
    (get_quadrature_values
       (process_args_allocate num_quadrature nshtypes coeffs)).

(** [r_n]: the radius of the shape summed through degree [n], as
    [get_shape_radius] sums it: the value of [rad_val] in that routine when
    its loop [for (n = 1; n <= maxshexpan; n++)] has run the degrees 1 to
    [n].  [r_0] is the term of degree 0 and [r_maxshexpan] is the value
    [get_shape_radius] returns. *)
Definition partial_radius {MS : MathSpherharm} (avec : AtomVecSpherharm)
           (sht : nat) (phi theta : R) (n : nat) : R :=
  let rad_val0 := shcoeffs avec sht 0 * sqrt (1 / (4 * PI)) in
  let x_val := cos theta in
  rad_val (fold_left (get_shape_radius_degree avec sht phi x_val)
                     (seq 1 n) (sh_buf_init avec rad_val0)).

(** The radius summed through the degrees below [m], in the direction of
    cosine [x_val], when the coefficients 0 and 10 are the only ones of the
    shape that are not zero. *)
Definition spheroid_sum {MS : MathSpherharm} (a : AtomVecSpherharm)
           (sht : nat) (x_val : R) (m : nat) : R :=
  (if (1 <=? m)%nat then shcoeffs a sht 0 * plegendre 0 0 x_val else 0)
  + (if (3 <=? m)%nat then shcoeffs a sht 10 * plegendre 2 0 x_val else 0).

(** ** Concrete implementations and inputs

    An implementation of each interface and a few states on which the
    definitions above are run.  The Legendre functions are those of
    [ComputeShcoeff]; the tables of Gauss-Legendre nodes are not among the
    sources and the nodes here are the leading term of their asymptotic
    expansion. *)

Module Concrete.

Definition value_or_zero (r : result R) : R :=
  match r with
  | Ok v => v
  | Err _ => 0
  end.

(** Modelled from the spec: [plgndr], the associated Legendre function
    ``with no square-root factor'', by the usual recurrence in the
    degree. *)
Definition plgndr (l m : nat) (x : R) : R :=
  let pmm :=
    if (0 <? m)%nat then
      let somx2 := sqrt ((1 - x) * (1 + x)) in
      fst (fold_left
             (fun (s : R * R) (_ : nat) =>
                let '(pmm, fact) := s in (pmm * (- fact * somx2), fact + 2))
             (seq 1 m) (1, 1))
    else 1 in
  if (l =? m)%nat then pmm
  else
    let pmmp1 := x * (2 * INR m + 1) * pmm in
    if (l =? m + 1)%nat then pmmp1
    else
      snd (fold_left
             (fun (s : R * R) (ll : nat) =>
                let '(pmm, pmmp1) := s in
                (pmmp1,
                 (x * (2 * INR ll - 1) * pmmp1 - (INR ll + INR m - 1) * pmm)
                 / (INR ll - INR m)))
             (seq (m + 2) (l - (m + 1))) (pmm, pmmp1)).

Definition GLPair (n k : nat) : QuadPair :=
  let th := PI * (4 * INR k - 1) / (4 * INR n + 2) in
  {| theta := th; weight := 2 * PI / (2 * INR n + 1) * sin th |}.

#[export] Instance math_spherharm : MathSpherharm := {
  plegendre := fun l m x => value_or_zero (ComputeShcoeff.plegendre l m x);
  plegendre_nn :=
    fun l x p => value_or_zero (ComputeShcoeff.plegendre_nn l x p);
  plegendre_recycle := ComputeShcoeff.plegendre_recycle;
  plgndr := plgndr;
  factorial := fun k => INR (fact (Z.to_nat k));
  getIndex := fun n m => Z.to_nat (n + m);
  GLPair := GLPair
}.

(** [std::atan2] by quadrant, and [std::pow] for the non-negative bases
    the pair style passes. *)
Definition atan2 (y x : R) : R :=
  if Rltb 0 x then atan (y / x)
  else if Rltb x 0 then
    if Rleb 0 y then atan (y / x) + PI else atan (y / x) - PI
  else if Rltb 0 y then PI / 2
  else if Rltb y 0 then - PI / 2
  else 0.

Definition pow (b e : R) : R :=
  if Reqb b 0 then (if Reqb e 0 then 1 else 0) else Rpower b e.

#[export] Instance cmath : Cmath := {
  std_atan2 := atan2;
  std_pow := pow
}.

Definition host : Host :=
  {| newton_pair := true; dt := 0.001; NEIGHMASK := 0x3FFFFFFF |}.

(** The coefficients of the sphere of radius [a00 * sqrt(1/(4 pi))]: all
    [(20+1)(20+2)] entries are zero but the first. *)
Definition sphere_coeffs (a00 : R) : list R := a00 :: repeat 0 461.

(** One shape, the unit sphere, as initialisation leaves it: every
    expansion factor is 1 and the maximum radius is 1. *)
Definition unit_sphere : AtomVecSpherharm :=
  {| maxshexpan := 20;
     num_quadrature := 30;
     nshtypes := 1;
     shcoeffs_byshape := [sphere_coeffs (sqrt (4 * PI))];
     expfacts_byshape := [repeat 1 21];
     quad_rads_byshape := [repeat 1 900];
     angles := (repeat 0 900, repeat 0 900);
     weights := repeat 0 30;
     maxrad_byshape := [1] |}.

Definition identity_quat : quat4 R := Q4 1 0 0 0.
Definition identity_mat : mat3 R := M3 (V3 1 0 0) (V3 0 1 0) (V3 0 0 1).

(** Atoms of shape 0 and type 1 at the positions [xs], at rest, in the
    orientation of the body frame. *)
Definition atoms_at (xs : list (vec3 R)) : Atom :=
  {| atom_x := xs;
     atom_f := map (fun _ => vzero) xs;
     atom_torque := map (fun _ => vzero) xs;
     atom_quat := map (fun _ => identity_quat) xs;
     atom_type := map (fun _ => 1%nat) xs;
     atom_shtype := map (fun _ => 0%nat) xs;
     nlocal := Z.of_nat (List.length xs) |}.

(** Atom 0 with the neighbours [js]. *)
Definition neighbours_of_0 (js : list Z) : NeighList :=
  {| inum := 1;
     ilist := [0%nat];
     numneigh := [List.length js];
     firstneigh := [js] |}.

(** Two unit spheres whose centres are [sqrt 2] apart. *)
Definition touching_pair : Atom :=
  atoms_at [V3 0 0 0; V3 0 0 (sqrt 2)].

(** Atom 0 with a neighbour out of reach on one side and a second one, out
    of reach too, on the other side. *)
Definition far_neighbours : Atom :=
  atoms_at [V3 0 0 0; V3 3 0 0; V3 (-4) 0 0].

(** The coefficients of a shape of revolution made of the degrees 0 and 2
    alone: [a00] at index 0 and [a20] at index 10, the [m = 0] coefficient
    of degree 2. *)
Definition spheroid_coeffs (a00 a20 : R) : list R :=
  a00 :: repeat 0 9 ++ a20 :: repeat 0 451.

(** One shape, elongated along its pole, initialised with a single
    quadrature node: its radius at the polar angle [theta] is
    [1 + 3/2 * cos(theta)^2]. *)
Definition elongated : AtomVecSpherharm :=
  initialise 1 1
    [spheroid_coeffs (3 / 2 * sqrt (4 * PI)) (sqrt (4 * PI / 5))].

(** Two atoms of that shape whose centres are [5/3] apart along the
    pole. *)
Definition overlapping_pair : Atom :=
  atoms_at [V3 0 0 0; V3 0 0 (5 / 3)].

End Concrete.

(** The radius summed through degree [n] by direct evaluation, as
    [calcexpansionfactors_gauss] accumulates it in [r_n[k]] over its loop on
    the degrees: every degree calls [plegendre] afresh. *)
Definition direct_radius {MS : MathSpherharm} (a : AtomVecSpherharm)
           (sht : nat) (x_val phi : R) (n : nat) : R :=
  fold_left (fun r j => add_degree a sht j x_val phi r) (seq 0 (n + 1)) 0.

(** The same at the grid point [k] of [angles]. *)
Definition grid_radius {MS : MathSpherharm} (a : AtomVecSpherharm)
           (sht k n : nat) : R :=
  direct_radius a sht (cos (nth k (fst (angles a)) 0))
                (nth k (snd (angles a)) 0) n.

(** ** [AtomVecSpherharm::read_sh_coeffs] and [get_coefficients] *)

(** A line of a coefficient file as [PotentialFileReader::next_line(4)] and
    [ValueTokenizer] deliver it: the two [int]s and the two [double]s.  A
    line the tokenizer rejects ends the run through [error->one]; the
    reader and the tokenizer are not among the sources and such lines are
    not part of this model. *)
Record sh_line : Type := {
  ln_nn : Z;
  ln_mm : Z;
  ln_real : R;
  ln_imag : R
}.

(** [entry = nn*(nn+1)+2*(nn-mm)], on [int]s far from overflow. *)
Definition sh_entry (nn mm : Z) : Z := (nn * (nn + 1) + 2 * (nn - mm))%Z.

(** [l[i] = v] with an [int] index; a write outside the array is reported
    with the index. *)
Definition write (name : string) (l : list R) (i : Z) (v : R)
  : result (list R) :=
  if (i <? 0)%Z || (Z.of_nat (List.length l) <=? i)%Z
  then Err (OutOfBounds name i)
  else Ok (upd (Z.to_nat i) v l).

(** The [while] loop over the lines of one file, on the row
    [shcoeffs_byshape[shapenum]]: [break] at the first degree above
    [maxshexpan], and nothing stored for [mm < 0]. *)
Fixpoint read_sh_coeffs_lines (maxshexpan : nat) (lines : list sh_line)
         (row : list R) : result (list R) :=
  match lines with
  | [] => Ok row
  | l :: lines' =>
    if (ln_nn l >? Z.of_nat maxshexpan)%Z then Ok row
    else if (ln_mm l >=? 0)%Z then
      let entry := sh_entry (ln_nn l) (ln_mm l) in
      do row <- write "shcoeffs_byshape" row entry (ln_real l);
      let entry := (entry + 1)%Z in
      do row <- write "shcoeffs_byshape" row entry (ln_imag l);
      read_sh_coeffs_lines maxshexpan lines' row
    else read_sh_coeffs_lines maxshexpan lines' row
  end.

Definition read_sh_coeffs (a : AtomVecSpherharm) (lines : list sh_line)
           (shapenum : nat) : result AtomVecSpherharm :=
  do row <- read_sh_coeffs_lines (maxshexpan a) lines
                                 (nth shapenum (shcoeffs_byshape a) []);
  Ok {| maxshexpan := maxshexpan a;
        num_quadrature := num_quadrature a;
        nshtypes := nshtypes a;
        shcoeffs_byshape := upd shapenum row (shcoeffs_byshape a);
        expfacts_byshape := expfacts_byshape a;
        quad_rads_byshape := quad_rads_byshape a;
        angles := angles a;
        weights := weights a;
        maxrad_byshape := maxrad_byshape a |}.

(** [get_coefficients]: the array [coeff] belongs to the caller. *)
Definition get_coefficients (a : AtomVecSpherharm) (sht : nat)
           (coeff : list R) : result (list R) :=
  for_each
    (fun (coeff : list R) (n : nat) =>
       do st <-
          for_each
            (fun (st : list R * nat) (_ : nat) =>
               let '(coeff, loc) := st in
               do coeff <- write "coeff" coeff (Z.of_nat loc)
                                 (shcoeffs a sht loc);
               do coeff <- write "coeff" coeff (Z.of_nat (loc + 1))
                                 (shcoeffs a sht (loc + 1));
               Ok (coeff, (loc + 2)%nat))
            (rev (seq 0 (n + 1))) (coeff, (n * (n + 1))%nat);
       Ok (fst st))
    (seq 0 (maxshexpan a + 1)) coeff.

(** ** [PairSH::matchtype] and [PairSH::coeff] *)

Definition types_mismatch : error :=
  ErrorAll "Types must have same Spherical Harmonic particle type".
Definition exponent_mixing : error :=
  ErrorAll
    "Exponent must be equal for all type interactions, exponent mixing not developed".
Definition incorrect_coeff_args : error :=
  ErrorAll "Incorrect args for pair coefficients".

(** The body of [for (int i = 0; i < nlocal; i++)] of [matchtype]: [t] is
    [type[i]] and [sh] is [shtype[i]], which [create_atom_post] sets to -1
    until a shape is given to the atom. *)
Definition matchtype_atom (typetosh : list Z) (t : nat) (sh : Z)
  : result (list Z) :=
  if (nth t typetosh 0 =? -1)%Z then Ok (upd t sh typetosh)
  else if negb (nth t typetosh 0 =? sh)%Z then Err types_mismatch
  else Ok typetosh.

(** [MPI_Allreduce(MPI_IN_PLACE, typetosh, ntypes+1, MPI_INT, MPI_MAX,
    world)]: the element-wise maximum with the array of another process. *)
Definition allreduce_max (mine other : list Z) : list Z :=
  map (fun p : Z * Z => Z.max (fst p) (snd p)) (combine mine other).

(** [matchtype]: [ranks] holds the arrays the other processes bring to the
    reduction. *)
Definition matchtype (ntypes nlocal : nat) (type : list nat)
           (shtype : list Z) (ranks : list (list Z)) : result (list Z) :=
  let typetosh := repeat (-1)%Z (ntypes + 1) in
  do typetosh <-
     for_each (fun (typetosh : list Z) (i : nat) =>
                 matchtype_atom typetosh (nth i type 0%nat) (nth i shtype 0%Z))
              (seq 0 nlocal) typetosh;
  Ok (fold_left allreduce_max ranks typetosh).

(** The arrays [coeff] fills and the two flags it tests. *)
Record PairSetup : Type := {
  ps_exponent : R;
  ps_matchtypes : bool;
  ps_typetosh : list Z;
  ps_setflag : nat -> nat -> Z;
  ps_cut : nat -> nat -> R;
  ps_normal_coeffs : nat -> nat -> R
}.

(** [a[i][j] = v]. *)
Definition set2 {A : Type} (a : nat -> nat -> A) (i j : nat) (v : A)
  : nat -> nat -> A :=
  fun i' j' => if ((i' =? i) && (j' =? j))%nat then v else a i' j'.

(** The body of the two loops of [coeff] at [(i, j)]; the state is
    [(cut, setflag, normal_coeffs, count)]. *)
Definition coeff_pair (max_rad : list R) (typetosh : list Z)
           (normal_coeffs_one : R) (i : nat)
           (st : (nat -> nat -> R) * (nat -> nat -> Z) * (nat -> nat -> R)
                 * Z) (j : nat)
  : result ((nat -> nat -> R) * (nat -> nat -> Z) * (nat -> nat -> R) * Z) :=
  let '(cut, setflag, normal, count) := st in
  let shi := nth i typetosh 0%Z in
  let shj := nth j typetosh 0%Z in
  do ri <- read "maxrad_byshape" max_rad shi;
  do rj <- read "maxrad_byshape" max_rad shj;
  Ok (set2 cut i j (ri + rj), set2 setflag i j 1%Z,
      set2 normal i j normal_coeffs_one, (count + 1)%Z).

(** [coeff], after [utils::bounds] and [utils::numeric] have turned the
    four arguments into the type ranges [ilo..ihi], [jlo..jhi] and the two
    numbers; the atoms and the other processes matter when [matchtype]
    runs. *)
Definition coeff (ntypes nlocal : nat) (type : list nat) (shtype : list Z)
           (ranks : list (list Z)) (max_rad : list R) (p : PairSetup)
           (ilo ihi jlo jhi : nat) (normal_coeffs_one exponent_in : R)
  : result PairSetup :=
  do exponent <-
     (if Reqb (ps_exponent p) (-1) then Ok exponent_in
      else if negb (Reqb (ps_exponent p) exponent_in)
           then Err exponent_mixing
           else Ok (ps_exponent p));
  do typetosh <-
     (if negb (ps_matchtypes p)
      then matchtype ntypes nlocal type shtype ranks
      else Ok (ps_typetosh p));
  do st <-
     for_each
       (fun st (i : nat) =>
          for_each (coeff_pair max_rad typetosh normal_coeffs_one i)
                   (seq (Nat.max jlo i) (jhi + 1 - Nat.max jlo i)) st)
       (seq ilo (ihi + 1 - ilo))
       (ps_cut p, ps_setflag p, ps_normal_coeffs p, 0%Z);
  let '(cut, setflag, normal, count) := st in
  if (count =? 0)%Z then Err incorrect_coeff_args
  else Ok {| ps_exponent := exponent;
             ps_matchtypes := true;
             ps_typetosh := typetosh;
             ps_setflag := setflag;
             ps_cut := cut;
             ps_normal_coeffs := normal |}.

(** [init_one]: the updated arrays and the returned cutoff. *)
Definition init_one (max_rad : list R) (p : PairSetup) (i j : nat)
  : result (PairSetup * R) :=
  do cut <-
     (if (ps_setflag p i j =? 0)%Z then
        do ri <- read "maxrad_byshape" max_rad (nth i (ps_typetosh p) 0%Z);
        do rj <- read "maxrad_byshape" max_rad (nth j (ps_typetosh p) 0%Z);
        Ok (set2 (ps_cut p) i j (ri + rj))
      else Ok (ps_cut p));
  let normal :=
    set2 (set2 (ps_normal_coeffs p) j i (ps_normal_coeffs p i i))
         i j (ps_normal_coeffs p i i) in
  Ok ({| ps_exponent := ps_exponent p;
         ps_matchtypes := ps_matchtypes p;
         ps_typetosh := ps_typetosh p;
         ps_setflag := ps_setflag p;
         ps_cut := cut;
         ps_normal_coeffs := normal |}, cut i j).

(** * Properties *)

Unset Implicit Arguments.

(** ** Comparisons and arrays *)

Lemma Rltb_true (a b : R) : Rltb a b = true <-> a < b.
Proof. unfold Rltb; destruct (Rlt_dec a b); split; intros; try discriminate; tauto. Qed.

Lemma Rltb_false (a b : R) : Rltb a b = false <-> ~ a < b.
Proof. unfold Rltb; destruct (Rlt_dec a b); split; intros; try discriminate; tauto. Qed.

Lemma Rleb_true (a b : R) : Rleb a b = true <-> a <= b.
Proof. unfold Rleb; destruct (Rle_dec a b); split; intros; try discriminate; tauto. Qed.

Lemma Rleb_false (a b : R) : Rleb a b = false <-> ~ a <= b.
Proof. unfold Rleb; destruct (Rle_dec a b); split; intros; try discriminate; tauto. Qed.

Lemma Rgtb_true (a b : R) : Rgtb a b = true <-> a > b.
Proof. unfold Rgtb; rewrite Rltb_true; unfold Rgt; tauto. Qed.

Lemma Rgtb_false (a b : R) : Rgtb a b = false <-> ~ a > b.
Proof. unfold Rgtb; rewrite Rltb_false; unfold Rgt; tauto. Qed.

Lemma length_upd {A : Type} (i : nat) (v : A) (l : list A) :
  List.length (upd i v l) = List.length l.
Proof.
  revert i; induction l as [|h t IH]; intros [|i]; simpl; auto.
Qed.

Lemma nth_upd_eq {A : Type} (i : nat) (v d : A) (l : list A) :
  (i < List.length l)%nat -> nth i (upd i v l) d = v.
Proof.
  revert i; induction l as [|h t IH]; intros [|i] H; simpl in *;
    try lia; auto.
  apply IH; lia.
Qed.

Lemma nth_upd_neq {A : Type} (i j : nat) (v d : A) (l : list A) :
  i <> j -> nth j (upd i v l) d = nth j l d.
Proof.
  revert i j; induction l as [|h t IH]; intros [|i] [|j] H; simpl;
    try congruence; auto.
Qed.

Lemma nth_repeat_any {A : Type} (v : A) (n k : nat) :
  nth k (repeat v n) v = v.
Proof.
  revert k; induction n as [|n IH]; intros [|k]; simpl; auto.
Qed.

(** ** The Newton's-third-law block *)

Section NewtonBlockClaims.
Import MathExtra.

Lemma len3_unit_x : len3 (V3 1 0 0 : vec3 R) = 1.
Proof.
  unfold len3, lensq3; simpl.
  replace (1 * 1 + 0 * 0 + 0 * 0) with 1 by ring. apply sqrt_1.
Qed.

(** C2, as the specification states it, fails: with [F = (1,0,0)] and
    [tau = (0,1,0)] on particle [i] at the origin and particle [j] at
    [(2,0,0)], the torque the block adds to [j] is not
    [F x (x_c - x_j)] for [x_c = x_i + (tau x F)/|F|^2]. *)
Lemma C2_counterexample :
  let x := [V3 0 0 0; V3 2 0 0] in
  let torque := [V3 0 0 0; V3 0 0 0] in
  let F := V3 1 0 0 in
  let tau := V3 0 1 0 in
  let xc := add3 (nth 0 x zero3)
                 (scale3 (1 / (len3 F * len3 F)) (cross3 tau F)) in
  nth 1 (snd (newton_pair_block x torque torque 0 1 F tau)) zero3
  <> add3 (nth 1 torque zero3) (cross3 F (sub3 xc (nth 1 x zero3))).
Proof.
  intros x torque F tau xc H.
  apply (f_equal (@c1 R)) in H.
  unfold xc, F, tau, x, torque, newton_pair_block in H; simpl in H.
  change (sqrt (1 * 1 + 0 * 0 + 0 * 0)) with (len3 (V3 1 0 0 : vec3 R)) in H.
  rewrite len3_unit_x in H. lra.
Qed.

(** C2 (amended).  In the Newton's-third-law block, whenever the force [F]
    on particle [i] is nonzero, the force on particle [j] decreases by [F]
    (the force applied to [j] is [-F]) and the torque on [j] grows by
    [F x (x_c - x_j)], where the contact point is
    [x_c = x_i - (tau x F)/|F|^2]: the cross product is taken with the
    opposite sign to the one the specification writes. *)
Theorem C2_newton_block (x f torque : list (vec3 R)) (i j : nat)
        (F tau : vec3 R) :
  (j < List.length f)%nat -> (j < List.length torque)%nat ->
  len3 F <> 0 ->
  let xc := sub3 (nth i x zero3)
                 (scale3 (1 / (len3 F * len3 F)) (cross3 tau F)) in
  nth j (fst (newton_pair_block x f torque i j F tau)) zero3
  = sub3 (nth j f zero3) F
  /\ nth j (snd (newton_pair_block x f torque i j F tau)) zero3
     = add3 (nth j torque zero3) (cross3 F (sub3 xc (nth j x zero3))).
Proof.
  intros Hf Ht HF xc. unfold newton_pair_block; simpl.
  rewrite !nth_upd_eq by assumption. split; [reflexivity|].
  unfold xc, add3, sub3, cross3, scale3; simpl.
  f_equal; f_equal; field; exact HF.
Qed.

Lemma C2_witness :
  let x := [V3 0 0 0; V3 2 0 0] in
  let z := [V3 0 0 0; V3 0 0 0] in
  let F := V3 1 0 0 in
  let tau := V3 0 1 0 in
  ((1 < List.length z)%nat /\ len3 F <> 0)
  /\ (nth 1 (fst (newton_pair_block x z z 0 1 F tau)) zero3
      = sub3 (nth 1 z zero3) F
      /\ nth 1 (snd (newton_pair_block x z z 0 1 F tau)) zero3
         = add3 (nth 1 z zero3)
                (cross3 F (sub3 (sub3 (nth 0 x zero3)
                                      (scale3 (1 / (len3 F * len3 F))
                                              (cross3 tau F)))
                                (nth 1 x zero3)))).
Proof.
  intros x z F tau.
  assert (HF : len3 F <> 0) by (unfold F; rewrite len3_unit_x; lra).
  split.
  - split; [simpl; lia | exact HF].
  - apply (@C2_newton_block x z z 0%nat 1%nat F tau);
      [simpl; lia | simpl; lia | exact HF].
Defined.

(** C3: the block on IEEE binary64 with a zero force on particle [i]: the
    divisor [fn * fn] is zero, the scale factor is [-1/0], the contact
    point is NaN and so is the torque stored for particle [j], which was
    zero before. *)
Theorem C3_zero_force_binary64 :
  let x := [V3 0 0 0; V3 2 0 0]%float in
  let z := [V3 0 0 0; V3 0 0 0]%float in
  let F := (V3 0 0 0)%float in
  let tau := (V3 0 0 0)%float in
  let torque' :=
    snd (newton_pair_block (DD := Double_binary64) x z z 0 1 F tau) in
  PrimFloat.is_nan (c0 (nth 1 torque' F)) = true
  /\ PrimFloat.is_nan (c1 (nth 1 torque' F)) = true
  /\ PrimFloat.is_nan (c2 (nth 1 torque' F)) = true
  /\ PrimFloat.is_nan (c0 (nth 1 z F)) = false.
Proof. vm_compute. repeat split. Qed.

End NewtonBlockClaims.

(** ** [check_contact] and [get_shape_radius] *)

Section ContactLoop.
Context {MS : MathSpherharm}.
Variable avec : AtomVecSpherharm.
Variables (sht : nat) (phi x_val d finalrad : R).

Let N := maxshexpan avec.
Let deg := fun (s : sh_buf) (k : nat) =>
             check_contact_degree avec sht phi x_val k s.
Let loop := check_contact_while avec sht phi x_val d finalrad.

Lemma check_contact_while_cons (n : nat) (ns : list nat) (s : sh_buf) :
  loop (n :: ns) s
  = if Rgtb d (expfacts avec sht n * rad_val (deg s n)) then (false, finalrad)
    else if (N <? n + 1)%nat then
           if Rleb d (expfacts avec sht n * rad_val (deg s n))
           then (true, rad_val (deg s n)) else (false, finalrad)
         else loop ns (deg s n).
Proof. reflexivity. Qed.

(** An early exit at degree [n]: the loop returns 0 and leaves [finalrad]. *)
Lemma check_contact_while_exit (len a : nat) (s : sh_buf) (n : nat) :
  (a <= n < a + len)%nat -> (a + len = N + 1)%nat ->
  d > expfacts avec sht n * rad_val (fold_left deg (seq a (n - a + 1)) s) ->
  loop (seq a len) s = (false, finalrad).
Proof.
  revert a s. induction len as [|len IH]; intros a s Hn HN Hd; [lia|].
  change (seq a (S len)) with (a :: seq (S a) len).
  rewrite check_contact_while_cons.
  destruct (Rgtb d _) eqn:Hgt; [reflexivity|].
  apply Rgtb_false in Hgt.
  destruct (Nat.eq_dec n a) as [->|Hne].
  - exfalso. apply Hgt.
    replace (a - a + 1)%nat with 1%nat in Hd by lia. exact Hd.
  - destruct (Nat.ltb_spec N (a + 1)) as [Hlt|Hge]; [lia|].
    apply IH; [lia | lia |].
    replace (n - a + 1)%nat with (S (n - S a + 1)) in Hd by lia.
    exact Hd.
Qed.

(** No early exit: the loop ends after degree [N] with the last test. *)
Lemma check_contact_while_complete (len a : nat) (s : sh_buf) :
  (a + S len = N + 1)%nat ->
  (forall n, (a <= n <= N)%nat ->
             ~ d > expfacts avec sht n
                   * rad_val (fold_left deg (seq a (n - a + 1)) s)) ->
  loop (seq a (S len)) s
  = let final := fold_left deg (seq a (S len)) s in
    if Rleb d (expfacts avec sht N * rad_val final)
    then (true, rad_val final) else (false, finalrad).
Proof.
  revert a s. induction len as [|len IH]; intros a s HN Hall;
    assert (H0 := Hall a ltac:(lia));
    replace (a - a + 1)%nat with 1%nat in H0 by lia; simpl in H0;
    apply Rgtb_false in H0.
  - assert (Ha : a = N) by lia.
    change (seq a 1) with [a].
    rewrite check_contact_while_cons, H0.
    destruct (Nat.ltb_spec N (a + 1)) as [_|Hge]; [|lia].
    rewrite Ha. reflexivity.
  - change (seq a (S (S len))) with (a :: seq (S a) (S len)).
    rewrite check_contact_while_cons, H0.
    destruct (Nat.ltb_spec N (a + 1)) as [Hlt|_]; [lia|].
    rewrite IH; [reflexivity | lia |].
    intros n Hn. specialize (Hall n ltac:(lia)).
    replace (n - a + 1)%nat with (S (n - S a + 1)) in Hall by lia.
    exact Hall.
Qed.

Lemma check_contact_while_no_exit (len a : nat) (s : sh_buf) :
  (1 <= len)%nat -> (a + len = N + 1)%nat ->
  (forall n, (a <= n <= N)%nat ->
             ~ d > expfacts avec sht n
                   * rad_val (fold_left deg (seq a (n - a + 1)) s)) ->
  loop (seq a len) s
  = let final := fold_left deg (seq a len) s in
    if Rleb d (expfacts avec sht N * rad_val final)
    then (true, rad_val final) else (false, finalrad).
Proof.
  destruct len as [|len]; [lia|]. intros _.
  apply check_contact_while_complete.
Qed.

(** When the loop returns 1 it has run through every degree. *)
Lemma check_contact_while_true (len a : nat) (s : sh_buf) (r : R) :
  (a + len = N + 1)%nat ->
  loop (seq a len) s = (true, r) ->
  r = rad_val (fold_left deg (seq a len) s).
Proof.
  revert a s. induction len as [|len IH]; intros a s HN H.
  - discriminate.
  - change (seq a (S len)) with (a :: seq (S a) len) in *.
    rewrite check_contact_while_cons in H.
    destruct (Rgtb d _); [discriminate|].
    destruct (Nat.ltb_spec N (a + 1)) as [Hlt|Hge].
    + assert (len = 0)%nat by lia. subst len.
      destruct (Rleb d _); [|discriminate].
      injection H as <-. reflexivity.
    + apply IH in H; [|lia]. exact H.
Qed.

End ContactLoop.

Lemma fold_left_pointwise {A B : Type} (f g : A -> B -> A) (l : list B) (a : A) :
  (forall s k, f s k = g s k) -> fold_left f l a = fold_left g l a.
Proof.
  intros H. revert a. induction l as [|h t IH]; intros a; simpl; [reflexivity|].
  rewrite H. apply IH.
Qed.

(** The two transcriptions of the degree body agree. *)
Lemma check_contact_degree_get_shape_radius_degree {MS : MathSpherharm}
      (avec : AtomVecSpherharm) (sht : nat) (phi x_val : R) (s : sh_buf)
      (n : nat) :
  check_contact_degree avec sht phi x_val n s
  = get_shape_radius_degree avec sht phi x_val s n.
Proof. reflexivity. Qed.

(** The loop of [check_contact] over the degrees 1 to [n] leaves in
    [rad_val] the radius [get_shape_radius] has summed after the same
    degrees. *)
Lemma check_contact_run_partial_radius {MS : MathSpherharm}
      (avec : AtomVecSpherharm) (sht : nat) (phi theta : R) (n : nat) :
  rad_val
    (fold_left (fun s k => check_contact_degree avec sht phi (cos theta) k s)
               (seq 1 n)
               (sh_buf_init avec (shcoeffs avec sht 0 * sqrt (1 / (4 * PI)))))
  = partial_radius avec sht phi theta n.
Proof.
  unfold partial_radius. cbv zeta.
  rewrite (fold_left_pointwise
             (fun s k => check_contact_degree avec sht phi (cos theta) k s)
             (get_shape_radius_degree avec sht phi (cos theta)))
    by (intros; apply check_contact_degree_get_shape_radius_degree).
  reflexivity.
Qed.

Lemma get_shape_radius_partial_radius {MS : MathSpherharm}
      (avec : AtomVecSpherharm) (sht : nat) (theta phi : R) :
  get_shape_radius avec sht theta phi
  = partial_radius avec sht phi theta (maxshexpan avec).
Proof. reflexivity. Qed.

(** C1.  Let [r_n] be the radius of the shape summed through degree [n]
    as [get_shape_radius] sums it: [r_0] is the term of degree 0 and
    [r_{n_max}] is the value [get_shape_radius] returns.  [check_contact]
    returns 0, leaving [finalrad], as soon as [d > expfacts[n] * r_n] at
    some degree [n] from 0 to [n_max]; with no such exit it returns 1
    exactly when [d <= r_{n_max}] and then sets [finalrad] to [r_{n_max}].
    This holds for every shape, direction and distance; the last expansion
    factor is 1 and the maximal degree is at least 1 (the constructor sets
    it to 20). *)
Theorem C1_check_contact {MS : MathSpherharm} (avec : AtomVecSpherharm)
        (sht : nat) (phi theta d finalrad : R) :
  let N := maxshexpan avec in
  let r := partial_radius avec sht phi theta in
  let e := expfacts avec sht in
  (1 <= N)%nat -> e N = 1 ->
  (r 0%nat = shcoeffs avec sht 0 * sqrt (1 / (4 * PI))
   /\ r N = get_shape_radius avec sht theta phi)
  /\ ((exists n, (n <= N)%nat /\ d > e n * r n) ->
      check_contact avec sht phi theta d finalrad = (false, finalrad))
  /\ ((forall n, (n <= N)%nat -> ~ d > e n * r n) ->
      (d <= r N ->
       check_contact avec sht phi theta d finalrad = (true, r N))
      /\ (~ d <= r N ->
          check_contact avec sht phi theta d finalrad = (false, finalrad))).
Proof.
  intros N r e HN He. split; [split; reflexivity|]. split.
  - intros [n [Hn Hd]]. unfold check_contact.
    destruct (Rgtb d _) eqn:Hgt; [reflexivity|].
    apply Rgtb_false in Hgt.
    destruct (Nat.eq_dec n 0) as [->|Hne].
    + exfalso. apply Hgt. exact Hd.
    + apply (@check_contact_while_exit MS avec sht phi (cos theta) d finalrad
               (maxshexpan avec) 1 _ n); [fold N; lia | lia |].
      replace (n - 1 + 1)%nat with n by lia.
      rewrite check_contact_run_partial_radius. exact Hd.
  - intros Hall.
    assert (Hrun : check_contact avec sht phi theta d finalrad
                   = if Rleb d (e N * r N) then (true, r N)
                     else (false, finalrad)).
    { unfold check_contact.
      assert (H0 := Hall 0%nat ltac:(lia)). apply Rgtb_false in H0.
      unfold e, r, partial_radius in H0; simpl in H0. rewrite H0.
      rewrite (@check_contact_while_no_exit MS avec sht phi (cos theta) d
                 finalrad (maxshexpan avec) 1).
      - cbv zeta. rewrite check_contact_run_partial_radius. reflexivity.
      - exact HN.
      - lia.
      - intros n Hn. specialize (Hall n ltac:(unfold N; lia)).
        replace (n - 1 + 1)%nat with n by lia.
        rewrite check_contact_run_partial_radius. exact Hall. }
    rewrite Hrun, He, Rmult_1_l. split; intros Hd.
    + apply Rleb_true in Hd. rewrite Hd. reflexivity.
    + apply Rleb_false in Hd. rewrite Hd. reflexivity.
Qed.

(** C6.  The radius [check_contact] writes to [finalrad] when it returns 1
    is the value of [get_shape_radius] for the same shape and direction. *)
Theorem C6_check_contact_radius {MS : MathSpherharm} (avec : AtomVecSpherharm)
        (sht : nat) (phi theta d finalrad r : R) :
  check_contact avec sht phi theta d finalrad = (true, r) ->
  r = get_shape_radius avec sht theta phi.
Proof.
  unfold check_contact, get_shape_radius. intros H.
  destruct (Rgtb d _); [discriminate|].
  apply check_contact_while_true in H; [|lia].
  rewrite H. reflexivity.
Qed.

(** ** Spheres: only the first coefficient is nonzero *)

Section Sphere.
Context {MS : MathSpherharm}.
Variable avec : AtomVecSpherharm.
Variable sht : nat.
Hypothesis sphere : forall k, (1 <= k)%nat -> shcoeffs avec sht k = 0.

(** The body of the [for (m = 1; m < n - 1; m++)] loop of the radius
    routines. *)
Let m_body (n : nat) (phi x_val : R) :=
  fun (st : R * list R * list R * nat) (m : nat) =>
    let '(rad, m1, m2, loc) := st in
    let P_n_m := plegendre_recycle n m x_val (nth m m1 0) (nth m m2 0) in
    let m2 := upd m (nth m m1 0) m2 in
    let m1 := upd m P_n_m m1 in
    let mphi := INR m * phi in
    (rad + (shcoeffs avec sht loc * cos mphi
            - shcoeffs avec sht (loc + 1) * sin mphi) * 2 * P_n_m,
     m1, m2, (loc - 2)%nat).

Lemma sphere_m_loop (n : nat) (phi x_val : R) (l : list nat)
      (rad : R) (m1 m2 : list R) (loc : nat) :
  (2 * List.length l + 1 <= loc)%nat ->
  fst (fst (fst (fold_left (m_body n phi x_val) l (rad, m1, m2, loc)))) = rad
  /\ snd (fold_left (m_body n phi x_val) l (rad, m1, m2, loc))
     = (loc - 2 * List.length l)%nat.
Proof.
  revert rad m1 m2 loc. induction l as [|m l IH]; intros rad m1 m2 loc Hloc.
  - simpl. split; [reflexivity | lia].
  - simpl List.length in *.
    change (fold_left (m_body n phi x_val) (m :: l) (rad, m1, m2, loc))
      with (fold_left (m_body n phi x_val) l
                      (m_body n phi x_val (rad, m1, m2, loc) m)).
    unfold m_body at 2 4. cbv zeta beta iota.
    rewrite !sphere by lia.
    match goal with
    | |- context [fold_left _ l (?r, ?a, ?b, ?c)] =>
      destruct (IH r a b c ltac:(lia)) as [H1 H2]
    end.
    split; [rewrite H1; ring | rewrite H2; lia].
Qed.

Lemma sphere_check_contact_degree (phi x_val : R) (n : nat) (s : sh_buf) :
  (1 <= n)%nat ->
  rad_val (check_contact_degree avec sht phi x_val n s) = rad_val s.
Proof.
  intros Hn. unfold check_contact_degree.
  destruct (n =? 1)%nat eqn:E1.
  - simpl. rewrite !sphere by lia. ring.
  - destruct (n =? 2)%nat eqn:E2.
    + apply Nat.eqb_eq in E2. subst n. simpl.
      rewrite !sphere by lia. ring.
    + apply Nat.eqb_neq in E1. apply Nat.eqb_neq in E2.
      match goal with
      | |- context [fold_left ?f ?l (?r, ?a, ?b, ?c)] =>
        pose proof (@sphere_m_loop n phi x_val l r a b c) as Hl;
        change f with (m_body n phi x_val);
        destruct (fold_left (m_body n phi x_val) l (r, a, b, c))
          as [[[rad m1] m2] loc]
      end.
      rewrite length_seq in Hl.
      assert (HP : (6 * n + 2 <= (n + 1) * (n + 2))%nat) by nia.
      destruct Hl as [Hrad Hloc]; [lia|]. simpl in Hrad, Hloc. subst rad loc.
      simpl. rewrite !sphere by lia. ring.
Qed.

Lemma sphere_partial_radius_run (phi x_val : R) (a len : nat) (s : sh_buf) :
  (1 <= a)%nat ->
  rad_val (fold_left (fun s k => check_contact_degree avec sht phi x_val k s)
                     (seq a len) s) = rad_val s.
Proof.
  revert a s. induction len as [|len IH]; intros a s Ha; simpl;
    [reflexivity|].
  rewrite IH by lia. apply sphere_check_contact_degree. exact Ha.
Qed.

Lemma sphere_partial_radius (phi theta : R) (n : nat) :
  partial_radius avec sht phi theta n
  = shcoeffs avec sht 0 * sqrt (1 / (4 * PI)).
Proof.
  rewrite <- check_contact_run_partial_radius.
  rewrite sphere_partial_radius_run by lia. reflexivity.
Qed.

Lemma sphere_get_shape_radius (theta phi : R) :
  get_shape_radius avec sht theta phi
  = shcoeffs avec sht 0 * sqrt (1 / (4 * PI)).
Proof.
  unfold get_shape_radius.
  rewrite <- (fold_left_pointwise
                (fun s k => check_contact_degree avec sht phi (cos theta) k s)
                (get_shape_radius_degree avec sht phi (cos theta)))
    by (intros; apply check_contact_degree_get_shape_radius_degree).
  rewrite sphere_partial_radius_run by lia. reflexivity.
Qed.

(** On a sphere whose expansion factors are all 1, a point at distance at
    most the radius is in contact. *)
Lemma sphere_check_contact (phi theta d finalrad : R) :
  (1 <= maxshexpan avec)%nat ->
  (forall n, (n <= maxshexpan avec)%nat -> expfacts avec sht n = 1) ->
  d <= shcoeffs avec sht 0 * sqrt (1 / (4 * PI)) ->
  check_contact avec sht phi theta d finalrad
  = (true, shcoeffs avec sht 0 * sqrt (1 / (4 * PI))).
Proof.
  intros HN He Hd. unfold check_contact.
  rewrite He by lia. rewrite Rmult_1_l.
  assert (H0 : Rgtb d (shcoeffs avec sht 0 * sqrt (1 / (4 * PI))) = false)
    by (apply Rgtb_false; lra).
  rewrite H0.
  rewrite check_contact_while_no_exit; [| exact HN | lia |].
  - cbv zeta. rewrite sphere_partial_radius_run by lia. simpl rad_val.
    rewrite He by lia. rewrite Rmult_1_l.
    apply Rleb_true in Hd. rewrite Hd. reflexivity.
  - intros n Hn. rewrite sphere_partial_radius_run by lia. simpl rad_val.
    rewrite He by lia. lra.
Qed.

End Sphere.

(** *** The unit sphere *)

#[local] Existing Instance Concrete.math_spherharm.
#[local] Existing Instance Concrete.cmath.

Lemma nth_repeat_lt {A : Type} (v d : A) (n k : nat) :
  (k < n)%nat -> nth k (repeat v n) d = v.
Proof.
  revert k; induction n as [|n IH]; intros [|k] H; simpl; try lia; auto.
  apply IH; lia.
Qed.

Lemma sqrt_4PI_radius : sqrt (4 * PI) * sqrt (1 / (4 * PI)) = 1.
Proof.
  assert (H : 0 < 4 * PI) by (pose proof PI_RGT_0; lra).
  rewrite <- sqrt_mult_alt by lra.
  replace (4 * PI * (1 / (4 * PI))) with 1 by (field; lra).
  apply sqrt_1.
Qed.

Lemma unit_sphere_coeffs (k : nat) :
  (1 <= k)%nat -> shcoeffs Concrete.unit_sphere 0 k = 0.
Proof.
  intros Hk. destruct k as [|k]; [lia|].
  unfold shcoeffs, at2, Concrete.unit_sphere, Concrete.sphere_coeffs.
  cbn [shcoeffs_byshape nth]. apply nth_repeat_any.
Qed.

Lemma unit_sphere_expfacts (n : nat) :
  (n <= 20)%nat -> expfacts Concrete.unit_sphere 0 n = 1.
Proof.
  intros Hn. unfold expfacts, at2, Concrete.unit_sphere.
  cbn [expfacts_byshape nth]. apply nth_repeat_lt. lia.
Qed.

Lemma unit_sphere_radius : shcoeffs Concrete.unit_sphere 0 0 * sqrt (1 / (4 * PI)) = 1.
Proof. apply sqrt_4PI_radius. Qed.

Lemma unit_sphere_check_contact {MS : MathSpherharm} (phi theta d finalrad : R) :
  d <= 1 ->
  check_contact Concrete.unit_sphere 0 phi theta d finalrad = (true, 1).
Proof.
  intros Hd.
  rewrite (@sphere_check_contact MS Concrete.unit_sphere 0 unit_sphere_coeffs).
  - rewrite unit_sphere_radius. reflexivity.
  - simpl; lia.
  - exact unit_sphere_expfacts.
  - rewrite unit_sphere_radius. exact Hd.
Qed.

Lemma unit_sphere_get_shape_radius {MS : MathSpherharm} (theta phi : R) :
  get_shape_radius Concrete.unit_sphere 0 theta phi = 1.
Proof.
  rewrite sphere_get_shape_radius by exact unit_sphere_coeffs.
  apply unit_sphere_radius.
Qed.

Lemma C6_witness :
  check_contact Concrete.unit_sphere 0 0 0 (1 / 2) 0 = (true, 1)
  /\ 1 = get_shape_radius Concrete.unit_sphere 0 0 0.
Proof.
  assert (H : check_contact Concrete.unit_sphere 0 0 0 (1 / 2) 0 = (true, 1))
    by (apply unit_sphere_check_contact; lra).
  split; [exact H|].
  exact (@C6_check_contact_radius _ Concrete.unit_sphere 0%nat 0 0 (1 / 2) 0 1 H).
Defined.

(** ** [doRotate] *)

Lemma rotate_store_inner_length (aa : table2c) (n : nat) (l : list nat)
      (out : list R) (loc : nat) :
  List.length
    (fst (fold_left
            (fun (st : list R * nat) (m : nat) =>
               let '(out, loc) := st in
               (upd (loc + 1) (snd (aa n (m + n)%nat))
                    (upd loc (fst (aa n (m + n)%nat)) out),
                (loc + 2)%nat))
            l (out, loc)))
  = List.length out.
Proof.
  revert out loc. induction l as [|m l IH]; intros out loc; simpl;
    [reflexivity|].
  rewrite IH, !length_upd. reflexivity.
Qed.

Lemma rotate_store_length (avec : AtomVecSpherharm) (aa : table2c)
      (coeffout : list R) :
  List.length (rotate_store avec aa coeffout) = List.length coeffout.
Proof.
  unfold rotate_store. generalize (seq 0 (maxshexpan avec + 1)).
  intros l. revert coeffout. induction l as [|n l IH]; intros out; simpl;
    [reflexivity|].
  rewrite IH. apply rotate_store_inner_length.
Qed.

(** C7, as the specification states it, fails: for [beta = -1], outside
    [[0, pi]], the routine reports no error and produces coefficients. *)
Lemma C7_counterexample :
  ~ (0 <= -1 <= PI)
  /\ is_error (doRotate Concrete.unit_sphere 0
                        (Concrete.sphere_coeffs (sqrt (4 * PI)))
                        (repeat 0 462) 0 (-1) 0) = false.
Proof.
  split; [lra|].
  unfold doRotate.
  repeat match goal with
         | |- context [if ?c then _ else _] => destruct c
         end; reflexivity.
Qed.

(** C7 (amended).  The coefficient-rotation routine makes no range check on
    the Euler angle [beta] and has no failure path: for every [beta],
    inside [[0, pi]] or not, it ends normally and produces the output
    coefficients, in an array of the size it was given.  Keeping [beta] in
    range is left to the caller. *)
Theorem C7_doRotate_total {MS : MathSpherharm} (avec : AtomVecSpherharm)
        (sht : nat) (coeffin coeffout : list R) (alpha beta gamma : R) :
  exists out,
    doRotate avec sht coeffin coeffout alpha beta gamma = Ok out
    /\ List.length out = List.length coeffout.
Proof.
  unfold doRotate.
  repeat match goal with
         | |- context [if ?c then _ else _] => destruct c
         end;
    (eexists; split; [reflexivity | apply rotate_store_length]).
Qed.

(** ** The quadrature grid *)

Section QuadratureGrid.
Context {MS : MathSpherharm}.

(** The loop that fills the weights and the abscissae, from any arrays. *)
Lemma nodes_loop (Q m : nat) (w0 ab0 : list R) :
  (m <= List.length ab0)%nat ->
  let st :=
    fold_left
      (fun (st : list R * list R) (i : nat) =>
         let '(w, abscissa) := st in
         let p := GLPair Q (i + 1) in
         (upd i (weight p) w, upd i (x p) abscissa))
      (seq 0 m) (w0, ab0) in
  List.length (snd st) = List.length ab0
  /\ forall i, (i < m)%nat -> nth i (snd st) 0 = x (GLPair Q (i + 1)).
Proof.
  intros Hm. cbv zeta. induction m as [|m IH].
  - simpl. split; [reflexivity | intros; lia].
  - rewrite seq_S, fold_left_app. simpl "+".
    destruct IH as [Hlen Hnth]; [lia|].
    destruct (fold_left _ (seq 0 m) (w0, ab0)) as [w ab]. simpl in *.
    split; [rewrite length_upd; exact Hlen|].
    intros i Hi. destruct (Nat.eq_dec i m) as [->|Hne].
    + apply nth_upd_eq. lia.
    + rewrite nth_upd_neq by lia. apply Hnth. lia.
Qed.

Lemma abscissa_range (Q i : nat) : -1 <= x (GLPair Q i) <= 1.
Proof. unfold x. apply COS_bound. Qed.

(** The inner loop of the grid, over [j], for a fixed [i]. *)
Let inner (ab : list R) (i : nat) :=
  fun (st : list R * list R * nat) (j : nat) =>
    let '(a0, a1, count) := st in
    (upd count (0.5 * MY_PI * (nth i ab 0 + 1)) a0,
     upd count (MY_PI * (nth j ab 0 + 1)) a1,
     S count).

Lemma angles_inner (ab : list R) (i : nat) (len j0 : nat)
      (a0 a1 : list R) (c : nat) :
  (c + len <= List.length a0)%nat -> (c + len <= List.length a1)%nat ->
  exists a0' a1',
    fold_left (inner ab i) (seq j0 len) (a0, a1, c) = (a0', a1', (c + len)%nat)
    /\ List.length a0' = List.length a0 /\ List.length a1' = List.length a1
    /\ (forall t, (t < len)%nat ->
                  nth (c + t) a0' 0 = 0.5 * MY_PI * (nth i ab 0 + 1)
                  /\ nth (c + t) a1' 0 = MY_PI * (nth (j0 + t) ab 0 + 1))
    /\ (forall k, (k < c)%nat ->
                  nth k a0' 0 = nth k a0 0 /\ nth k a1' 0 = nth k a1 0).
Proof.
  revert j0 a0 a1 c. induction len as [|len IH]; intros j0 a0 a1 c H0 H1.
  - exists a0, a1. simpl. rewrite Nat.add_0_r.
    repeat split; intros; lia.
  - simpl seq. simpl fold_left.
    destruct (IH (S j0) (upd c (0.5 * MY_PI * (nth i ab 0 + 1)) a0)
                 (upd c (MY_PI * (nth j0 ab 0 + 1)) a1) (S c))
      as (a0' & a1' & Hf & Hl0 & Hl1 & Hin & Hout);
      [rewrite length_upd; lia | rewrite length_upd; lia |].
    exists a0', a1'. rewrite Hf.
    rewrite length_upd in Hl0, Hl1.
    split; [f_equal; lia|]. split; [exact Hl0|]. split; [exact Hl1|].
    split.
    + intros [|t] Ht.
      * rewrite !Nat.add_0_r. destruct (Hout c ltac:(lia)) as [E0 E1].
        rewrite E0, E1, !nth_upd_eq by lia. split; reflexivity.
      * destruct (Hin t ltac:(lia)) as [E0 E1].
        replace (c + S t)%nat with (S c + t)%nat by lia.
        replace (j0 + S t)%nat with (S j0 + t)%nat by lia.
        split; assumption.
    + intros k Hk. destruct (Hout k ltac:(lia)) as [E0 E1].
      rewrite E0, E1, !nth_upd_neq by lia. split; reflexivity.
Qed.

Lemma angles_outer (ab : list R) (Q : nat) (len i0 : nat)
      (a0 a1 : list R) (c : nat) :
  (c + len * Q <= List.length a0)%nat -> (c + len * Q <= List.length a1)%nat ->
  exists a0' a1',
    fold_left (fun st i => fold_left (inner ab i) (seq 0 Q) st)
              (seq i0 len) (a0, a1, c)
    = (a0', a1', (c + len * Q)%nat)
    /\ (forall s t, (s < len)%nat -> (t < Q)%nat ->
                    nth (c + s * Q + t) a0' 0
                    = 0.5 * MY_PI * (nth (i0 + s) ab 0 + 1)
                    /\ nth (c + s * Q + t) a1' 0 = MY_PI * (nth t ab 0 + 1))
    /\ (forall k, (k < c)%nat ->
                  nth k a0' 0 = nth k a0 0 /\ nth k a1' 0 = nth k a1 0).
Proof.
  revert i0 a0 a1 c. induction len as [|len IH]; intros i0 a0 a1 c H0 H1.
  - exists a0, a1. simpl. rewrite Nat.add_0_r.
    repeat split; intros; lia.
  - simpl seq. simpl fold_left.
    destruct (@angles_inner ab i0 Q 0 a0 a1 c)
      as (b0 & b1 & Hf & Hl0 & Hl1 & Hin & Hout); [simpl in *; lia ..|].
    rewrite Hf.
    destruct (IH (S i0) b0 b1 (c + Q)%nat)
      as (a0' & a1' & Hg & Hin' & Hout'); [simpl in *; lia ..|].
    exists a0', a1'. rewrite Hg.
    split; [f_equal; simpl; lia|]. split.
    + intros [|s] t Hs Ht.
      * simpl. rewrite !Nat.add_0_r.
        destruct (Hout' (c + t)%nat ltac:(lia)) as [E0 E1].
        destruct (Hin t Ht) as [F0 F1].
        rewrite E0, E1, F0, F1. split; reflexivity.
      * destruct (Hin' s t ltac:(lia) Ht) as [E0 E1].
        replace (c + S s * Q + t)%nat with (c + Q + s * Q + t)%nat
          by (simpl; lia).
        replace (i0 + S s)%nat with (S i0 + s)%nat by lia.
        split; assumption.
    + intros k Hk. destruct (Hout' k ltac:(lia)) as [E0 E1].
      destruct (Hout k Hk) as [F0 F1].
      rewrite E0, E1, F0, F1. split; reflexivity.
Qed.

(** C8.  The grid built at shape initialisation maps the Gauss-Legendre
    abscissae [x] on [[-1, 1]] to angles by [theta_i = (pi/2)(x_i + 1)] and
    [phi_j = pi (x_j + 1)] at every grid index [(i, j)], stored at
    [i * Q + j]; so [theta] lies in [[0, pi]] and [phi] in [[0, 2 pi]]. *)
Theorem C8_quadrature_grid (Q nsh : nat) (coeffs : list (list R))
        (i j : nat) :
  (i < Q)%nat -> (j < Q)%nat ->
  let a := get_quadrature_values (process_args_allocate Q nsh coeffs) in
  let theta_i := nth (i * Q + j) (fst (angles a)) 0 in
  let phi_j := nth (i * Q + j) (snd (angles a)) 0 in
  theta_i = PI / 2 * (x (GLPair Q (i + 1)) + 1)
  /\ phi_j = PI * (x (GLPair Q (j + 1)) + 1)
  /\ 0 <= theta_i <= PI
  /\ 0 <= phi_j <= 2 * PI.
Proof.
  intros Hi Hj a theta_i phi_j.
  assert (E : theta_i = PI / 2 * (x (GLPair Q (i + 1)) + 1)
              /\ phi_j = PI * (x (GLPair Q (j + 1)) + 1)).
  { unfold theta_i, phi_j, a, get_quadrature_values.
    cbn [num_quadrature weights angles process_args_allocate].
    unfold quadrature_nodes.
    destruct (@nodes_loop Q Q (repeat 0 Q) (repeat 0 Q)) as [_ Hab];
      [rewrite repeat_length; lia|].
    destruct (fold_left _ (seq 0 Q) (repeat 0 Q, repeat 0 Q)) as [w ab].
    simpl in Hab. unfold quadrature_angles. cbn [fst snd].
    destruct (@angles_outer ab Q Q 0 (repeat 0 (Q * Q)) (repeat 0 (Q * Q)) 0)
      as (a0 & a1 & Hf & Hin & _); [rewrite repeat_length; lia ..|].
    change (fun (st : list R * list R * nat) (i0 : nat) =>
              fold_left (inner ab i0) (seq 0 Q) st)
      with (fun (st : list R * list R * nat) (i0 : nat) =>
              fold_left
                (fun (st0 : list R * list R * nat) (j0 : nat) =>
                   let '(a2, a3, count) := st0 in
                   (upd count (0.5 * MY_PI * (nth i0 ab 0 + 1)) a2,
                    upd count (MY_PI * (nth j0 ab 0 + 1)) a3, S count))
                (seq 0 Q) st) in Hf.
    rewrite Hf. cbn [set_quadrature angles fst snd].
    destruct (Hin i j Hi Hj) as [E0 E1]. simpl in E0, E1.
    rewrite E0, E1, !Hab by lia. unfold MY_PI.
    replace 0.5 with (1 / 2) by lra. split; field. }
  destruct E as [E0 E1]. split; [exact E0|]. split; [exact E1|].
  pose proof (abscissa_range Q (i + 1)). pose proof (abscissa_range Q (j + 1)).
  pose proof PI_RGT_0. rewrite E0, E1. split; split; nra.
Qed.

End QuadratureGrid.

Lemma C8_witness :
  ((0 < 2)%nat /\ (1 < 2)%nat)
  /\ (let a := get_quadrature_values
                 (process_args_allocate 2 1
                    [Concrete.sphere_coeffs (sqrt (4 * PI))]) in
      let theta_i := nth (0 * 2 + 1) (fst (angles a)) 0 in
      let phi_j := nth (0 * 2 + 1) (snd (angles a)) 0 in
      theta_i = PI / 2 * (x (GLPair 2 (0 + 1)) + 1)
      /\ phi_j = PI * (x (GLPair 2 (1 + 1)) + 1)
      /\ 0 <= theta_i <= PI
      /\ 0 <= phi_j <= 2 * PI).
Proof.
  split; [split; lia|].
  apply (@C8_quadrature_grid Concrete.math_spherharm 2 1
           [Concrete.sphere_coeffs (sqrt (4 * PI))] 0 1);
    lia.
Defined.

(** ** Expansion factors *)

Lemma at2_upd2_same (b : list (list R)) (s k : nat) (v : R) :
  (s < List.length b)%nat -> (k < List.length (nth s b []))%nat ->
  at2 (upd2 s k v b) s k = v.
Proof.
  intros Hs Hk. unfold at2, upd2.
  rewrite nth_upd_eq by exact Hs. apply nth_upd_eq. exact Hk.
Qed.

Lemma at2_upd2_other_index (b : list (list R)) (s k k' : nat) (v : R) :
  (s < List.length b)%nat -> k <> k' ->
  at2 (upd2 s k v b) s k' = at2 b s k'.
Proof.
  intros Hs Hk. unfold at2, upd2.
  rewrite nth_upd_eq by exact Hs. apply nth_upd_neq. exact Hk.
Qed.

Lemma row_upd2_other (b : list (list R)) (s s' k : nat) (v : R) :
  s <> s' -> nth s' (upd2 s k v b) [] = nth s' b [].
Proof. intros Hs. unfold upd2. apply nth_upd_neq. exact Hs. Qed.

Lemma row_upd2_length (b : list (list R)) (s s' k : nat) (v : R) :
  List.length (nth s' (upd2 s k v b) []) = List.length (nth s' b []).
Proof.
  unfold upd2. destruct (Nat.eq_dec s s') as [<-|Hne].
  - destruct (Nat.lt_ge_cases s (List.length b)) as [Hlt|Hge].
    + rewrite nth_upd_eq by exact Hlt. apply length_upd.
    + rewrite !nth_overflow; [reflexivity | lia | rewrite length_upd; lia].
  - rewrite nth_upd_neq by exact Hne. reflexivity.
Qed.

Lemma upd2_length (b : list (list R)) (s k : nat) (v : R) :
  List.length (upd2 s k v b) = List.length b.
Proof. unfold upd2. apply length_upd. Qed.

Section ExpansionFactors.
Context {MS : MathSpherharm}.
Variable a : AtomVecSpherharm.
Let N := maxshexpan a.

Lemma below_last_lt (n : nat) : below_last a n = true <-> (n < N)%nat.
Proof. unfold below_last, N. rewrite Z.leb_le. lia. Qed.

(** One degree: the clamp below by 1, and nothing else of [expfactors]
    changes. *)
Lemma expfac_degree_spec (sht : nat) (g : expfac_grid) (e : list R) (n : nat) :
  let e' := snd (expfac_degree a sht (g, e) n) in
  List.length e' = List.length e
  /\ (forall k, k <> n -> nth k e' 0 = nth k e 0)
  /\ ((n < N)%nat -> (n < List.length e)%nat -> 1 <= nth n e' 0)
  /\ (~ (n < N)%nat -> e' = e).
Proof.
  unfold expfac_degree. cbv zeta.
  match goal with
  | |- context [fold_left ?f (seq 0 (num_quadrature a)) ?g0] =>
    generalize (fold_left f (seq 0 (num_quadrature a)) g0)
  end.
  intros g1. destruct (below_last a n) eqn:Hb.
  - apply below_last_lt in Hb.
    destruct (Rltb (nth n (upd n (max_ratio (ratios g1) (grid_k g1)) e) 0) 1)
      eqn:Hc; cbn [snd].
    + rewrite !length_upd. split; [reflexivity|]. split.
      * intros k Hk. rewrite !nth_upd_neq by lia. reflexivity.
      * split; [|intros; lia]. intros _ Hn.
        rewrite nth_upd_eq by (rewrite length_upd; exact Hn). lra.
    + rewrite !length_upd. split; [reflexivity|]. split.
      * intros k Hk. rewrite !nth_upd_neq by lia. reflexivity.
      * split; [|intros; lia]. intros _ Hn.
        apply Rltb_false in Hc. lra.
  - cbn [snd]. split; [reflexivity|]. split; [reflexivity|].
    split; [|reflexivity].
    intros Hn. apply below_last_lt in Hn. congruence.
Qed.

(** The loop over the degrees. *)
Lemma expfac_degrees_spec (sht : nat) (m : nat) (g : expfac_grid) (e : list R) :
  (N < List.length e)%nat ->
  let e' := snd (fold_left (expfac_degree a sht) (seq 0 m) (g, e)) in
  List.length e' = List.length e
  /\ (forall k, (m <= k \/ N <= k)%nat -> nth k e' 0 = nth k e 0)
  /\ (forall n, (n < m)%nat -> (n < N)%nat -> 1 <= nth n e' 0).
Proof.
  intros He. cbv zeta. induction m as [|m IH].
  - simpl. split; [reflexivity|]. split; [reflexivity | intros; lia].
  - rewrite seq_S, fold_left_app, Nat.add_0_l. cbn [fold_left].
    destruct IH as (Hlen & Hkeep & Hge).
    destruct (fold_left (expfac_degree a sht) (seq 0 m) (g, e)) as [g1 e1].
    cbn [snd] in *.
    destruct (expfac_degree_spec sht g1 e1 m) as (Hlen' & Hkeep' & Hge' & Hsame).
    split; [lia|]. split.
    + intros k Hk. destruct (Nat.lt_ge_cases m N) as [Hlt|Hnlt].
      * rewrite Hkeep' by lia. apply Hkeep. lia.
      * rewrite Hsame by lia. apply Hkeep. lia.
    + intros n Hn HnN. destruct (Nat.eq_dec n m) as [->|Hne].
      * apply Hge'; lia.
      * rewrite Hkeep' by lia. apply Hge; lia.
Qed.

(** The running product, from degree [N - 1] down to [m]. *)
Lemma expfac_accumulate_spec (sht : nat) (len m : nat)
      (factor : R) (e : list R) (b : list (list R)) :
  (m + len = N)%nat ->
  1 <= factor ->
  (forall n, (n < N)%nat -> 1 <= nth n e 0) ->
  (sht < List.length b)%nat ->
  (N < List.length (nth sht b []))%nat ->
  let st := fold_left (expfac_accumulate sht) (rev (seq m len)) (factor, e, b) in
  let factor' := fst (fst st) in
  let e' := snd (fst st) in
  let b' := snd st in
  1 <= factor'
  /\ List.length e' = List.length e
  /\ (forall k, (k < m \/ N <= k)%nat -> nth k e' 0 = nth k e 0)
  /\ List.length b' = List.length b
  /\ (forall s, List.length (nth s b' []) = List.length (nth s b []))
  /\ (forall s, s <> sht -> nth s b' [] = nth s b [])
  /\ (forall n, (m <= n < N)%nat ->
                1 <= at2 b' sht n <= factor'
                /\ ((n + 1 < N)%nat -> at2 b' sht (n + 1) <= at2 b' sht n)).
Proof.
  revert m. induction len as [|len IH]; intros m Hm Hf He Hs Hrow; cbv zeta.
  - simpl. repeat split; try reflexivity; try assumption; intros; lia.
  - simpl seq. simpl rev. rewrite fold_left_app. cbn [fold_left].
    destruct (IH (S m) ltac:(lia) Hf He Hs Hrow)
      as (Hf1 & Hle & Hek & Hlb & Hrl & Hro & Hmono).
    destruct (fold_left (expfac_accumulate sht) (rev (seq (S m) len))
                        (factor, e, b)) as [[f1 e1] b1].
    cbn [fst snd] in *. unfold expfac_accumulate. cbn [fst snd].
    assert (Hem : 1 <= nth m e1 0) by (rewrite Hek by lia; apply He; lia).
    assert (Hf2 : f1 <= f1 * (nth m e1 0 * safety_factor))
      by (unfold safety_factor; nra).
    split; [lra|]. split; [rewrite length_upd; exact Hle|]. split.
    { intros k Hk. rewrite nth_upd_neq by lia. apply Hek. lia. }
    split; [rewrite upd2_length; exact Hlb|]. split.
    { intros s. rewrite row_upd2_length. apply Hrl. }
    split.
    { intros s Hne. rewrite row_upd2_other by congruence. apply Hro. exact Hne. }
    intros n Hn. destruct (Nat.eq_dec n m) as [->|Hne].
    + rewrite at2_upd2_same by (rewrite ?Hlb, ?Hrl; lia).
      split; [lra|]. intros Hn1.
      rewrite at2_upd2_other_index by lia.
      destruct (Hmono (m + 1)%nat ltac:(lia)) as [[_ Hub] _]. lra.
    + rewrite at2_upd2_other_index by lia.
      destruct (Hmono n ltac:(lia)) as [[Hlb1 Hub] Hstep].
      split; [lra|]. intros Hn1.
      rewrite at2_upd2_other_index by lia. apply Hstep. exact Hn1.
Qed.

(** One shape. *)
Lemma expfac_shape_spec (g : expfac_grid) (e : list R) (b : list (list R))
      (sht : nat) :
  List.length e = (N + 1)%nat -> nth N e 0 = 1 ->
  (sht < List.length b)%nat ->
  (N < List.length (nth sht b []))%nat ->
  let st := expfac_shape a (g, e, b) sht in
  let e' := snd (fst st) in
  let b' := snd st in
  List.length e' = (N + 1)%nat /\ nth N e' 0 = 1
  /\ List.length b' = List.length b
  /\ (forall s, List.length (nth s b' []) = List.length (nth s b []))
  /\ (forall s, s <> sht -> nth s b' [] = nth s b [])
  /\ row_monotone N b' sht.
Proof.
  intros Hle HeN Hs Hrow. cbv zeta. unfold expfac_shape. fold N.
  match goal with
  | |- context [fold_left (expfac_degree a sht) (seq 0 (N + 1)) (?g0, e)] =>
    destruct (@expfac_degrees_spec sht (N + 1) g0 e ltac:(lia))
      as (Hl1 & Hk1 & Hge1);
    destruct (fold_left (expfac_degree a sht) (seq 0 (N + 1)) (g0, e))
      as [g1 e1]
  end.
  cbn [snd] in Hl1, Hk1, Hge1.
  assert (HN1 : nth N e1 0 = 1) by (rewrite Hk1 by lia; exact HeN).
  destruct (@expfac_accumulate_spec sht N 0 (nth N e1 0) e1 b)
    as (Hf2 & Hl2 & Hk2 & Hlb & Hrl & Hro & Hmono);
    [lia | lra | intros n Hn; apply Hge1; lia | exact Hs | exact Hrow |].
  destruct (fold_left (expfac_accumulate sht) (rev (seq 0 N))
                      (nth N e1 0, e1, b)) as [[f2 e2] b2].
  cbn [fst snd] in *.
  split; [lia|]. split; [rewrite Hk2 by lia; exact HN1|].
  split; [rewrite upd2_length; exact Hlb|]. split.
  { intros s. rewrite row_upd2_length. apply Hrl. }
  split.
  { intros s Hne. rewrite row_upd2_other by congruence. apply Hro. exact Hne. }
  assert (HNN : at2 (upd2 sht N 1.0 b2) sht N = 1).
  { rewrite at2_upd2_same by (rewrite ?Hlb, ?Hrl; lia). lra. }
  split; [|exact HNN].
  intros n Hn. destruct (Nat.eq_dec (n + 1) N) as [E|Hne].
  - rewrite E, HNN. rewrite at2_upd2_other_index by lia.
    destruct (Hmono n ltac:(lia)) as [[H1 _] _]. exact H1.
  - rewrite !at2_upd2_other_index by lia.
    destruct (Hmono n ltac:(lia)) as [_ Hstep]. apply Hstep. lia.
Qed.

(** All shapes. *)
Lemma expfac_shapes_spec (m : nat) (g : expfac_grid) (e : list R)
      (b : list (list R)) :
  List.length e = (N + 1)%nat -> nth N e 0 = 1 ->
  (m <= List.length b)%nat ->
  (forall s, (s < m)%nat -> (N < List.length (nth s b []))%nat) ->
  let st := fold_left (expfac_shape a) (seq 0 m) (g, e, b) in
  let e' := snd (fst st) in
  let b' := snd st in
  List.length e' = (N + 1)%nat /\ nth N e' 0 = 1
  /\ List.length b' = List.length b
  /\ (forall s, List.length (nth s b' []) = List.length (nth s b []))
  /\ (forall s, (s < m)%nat -> row_monotone N b' s).
Proof.
  intros Hle HeN. cbv zeta. induction m as [|m IH]; intros Hm Hrows.
  - simpl. repeat split; try assumption; intros; lia.
  - rewrite seq_S, fold_left_app, Nat.add_0_l. cbn [fold_left].
    destruct IH as (Hl1 & HN1 & Hlb1 & Hrl1 & Hgood1);
      [lia | intros; apply Hrows; lia |].
    destruct (fold_left (expfac_shape a) (seq 0 m) (g, e, b)) as [[g1 e1] b1].
    cbn [fst snd] in *.
    destruct (@expfac_shape_spec g1 e1 b1 m Hl1 HN1)
      as (Hl2 & HN2 & Hlb2 & Hrl2 & Hro2 & Hgood2);
      [lia | rewrite Hrl1; apply Hrows; lia |].
    split; [exact Hl2|]. split; [exact HN2|]. split; [lia|]. split.
    { intros s. rewrite Hrl2. apply Hrl1. }
    intros s Hs. destruct (Nat.eq_dec s m) as [->|Hne]; [exact Hgood2|].
    destruct (Hgood1 s ltac:(lia)) as [Hmono HNs].
    unfold row_monotone, at2 in *. rewrite Hro2 by congruence.
    split; assumption.
Qed.

Lemma calcexpansionfactors_gauss_monotone (sht : nat) :
  (nshtypes a <= List.length (expfacts_byshape a))%nat ->
  (forall s, (s < nshtypes a)%nat ->
             (N < List.length (nth s (expfacts_byshape a) []))%nat) ->
  (sht < nshtypes a)%nat ->
  row_monotone N (expfacts_byshape (calcexpansionfactors_gauss a)) sht.
Proof.
  intros Hlen Hrows Hs. unfold calcexpansionfactors_gauss. fold N.
  match goal with
  | |- context [fold_left (expfac_shape a) _ (?g0, ?e0, ?b0)] =>
    destruct (@expfac_shapes_spec (nshtypes a) g0 e0 b0)
      as (_ & _ & _ & _ & Hgood);
    [ rewrite length_upd, repeat_length; reflexivity
    | rewrite nth_upd_eq by (rewrite repeat_length; lia); lra
    | exact Hlen
    | exact Hrows
    | destruct (fold_left (expfac_shape a) (seq 0 (nshtypes a)) (g0, e0, b0))
        as [[g1 e1] b1] ]
  end.
  cbn [fst snd set_expfacts expfacts_byshape] in *.
  apply Hgood. exact Hs.
Qed.

End ExpansionFactors.

Lemma get_quadrature_values_keeps {MS : MathSpherharm} (a : AtomVecSpherharm) :
  maxshexpan (get_quadrature_values a) = maxshexpan a
  /\ nshtypes (get_quadrature_values a) = nshtypes a
  /\ expfacts_byshape (get_quadrature_values a) = expfacts_byshape a.
Proof.
  unfold get_quadrature_values.
  destruct (quadrature_nodes _ _) as [w ab].
  destruct (quadrature_angles _ _ _) as [[a0 a1] c].
  repeat split.
Qed.

(** What initialisation keeps, and the order of the factors it stores. *)
Lemma initialise_keeps {MS : MathSpherharm} (Q nsh : nat)
      (coeffs : list (list R)) :
  maxshexpan (initialise Q nsh coeffs) = 20%nat
  /\ shcoeffs_byshape (initialise Q nsh coeffs) = coeffs.
Proof.
  unfold initialise, calcexpansionfactors_gauss.
  destruct (fold_left _ _ _) as [[g e] b].
  cbn [set_expfacts maxshexpan shcoeffs_byshape].
  unfold get_quadrature_values.
  destruct (quadrature_nodes _ _) as [w ab].
  destruct (quadrature_angles _ _ _) as [[a0 a1] c].
  split; reflexivity.
Qed.

Lemma initialise_row_monotone {MS : MathSpherharm} (Q nsh : nat)
      (coeffs : list (list R)) (sht : nat) :
  (sht < nsh)%nat ->
  row_monotone 20 (expfacts_byshape (initialise Q nsh coeffs)) sht.
Proof.
  intros Hs.
  destruct (get_quadrature_values_keeps (process_args_allocate Q nsh coeffs))
    as (HN & Hns & Hexp).
  pose proof (@calcexpansionfactors_gauss_monotone MS
                (get_quadrature_values (process_args_allocate Q nsh coeffs))
                sht) as H.
  rewrite HN, Hns, Hexp in H.
  cbn [nshtypes expfacts_byshape maxshexpan process_args_allocate] in H.
  apply H.
  - rewrite repeat_length. lia.
  - intros s Hs'. rewrite nth_repeat_lt by exact Hs'.
    rewrite repeat_length. lia.
  - exact Hs.
Qed.

Lemma row_monotone_ge_1 (N : nat) (b : list (list R)) (sht : nat) :
  row_monotone N b sht -> forall n, (n <= N)%nat -> 1 <= at2 b sht n.
Proof.
  intros [Hmono Hlast] n Hn.
  replace n with (N - (N - n))%nat by lia.
  generalize (N - n)%nat as k. induction k as [|k IH].
  - rewrite Nat.sub_0_r, Hlast. lra.
  - destruct (Nat.le_gt_cases N k) as [Hle|Hgt].
    + replace (N - S k)%nat with (N - k)%nat by lia. exact IH.
    + specialize (Hmono (N - S k)%nat ltac:(lia)).
      replace (N - S k + 1)%nat with (N - k)%nat in Hmono by lia. lra.
Qed.




(** ** Shapes of revolution of degree 2: coefficients 0 and 10 only *)

Section Spheroid.
Context {MS : MathSpherharm}.
Variable avec : AtomVecSpherharm.
Variable sht : nat.
Hypothesis spheroid :
  forall k, (1 <= k)%nat -> k <> 10%nat -> shcoeffs avec sht k = 0.

Let m_body (n : nat) (phi x_val : R) :=
  fun (st : R * list R * list R * nat) (m : nat) =>
    let '(rad, m1, m2, loc) := st in
    let P_n_m := plegendre_recycle n m x_val (nth m m1 0) (nth m m2 0) in
    let m2 := upd m (nth m m1 0) m2 in
    let m1 := upd m P_n_m m1 in
    let mphi := INR m * phi in
    (rad + (shcoeffs avec sht loc * cos mphi
            - shcoeffs avec sht (loc + 1) * sin mphi) * 2 * P_n_m,
     m1, m2, (loc - 2)%nat).

Local Ltac spheroid_zero :=
  repeat match goal with
         | |- context [shcoeffs avec sht ?k] =>
           rewrite (spheroid k) by lia
         end.

Lemma spheroid_m_loop (n : nat) (phi x_val : R) (l : list nat)
      (rad : R) (m1 m2 : list R) (loc : nat) :
  (2 * List.length l + 9 <= loc)%nat ->
  fst (fst (fst (fold_left (m_body n phi x_val) l (rad, m1, m2, loc)))) = rad
  /\ snd (fold_left (m_body n phi x_val) l (rad, m1, m2, loc))
     = (loc - 2 * List.length l)%nat.
Proof.
  revert rad m1 m2 loc. induction l as [|m l IH]; intros rad m1 m2 loc Hloc.
  - simpl. split; [reflexivity | lia].
  - simpl List.length in *.
    change (fold_left (m_body n phi x_val) (m :: l) (rad, m1, m2, loc))
      with (fold_left (m_body n phi x_val) l
                      (m_body n phi x_val (rad, m1, m2, loc) m)).
    unfold m_body at 2 4. cbv zeta beta iota.
    rewrite (spheroid loc), (spheroid (loc + 1)) by lia.
    match goal with
    | |- context [fold_left _ l (?r, ?a, ?b, ?c)] =>
      destruct (IH r a b c ltac:(lia)) as [H1 H2]
    end.
    split; [rewrite H1; ring | rewrite H2; lia].
Qed.

(** Degree 2 adds its [m = 0] term; every other degree adds nothing. *)
Lemma spheroid_check_contact_degree (phi x_val : R) (n : nat) (s : sh_buf) :
  (1 <= n)%nat ->
  rad_val (check_contact_degree avec sht phi x_val n s)
  = rad_val s
    + (if (n =? 2)%nat then shcoeffs avec sht 10 * plegendre 2 0 x_val else 0).
Proof.
  intros Hn. unfold check_contact_degree.
  destruct (n =? 1)%nat eqn:E1.
  - apply Nat.eqb_eq in E1. subst n. simpl.
    rewrite (spheroid 4), (spheroid 2), (spheroid 3) by lia. ring.
  - destruct (n =? 2)%nat eqn:E2.
    + apply Nat.eqb_eq in E2. subst n. simpl.
      rewrite (spheroid 6), (spheroid 7), (spheroid 8), (spheroid 9) by lia.
      ring.
    + apply Nat.eqb_neq in E1. apply Nat.eqb_neq in E2.
      match goal with
      | |- context [fold_left ?f ?l (?r, ?a, ?b, ?c)] =>
        pose proof (@spheroid_m_loop n phi x_val l r a b c) as Hl;
        change f with (m_body n phi x_val);
        destruct (fold_left (m_body n phi x_val) l (r, a, b, c))
          as [[[rad m1] m2] loc]
      end.
      rewrite length_seq in Hl.
      assert (HP : (6 * n + 2 <= (n + 1) * (n + 2))%nat) by nia.
      destruct Hl as [Hrad Hloc]; [lia|]. simpl in Hrad, Hloc. subst rad loc.
      simpl.
      spheroid_zero.
      ring.
Qed.

Lemma spheroid_run_high (phi x_val : R) (a len : nat) (s : sh_buf) :
  (3 <= a)%nat ->
  rad_val (fold_left (fun s k => check_contact_degree avec sht phi x_val k s)
                     (seq a len) s) = rad_val s.
Proof.
  revert a s. induction len as [|len IH]; intros a s Ha; simpl;
    [reflexivity|].
  rewrite IH by lia. rewrite spheroid_check_contact_degree by lia.
  destruct (Nat.eqb_spec a 2) as [E|_]; [lia | ring].
Qed.

Lemma spheroid_run (phi x_val : R) (n : nat) (s : sh_buf) :
  rad_val (fold_left (fun s k => check_contact_degree avec sht phi x_val k s)
                     (seq 1 n) s)
  = rad_val s
    + (if (2 <=? n)%nat then shcoeffs avec sht 10 * plegendre 2 0 x_val
       else 0).
Proof.
  destruct n as [|[|n]].
  - simpl. ring.
  - change (seq 1 1) with [1%nat]. cbn [fold_left].
    rewrite spheroid_check_contact_degree by lia. simpl. ring.
  - change (seq 1 (S (S n))) with (1%nat :: 2%nat :: seq 3 n).
    cbn [fold_left]. rewrite spheroid_run_high by lia.
    rewrite !spheroid_check_contact_degree by lia. simpl. ring.
Qed.

Lemma spheroid_partial_radius (phi theta : R) (n : nat) :
  partial_radius avec sht phi theta n
  = shcoeffs avec sht 0 * sqrt (1 / (4 * PI))
    + (if (2 <=? n)%nat
       then shcoeffs avec sht 10 * plegendre 2 0 (cos theta) else 0).
Proof.
  rewrite <- check_contact_run_partial_radius. rewrite spheroid_run.
  reflexivity.
Qed.

(** A point at a distance below the radius at every degree is in contact
    when no expansion factor is below 1. *)
Lemma spheroid_check_contact (phi theta d finalrad : R) :
  let r0 := shcoeffs avec sht 0 * sqrt (1 / (4 * PI)) in
  let r2 := r0 + shcoeffs avec sht 10 * plegendre 2 0 (cos theta) in
  (2 <= maxshexpan avec)%nat ->
  (forall n, (n <= maxshexpan avec)%nat -> 1 <= expfacts avec sht n) ->
  expfacts avec sht (maxshexpan avec) = 1 ->
  0 <= d -> d <= r0 -> d <= r2 ->
  check_contact avec sht phi theta d finalrad = (true, r2).
Proof.
  intros r0 r2 HN He HeN Hd0 Hd1 Hd2.
  assert (Hr : forall n, (n <= maxshexpan avec)%nat ->
                         d <= expfacts avec sht n
                              * partial_radius avec sht phi theta n).
  { intros n Hn. rewrite spheroid_partial_radius. fold r0.
    specialize (He n Hn).
    destruct (2 <=? n)%nat; [fold r2; nra | nra]. }
  unfold check_contact.
  assert (H0 : Rgtb d (expfacts avec sht 0
                       * (shcoeffs avec sht 0 * sqrt (1 / (4 * PI)))) = false).
  { apply Rgtb_false. specialize (Hr 0%nat ltac:(lia)).
    rewrite spheroid_partial_radius in Hr. simpl in Hr. lra. }
  rewrite H0.
  rewrite check_contact_while_no_exit; [| lia | lia |].
  - cbv zeta. rewrite spheroid_run. simpl rad_val.
    destruct (Nat.leb_spec 2 (maxshexpan avec)) as [_|Hlt]; [|lia].
    rewrite HeN, Rmult_1_l. fold r0. fold r2.
    apply Rleb_true in Hd2. rewrite Hd2. reflexivity.
  - intros n Hn. replace (n - 1 + 1)%nat with n by lia.
    specialize (Hr n ltac:(lia)).
    rewrite <- check_contact_run_partial_radius in Hr. lra.
Qed.

End Spheroid.

(** A loop whose body leaves a component of the state alone while its
    counter [loc], stepping down by 2, stays at or above [b]. *)
Lemma fold_left_keeps {S : Type} (f : S -> nat -> S) (rad : S -> R)
      (loc : S -> nat) (b : nat) (l : list nat) (s : S) :
  (forall s m, (b <= loc s)%nat ->
               rad (f s m) = rad s /\ loc (f s m) = (loc s - 2)%nat) ->
  (2 * List.length l + b <= loc s + 2)%nat ->
  rad (fold_left f l s) = rad s
  /\ loc (fold_left f l s) = (loc s - 2 * List.length l)%nat.
Proof.
  intros Hf. revert s. induction l as [|m l IH]; intros s Hloc.
  - simpl. split; [reflexivity | lia].
  - simpl List.length in *. cbn [fold_left].
    destruct (Hf s m ltac:(lia)) as [H1 H2].
    destruct (IH (f s m) ltac:(lia)) as [H3 H4].
    split; [congruence | lia].
Qed.

Section SpheroidNormal.
Context {MS : MathSpherharm}.
Variable avec : AtomVecSpherharm.
Variable sht : nat.
Hypothesis spheroid :
  forall k, (1 <= k)%nat -> k <> 10%nat -> shcoeffs avec sht k = 0.

Local Ltac spheroid_zero :=
  repeat match goal with
         | |- context [shcoeffs avec sht ?k] =>
           rewrite (spheroid k) by lia
         end.

Lemma spheroid_normal_degree (phi x_val st : R) (n : nat) (s : sh_grad_buf) :
  (1 <= n)%nat ->
  g_rad (get_shape_radius_and_normal_degree avec sht phi x_val st s n)
  = g_rad s
    + (if (n =? 2)%nat then shcoeffs avec sht 10 * plegendre 2 0 x_val else 0).
Proof.
  intros Hn. unfold get_shape_radius_and_normal_degree. cbv zeta.
  destruct (n =? 1)%nat eqn:E1.
  - apply Nat.eqb_eq in E1. subst n. simpl.
    rewrite (spheroid 4), (spheroid 2), (spheroid 3) by lia. ring.
  - destruct (n =? 2)%nat eqn:E2.
    + apply Nat.eqb_eq in E2. subst n. simpl.
      rewrite (spheroid 6), (spheroid 7), (spheroid 8), (spheroid 9) by lia.
      ring.
    + apply Nat.eqb_neq in E1. apply Nat.eqb_neq in E2.
      assert (HP : (6 * n + 2 <= (n + 1) * (n + 2))%nat) by nia.
      match goal with
      | |- context [fold_left ?f ?l ?s0] =>
        destruct (@fold_left_keeps _ f
                    (fun t => fst (fst (fst (fst (fst t))))) snd 11 l s0)
          as [Hrad Hloc];
        [ intros [[[[[rad dphi] dtheta] m1] m2] loc] m Hloc;
          cbn [fst snd] in *; spheroid_zero; split; [ring | reflexivity]
        | rewrite length_seq; cbn [snd]; lia
        | destruct (fold_left f l s0) as [[[[[rad dphi] dtheta] m1] m2] loc] ]
      end.
      rewrite length_seq in Hloc. cbn [fst snd] in Hrad, Hloc. subst rad loc.
      cbn [g_rad]. spheroid_zero. ring.
Qed.

Lemma spheroid_normal_run_high (phi x_val st : R) (a len : nat)
      (s : sh_grad_buf) :
  (3 <= a)%nat ->
  g_rad (fold_left (get_shape_radius_and_normal_degree avec sht phi x_val st)
                   (seq a len) s) = g_rad s.
Proof.
  revert a s. induction len as [|len IH]; intros a s Ha; simpl;
    [reflexivity|].
  rewrite IH by lia. rewrite spheroid_normal_degree by lia.
  destruct (Nat.eqb_spec a 2) as [E|_]; [lia | ring].
Qed.

(** The radius [get_shape_radius_and_normal] returns, in a direction off
    the pole and off the plane [phi = 0]. *)
Lemma spheroid_radius_and_normal (theta phi : R) :
  (2 <= maxshexpan avec)%nat -> sin theta <> 0 -> sin phi <> 0 ->
  fst (get_shape_radius_and_normal avec sht theta phi)
  = shcoeffs avec sht 0 * sqrt (1 / MY_4PI)
    + shcoeffs avec sht 10 * plegendre 2 0 (cos theta).
Proof.
  intros HN Ht Hp. unfold get_shape_radius_and_normal.
  unfold Reqb. destruct (Req_dec_T (sin theta) 0) as [E|_]; [contradiction|].
  destruct (Req_dec_T (sin phi) 0) as [E|_]; [contradiction|].
  cbv zeta. cbn [fst].
  destruct (maxshexpan avec) as [|[|N]] eqn:EN; [lia | lia |].
  change (seq 1 (S (S N))) with (1%nat :: 2%nat :: seq 3 N).
  cbn [fold_left]. rewrite spheroid_normal_run_high by lia.
  rewrite !spheroid_normal_degree by lia. cbn [g_rad Nat.eqb]. ring.
Qed.

End SpheroidNormal.

(** ** Initialisation of a shape of revolution on a single quadrature node *)

Section SpheroidInit.
Context {MS : MathSpherharm}.
Variable a : AtomVecSpherharm.
Variable sht : nat.
Hypothesis spheroid :
  forall k, (1 <= k)%nat -> k <> 10%nat -> shcoeffs a sht k = 0.
Hypothesis one_node : num_quadrature a = 1%nat.

(** The [for (m = n; m > 0; m--)] loop of [add_degree] adds nothing. *)
Lemma spheroid_add_degree_loop (n : nat) (x_val phi : R) (l : list nat)
      (r : R) (loc : nat) :
  (forall j, (j < List.length l)%nat ->
             shcoeffs a sht (loc + 2 * j) = 0
             /\ shcoeffs a sht (loc + 2 * j + 1) = 0) ->
  fst (fold_left
         (fun (st : R * nat) (m : nat) =>
            let '(r, loc) := st in
            let mphi := INR m * phi in
            let P_n_m := plegendre n m x_val in
            (r + (shcoeffs a sht loc * cos mphi
                  - shcoeffs a sht (loc + 1) * sin mphi) * 2 * P_n_m,
             (loc + 2)%nat))
         l (r, loc)) = r.
Proof.
  revert r loc. induction l as [|m l IH]; intros r loc H; [reflexivity|].
  cbn [fold_left]. rewrite IH.
  - destruct (H 0%nat ltac:(simpl; lia)) as [H0 H1].
    replace (loc + 2 * 0)%nat with loc in * by lia.
    rewrite H0, H1. ring.
  - intros j Hj. destruct (H (S j) ltac:(simpl; lia)) as [H0 H1].
    replace (loc + 2 + 2 * j)%nat with (loc + 2 * S j)%nat by lia.
    split; assumption.
Qed.

Lemma spheroid_add_degree (n : nat) (x_val phi r : R) :
  add_degree a sht n x_val phi r
  = r + shcoeffs a sht ((n + 1) * (n + 2) - 2) * plegendre n 0 x_val.
Proof.
  unfold add_degree. rewrite spheroid_add_degree_loop; [reflexivity|].
  intros j Hj. rewrite length_rev, length_seq in Hj.
  destruct n as [|[|[|n]]].
  - lia.
  - assert (j = 0)%nat by lia. subst j. split; apply spheroid; simpl; lia.
  - assert (j = 0 \/ j = 1)%nat as [-> | ->] by lia;
      split; apply spheroid; simpl; lia.
  - split; apply spheroid; nia.
Qed.

(** The coefficient of the [m = 0] term of degree [n]. *)
Lemma spheroid_axial_coefficient (n : nat) :
  n <> 0%nat -> n <> 2%nat -> shcoeffs a sht ((n + 1) * (n + 2) - 2) = 0.
Proof.
  intros H0 H2. apply spheroid.
  - destruct n as [|n]; [lia | nia].
  - destruct n as [|[|[|n]]]; [lia | simpl; lia | lia | nia].
Qed.

Lemma spheroid_sum_step (x_val : R) (m : nat) :
  spheroid_sum a sht x_val m
  + shcoeffs a sht ((m + 1) * (m + 2) - 2) * plegendre m 0 x_val
  = spheroid_sum a sht x_val (S m).
Proof.
  unfold spheroid_sum.
  destruct m as [|[|[|m]]].
  - simpl. ring.
  - rewrite spheroid_axial_coefficient by lia. simpl. ring.
  - simpl. ring.
  - rewrite spheroid_axial_coefficient by lia. simpl. ring.
Qed.

Let x0 : R := cos (nth 0 (fst (angles a)) 0).

(** One degree at the only node. *)
Lemma spheroid_expfac_degree (g : expfac_grid) (e : list R) (n : nat) :
  (1 <= List.length (r_n g))%nat ->
  let g' := fst (expfac_degree a sht (g, e) n) in
  let r' := nth 0 (r_n g) 0
            + shcoeffs a sht ((n + 1) * (n + 2) - 2) * plegendre n 0 x0 in
  (1 <= List.length (r_n g'))%nat
  /\ nth 0 (r_n g') 0 = r'
  /\ maxrad g'
     = if below_last a n then maxrad g
       else if Rgtb r' (nth sht (maxrad g) 0)
            then upd sht r' (maxrad g) else maxrad g.
Proof.
  intros Hlen. cbv zeta. unfold expfac_degree. rewrite one_node.
  change (seq 0 1) with [0%nat]. cbn [fold_left]. unfold expfac_point.
  cbn [grid_k r_n r_npo ratios maxrad].
  rewrite spheroid_add_degree. fold x0.
  destruct (below_last a n); cbn [fst r_n maxrad];
    rewrite ?length_upd, !nth_upd_eq by lia;
    (split; [exact Hlen|]); (split; [reflexivity|]); reflexivity.
Qed.

(** The degrees below the last one leave [maxrad] alone. *)
Lemma spheroid_expfac_degrees (g : expfac_grid) (e : list R) (m : nat) :
  (1 <= List.length (r_n g))%nat -> nth 0 (r_n g) 0 = 0 ->
  (m <= maxshexpan a)%nat ->
  let g' := fst (fold_left (expfac_degree a sht) (seq 0 m) (g, e)) in
  (1 <= List.length (r_n g'))%nat
  /\ nth 0 (r_n g') 0 = spheroid_sum a sht x0 m
  /\ maxrad g' = maxrad g.
Proof.
  intros Hlen H0. cbv zeta. induction m as [|m IH]; intros Hm.
  - simpl. split; [exact Hlen|]. split; [|reflexivity].
    rewrite H0. unfold spheroid_sum. simpl. ring.
  - rewrite seq_S, fold_left_app, Nat.add_0_l. cbn [fold_left].
    destruct IH as (Hl & Hr & Hmr); [lia|].
    destruct (fold_left (expfac_degree a sht) (seq 0 m) (g, e)) as [g1 e1].
    cbn [fst] in *.
    destruct (spheroid_expfac_degree g1 e1 m Hl) as (Hl' & Hr' & Hmr').
    split; [exact Hl'|]. split.
    + rewrite Hr', Hr. apply spheroid_sum_step.
    + rewrite Hmr'.
      assert (Hb : below_last a m = true)
        by (unfold below_last; apply Z.leb_le; lia).
      rewrite Hb. exact Hmr.
Qed.

(** The loop over all the degrees: the last one records the radius at the
    node when it exceeds the maximum so far. *)
Lemma spheroid_expfac_all_degrees (g : expfac_grid) (e : list R) :
  (1 <= List.length (r_n g))%nat -> nth 0 (r_n g) 0 = 0 ->
  (3 <= maxshexpan a)%nat ->
  let r := shcoeffs a sht 0 * plegendre 0 0 x0
           + shcoeffs a sht 10 * plegendre 2 0 x0 in
  maxrad (fst (fold_left (expfac_degree a sht) (seq 0 (maxshexpan a + 1))
                         (g, e)))
  = if Rgtb r (nth sht (maxrad g) 0) then upd sht r (maxrad g) else maxrad g.
Proof.
  intros Hlen H0 HN. cbv zeta.
  rewrite Nat.add_1_r, seq_S, fold_left_app, Nat.add_0_l. cbn [fold_left].
  destruct (spheroid_expfac_degrees g e (maxshexpan a) Hlen H0 (le_n _))
    as (Hl & Hr & Hmr).
  destruct (fold_left (expfac_degree a sht) (seq 0 (maxshexpan a)) (g, e))
    as [g1 e1].
  cbn [fst] in *.
  destruct (spheroid_expfac_degree g1 e1 (maxshexpan a) Hl) as (_ & _ & Hmr').
  rewrite Hmr'.
  assert (Hb : below_last a (maxshexpan a) = false)
    by (unfold below_last; apply Z.leb_gt; lia).
  rewrite Hb, Hr, Hmr.
  rewrite spheroid_axial_coefficient by lia.
  unfold spheroid_sum.
  destruct (Nat.leb_spec 1 (maxshexpan a)) as [_|Hlt]; [|lia].
  destruct (Nat.leb_spec 3 (maxshexpan a)) as [_|Hlt].
  - replace (shcoeffs a sht 0 * plegendre 0 0 x0
             + shcoeffs a sht 10 * plegendre 2 0 x0
             + 0 * plegendre (maxshexpan a) 0 x0)
      with (shcoeffs a sht 0 * plegendre 0 0 x0
            + shcoeffs a sht 10 * plegendre 2 0 x0) by ring.
    reflexivity.
  - lia.
Qed.

End SpheroidInit.

(** A single quadrature node: the grid has the one direction
    [(pi/2 (x_1 + 1), pi (x_1 + 1))]. *)
Lemma one_node_grid {MS : MathSpherharm} (cs : list R) :
  let a := get_quadrature_values (process_args_allocate 1 1 [cs]) in
  num_quadrature a = 1%nat /\ maxshexpan a = 20%nat /\ nshtypes a = 1%nat
  /\ shcoeffs_byshape a = [cs] /\ maxrad_byshape a = [0]
  /\ fst (angles a) = [0.5 * MY_PI * (x (GLPair 1 1) + 1)].
Proof.
  cbv zeta. unfold get_quadrature_values, quadrature_nodes, quadrature_angles.
  cbn [process_args_allocate num_quadrature weights angles nshtypes
       quad_rads_byshape seq fold_left fst snd upd repeat Nat.mul Nat.add
       nth set_quadrature maxshexpan shcoeffs_byshape maxrad_byshape].
  repeat split.
Qed.

(** The maximal radius recorded for a shape of revolution of degree 2 is
    its radius at the node. *)
Lemma one_node_maxrad {MS : MathSpherharm} (cs : list R) :
  (forall k, (1 <= k)%nat -> k <> 10%nat -> nth k cs 0 = 0) ->
  let x0 := cos (0.5 * MY_PI * (x (GLPair 1 1) + 1)) in
  let r := nth 0 cs 0 * plegendre 0 0 x0 + nth 10 cs 0 * plegendre 2 0 x0 in
  0 < r ->
  maxrad_byshape (initialise 1 1 [cs]) = [r * safety_factor].
Proof.
  intros Hsp x0 r Hr.
  destruct (one_node_grid cs) as (HQ & HN & Hns & Hcs & Hmr & Hang).
  unfold initialise, calcexpansionfactors_gauss.
  set (a := get_quadrature_values (process_args_allocate 1 1 [cs])) in *.
  assert (Hsp' : forall k, (1 <= k)%nat -> k <> 10%nat -> shcoeffs a 0 k = 0).
  { intros k H1 H2. unfold shcoeffs, at2. rewrite Hcs. cbn [nth].
    apply Hsp; assumption. }
  rewrite Hns, HQ, HN, Hmr. change (seq 0 1) with [0%nat]. cbn [fold_left].
  unfold expfac_shape. rewrite HN.
  cbn [r_n r_npo ratios maxrad grid_k map repeat Nat.mul Nat.add].
  match goal with
  | |- context [fold_left (expfac_degree a 0) (seq 0 21) (?g0, ?e0)] =>
    pose proof (@spheroid_expfac_all_degrees MS a 0%nat Hsp' HQ g0 e0) as H;
    rewrite HN in H; change (20 + 1)%nat with 21%nat in H;
    cbn [r_n maxrad List.length nth] in H;
    specialize (H ltac:(lia) eq_refl ltac:(lia));
    destruct (fold_left (expfac_degree a 0) (seq 0 21) (g0, e0)) as [g1 e1]
  end.
  cbn [fst] in H.
  destruct (fold_left (expfac_accumulate 0) _ _) as [[f2 e2] b2].
  cbn [set_expfacts maxrad_byshape maxrad].
  rewrite H. rewrite Hang. cbn [nth]. fold x0.
  unfold shcoeffs, at2. rewrite Hcs. cbn [nth]. fold r.
  assert (Hgt : Rgtb r 0 = true) by (apply Rgtb_true; lra).
  rewrite Hgt. reflexivity.
Qed.

(** ** The Legendre kernel at degrees 0 and 2 *)

Lemma plegendre_0_0 (x : R) :
  -1 <= x <= 1 -> plegendre 0 0 x = sqrt (1 / (4 * PI)).
Proof.
  intros Hx. cbn [plegendre Concrete.math_spherharm].
  unfold ComputeShcoeff.plegendre.
  assert (Hb : Rgtb (Rabs x) 1 = false).
  { apply Rgtb_false. pose proof (Rabs_le x 1 Hx). lra. }
  rewrite Hb. cbn [Nat.ltb Nat.leb orb Nat.eqb Nat.odd Nat.even negb
                   Concrete.value_or_zero INR].
  f_equal. field. pose proof PI_RGT_0. lra.
Qed.

Lemma plegendre_2_0 (x : R) :
  -1 <= x <= 1 ->
  sqrt (4 * PI / 5) * plegendre 2 0 x = (3 * x * x - 1) / 2.
Proof.
  intros Hx. cbn [plegendre Concrete.math_spherharm].
  unfold ComputeShcoeff.plegendre.
  assert (Hb : Rgtb (Rabs x) 1 = false).
  { apply Rgtb_false. pose proof (Rabs_le x 1 Hx). lra. }
  rewrite Hb.
  cbn [Nat.ltb Nat.leb orb Nat.eqb Nat.odd Nat.even negb Nat.add Nat.sub seq
       fold_left ComputeShcoeff.plegendre_step Concrete.value_or_zero INR].
  pose proof PI_RGT_0 as HPI.
  replace ((2 * 0 + 1) * 1 / (4 * PI)) with (1 / (4 * PI)) by (field; lra).
  replace (2 * 0 + 3) with 3 by ring.
  replace ((4 * (1 + 1) * (1 + 1) - 1) / ((1 + 1) * (1 + 1) - 0 * 0))
    with (15 / 4) by field.
  set (q := sqrt (4 * PI / 5)). set (p := sqrt (1 / (4 * PI))).
  set (s3 := sqrt 3). set (f := sqrt (15 / 4)).
  assert (Hq : q * q = 4 * PI / 5) by (apply sqrt_sqrt; lra).
  assert (Hp : p * p = 1 / (4 * PI)).
  { apply sqrt_sqrt. apply Rlt_le. apply Rdiv_lt_0_compat; lra. }
  assert (Hs : s3 * s3 = 3) by (apply sqrt_sqrt; lra).
  assert (Hf : f * f = 15 / 4) by (apply sqrt_sqrt; lra).
  assert (Hq0 : 0 <= q) by apply sqrt_pos.
  assert (Hp0 : 0 <= p) by apply sqrt_pos.
  assert (Hs0 : 0 < s3) by (apply sqrt_lt_R0; lra).
  assert (Hf0 : 0 <= f) by apply sqrt_pos.
  assert (HK : q * p * f = s3 / 2).
  { assert (H2 : (q * p * f) * (q * p * f) = (s3 / 2) * (s3 / 2)).
    { replace (q * p * f * (q * p * f))
        with ((q * q) * (p * p) * (f * f)) by ring.
      rewrite Hq, Hp, Hf.
      replace (s3 / 2 * (s3 / 2)) with (s3 * s3 / 4) by field.
      rewrite Hs. field. lra. }
    assert (H0 : 0 <= q * p * f).
    { apply Rmult_le_pos; [apply Rmult_le_pos|]; assumption. }
    apply Rsqr_inj; [exact H0 | lra | exact H2]. }
  replace (q * ((x * (x * s3 * p) - p / s3) * f))
    with ((q * p * f) * (x * x * (s3 * s3) - 1) / s3) by (field; lra).
  rewrite HK, Hs. field. lra.
Qed.

(** ** The elongated shape *)

Lemma spheroid_coeffs_nth (a00 a20 : R) :
  nth 0 (Concrete.spheroid_coeffs a00 a20) 0 = a00
  /\ nth 10 (Concrete.spheroid_coeffs a00 a20) 0 = a20
  /\ forall k, (1 <= k)%nat -> k <> 10%nat ->
               nth k (Concrete.spheroid_coeffs a00 a20) 0 = 0.
Proof.
  unfold Concrete.spheroid_coeffs. split; [reflexivity|]. split.
  - cbn [nth]. rewrite app_nth2 by (rewrite repeat_length; lia).
    rewrite repeat_length. reflexivity.
  - intros k H1 H2. destruct k as [|k]; [lia|]. cbn [nth].
    destruct (Nat.lt_ge_cases k 9) as [Hlt|Hge].
    + rewrite app_nth1 by (rewrite repeat_length; lia). apply nth_repeat_any.
    + rewrite app_nth2 by (rewrite repeat_length; lia).
      rewrite repeat_length.
      destruct (k - 9)%nat as [|k'] eqn:E; [lia|]. cbn [nth].
      apply nth_repeat_any.
Qed.

Lemma elongated_shape :
  maxshexpan Concrete.elongated = 20%nat
  /\ shcoeffs Concrete.elongated 0 0 = 3 / 2 * sqrt (4 * PI)
  /\ shcoeffs Concrete.elongated 0 10 = sqrt (4 * PI / 5)
  /\ forall k, (1 <= k)%nat -> k <> 10%nat ->
               shcoeffs Concrete.elongated 0 k = 0.
Proof.
  unfold Concrete.elongated.
  destruct (initialise_keeps 1 1
              [Concrete.spheroid_coeffs (3 / 2 * sqrt (4 * PI))
                                        (sqrt (4 * PI / 5))])
    as [HN Hcs].
  destruct (spheroid_coeffs_nth (3 / 2 * sqrt (4 * PI)) (sqrt (4 * PI / 5)))
    as (H0 & H10 & Hz).
  split; [exact HN|]. unfold shcoeffs, at2. rewrite Hcs. cbn [nth].
  split; [exact H0|]. split; [exact H10 | exact Hz].
Qed.

Lemma elongated_expfacts (n : nat) :
  (n <= 20)%nat ->
  1 <= expfacts Concrete.elongated 0 n
  /\ expfacts Concrete.elongated 0 20 = 1.
Proof.
  intros Hn.
  pose proof (initialise_row_monotone 1 1
                [Concrete.spheroid_coeffs (3 / 2 * sqrt (4 * PI))
                                          (sqrt (4 * PI / 5))]
                0%nat ltac:(lia)) as H.
  split.
  - apply (row_monotone_ge_1 20 _ 0%nat H n Hn).
  - apply H.
Qed.

(** The node of the one-point rule is the equator: [GLPair(1, 1)] is the
    pair of angle [pi/2], as the tabulated branch of the source's [GLPair]
    returns it for [n = 1]. *)
Lemma one_node_equator :
  cos (0.5 * MY_PI * (x (GLPair 1 1) + 1)) = 0.
Proof.
  unfold x. cbn [GLPair Concrete.math_spherharm Concrete.GLPair theta INR].
  replace (PI * (4 * 1 - 1) / (4 * 1 + 2)) with (PI / 2) by field.
  rewrite cos_PI2. unfold MY_PI.
  replace (0.5 * PI * (0 + 1)) with (PI / 2) by lra.
  apply cos_PI2.
Qed.

(** The radius the initialisation records as the maximum is the one at
    the equator, 1. *)
Lemma elongated_maxrad : nth 0 (maxrad_byshape Concrete.elongated) 0 = 1.
Proof.
  unfold Concrete.elongated.
  destruct (spheroid_coeffs_nth (3 / 2 * sqrt (4 * PI)) (sqrt (4 * PI / 5)))
    as (H0 & H10 & Hz).
  assert (Hr : nth 0 (Concrete.spheroid_coeffs (3 / 2 * sqrt (4 * PI))
                        (sqrt (4 * PI / 5))) 0
               * plegendre 0 0 (cos (0.5 * MY_PI * (x (GLPair 1 1) + 1)))
               + nth 10 (Concrete.spheroid_coeffs (3 / 2 * sqrt (4 * PI))
                           (sqrt (4 * PI / 5))) 0
                 * plegendre 2 0 (cos (0.5 * MY_PI * (x (GLPair 1 1) + 1)))
               = 1).
  { rewrite H0, H10, one_node_equator.
    rewrite plegendre_0_0 by lra.
    pose proof (plegendre_2_0 0 ltac:(lra)) as H2.
    pose proof sqrt_4PI_radius as H4.
    replace (3 / 2 * sqrt (4 * PI) * sqrt (1 / (4 * PI)))
      with (3 / 2 * (sqrt (4 * PI) * sqrt (1 / (4 * PI)))) by ring.
    rewrite H4, H2. lra. }
  rewrite one_node_maxrad; [| exact Hz | cbv zeta; rewrite Hr; lra].
  cbv zeta. rewrite Hr. cbn [nth]. unfold safety_factor. lra.
Qed.

(** The two terms of its radius: [3/2] at degree 0 and
    [(3 cos(theta)^2 - 1) / 2] at degree 2. *)
Lemma elongated_radius_term (theta : R) :
  shcoeffs Concrete.elongated 0 0 * sqrt (1 / (4 * PI)) = 3 / 2
  /\ shcoeffs Concrete.elongated 0 10 * plegendre 2 0 (cos theta)
     = (3 * cos theta * cos theta - 1) / 2.
Proof.
  destruct elongated_shape as (_ & H0 & H10 & _).
  rewrite H0, H10. split.
  - replace (3 / 2 * sqrt (4 * PI) * sqrt (1 / (4 * PI)))
      with (3 / 2 * (sqrt (4 * PI) * sqrt (1 / (4 * PI)))) by ring.
    rewrite sqrt_4PI_radius. lra.
  - apply (plegendre_2_0 (cos theta) (COS_bound theta)).
Qed.

Lemma acos_4_5 : cos (acos (4 / 5)) = 4 / 5 /\ sin (acos (4 / 5)) = 3 / 5.
Proof.
  split; [apply cos_acos; lra|].
  rewrite sin_acos by lra.
  replace (1 - Rsqr (4 / 5)) with (3 / 5 * (3 / 5)) by (unfold Rsqr; field).
  apply sqrt_square. lra.
Qed.

Lemma elongated_partial_radius (phi theta : R) (n : nat) :
  partial_radius Concrete.elongated 0 phi theta n
  = if (2 <=? n)%nat then 1 + 3 / 2 * (cos theta * cos theta) else 3 / 2.
Proof.
  destruct elongated_shape as (_ & _ & _ & Hz).
  rewrite (spheroid_partial_radius Concrete.elongated 0%nat Hz).
  destruct (elongated_radius_term theta) as [H0 H2]. rewrite H0.
  destruct (2 <=? n)%nat; [rewrite H2|]; lra.
Qed.

(** Its radius in the direction of polar angle [theta]. *)
Lemma elongated_get_shape_radius (theta phi : R) :
  get_shape_radius Concrete.elongated 0 theta phi
  = 1 + 3 / 2 * (cos theta * cos theta).
Proof.
  destruct elongated_shape as (HN & _).
  rewrite get_shape_radius_partial_radius, elongated_partial_radius, HN.
  reflexivity.
Qed.

Lemma elongated_check_contact (phi theta d finalrad : R) :
  0 <= d <= 1 ->
  fst (check_contact Concrete.elongated 0 phi theta d finalrad) = true.
Proof.
  intros Hd. destruct elongated_shape as (HN & _ & _ & Hz).
  destruct (elongated_radius_term theta) as [H0 H2].
  pose proof (COS_bound theta) as Hc.
  rewrite (spheroid_check_contact Concrete.elongated 0 Hz).
  - reflexivity.
  - rewrite HN. lia.
  - intros n Hn. rewrite HN in Hn. apply elongated_expfacts. exact Hn.
  - rewrite HN. apply (elongated_expfacts 0). lia.
  - lra.
  - rewrite H0. lra.
  - rewrite H0, H2. nra.
Qed.

Lemma C1_witness :
  let avec := Concrete.elongated in
  let theta := acos (4 / 5) in
  let N := maxshexpan avec in
  let r := partial_radius avec 0 0 theta in
  let e := expfacts avec 0 in
  ((1 <= N)%nat /\ e N = 1)
  /\ (r 0%nat = 3 / 2 /\ r 1%nat = 3 / 2 /\ r 2%nat = 1.96 /\ r N = 1.96)
  /\ get_shape_radius avec 0 theta 0 = 1.96
  /\ check_contact avec 0 0 theta (1 / 2) 0 = (true, 1.96)
  /\ check_contact avec 0 0 theta 3 0 = (false, 0).
Proof.
  intros avec theta N r e.
  destruct elongated_shape as (HN20 & _).
  assert (HN : (1 <= N)%nat) by (unfold N, avec; rewrite HN20; lia).
  assert (He : e N = 1)
    by (unfold e, N, avec; rewrite HN20; apply (elongated_expfacts 0); lia).
  assert (Hr : forall n, r n = if (2 <=? n)%nat then 1.96 else 3 / 2).
  { intros n. unfold r, avec. rewrite elongated_partial_radius.
    unfold theta. rewrite (proj1 acos_4_5).
    destruct (2 <=? n)%nat; lra. }
  assert (HrN : r N = 1.96)
    by (rewrite Hr; unfold N, avec; rewrite HN20; reflexivity).
  assert (Hge : forall n, (n <= N)%nat -> 1 <= e n)
    by (intros n Hn; apply elongated_expfacts;
        unfold N, avec in Hn; rewrite HN20 in Hn; exact Hn).
  destruct (@C1_check_contact _ avec 0%nat 0 theta (1 / 2) 0 HN He)
    as [[_ Hg] [_ Hin]].
  destruct (@C1_check_contact _ avec 0%nat 0 theta 3 0 HN He)
    as [_ [Hout _]].
  split; [split; assumption|].
  split; [repeat split; try exact HrN; rewrite Hr; reflexivity|].
  split; [fold N in Hg; fold r in Hg; rewrite <- Hg; exact HrN|].
  split.
  - fold N in Hin. fold r in Hin. fold e in Hin. rewrite <- HrN.
    apply Hin; [|rewrite HrN; lra].
    intros n Hn. specialize (Hge n Hn). rewrite Hr.
    destruct (2 <=? n)%nat; nra.
  - apply Hout. exists N. split; [lia|].
    fold N. fold r. fold e. rewrite He, HrN. lra.
Defined.

(** ** Loops cut by fuel *)

Lemma while_loop_iter {S : Type} (cond : S -> bool) (body : S -> S)
      (k fuel : nat) (s : S) :
  (forall i, (i < k)%nat -> cond (Nat.iter i body s) = true) ->
  cond (Nat.iter k body s) = false ->
  (k <= fuel)%nat ->
  while_loop cond body fuel s = Ok (Nat.iter k body s).
Proof.
  revert fuel s. induction k as [|k IH]; intros fuel s Hrun Hstop Hfuel.
  - simpl in Hstop. destruct fuel; simpl; rewrite Hstop; reflexivity.
  - destruct fuel as [|fuel]; [lia|]. simpl while_loop.
    pose proof (Hrun 0%nat ltac:(lia)) as H0. simpl in H0. rewrite H0.
    rewrite Nat.iter_succ_r. apply IH.
    + intros i Hi. rewrite <- Nat.iter_succ_r. apply Hrun. lia.
    + rewrite <- Nat.iter_succ_r. exact Hstop.
    + lia.
Qed.

Lemma while_loop_out_of_fuel {S : Type} (cond : S -> bool) (body : S -> S)
      (fuel : nat) (s : S) :
  (forall i, (i <= fuel)%nat -> cond (Nat.iter i body s) = true) ->
  while_loop cond body fuel s = Err OutOfFuel.
Proof.
  revert s. induction fuel as [|fuel IH]; intros s Hrun.
  - pose proof (Hrun 0%nat ltac:(lia)) as H0. simpl in H0.
    simpl. rewrite H0. reflexivity.
  - pose proof (Hrun 0%nat ltac:(lia)) as H0. simpl in H0.
    simpl while_loop. rewrite H0.
    apply IH. intros i Hi. rewrite <- Nat.iter_succ_r. apply Hrun. lia.
Qed.

(** The first pass at which a condition fails, below a pass at which it
    fails. *)
Lemma first_failure (c : nat -> bool) (K : nat) :
  c K = false ->
  exists k, (k <= K)%nat /\ (forall i, (i < k)%nat -> c i = true) /\ c k = false.
Proof.
  intros HK.
  assert (H : (exists k, (k <= K)%nat /\ (forall i, (i < k)%nat -> c i = true)
                         /\ c k = false)
              \/ (forall i, (i <= K)%nat -> c i = true)).
  { clear HK. induction K as [|K IH].
    - destruct (c 0%nat) eqn:E.
      + right. intros i Hi. assert (i = 0)%nat by lia. subst. exact E.
      + left. exists 0%nat. repeat split; [lia | intros; lia | exact E].
    - destruct IH as [(k & Hk & Hrun & Hstop)|Hall].
      + left. exists k. repeat split; [lia | exact Hrun | exact Hstop].
      + destruct (c (S K)) eqn:E.
        * right. intros i Hi. destruct (Nat.eq_dec i (S K)) as [->|Hne];
            [exact E | apply Hall; lia].
        * left. exists (S K). repeat split; [lia | | exact E].
          intros i Hi. apply Hall. lia. }
  destruct H as [H|Hall]; [exact H|].
  rewrite Hall in HK by lia. discriminate.
Qed.

(** ** The radial bisection *)

Section Bisection.
Context {MS : MathSpherharm} {CM : Cmath}.
Variable avec : AtomVecSpherharm.
Variables (jshtype : nat) (radj : R) (xi xj : vec3 R) (jrot : mat3 R).
Variables (theta_sf phi_sf radtol : R).

Let body := bisect_body avec jshtype radj xi xj jrot theta_sf phi_sf.
Let cond := bisect_cond radtol.

(** In the arithmetic of the model, the real numbers, one pass halves the
    gap, whatever the tests answer, and leaves the sampled radius in the
    middle. *)
Lemma bisect_body_gap (s : bisect_state) :
  rad_sample s = (upper_bound s + lower_bound s) / 2 ->
  gap (body s) = gap s / 2
  /\ rad_sample (body s) = (upper_bound (body s) + lower_bound (body s)) / 2.
Proof.
  intros Hmid. unfold body, bisect_body, gap.
  destruct (contact_at avec jshtype radj xj jrot _) as [[|]|];
    cbn [upper_bound lower_bound rad_sample]; rewrite ?Hmid; split; lra.
Qed.

Lemma bisect_iter_gap (rad_body : R) (i : nat) :
  gap (Nat.iter i body (bisect_init rad_body)) = rad_body / 2 ^ i
  /\ rad_sample (Nat.iter i body (bisect_init rad_body))
     = (upper_bound (Nat.iter i body (bisect_init rad_body))
        + lower_bound (Nat.iter i body (bisect_init rad_body))) / 2.
Proof.
  induction i as [|i [IHg IHm]].
  - unfold gap, bisect_init; simpl. split; lra.
  - simpl Nat.iter. destruct (bisect_body_gap _ IHm) as [Hg Hm].
    split; [|exact Hm]. rewrite Hg, IHg. simpl pow. field.
    apply pow_nonzero. lra.
Qed.

Lemma bisect_cond_iter (rad_body : R) (i : nat) :
  cond (Nat.iter i body (bisect_init rad_body)) = true
  <-> rad_body / 2 ^ i > radtol.
Proof.
  unfold cond, bisect_cond. rewrite Rgtb_true.
  destruct (bisect_iter_gap rad_body i) as [Hg _]. unfold gap in Hg.
  rewrite Hg. tauto.
Qed.

(** The number of passes of the loop. *)
Lemma bisect_passes (rad_body : R) :
  0 < radtol ->
  exists k,
    (forall i, (i < k)%nat -> rad_body / 2 ^ i > radtol)
    /\ ~ rad_body / 2 ^ k > radtol
    /\ (forall fuel, (k <= fuel)%nat ->
                     while_loop cond body fuel (bisect_init rad_body)
                     = Ok (Nat.iter k body (bisect_init rad_body)))
    /\ (forall fuel, (fuel < k)%nat ->
                     while_loop cond body fuel (bisect_init rad_body)
                     = Err OutOfFuel).
Proof.
  intros Htol.
  assert (HK : exists K, ~ rad_body / 2 ^ K > radtol).
  { destruct (Pow_x_infinity 2 ltac:(rewrite Rabs_right; lra)
                             (rad_body / radtol)) as [K HK].
    exists K. specialize (HK K ltac:(lia)).
    assert (Hp : 0 < 2 ^ K) by (apply pow_lt; lra).
    rewrite Rabs_right in HK by lra.
    intros Hgt. apply Rge_le in HK.
    apply (Rmult_le_compat_r radtol) in HK; [|lra].
    unfold Rdiv in HK. rewrite Rmult_assoc, Rinv_l, Rmult_1_r in HK by lra.
    apply (Rmult_gt_compat_r (2 ^ K)) in Hgt; [|lra].
    unfold Rdiv in Hgt. rewrite Rmult_assoc, Rinv_l, Rmult_1_r in Hgt by lra.
    lra. }
  destruct HK as [K HK].
  destruct (first_failure
              (fun i => cond (Nat.iter i body (bisect_init rad_body))) K)
    as (k & _ & Hrun & Hstop).
  { destruct (cond _) eqn:E; [|reflexivity].
    apply bisect_cond_iter in E. contradiction. }
  exists k. split; [|split; [|split]].
  - intros i Hi. apply bisect_cond_iter. apply Hrun. exact Hi.
  - intros Hgt. apply bisect_cond_iter in Hgt. congruence.
  - intros fuel Hfuel. apply while_loop_iter; assumption.
  - intros fuel Hfuel. apply while_loop_out_of_fuel.
    intros i Hi. apply Hrun. lia.
Qed.

End Bisection.

(** *** The pair style after [init_style] *)

Section InitStyle.
Context {MS : MathSpherharm}.
Variables (expo : R) (coeffs : nat -> nat -> R).

Lemma init_style_fields :
  num_pole_quad (init_style expo coeffs) = 30%Z
  /\ radius_tol (init_style expo coeffs) = 1e-3
  /\ List.length (abscissa (init_style expo coeffs)) = 30%nat
  /\ forall i, (i < 30)%nat ->
               nth i (abscissa (init_style expo coeffs)) 0
               = x (GLPair 30 (i + 1)).
Proof.
  unfold init_style, pair_get_quadrature_values.
  destruct (@nodes_loop MS 30 30 (repeat 0 30) (repeat 0 30)) as [Hlen Hnth];
    [rewrite repeat_length; lia|].
  change (Z.to_nat 30) with 30%nat.
  destruct (fold_left _ (seq 0 30) (repeat 0 30, repeat 0 30)) as [w ab].
  cbn [snd num_pole_quad radius_tol abscissa] in *.
  rewrite repeat_length in Hlen. repeat split; assumption.
Qed.

End InitStyle.

Section BisectionBound.
Context {MS : MathSpherharm} {CM : Cmath}.
Variable avec : AtomVecSpherharm.
Variables (jshtype : nat) (radj : R) (xi xj : vec3 R) (jrot : mat3 R).
Variables (theta_sf phi_sf radtol : R).

Let body := bisect_body avec jshtype radj xi xj jrot theta_sf phi_sf.

(** A pass keeps the bracket inside the one it starts from, with the
    sampled radius between the two bounds. *)
Lemma bisect_body_bracket (s : bisect_state) :
  lower_bound s <= rad_sample s <= upper_bound s ->
  lower_bound s <= lower_bound (body s)
  /\ upper_bound (body s) <= upper_bound s
  /\ lower_bound (body s) <= rad_sample (body s) <= upper_bound (body s).
Proof.
  intros Hs. unfold body, bisect_body.
  destruct (contact_at avec jshtype radj xj jrot _) as [[|]|];
    cbn [upper_bound lower_bound rad_sample]; lra.
Qed.

Lemma bisect_iter_bracket (rad_body : R) (i : nat) :
  0 <= rad_body ->
  let s := Nat.iter i body (bisect_init rad_body) in
  0 <= lower_bound s /\ upper_bound s <= rad_body
  /\ lower_bound s <= rad_sample s <= upper_bound s.
Proof.
  intros Hr. cbv zeta. induction i as [|i (Hl & Hu & Hs)].
  - unfold bisect_init; simpl. lra.
  - simpl Nat.iter. destruct (bisect_body_bracket _ Hs) as (Hl' & Hu' & Hs').
    lra.
Qed.

(** The loop is over within [b] passes when [rad_body <= 2^b * radtol]. *)
Lemma bisect_passes_bound (rad_body : R) (b : nat) :
  0 < radtol -> rad_body <= 2 ^ b * radtol ->
  exists k,
    (k <= b)%nat
    /\ (forall fuel, (k <= fuel)%nat ->
                     while_loop (bisect_cond radtol) body fuel
                                (bisect_init rad_body)
                     = Ok (Nat.iter k body (bisect_init rad_body)))
    /\ (forall fuel, (fuel < k)%nat ->
                     while_loop (bisect_cond radtol) body fuel
                                (bisect_init rad_body)
                     = Err OutOfFuel)
    /\ bisect_cond radtol (Nat.iter k body (bisect_init rad_body)) = false.
Proof.
  intros Htol Hb.
  destruct (@bisect_passes MS CM avec jshtype radj xi xj jrot theta_sf phi_sf
              radtol rad_body Htol) as (k & Hrun & Hstop & Hok & Hout).
  exists k. split; [|split; [exact Hok|split; [exact Hout|]]].
  - destruct (Nat.le_gt_cases k b) as [Hle|Hgt]; [exact Hle|].
    exfalso. specialize (Hrun b Hgt).
    assert (Hp : 0 < 2 ^ b) by (apply pow_lt; lra).
    apply (Rmult_gt_compat_r (2 ^ b)) in Hrun; [|lra].
    unfold Rdiv in Hrun. rewrite Rmult_assoc, Rinv_l, Rmult_1_r in Hrun by lra.
    lra.
  - destruct (bisect_cond radtol _) eqn:E; [|reflexivity].
    apply bisect_cond_iter in E. contradiction.
Qed.

End BisectionBound.

(** C9 (amended).  The radial bisection loop of a call with the positive
    tolerance [radtol = radius_tol * r_max(A)] is over within [b] passes
    whenever [rad_body <= (1 - 1/1024) * 2^b * radtol], for [b] up to 40:
    the loop then returns after [k <= b] passes, its own test
    [upper_bound - lower_bound > radtol] fails on the bracket it returns,
    and that bracket lies inside [[0, rad_body]] when [rad_body] is not
    negative.  With [r_max(A) = 1] and [radius_tol = 1e-3] that makes at
    most 11 passes in every call whose ray radius [rad_body] is at most 2,
    in particular whenever [rad_body <= r_max(A)].  The margin [1/1024]
    and the bound on [b] leave room for the rounding of the midpoint
    [(upper_bound + lower_bound) / 2.0] in double precision; nothing here
    rests on the gap being halved exactly.  No bound on the passes holds
    for every call: [rad_body] is not bounded by [r_max(A)]. *)
Theorem C9_bisection {MS : MathSpherharm} {CM : Cmath}
        (avec : AtomVecSpherharm) (pair : PairSH) (jshtype : nat) (radj : R)
        (xi xj : vec3 R) (jrot : mat3 R) (theta_sf phi_sf radi rad_body : R)
        (b : nat) :
  0 < radius_tol pair * radi ->
  let radtol := radius_tol pair * radi in
  let body := bisect_body avec jshtype radj xi xj jrot theta_sf phi_sf in
  let start := bisect_init rad_body in
  (b <= 40)%nat ->
  rad_body <= (1 - 1 / 1024) * (2 ^ b * radtol) ->
  exists k,
    (k <= b)%nat
    /\ (forall fuel, (k <= fuel)%nat ->
                     while_loop (bisect_cond radtol) body fuel start
                     = Ok (Nat.iter k body start))
    /\ (forall fuel, (fuel < k)%nat ->
                     while_loop (bisect_cond radtol) body fuel start
                     = Err OutOfFuel)
    /\ bisect_cond radtol (Nat.iter k body start) = false
    /\ (0 <= rad_body ->
        0 <= lower_bound (Nat.iter k body start)
        /\ lower_bound (Nat.iter k body start)
           <= upper_bound (Nat.iter k body start)
        /\ upper_bound (Nat.iter k body start) <= rad_body)
    /\ (radi = 1 -> radius_tol pair = 1e-3 -> rad_body <= 2 ->
        (k <= 11)%nat).
Proof.
  intros Htol radtol body start Hb40 Hrb.
  assert (Hp : 0 < 2 ^ b) by (apply pow_lt; lra).
  assert (Hle : rad_body <= 2 ^ b * radtol).
  { assert (0 < 2 ^ b * radtol) by (apply Rmult_lt_0_compat; assumption).
    lra. }
  destruct (@bisect_passes_bound MS CM avec jshtype radj xi xj jrot theta_sf
              phi_sf radtol rad_body b Htol Hle)
    as (k & Hk & Hok & Hout & Hstop).
  exists k. split; [exact Hk|]. split; [exact Hok|]. split; [exact Hout|].
  split; [exact Hstop|]. split.
  - intros Hr0.
    destruct (@bisect_iter_bracket MS CM avec jshtype radj xi xj jrot
                theta_sf phi_sf rad_body k Hr0) as (Hl & Hu & Hs).
    fold body in Hl, Hu, Hs. fold start in Hl, Hu, Hs. lra.
  - intros Hradi Hrt H2.
    destruct (@bisect_passes_bound MS CM avec jshtype radj xi xj jrot
                theta_sf phi_sf radtol rad_body 11 Htol)
      as (k' & Hk' & Hok' & _).
    { unfold radtol. rewrite Hradi, Hrt. simpl. lra. }
    destruct (Nat.le_gt_cases k 11) as [H|Hgt]; [exact H|].
    exfalso.
    pose proof (Hok' 11%nat Hk') as E1.
    pose proof (Hout 11%nat Hgt) as E2.
    unfold body, start in E2. rewrite E2 in E1. discriminate.
Qed.

Lemma C9_witness :
  let pair := init_style 1.5 (fun _ _ => 1) in
  let body :=
    bisect_body Concrete.elongated 0 1 (V3 0 0 0) (V3 0 0 (5 / 3))
                Concrete.identity_mat 0 0 in
  (0 < radius_tol pair * 1
   /\ (11 <= 40)%nat
   /\ 2 <= (1 - 1 / 1024) * (2 ^ 11 * (radius_tol pair * 1)))
  /\ exists k,
      (k <= 11)%nat
      /\ (forall fuel, (k <= fuel)%nat ->
                       while_loop (bisect_cond (radius_tol pair * 1)) body
                                  fuel (bisect_init 2)
                       = Ok (Nat.iter k body (bisect_init 2))).
Proof.
  intros pair body.
  destruct (init_style_fields 1.5 (fun _ _ => 1)) as (_ & Htol & _).
  assert (Hpos : 0 < radius_tol pair * 1) by (unfold pair; rewrite Htol; lra).
  assert (Hb : (11 <= 40)%nat) by lia.
  assert (Hr : 2 <= (1 - 1 / 1024) * (2 ^ 11 * (radius_tol pair * 1)))
    by (unfold pair; rewrite Htol; simpl; lra).
  split; [split; [exact Hpos | split; [exact Hb | exact Hr]]|].
  destruct (@C9_bisection _ _ Concrete.elongated pair 0%nat 1 (V3 0 0 0)
              (V3 0 0 (5 / 3)) Concrete.identity_mat 0 0 1 2 11%nat
              Hpos Hb Hr)
    as (k & Hk & Hok & _).
  exists k. split; [exact Hk | exact Hok].
Defined.

(** ** The loop over the neighbours in [compute] *)

Section ComputePair.
Context {MS : MathSpherharm} {CM : Cmath}.
Variables (host : Host) (avec : AtomVecSpherharm) (pair : PairSH).
Import MathExtra.

(** The distance the routine tests is the length of [delvec - x[j]], where
    [delvec] is what the previous neighbours of the same atom left. *)
Lemma compute_pair_far (fuel i itype ishtype : nat) (radi : R)
      (irot : mat3 R) (iquat_sf_bf : quat4 R) (delvec : vec3 R)
      (cur_time : R) (atom : Atom) (jraw : Z) :
  let j := Z.to_nat (Z.land jraw (NEIGHMASK host)) in
  let radj := nth (nth j (atom_shtype atom) 0%nat) (maxrad_byshape avec) 0 in
  let delvec' := sub3 delvec (nth j (atom_x atom) vzero) in
  radi + radj <= len3 delvec' ->
  compute_pair host avec pair fuel i itype ishtype radi irot iquat_sf_bf
               (delvec, cur_time, atom) jraw
  = Ok (delvec', cur_time, atom).
Proof.
  intros j radj delvec' Hfar. unfold compute_pair. cbv zeta.
  fold j. fold radj. fold delvec'.
  change (sqrt (lensq3 delvec')) with (len3 delvec').
  assert (H : Rltb (len3 delvec') (radi + radj) = false)
    by (apply Rltb_false; lra).
  rewrite H. reflexivity.
Qed.

Lemma compute_pair_inside (fuel i itype ishtype : nat) (radi : R)
      (irot : mat3 R) (iquat_sf_bf : quat4 R) (delvec : vec3 R)
      (cur_time : R) (atom : Atom) (jraw : Z) :
  let j := Z.to_nat (Z.land jraw (NEIGHMASK host)) in
  let radj := nth (nth j (atom_shtype atom) 0%nat) (maxrad_byshape avec) 0 in
  let delvec' := sub3 delvec (nth j (atom_x atom) vzero) in
  len3 delvec' < radi + radj -> len3 delvec' <= radj ->
  compute_pair host avec pair fuel i itype ishtype radi irot iquat_sf_bf
               (delvec, cur_time, atom) jraw
  = Err CenterInsideOther.
Proof.
  intros j radj delvec' Hnear Hin. unfold compute_pair. cbv zeta.
  fold j. fold radj. fold delvec'.
  change (sqrt (lensq3 delvec')) with (len3 delvec').
  assert (H : Rltb (len3 delvec') (radi + radj) = true)
    by (apply Rltb_true; lra).
  assert (H' : Rgtb (len3 delvec') radj = false)
    by (apply Rgtb_false; lra).
  rewrite H, H'. reflexivity.
Qed.

End ComputePair.

Lemma len3_x_axis (a : R) : MathExtra.len3 (V3 a 0 0) = Rabs a.
Proof.
  unfold MathExtra.len3, MathExtra.lensq3; simpl.
  replace (a * a + 0 * 0 + 0 * 0) with (Rsqr a) by (unfold Rsqr; ring).
  apply sqrt_Rsqr_abs.
Qed.

(** C4: atom 0 at the origin with the neighbours 1 at [(3,0,0)] and 2 at
    [(-4,0,0)], all unit spheres.  The centres of atoms 0 and 2 are 4
    apart, beyond [r_max + r_max = 2], yet the routine stops with the error
    of a centre inside the other particle: for the second neighbour it
    measures [delvec - x[2]] with the [delvec] left by the first one. *)
Theorem C4_stale_delvec {MS : MathSpherharm} {CM : Cmath} (pair : PairSH)
        (fuel : nat) :
  let atom := Concrete.far_neighbours in
  let x0 := nth 0 (atom_x atom) vzero in
  let x2 := nth 2 (atom_x atom) vzero in
  let r_max := nth 0 (maxrad_byshape Concrete.unit_sphere) 0 in
  MathExtra.len3 (MathExtra.sub3 x0 x2) >= r_max + r_max
  /\ compute Concrete.host Concrete.unit_sphere pair fuel
             (Concrete.neighbours_of_0 [1%Z; 2%Z]) atom
     = Err CenterInsideOther.
Proof.
  intros atom x0 x2 r_max.
  assert (Hlen : forall e v : vec3 R,
             e = v -> MathExtra.len3 e = MathExtra.len3 v)
    by (intros e v ->; reflexivity).
  split.
  - unfold x0, x2, r_max, atom.
    cbn [nth atom_x maxrad_byshape Concrete.far_neighbours Concrete.atoms_at
         Concrete.unit_sphere].
    rewrite (Hlen _ (V3 4 0 0))
      by (unfold MathExtra.sub3; cbn; f_equal; ring).
    rewrite len3_x_axis, Rabs_right; lra.
  - assert (J1 : Z.to_nat (Z.land 1 (NEIGHMASK Concrete.host)) = 1%nat)
      by reflexivity.
    assert (J2 : Z.to_nat (Z.land 2 (NEIGHMASK Concrete.host)) = 2%nat)
      by reflexivity.
    unfold compute, Concrete.neighbours_of_0. cbn [inum seq for_each].
    unfold compute_atom.
    cbn [ilist numneigh firstneigh nth List.length firstn].
    cbn [for_each].
    rewrite compute_pair_far.
    + cbn [bind].
      rewrite compute_pair_inside; [reflexivity | |];
        cbv zeta; rewrite ?J1, ?J2;
        cbn [nth atom_x atom_shtype maxrad_byshape map atom
             Concrete.far_neighbours Concrete.atoms_at Concrete.unit_sphere];
        rewrite (Hlen _ (V3 1 0 0))
          by (unfold MathExtra.sub3, MathExtra.copy3; cbn; f_equal; ring);
        rewrite len3_x_axis, Rabs_right; lra.
    + cbv zeta; rewrite ?J1, ?J2.
      cbn [nth atom_x atom_shtype maxrad_byshape map atom
           Concrete.far_neighbours Concrete.atoms_at Concrete.unit_sphere].
      rewrite (Hlen _ (V3 (-3) 0 0))
        by (unfold MathExtra.sub3, MathExtra.copy3; cbn; f_equal; ring).
      rewrite len3_x_axis, Rabs_left; lra.
Qed.

(** ** The index of the cap refinement *)

Lemma read_in_range (name : string) (l : list R) (i : Z) :
  (0 <= i < Z.of_nat (List.length l))%Z ->
  read name l i = Ok (nth (Z.to_nat i) l 0).
Proof.
  intros Hi. unfold read.
  destruct (Z.ltb_spec i 0) as [Hneg|_]; [lia|].
  destruct (nth_error l (Z.to_nat i)) as [v|] eqn:E.
  - f_equal. symmetry. apply nth_error_nth. exact E.
  - apply nth_error_None in E. lia.
Qed.

Lemma read_past_end (name : string) (l : list R) (i : Z) :
  (Z.of_nat (List.length l) <= i)%Z ->
  read name l i = Err (OutOfBounds name i).
Proof.
  intros Hi. unfold read.
  destruct (Z.ltb_spec i 0) as [_|_]; [reflexivity|].
  destruct (nth_error l (Z.to_nat i)) as [v|] eqn:E; [|reflexivity].
  assert (H : (Z.to_nat i < List.length l)%nat)
    by (apply nth_error_Some; congruence).
  lia.
Qed.

Section IdentityRotation.
Import MathExtra.

Lemma quat_to_mat_identity : quat_to_mat Concrete.identity_quat = Concrete.identity_mat.
Proof.
  unfold quat_to_mat, Concrete.identity_quat, Concrete.identity_mat, two; cbn.
  f_equal; f_equal; ring.
Qed.

Lemma matvec_identity (v : vec3 R) : matvec Concrete.identity_mat v = v.
Proof.
  destruct v as [a b c]. unfold matvec, dot3, Concrete.identity_mat; cbn.
  f_equal; ring.
Qed.

Lemma qnormalize_scaled (w : R) :
  0 < w -> qnormalize (Q4 w 0 0 0) = Concrete.identity_quat.
Proof.
  intros Hw. unfold qnormalize, Concrete.identity_quat; cbn.
  replace (w * w + 0 * 0 + 0 * 0 + 0 * 0) with (w * w) by ring.
  rewrite sqrt_square by lra.
  f_equal; field; lra.
Qed.

Lemma qconjugate_identity :
  qnormalize (qconjugate Concrete.identity_quat) = Concrete.identity_quat.
Proof.
  unfold qconjugate, Concrete.identity_quat; cbn.
  replace (- 0) with 0 by ring. apply qnormalize_scaled. lra.
Qed.

Lemma quatquat_identity :
  qnormalize (quatquat Concrete.identity_quat Concrete.identity_quat)
  = Concrete.identity_quat.
Proof.
  unfold quatquat, Concrete.identity_quat; cbn.
  replace (1 * 1 - 0 * 0 - 0 * 0 - 0 * 0) with 1 by ring.
  replace (1 * 0 + 1 * 0 + 0 * 0 - 0 * 0) with 0 by ring.
  apply qnormalize_scaled. lra.
Qed.

(** The contact quaternion of a centre line along the pole. *)
Lemma get_contact_quat_pole (z : R) :
  0 < z -> get_contact_quat (V3 0 0 z) = Concrete.identity_quat.
Proof.
  intros Hz. unfold get_contact_quat, dot3, cross3, lensq3; cbn.
  replace ((0 * 0 + 0 * 0 + 1.0 * 1.0) * (0 * 0 + 0 * 0 + z * z))
    with (z * z) by lra.
  rewrite sqrt_square by lra.
  replace (0 * z - 1.0 * 0) with 0 by lra.
  replace (1.0 * 0 - 0 * z) with 0 by lra.
  replace (0 * 0 - 0 * 0) with 0 by lra.
  replace (0 * 0 + 0 * 0 + 1.0 * z) with z by lra.
  apply qnormalize_scaled. lra.
Qed.

End IdentityRotation.

Section OutermostRing.
Context {MS : MathSpherharm} {CM : Cmath}.
Import MathExtra.

Lemma sqrt2_facts : sqrt 2 * sqrt 2 = 2 /\ 1 < sqrt 2 < 2.
Proof.
  assert (H : sqrt 2 * sqrt 2 = 2) by (apply sqrt_sqrt; lra).
  assert (Hp : 0 <= sqrt 2) by apply sqrt_pos.
  split; [exact H|]. split; nra.
Qed.

Lemma cos_cap_angle : cos (asin (1 / sqrt 2)) = / sqrt 2.
Proof.
  destruct sqrt2_facts as [H2 [Hlo Hhi]].
  assert (Hx : 1 / sqrt 2 = / sqrt 2) by (field; lra).
  rewrite cos_asin.
  - unfold Rsqr. rewrite Hx.
    assert (Hq : / sqrt 2 * / sqrt 2 = / 2)
      by (rewrite <- Rinv_mult, H2; reflexivity).
    replace (1 - / sqrt 2 * / sqrt 2) with (/ sqrt 2 * / sqrt 2)
      by (rewrite Hq; lra).
    apply sqrt_square. left. apply Rinv_0_lt_compat. lra.
  - rewrite Hx.
    assert (0 < / sqrt 2) by (apply Rinv_0_lt_compat; lra).
    assert (/ sqrt 2 < 1) by (rewrite <- Rinv_1; apply Rinv_lt_contravar; lra).
    lra.
Qed.

(** A point of the unit sphere at the origin, at polar angle [theta] with
    [cos theta >= 1/sqrt 2], lies in the unit sphere centred at
    [(0, 0, sqrt 2)]. *)
Lemma contact_at_cap (theta phi : R) :
  / sqrt 2 <= cos theta ->
  contact_at Concrete.unit_sphere 0 1 (V3 0 0 (sqrt 2)) Concrete.identity_mat
             (ray_point 1 theta phi (V3 0 0 0))
  = Some true.
Proof.
  intros Hc. destruct sqrt2_facts as [H2 [Hlo Hhi]].
  unfold contact_at.
  assert (Hd : len3 (sub3 (ray_point 1 theta phi (V3 0 0 0))
                          (V3 0 0 (sqrt 2))) <= 1).
  { unfold len3.
    apply Rle_trans with (sqrt 1); [|rewrite sqrt_1; lra].
    apply sqrt_le_1_alt.
    unfold lensq3, sub3, ray_point; cbn.
    pose proof (sin2_cos2 theta) as Ht. pose proof (sin2_cos2 phi) as Hp.
    unfold Rsqr in Ht, Hp.
    replace ((1 * sin theta * cos phi + 0 - 0)
             * (1 * sin theta * cos phi + 0 - 0)
             + (1 * sin theta * sin phi + 0 - 0)
               * (1 * sin theta * sin phi + 0 - 0)
             + (1 * cos theta + 0 - sqrt 2) * (1 * cos theta + 0 - sqrt 2))
      with (sin theta * sin theta * (sin phi * sin phi + cos phi * cos phi)
            + cos theta * cos theta - 2 * (sqrt 2 * cos theta)
            + sqrt 2 * sqrt 2) by ring.
    rewrite Hp, H2.
    assert (Hm : 1 <= sqrt 2 * cos theta).
    { apply (Rmult_le_compat_l (sqrt 2)) in Hc; [|lra].
      rewrite Rinv_r in Hc by lra. exact Hc. }
    lra. }
  assert (Hg : Rgtb (len3 (sub3 (ray_point 1 theta phi (V3 0 0 0))
                                (V3 0 0 (sqrt 2)))) 1 = false)
    by (apply Rgtb_false; lra).
  rewrite Hg. rewrite unit_sphere_check_contact by exact Hd. reflexivity.
Qed.

(** The first direction of a ring at [theta_pole = acos u] is in contact. *)
Lemma refine_ll_cap (u : R) (n ll : Z) (lls : list Z) :
  / sqrt 2 <= u <= 1 ->
  refine_ll Concrete.unit_sphere 0 0 1 (V3 0 0 0) (V3 0 0 (sqrt 2))
            Concrete.identity_mat Concrete.identity_mat Concrete.identity_mat (acos u) n (ll :: lls)
  = true.
Proof.
  intros Hu. destruct sqrt2_facts as [H2 [Hlo Hhi]].
  assert (Hinv : 0 < / sqrt 2) by (apply Rinv_0_lt_compat; lra).
  cbn [refine_ll]. rewrite !matvec_identity.
  rewrite unit_sphere_get_shape_radius.
  unfold pole_point at 1 2. cbn [c0 c1 c2].
  rewrite cos_acos by lra.
  rewrite contact_at_cap; [reflexivity|].
  rewrite cos_acos by lra. lra.
Qed.

(** The cap refinement between two unit spheres whose centres are
    [sqrt 2] apart along the pole stops on the outermost ring. *)
Lemma refine_cap_angle_outermost (pair : PairSH) (kk_count : Z) :
  num_pole_quad pair = 30%Z ->
  List.length (abscissa pair) = 30%nat ->
  -1 <= nth 29 (abscissa pair) 0 <= 1 ->
  refine_cap_angle Concrete.unit_sphere pair kk_count 0 0
                   (asin (1 / sqrt 2)) 1
                   Concrete.identity_quat Concrete.identity_quat
                   (V3 0 0 0) (V3 0 0 (sqrt 2)) Concrete.identity_mat
  = Ok (true, 30%Z).
Proof.
  intros Hnpq Hlen Ha. destruct sqrt2_facts as [H2 [Hlo Hhi]].
  assert (Hinv : 0 < / sqrt 2 < 1).
  { split; [apply Rinv_0_lt_compat; lra|].
    rewrite <- Rinv_1. apply Rinv_lt_contravar; lra. }
  unfold refine_cap_angle.
  rewrite quatquat_identity, quat_to_mat_identity, cos_cap_angle.
  unfold kk_descending. rewrite Hnpq.
  change (rev (zrange 0 (30 - 1))) with (29%Z :: rev (zrange 0 28)).
  cbn [refine_kk].
  rewrite read_in_range by (rewrite Hlen; lia).
  cbn [bind].
  change (zrange 1 (2 * (30 - 1) + 1)) with (1%Z :: zrange 2 59).
  rewrite refine_ll_cap; [reflexivity|].
  change (Z.to_nat 29) with 29%nat.
  split; nra.
Qed.

End OutermostRing.

(** The read of [abscissa[kk_count]] that opens [calc_force_torque]. *)
Lemma calc_force_torque_past_end {MS : MathSpherharm} {CM : Cmath}
      (avec : AtomVecSpherharm) (pair : PairSH) (fuel : nat) (kk_count : Z)
      (ishtype jshtype : nat) (iang radi radj : R)
      (iquat_cont iquat_sf_bf : quat4 R) (xi xj : vec3 R)
      (irot jrot : mat3 R) (vol_overlap : R) (iforce torsum : vec3 R) :
  (Z.of_nat (List.length (abscissa pair)) <= kk_count)%Z ->
  calc_force_torque avec pair fuel kk_count ishtype jshtype iang radi radj
                    iquat_cont iquat_sf_bf xi xj irot jrot
                    vol_overlap iforce torsum
  = Err (OutOfBounds "abscissa" kk_count).
Proof.
  intros Hk. unfold calc_force_torque. cbv zeta.
  rewrite read_past_end by exact Hk. reflexivity.
Qed.

(** C10.  For some inputs the index of the cap refinement overruns the
    quadrature table.  Two unit spheres with centres [sqrt 2] apart:
    [refine_cap_angle] finds contact on the outermost ring
    [kk = num_pole_quad - 1] and sets [kk_count = num_pole_quad]; the guard
    of [compute] clamps only values above [num_pole_quad]; and
    [calc_force_torque] reads [abscissa[num_pole_quad]], one element past
    the end of the array of [num_pole_quad] elements. *)
Theorem C10_abscissa_overrun {MS : MathSpherharm} {CM : Cmath}
        (expo : R) (coeffs : nat -> nat -> R) (fuel : nat) :
  let pair := init_style expo coeffs in
  Z.of_nat (List.length (abscissa pair)) = num_pole_quad pair
  /\ refine_cap_angle Concrete.unit_sphere pair (-1) 0 0
                      (asin (1 / sqrt 2)) 1
                      Concrete.identity_quat Concrete.identity_quat
                      (V3 0 0 0) (V3 0 0 (sqrt 2)) Concrete.identity_mat
     = Ok (true, num_pole_quad pair)
  /\ ((num_pole_quad pair >? num_pole_quad pair)%Z = false)
  /\ read "abscissa" (abscissa pair) (num_pole_quad pair)
     = Err (OutOfBounds "abscissa" (num_pole_quad pair))
  /\ compute Concrete.host Concrete.unit_sphere pair fuel
             (Concrete.neighbours_of_0 [1%Z]) Concrete.touching_pair
     = Err (OutOfBounds "abscissa" (num_pole_quad pair)).
Proof.
  intros pair.
  destruct (init_style_fields expo coeffs) as (Hnpq & _ & Hlen & Hnth).
  fold pair in Hnpq, Hlen, Hnth.
  destruct sqrt2_facts as [H2 [Hlo Hhi]].
  assert (Ha : -1 <= nth 29 (abscissa pair) 0 <= 1)
    by (rewrite Hnth by lia; apply abscissa_range).
  assert (Hrefine := @refine_cap_angle_outermost MS CM pair (-1) Hnpq Hlen Ha).
  rewrite Hnpq.
  split; [rewrite Hlen; reflexivity|].
  split; [exact Hrefine|].
  split; [reflexivity|].
  split; [apply read_past_end; rewrite Hlen; lia|].
  assert (J1 : Z.to_nat (Z.land 1 (NEIGHMASK Concrete.host)) = 1%nat)
    by reflexivity.
  unfold compute, Concrete.neighbours_of_0. cbn [inum seq for_each].
  unfold compute_atom.
  cbn [ilist numneigh firstneigh nth List.length firstn].
  cbn [for_each].
  unfold compute_pair. cbv zeta. rewrite J1.
  cbn [nth atom_x atom_shtype atom_quat atom_type maxrad_byshape map
       Concrete.touching_pair Concrete.atoms_at Concrete.unit_sphere].
  rewrite qconjugate_identity, quat_to_mat_identity.
  replace (MathExtra.sub3 (MathExtra.copy3 (V3 0 0 0)) (V3 0 0 (sqrt 2)))
    with (V3 0 0 (- sqrt 2))
    by (unfold MathExtra.sub3, MathExtra.copy3; cbn; f_equal; ring).
  replace (MathExtra.negate3 (V3 0 0 (- sqrt 2))) with (V3 0 0 (sqrt 2))
    by (unfold MathExtra.negate3; cbn; f_equal; ring).
  replace (sqrt (MathExtra.lensq3 (V3 0 0 (- sqrt 2)))) with (sqrt 2).
  2:{ unfold MathExtra.lensq3; cbn. f_equal. rewrite <- H2 at 1. ring. }
  rewrite get_contact_quat_pole by lra.
  assert (Hlt : Rltb (sqrt 2) (1 + 1) = true) by (apply Rltb_true; lra).
  assert (Hgt : Rgtb (sqrt 2) 1 = true) by (apply Rgtb_true; lra).
  rewrite Hlt, Hgt. cbn [bind].
  rewrite Hrefine. cbn [bind]. rewrite Hnpq.
  change (30 >? 30)%Z with false. cbv iota.
  rewrite calc_force_torque_past_end by (rewrite Hlen; lia).
  reflexivity.
Qed.

(** ** A run of [compute] whose bisection needs more than 11 passes *)

(** *** The nodes of the pole quadrature *)

Lemma weights_loop {MS : MathSpherharm} (Q m : nat) (w0 ab0 : list R) :
  List.length
    (fst (fold_left
            (fun (st : list R * list R) (i : nat) =>
               let '(w, abscissa) := st in
               let p := GLPair Q (i + 1) in
               (upd i (weight p) w, upd i (x p) abscissa))
            (seq 0 m) (w0, ab0)))
  = List.length w0.
Proof.
  induction m as [|m IH].
  - reflexivity.
  - rewrite seq_S, fold_left_app. simpl "+".
    destruct (fold_left _ (seq 0 m) (w0, ab0)) as [w ab]. simpl in *.
    rewrite length_upd. exact IH.
Qed.

Lemma init_style_weights {MS : MathSpherharm} (expo : R)
      (coeffs : nat -> nat -> R) :
  List.length (pair_weights (init_style expo coeffs)) = 30%nat.
Proof.
  unfold init_style, pair_get_quadrature_values.
  pose proof (@weights_loop MS 30 30 (repeat 0 30) (repeat 0 30)) as Hlen.
  change (Z.to_nat 30) with 30%nat.
  destruct (fold_left _ (seq 0 30) (repeat 0 30, repeat 0 30)) as [w ab].
  cbn [fst pair_weights] in *.
  rewrite repeat_length in Hlen. exact Hlen.
Qed.

Lemma cos_small (t : R) : 0 <= t <= 1 / 10 -> 9 / 10 <= cos t.
Proof.
  intros [H0 H1]. pose proof PI2_3_2 as Hpi.
  assert (Hc : 0 < cos t) by (apply cos_gt_0; lra).
  assert (Hs : 0 <= sin t <= t).
  { destruct H0 as [Hlt|<-].
    - split; [apply sin_ge_0; lra | left; apply sin_lt_x; exact Hlt].
    - rewrite sin_0. lra. }
  pose proof (sin2_cos2 t) as H. unfold Rsqr in H. nra.
Qed.

Lemma cos_open (t : R) : 0 < t < PI -> -1 < cos t < 1.
Proof.
  intros [H0 H1]. pose proof (sin_gt_0 t H0 H1) as Hs.
  pose proof (sin2_cos2 t) as H. unfold Rsqr in H. split; nra.
Qed.

(** The nodes of the rule of order 30: all inside [(-1, 1)], the first
    above [9/10] and the last below [-9/10]. *)
Lemma pole_nodes (i : nat) :
  (i < 30)%nat ->
  -1 < x (GLPair 30 (i + 1)) < 1
  /\ (i = 0%nat -> 9 / 10 <= x (GLPair 30 (i + 1)))
  /\ (i = 29%nat -> x (GLPair 30 (i + 1)) <= - (9 / 10)).
Proof.
  intros Hi. unfold x.
  cbn [GLPair Concrete.math_spherharm Concrete.GLPair theta].
  pose proof PI_RGT_0 as Hp0. pose proof PI_4 as Hp4.
  assert (H30 : INR 30 = 30) by (simpl; lra).
  rewrite H30.
  assert (Hk : 1 <= INR (i + 1) <= 30).
  { split.
    - change 1 with (INR 1). apply le_INR. lia.
    - rewrite <- H30. apply le_INR. lia. }
  split; [|split].
  - apply cos_open. split.
    + apply Rdiv_lt_0_compat; nra.
    + apply Rmult_lt_reg_r with (4 * 30 + 2); [lra|].
      unfold Rdiv. rewrite Rmult_assoc, Rinv_l by lra. nra.
  - intros ->. simpl INR. apply cos_small. split.
    + apply Rmult_le_pos; [nra | left; apply Rinv_0_lt_compat; lra].
    + apply Rmult_le_reg_r with (4 * 30 + 2); [lra|].
      unfold Rdiv. rewrite Rmult_assoc, Rinv_l by lra. nra.
  - intros ->. change (29 + 1)%nat with 30%nat. rewrite H30.
    replace (PI * (4 * 30 - 1) / (4 * 30 + 2))
      with (- (PI * 3 / 122) + PI) by field.
    rewrite neg_cos, cos_neg.
    assert (9 / 10 <= cos (PI * 3 / 122)); [|lra].
    apply cos_small. lra.
Qed.

(** ** The search of [refine_cap_angle] *)

Lemma zrange_desc_S (m : nat) :
  rev (zrange 0 (Z.of_nat (S m) - 1))
  = Z.of_nat m :: rev (zrange 0 (Z.of_nat m - 1)).
Proof.
  unfold zrange.
  replace (Z.to_nat (Z.of_nat (S m) - 1 - 0 + 1)) with (S m) by lia.
  replace (Z.to_nat (Z.of_nat m - 1 - 0 + 1)) with m by lia.
  rewrite seq_S, map_app, rev_app_distr. cbn [map rev app Nat.add].
  rewrite Z.add_0_l. reflexivity.
Qed.

Section RefineSearch.
Context {MS : MathSpherharm} {CM : Cmath}.
Variables (avec : AtomVecSpherharm) (pair : PairSH).
Variables (kk_count : Z) (ishtype jshtype : nat) (radj : R).
Variables (xi xj : vec3 R) (jrot rot_np_bf rot_np_sf : mat3 R).
Variables (cosang : R) (n : Z).

(** The answer of the loop over [ll] on the ring [kk]. *)
Let ring (kk : Z) : bool :=
  refine_ll avec ishtype jshtype radj xi xj jrot rot_np_bf rot_np_sf
            (acos ((nth (Z.to_nat kk) (abscissa pair) 0
                    * ((1.0 - cosang) / 2.0))
                   + ((1.0 + cosang) / 2.0)))
            n (zrange 1 (n + 1)).

Lemma refine_kk_search (m : nat) :
  (m <= List.length (abscissa pair))%nat ->
  (exists kk, (0 <= kk < Z.of_nat m)%Z /\ ring kk = true
              /\ (forall kk', (kk < kk' < Z.of_nat m)%Z -> ring kk' = false)
              /\ refine_kk avec pair kk_count ishtype jshtype radj xi xj jrot
                           rot_np_bf rot_np_sf cosang n
                           (rev (zrange 0 (Z.of_nat m - 1)))
                 = Ok (true, (kk + 1)%Z))
  \/ ((forall kk, (0 <= kk < Z.of_nat m)%Z -> ring kk = false)
      /\ refine_kk avec pair kk_count ishtype jshtype radj xi xj jrot
                   rot_np_bf rot_np_sf cosang n
                   (rev (zrange 0 (Z.of_nat m - 1)))
         = Ok (false, kk_count)).
Proof.
  induction m as [|m IH]; intros Hm.
  - right. split; [intros; lia|]. reflexivity.
  - rewrite zrange_desc_S. cbn [refine_kk].
    rewrite read_in_range by lia. cbn [bind].
    rewrite Nat2Z.id. fold (ring (Z.of_nat m)).
    replace (nth m (abscissa pair) 0)
      with (nth (Z.to_nat (Z.of_nat m)) (abscissa pair) 0)
      by (rewrite Nat2Z.id; reflexivity).
    fold (ring (Z.of_nat m)).
    destruct (ring (Z.of_nat m)) eqn:E.
    + left. exists (Z.of_nat m). split; [lia|]. split; [exact E|].
      split; [intros; lia | reflexivity].
    + destruct (IH ltac:(lia)) as [(kk & Hk & Hr & Hab & Hres)|[Hall Hres]].
      * left. exists kk. split; [lia|]. split; [exact Hr|]. split.
        -- intros kk' Hk'.
           destruct (Z.eq_dec kk' (Z.of_nat m)) as [->|Hne]; [exact E|].
           apply Hab. lia.
        -- exact Hres.
      * right. split; [|exact Hres].
        intros kk Hk.
        destruct (Z.eq_dec kk (Z.of_nat m)) as [->|Hne]; [exact E|].
        apply Hall. lia.
Qed.

End RefineSearch.

Lemma refine_cap_angle_search {MS : MathSpherharm} {CM : Cmath}
      (avec : AtomVecSpherharm) (pair : PairSH) (kk_count : Z)
      (ishtype jshtype : nat) (iang radj : R)
      (iquat_cont iquat_sf_bf : quat4 R) (xi xj : vec3 R) (jrot : mat3 R) :
  Z.of_nat (List.length (abscissa pair)) = num_pole_quad pair ->
  let n := (2 * (num_pole_quad pair - 1))%Z in
  let ring := fun kk : Z =>
    refine_ll avec ishtype jshtype radj xi xj jrot
      (MathExtra.quat_to_mat
         (MathExtra.qnormalize (MathExtra.quatquat iquat_sf_bf iquat_cont)))
      (MathExtra.quat_to_mat iquat_cont)
      (acos ((nth (Z.to_nat kk) (abscissa pair) 0
              * ((1.0 - cos iang) / 2.0))
             + ((1.0 + cos iang) / 2.0)))
      n (zrange 1 (n + 1)) in
  let res := refine_cap_angle avec pair kk_count ishtype jshtype iang radj
                              iquat_cont iquat_sf_bf xi xj jrot in
  (exists kk, (0 <= kk < num_pole_quad pair)%Z /\ ring kk = true
              /\ (forall kk', (kk < kk' < num_pole_quad pair)%Z ->
                              ring kk' = false)
              /\ res = Ok (true, (kk + 1)%Z))
  \/ ((forall kk, (0 <= kk < num_pole_quad pair)%Z -> ring kk = false)
      /\ res = Ok (false, kk_count)).
Proof.
  intros Hlen. cbv zeta. unfold refine_cap_angle, kk_descending. cbv zeta.
  rewrite <- Hlen.
  apply (@refine_kk_search MS CM avec pair kk_count ishtype jshtype radj
           xi xj jrot _ _ (cos iang) _ (List.length (abscissa pair))).
  lia.
Qed.

(** *** Two elongated particles along the pole, centres [5/3] apart *)

Section OverlappingPair.
Import MathExtra.

(** The squared distance from the end of a ray to a point of the pole. *)
Lemma ray_point_lensq (rad theta phi D : R) :
  lensq3 (sub3 (ray_point rad theta phi (V3 0 0 0)) (V3 0 0 D))
  = rad * rad - 2 * rad * D * cos theta + D * D.
Proof.
  unfold lensq3, sub3, ray_point; cbn.
  pose proof (sin2_cos2 theta) as Ht. pose proof (sin2_cos2 phi) as Hp.
  unfold Rsqr in Ht, Hp.
  transitivity (rad * rad * (sin theta * sin theta)
                * (sin phi * sin phi + cos phi * cos phi)
                + (rad * cos theta - D) * (rad * cos theta - D)); [ring|].
  rewrite Hp.
  replace (sin theta * sin theta) with (1 - cos theta * cos theta) by lra.
  ring.
Qed.

(** A point within distance 1 of the centre of an elongated particle is
    in contact with it; a point further away is outside its bounding
    sphere. *)
Lemma elongated_contact_at (xj point : vec3 R) :
  lensq3 (sub3 point xj) <= 1 ->
  contact_at Concrete.elongated 0 1 xj Concrete.identity_mat point
  = Some true.
Proof.
  intros H. unfold contact_at.
  assert (Hd : 0 <= len3 (sub3 point xj) <= 1).
  { unfold len3. cbn [dsqrt Double_R]. split; [apply sqrt_pos|].
    rewrite <- sqrt_1. apply sqrt_le_1_alt. exact H. }
  assert (Hg : Rgtb (len3 (sub3 point xj)) 1 = false)
    by (apply Rgtb_false; lra).
  rewrite Hg. rewrite elongated_check_contact by exact Hd. reflexivity.
Qed.

Lemma elongated_no_contact_at (xj point : vec3 R) :
  1 < lensq3 (sub3 point xj) ->
  contact_at Concrete.elongated 0 1 xj Concrete.identity_mat point = None.
Proof.
  intros H. unfold contact_at.
  assert (Hd : 1 < len3 (sub3 point xj)).
  { unfold len3. cbn [dsqrt Double_R]. rewrite <- sqrt_1 at 1.
    apply sqrt_lt_1_alt. lra. }
  assert (Hg : Rgtb (len3 (sub3 point xj)) 1 = true)
    by (apply Rgtb_true; lra).
  rewrite Hg. reflexivity.
Qed.

(** Near the pole the surface of A is inside the bounding sphere of B;
    at the rim of the cap it is outside. *)
Lemma cap_inner (u rad : R) :
  99 / 100 <= u <= 1 -> 247 / 100 <= rad <= 5 / 2 ->
  rad * rad - 2 * rad * (5 / 3) * u + 5 / 3 * (5 / 3) <= 1.
Proof.
  intros Hu Hr.
  assert (H1 : 99 / 100 * rad <= rad * u) by nra.
  assert (H2 : (rad - 247 / 100) * (rad - 5 / 2) <= 0) by nra.
  nra.
Qed.

Lemma cap_rim (u : R) :
  4 / 5 <= u <= 81 / 100 ->
  let rad := 1 + 3 / 2 * (u * u) in
  1 < rad * rad - 2 * rad * (5 / 3) * u + 5 / 3 * (5 / 3).
Proof.
  intros Hu rad.
  assert (Hr : 196 / 100 <= rad <= 199 / 100) by (unfold rad; nra).
  assert (H1 : rad * u <= 81 / 100 * rad) by nra.
  assert (H2 : 0 <= (rad - 196 / 100) * (rad - 196 / 100)) by nra.
  nra.
Qed.

Lemma radius_near_pole (u : R) :
  99 / 100 <= u <= 1 -> 247 / 100 <= 1 + 3 / 2 * (u * u) <= 5 / 2.
Proof. intros Hu. nra. Qed.

(** The loop over [ll] of [refine_cap_angle] on a ring of polar angle
    [acos u]. *)
Lemma refine_ll_inner (u : R) (n ll : Z) (lls : list Z) :
  99 / 100 <= u <= 1 ->
  refine_ll Concrete.elongated 0 0 1 (V3 0 0 0) (V3 0 0 (5 / 3))
            Concrete.identity_mat Concrete.identity_mat Concrete.identity_mat
            (acos u) n (ll :: lls)
  = true.
Proof.
  intros Hu. cbn [refine_ll]. rewrite !matvec_identity.
  rewrite elongated_get_shape_radius.
  unfold pole_point. cbn [c0 c1 c2].
  rewrite !(cos_acos u) by lra.
  rewrite elongated_contact_at; [reflexivity|].
  rewrite ray_point_lensq. rewrite !(cos_acos u) by lra.
  apply cap_inner; [exact Hu | apply radius_near_pole; exact Hu].
Qed.

Lemma refine_ll_rim (u : R) (n : Z) (lls : list Z) :
  4 / 5 <= u <= 81 / 100 ->
  refine_ll Concrete.elongated 0 0 1 (V3 0 0 0) (V3 0 0 (5 / 3))
            Concrete.identity_mat Concrete.identity_mat Concrete.identity_mat
            (acos u) n lls
  = false.
Proof.
  intros Hu. induction lls as [|ll lls IH]; [reflexivity|].
  cbn [refine_ll]. rewrite !matvec_identity.
  rewrite elongated_get_shape_radius.
  unfold pole_point. cbn [c0 c1 c2].
  rewrite !(cos_acos u) by lra.
  rewrite elongated_no_contact_at; [exact IH|].
  rewrite ray_point_lensq. rewrite !(cos_acos u) by lra.
  apply (cap_rim u Hu).
Qed.

End OverlappingPair.

(** *** Loops that fail only for lack of fuel *)

Lemma while_loop_ok_or_out_of_fuel {S : Type} (cond : S -> bool)
      (body : S -> S) (fuel : nat) (s : S) :
  (exists s', while_loop cond body fuel s = Ok s')
  \/ while_loop cond body fuel s = Err OutOfFuel.
Proof.
  revert s. induction fuel as [|fuel IH]; intros s; simpl;
    destruct (cond s); eauto.
Qed.

Lemma for_each_ok_or_out_of_fuel {A S : Type} (body : S -> A -> result S)
      (l : list A) (s : S) :
  (forall s x, In x l ->
               (exists s', body s x = Ok s') \/ body s x = Err OutOfFuel) ->
  (exists s', for_each body l s = Ok s')
  \/ for_each body l s = Err OutOfFuel.
Proof.
  revert s. induction l as [|a l IH]; intros s H; simpl; [eauto|].
  destruct (H s a (or_introl eq_refl)) as [[s' E]|E]; rewrite E; cbn [bind].
  - apply IH. intros s0 x Hx. apply H. right. exact Hx.
  - right. reflexivity.
Qed.

Lemma for_each_out_of_fuel {A S : Type} (body : S -> A -> result S)
      (l1 : list A) (a : A) (l2 : list A) (s : S) :
  (forall s x, In x l1 ->
               (exists s', body s x = Ok s') \/ body s x = Err OutOfFuel) ->
  (forall s, body s a = Err OutOfFuel) ->
  for_each body (l1 ++ a :: l2) s = Err OutOfFuel.
Proof.
  revert s. induction l1 as [|b l1 IH]; intros s H Ha; simpl.
  - rewrite Ha. reflexivity.
  - destruct (H s b (or_introl eq_refl)) as [[s' E]|E]; rewrite E; cbn [bind].
    + apply IH; [|exact Ha]. intros s0 x Hx. apply H. right. exact Hx.
    + reflexivity.
Qed.

Lemma in_zrange (a b z : Z) : In z (zrange a b) -> (a <= z <= b)%Z.
Proof.
  unfold zrange. rewrite in_map_iff. intros (i & <- & Hi).
  apply in_seq in Hi. lia.
Qed.

(** A point of the pole quadrature in [calc_force_torque] either goes
    through or runs out of fuel in its bisection. *)
Lemma force_point_ok_or_out_of_fuel {MS : MathSpherharm} {CM : Cmath}
      (avec : AtomVecSpherharm) (pair : PairSH) (fuel ishtype jshtype : nat)
      (radtol radj : R) (xi xj : vec3 R)
      (irot jrot rot_np_bf rot_np_sf : mat3 R) (theta_pole : R) (n kk : Z)
      (st : R * vec3 R * vec3 R) (ll : Z) :
  (0 <= kk < Z.of_nat (List.length (pair_weights pair)))%Z ->
  (exists st',
      force_point avec pair fuel ishtype jshtype radtol radj xi xj irot jrot
                  rot_np_bf rot_np_sf theta_pole n kk st ll = Ok st')
  \/ force_point avec pair fuel ishtype jshtype radtol radj xi xj irot jrot
                 rot_np_bf rot_np_sf theta_pole n kk st ll = Err OutOfFuel.
Proof.
  intros Hkk. unfold force_point. destruct st as [[v f] t].
  destruct (get_shape_radius_and_normal avec ishtype _ _) as [rad inorm].
  destruct (contact_at avec jshtype radj xj jrot _) as [[|]|]; eauto.
  destruct (while_loop_ok_or_out_of_fuel
              (bisect_cond radtol)
              (bisect_body avec jshtype radj xi xj jrot
                 (acos (c2 (MathExtra.matvec rot_np_sf
                                             (pole_point theta_pole ll n))))
                 (atan2_2pi
                    (c1 (MathExtra.matvec rot_np_sf
                                          (pole_point theta_pole ll n)))
                    (c0 (MathExtra.matvec rot_np_sf
                                          (pole_point theta_pole ll n)))))
              fuel (bisect_init rad)) as [[s E]|E]; rewrite E; cbn [bind].
  - rewrite read_in_range by exact Hkk. cbn [bind]. eauto.
  - right. reflexivity.
Qed.

Section SpheroidNormalAnyPhi.
Context {MS : MathSpherharm}.
Variable avec : AtomVecSpherharm.
Variable sht : nat.
Hypothesis spheroid :
  forall k, (1 <= k)%nat -> k <> 10%nat -> shcoeffs avec sht k = 0.

(** The radius [get_shape_radius_and_normal] returns off the pole. *)
Lemma spheroid_radius_off_pole (theta phi : R) :
  (2 <= maxshexpan avec)%nat -> sin theta <> 0 ->
  fst (get_shape_radius_and_normal avec sht theta phi)
  = shcoeffs avec sht 0 * sqrt (1 / MY_4PI)
    + shcoeffs avec sht 10 * plegendre 2 0 (cos theta).
Proof.
  intros HN Ht. unfold get_shape_radius_and_normal.
  unfold Reqb. destruct (Req_dec_T (sin theta) 0) as [E|_]; [contradiction|].
  cbv zeta. cbn [fst].
  destruct (maxshexpan avec) as [|[|N]] eqn:EN; [lia | lia |].
  change (seq 1 (S (S N))) with (1%nat :: 2%nat :: seq 3 N).
  cbn [fold_left].
  rewrite (spheroid_normal_run_high avec sht spheroid) by lia.
  rewrite !(spheroid_normal_degree avec sht spheroid) by lia.
  cbn [g_rad Nat.eqb]. ring.
Qed.

(** The radius it returns in any direction: the one at the polar angle
    moved off the pole. *)
Lemma spheroid_radius_nudged (theta phi : R) :
  (2 <= maxshexpan avec)%nat ->
  fst (get_shape_radius_and_normal avec sht theta phi)
  = shcoeffs avec sht 0 * sqrt (1 / MY_4PI)
    + shcoeffs avec sht 10
      * plegendre 2 0
          (cos (if Reqb (sin theta) 0 then theta + 1.0e-5 else theta)).
Proof.
  intros HN. unfold get_shape_radius_and_normal.
  cbv zeta. cbn [fst].
  destruct (maxshexpan avec) as [|[|N]] eqn:EN; [lia | lia |].
  change (seq 1 (S (S N))) with (1%nat :: 2%nat :: seq 3 N).
  cbn [fold_left].
  rewrite (spheroid_normal_run_high avec sht spheroid) by lia.
  rewrite !(spheroid_normal_degree avec sht spheroid) by lia.
  cbn [g_rad Nat.eqb]. ring.
Qed.

End SpheroidNormalAnyPhi.

Lemma elongated_radius_off_pole (theta phi : R) :
  sin theta <> 0 ->
  fst (get_shape_radius_and_normal Concrete.elongated 0 theta phi)
  = 1 + 3 / 2 * (cos theta * cos theta).
Proof.
  intros Ht. destruct elongated_shape as (HN & _ & _ & Hz).
  rewrite (spheroid_radius_off_pole Concrete.elongated 0%nat Hz);
    [| rewrite HN; lia | exact Ht].
  destruct (elongated_radius_term theta) as [H0 H2].
  unfold MY_4PI. rewrite H0, H2. lra.
Qed.

Lemma sin_acos_pos (u : R) : -1 < u < 1 -> 0 < sin (acos u).
Proof.
  intros Hu. rewrite sin_acos by lra. apply sqrt_lt_R0. unfold Rsqr. nra.
Qed.

Section OverlappingRun.
Import MathExtra.
Variables (expo : R) (coeffs : nat -> nat -> R).
Let pair := init_style expo coeffs.

Lemma cos_cap_3_5 : cos (asin (1 / (5 / 3))) = 4 / 5.
Proof.
  rewrite cos_asin by lra.
  replace (1 - Rsqr (1 / (5 / 3))) with (4 / 5 * (4 / 5))
    by (unfold Rsqr; field).
  apply sqrt_square. lra.
Qed.

(** The cosine of the polar angle of ring [kk] in a cap of cosine
    [cosang]. *)
Lemma ring_cosine (a cosang : R) :
  (a * ((1.0 - cosang) / 2.0)) + ((1.0 + cosang) / 2.0)
  = 1 - (1 - a) * (1 - cosang) / 2.
Proof. lra. Qed.

Lemma pair_abscissa (i : nat) :
  (i < 30)%nat ->
  -1 < nth i (abscissa pair) 0 < 1
  /\ (i = 0%nat -> 9 / 10 <= nth i (abscissa pair) 0)
  /\ (i = 29%nat -> nth i (abscissa pair) 0 <= - (9 / 10)).
Proof.
  intros Hi.
  destruct (init_style_fields expo coeffs) as (_ & _ & _ & Hnth).
  unfold pair. rewrite Hnth by exact Hi. apply pole_nodes. exact Hi.
Qed.

(** The cap refinement finds contact on a ring below the outermost one. *)
Lemma refine_cap_angle_overlapping (kk_count : Z) :
  exists kc,
    (1 <= kc <= 29)%Z
    /\ refine_cap_angle Concrete.elongated pair kk_count 0 0
                        (asin (1 / (5 / 3))) 1
                        Concrete.identity_quat Concrete.identity_quat
                        (V3 0 0 0) (V3 0 0 (5 / 3)) Concrete.identity_mat
       = Ok (true, kc).
Proof.
  destruct (init_style_fields expo coeffs) as (Hnpq & _ & Hlen & _).
  fold pair in Hnpq, Hlen.
  assert (HL : Z.of_nat (List.length (abscissa pair)) = num_pole_quad pair)
    by (rewrite Hlen, Hnpq; reflexivity).
  pose proof (refine_cap_angle_search Concrete.elongated pair kk_count
                0%nat 0%nat (asin (1 / (5 / 3))) 1
                Concrete.identity_quat Concrete.identity_quat
                (V3 0 0 0) (V3 0 0 (5 / 3)) Concrete.identity_mat HL) as H.
  cbv zeta in H.
  rewrite quatquat_identity, quat_to_mat_identity, cos_cap_3_5, Hnpq in H.
  change (2 * (30 - 1) + 1)%Z with 59%Z in H.
  change (2 * (30 - 1))%Z with 58%Z in H.
  destruct H as [(kk & Hk & Hring & _ & Hres)|[Hall _]].
  - exists (kk + 1)%Z. split; [|exact Hres].
    destruct (Z.eq_dec kk 29) as [->|Hne]; [|lia].
    exfalso. change (Z.to_nat 29) with 29%nat in Hring.
    destruct (pair_abscissa 29 ltac:(lia)) as (Ha & _ & Hlast).
    specialize (Hlast eq_refl).
    rewrite refine_ll_rim in Hring; [discriminate|].
    rewrite ring_cosine. split; nra.
  - exfalso. specialize (Hall 0%Z ltac:(lia)).
    change (Z.to_nat 0) with 0%nat in Hall.
    destruct (pair_abscissa 0 ltac:(lia)) as (Ha & Hfirst & _).
    specialize (Hfirst eq_refl).
    change (zrange 1 59) with (1%Z :: zrange 2 59) in Hall.
    rewrite refine_ll_inner in Hall; [discriminate|].
    rewrite ring_cosine. split; nra.
Qed.

(** A point of the innermost ring in [calc_force_torque]: the ray ends
    inside B at more than 2.47 from the centre of A, and the bisection is
    still running after 11 passes. *)
Lemma force_point_overlapping (u : R) (irot : mat3 R) (n kk ll : Z)
      (st : R * vec3 R * vec3 R) :
  99 / 100 <= u < 1 ->
  force_point Concrete.elongated pair 11 0 0 (1e-3 * 1) 1
              (V3 0 0 0) (V3 0 0 (5 / 3)) irot Concrete.identity_mat
              Concrete.identity_mat Concrete.identity_mat (acos u) n kk st ll
  = Err OutOfFuel.
Proof.
  intros Hu. unfold force_point. destruct st as [[v f] t].
  rewrite !matvec_identity. unfold pole_point. cbn [c0 c1 c2].
  rewrite !(cos_acos u) by lra.
  assert (Hs : sin (acos u) <> 0)
    by (pose proof (sin_acos_pos u ltac:(lra)); lra).
  match goal with
  | |- context [get_shape_radius_and_normal Concrete.elongated 0 (acos u) ?p] =>
    pose proof (elongated_radius_off_pole (acos u) p Hs) as Hrad;
    destruct (get_shape_radius_and_normal Concrete.elongated 0 (acos u) p)
      as [rad inorm]
  end.
  cbn [fst] in Hrad. rewrite (cos_acos u) in Hrad by lra.
  assert (Hr : 247 / 100 <= rad <= 5 / 2)
    by (rewrite Hrad; apply radius_near_pole; lra).
  rewrite elongated_contact_at.
  - rewrite while_loop_out_of_fuel; [reflexivity|].
    intros i Hi. apply bisect_cond_iter.
    do 12 (destruct i as [|i]; [simpl; lra|]). lia.
  - rewrite ray_point_lensq. rewrite !(cos_acos u) by lra.
    apply cap_inner; [lra | exact Hr].
Qed.

(** With 11 passes allowed, [calc_force_torque] stops for lack of fuel. *)
Lemma calc_force_torque_overlapping (kc : Z) (irot : mat3 R)
      (vol_overlap : R) (iforce torsum : vec3 R) :
  (1 <= kc <= 29)%Z ->
  calc_force_torque Concrete.elongated pair 11 kc 0 0
                    (asin (1 / (5 / 3))) 1 1
                    Concrete.identity_quat Concrete.identity_quat
                    (V3 0 0 0) (V3 0 0 (5 / 3)) irot Concrete.identity_mat
                    vol_overlap iforce torsum
  = Err OutOfFuel.
Proof.
  intros Hkc.
  destruct (init_style_fields expo coeffs) as (Hnpq & Htol & Hlen & _).
  pose proof (init_style_weights expo coeffs) as Hw.
  fold pair in Hnpq, Htol, Hlen, Hw.
  destruct (pair_abscissa (Z.to_nat kc) ltac:(lia)) as (Hc & _ & _).
  destruct (pair_abscissa 0 ltac:(lia)) as (Ha & Hfirst & _).
  specialize (Hfirst eq_refl).
  unfold calc_force_torque. cbv zeta.
  rewrite quatquat_identity, quat_to_mat_identity, cos_cap_3_5, Hnpq, Htol.
  rewrite read_in_range by (rewrite Hlen; lia). cbn [bind].
  rewrite ring_cosine.
  set (c := 1 - (1 - nth (Z.to_nat kc) (abscissa pair) 0) * (1 - 4 / 5) / 2).
  assert (Hcr : 4 / 5 < c < 1) by (unfold c; split; nra).
  rewrite (cos_acos c) by lra.
  unfold kk_descending. rewrite Hnpq.
  change (zrange 0 (30 - 1)) with (0%Z :: zrange 1 29).
  cbn [rev].
  rewrite for_each_out_of_fuel; [reflexivity | |].
  - intros s kk Hkk. apply in_rev, in_zrange in Hkk.
    rewrite read_in_range by (rewrite Hlen; lia). cbn [bind].
    apply for_each_ok_or_out_of_fuel. intros s0 ll _.
    apply force_point_ok_or_out_of_fuel. rewrite Hw. lia.
  - intros s. rewrite read_in_range by (rewrite Hlen; lia). cbn [bind].
    change (Z.to_nat 0) with 0%nat. rewrite ring_cosine.
    change (2 * (30 - 1) + 1)%Z with 59%Z.
    change (zrange 1 59) with (1%Z :: zrange 2 59).
    cbn [for_each].
    rewrite force_point_overlapping; [reflexivity|].
    split; nra.
Qed.

End OverlappingRun.

(** *** The run *)

(** [compute] on the overlapping pair, given what the cap refinement
    returns: the error or the success of [calc_force_torque] is that of
    the whole call. *)
Lemma compute_overlapping_pair (pair : PairSH) (fuel : nat) (kc : Z) :
  (kc <= num_pole_quad pair)%Z ->
  refine_cap_angle Concrete.elongated pair (-1) 0 0 (asin (1 / (5 / 3))) 1
                   Concrete.identity_quat Concrete.identity_quat
                   (V3 0 0 0) (V3 0 0 (5 / 3)) Concrete.identity_mat
  = Ok (true, kc) ->
  let call :=
    calc_force_torque Concrete.elongated pair fuel kc 0 0
                      (asin (1 / (5 / 3))) 1 1
                      Concrete.identity_quat Concrete.identity_quat
                      (V3 0 0 0) (V3 0 0 (5 / 3))
                      Concrete.identity_mat Concrete.identity_mat
                      0.0 MathExtra.zero3 MathExtra.zero3 in
  let run :=
    compute Concrete.host Concrete.elongated pair fuel
            (Concrete.neighbours_of_0 [1%Z]) Concrete.overlapping_pair in
  (forall e, call = Err e -> run = Err e)
  /\ (forall res, call = Ok res -> exists out, run = Ok out).
Proof.
  intros Hkc Hrefine call run.
  assert (J1 : Z.to_nat (Z.land 1 (NEIGHMASK Concrete.host)) = 1%nat)
    by reflexivity.
  unfold run, compute, Concrete.neighbours_of_0. cbn [inum seq for_each].
  unfold compute_atom.
  cbn [ilist numneigh firstneigh nth List.length firstn].
  cbn [for_each].
  unfold compute_pair. cbv zeta. rewrite J1.
  cbn [nth atom_x atom_shtype atom_quat atom_type map
       Concrete.overlapping_pair Concrete.atoms_at].
  rewrite elongated_maxrad.
  rewrite qconjugate_identity, quat_to_mat_identity.
  replace (MathExtra.sub3 (MathExtra.copy3 (V3 0 0 0)) (V3 0 0 (5 / 3)))
    with (V3 0 0 (- (5 / 3)))
    by (unfold MathExtra.sub3, MathExtra.copy3; cbn; f_equal; ring).
  replace (MathExtra.negate3 (V3 0 0 (- (5 / 3)))) with (V3 0 0 (5 / 3))
    by (unfold MathExtra.negate3; cbn; f_equal; ring).
  replace (sqrt (MathExtra.lensq3 (V3 0 0 (- (5 / 3))))) with (5 / 3).
  2:{ unfold MathExtra.lensq3; cbn.
      replace (0 * 0 + 0 * 0 + - (5 / 3) * - (5 / 3))
        with (5 / 3 * (5 / 3)) by ring.
      rewrite sqrt_square; lra. }
  rewrite get_contact_quat_pole by lra.
  assert (Hlt : Rltb (5 / 3) (1 + 1) = true) by (apply Rltb_true; lra).
  assert (Hgt : Rgtb (5 / 3) 1 = true) by (apply Rgtb_true; lra).
  rewrite Hlt, Hgt. cbn [bind].
  rewrite Hrefine. cbn [bind].
  destruct (Z.gtb_spec kc (num_pole_quad pair)) as [Hbad|_]; [lia|].
  cbv iota. fold call.
  split.
  - intros e E. rewrite E. reflexivity.
  - intros [[v f] t] E. rewrite E. cbn [bind]. eexists. reflexivity.
Qed.

(** Every radius of the elongated shape that [calc_force_torque] starts a
    bisection from is at most [5/2]. *)
Lemma elongated_radius_and_normal_bound (theta phi : R) :
  fst (get_shape_radius_and_normal Concrete.elongated 0 theta phi) <= 5 / 2.
Proof.
  destruct elongated_shape as (HN & _ & _ & Hz).
  rewrite (spheroid_radius_nudged Concrete.elongated 0%nat Hz)
    by (rewrite HN; lia).
  set (t := if Reqb (sin theta) 0 then theta + 1.0e-5 else theta).
  destruct (elongated_radius_term t) as [H0 H2].
  unfold MY_4PI. rewrite H0, H2.
  pose proof (COS_bound t). nra.
Qed.

Section OverlappingRunCompletes.
Variables (expo : R) (coeffs : nat -> nat -> R).
Let pair := init_style expo coeffs.

(** With 12 passes allowed every point goes through. *)
Lemma force_point_overlapping_12 (irot : mat3 R) (theta_pole : R)
      (n kk ll : Z) (st : R * vec3 R * vec3 R) :
  (0 <= kk < 30)%Z ->
  exists st',
    force_point Concrete.elongated pair 12 0 0 (1e-3 * 1) 1
                (V3 0 0 0) (V3 0 0 (5 / 3)) irot Concrete.identity_mat
                Concrete.identity_mat Concrete.identity_mat theta_pole n kk
                st ll
    = Ok st'.
Proof.
  intros Hkk. pose proof (init_style_weights expo coeffs) as Hw.
  fold pair in Hw.
  unfold force_point. destruct st as [[v f] t].
  match goal with
  | |- context [get_shape_radius_and_normal Concrete.elongated 0 ?a ?p] =>
    pose proof (elongated_radius_and_normal_bound a p) as Hrad;
    destruct (get_shape_radius_and_normal Concrete.elongated 0 a p)
      as [rad inorm]
  end.
  cbn [fst] in Hrad.
  destruct (contact_at Concrete.elongated 0 1 _ _ _) as [[|]|]; eauto.
  match goal with
  | |- context [while_loop _ (bisect_body _ _ _ ?xi ?xj ?jrot ?th ?ph) _ _] =>
    destruct (@bisect_passes_bound _ _ Concrete.elongated 0%nat 1 xi xj jrot
                th ph (1e-3 * 1) rad 12 ltac:(lra) ltac:(simpl; lra))
      as (k & Hk & Hok & _)
  end.
  rewrite (Hok 12%nat Hk). cbn [bind].
  rewrite read_in_range by (rewrite Hw; lia). cbn [bind]. eauto.
Qed.

Lemma for_each_ok {A S : Type} (body : S -> A -> result S) (l : list A)
      (s : S) :
  (forall s x, In x l -> exists s', body s x = Ok s') ->
  exists s', for_each body l s = Ok s'.
Proof.
  revert s. induction l as [|a l IH]; intros s H; simpl; [eauto|].
  destruct (H s a (or_introl eq_refl)) as [s' E]. rewrite E. cbn [bind].
  apply IH. intros s0 x Hx. apply H. right. exact Hx.
Qed.

Lemma calc_force_torque_overlapping_12 (kc : Z) (irot : mat3 R)
      (vol_overlap : R) (iforce torsum : vec3 R) :
  (1 <= kc <= 29)%Z ->
  exists res,
    calc_force_torque Concrete.elongated pair 12 kc 0 0
                      (asin (1 / (5 / 3))) 1 1
                      Concrete.identity_quat Concrete.identity_quat
                      (V3 0 0 0) (V3 0 0 (5 / 3)) irot Concrete.identity_mat
                      vol_overlap iforce torsum
    = Ok res.
Proof.
  intros Hkc.
  destruct (init_style_fields expo coeffs) as (Hnpq & Htol & Hlen & _).
  fold pair in Hnpq, Htol, Hlen.
  unfold calc_force_torque. cbv zeta.
  rewrite quatquat_identity, quat_to_mat_identity, Hnpq, Htol.
  rewrite read_in_range by (rewrite Hlen; lia). cbn [bind].
  match goal with
  | |- context [for_each ?body ?l ?s] =>
    destruct (for_each_ok body l s) as [[[v f] t] E]
  end.
  - intros s kk Hkk. unfold kk_descending in Hkk. rewrite Hnpq in Hkk.
    apply in_rev, in_zrange in Hkk.
    rewrite read_in_range by (rewrite Hlen; lia). cbn [bind].
    apply for_each_ok. intros s0 ll _.
    apply force_point_overlapping_12. lia.
  - rewrite E. cbn [bind]. eexists. reflexivity.
Qed.

End OverlappingRunCompletes.

(** C9, as the specification states it, fails: a run of [PairSH::compute]
    in which the bisection of one ray needs more than 11 passes although
    [r_max(A) = 1] and [radius_tol = 1e-3].  One shape, elongated along
    its pole, of radius [1 + 3/2 cos(theta)^2], initialised on a single
    quadrature node: the maximal radius the initialisation records is the
    one at the equator, [r_max = 1].  Atom 0 at the origin and its
    neighbour at [(0, 0, 5/3)], both in the orientation of the body frame.
    The centres are closer than [r_max + r_max]; [refine_cap_angle] finds
    contact on a ring [kk_count - 1] below the outermost one; in
    [calc_force_torque] the rays of the innermost ring end inside the
    neighbour, more than 2.47 from the centre of atom 0, and start a
    bisection that is still running after 11 passes: run with 11 passes
    allowed the call stops for lack of fuel, with 12 it returns. *)
Lemma C9_counterexample :
  let avec := Concrete.elongated in
  let pair := init_style 1.5 (fun _ _ => 1) in
  let atoms := Concrete.overlapping_pair in
  let list := Concrete.neighbours_of_0 [1%Z] in
  let r_max := nth 0 (maxrad_byshape avec) 0 in
  radius_tol pair = 1e-3 /\ r_max = 1
  /\ (exists kk_count,
         (1 <= kk_count <= 29)%Z
         /\ refine_cap_angle avec pair (-1) 0 0 (asin (r_max / (5 / 3))) r_max
                             Concrete.identity_quat Concrete.identity_quat
                             (V3 0 0 0) (V3 0 0 (5 / 3))
                             Concrete.identity_mat
            = Ok (true, kk_count)
         /\ calc_force_torque avec pair 11 kk_count 0 0
                              (asin (r_max / (5 / 3))) r_max r_max
                              Concrete.identity_quat Concrete.identity_quat
                              (V3 0 0 0) (V3 0 0 (5 / 3))
                              Concrete.identity_mat Concrete.identity_mat
                              0.0 MathExtra.zero3 MathExtra.zero3
            = Err OutOfFuel)
  /\ compute Concrete.host avec pair 11 list atoms = Err OutOfFuel
  /\ exists out, compute Concrete.host avec pair 12 list atoms = Ok out.
Proof.
  intros avec pair atoms list r_max.
  destruct (init_style_fields 1.5 (fun _ _ => 1)) as (Hnpq & Htol & _).
  fold pair in Hnpq, Htol.
  assert (Hmax : r_max = 1) by apply elongated_maxrad.
  destruct (refine_cap_angle_overlapping 1.5 (fun _ _ => 1) (-1))
    as (kc & Hkc & Hrefine).
  fold pair in Hrefine.
  pose proof (calc_force_torque_overlapping 1.5 (fun _ _ => 1) kc
                Concrete.identity_mat 0.0 MathExtra.zero3 MathExtra.zero3
                Hkc) as H11.
  destruct (calc_force_torque_overlapping_12 1.5 (fun _ _ => 1) kc
              Concrete.identity_mat 0.0 MathExtra.zero3 MathExtra.zero3 Hkc)
    as [res H12].
  fold pair in H11, H12.
  split; [exact Htol|]. split; [exact Hmax|]. split; [|split].
  - exists kc. rewrite Hmax. split; [exact Hkc|].
    split; [exact Hrefine | exact H11].
  - apply (proj1 (compute_overlapping_pair pair 11 kc
                    ltac:(rewrite Hnpq; lia) Hrefine)).
    exact H11.
  - apply (proj2 (compute_overlapping_pair pair 12 kc
                    ltac:(rewrite Hnpq; lia) Hrefine) res).
    exact H12.
Qed.


(** ** The Legendre kernel of [ComputeShcoeff] *)

Section Kernel.
Import ComputeShcoeff.
Variable x : R.
Hypothesis Hx : -1 <= x <= 1.

(** The loop [for (i=1;i<=m;i++)] of [plegendre]. *)
Let diag_loop (k : nat) : R * R :=
  fold_left
    (fun (s : R * R) (_ : nat) =>
       let '(pmm, fact) := s in
       (pmm * ((1 - x) * (1 + x) * fact / (fact + 1)), fact + 2))
    (seq 1 k) (1, 1).

Lemma diag_loop_S (k : nat) :
  diag_loop (S k)
  = (fst (diag_loop k)
     * ((1 - x) * (1 + x) * snd (diag_loop k) / (snd (diag_loop k) + 1)),
     snd (diag_loop k) + 2).
Proof.
  unfold diag_loop. rewrite seq_S, fold_left_app. cbn [fold_left].
  destruct (fold_left _ (seq 1 k) (1, 1)) as [p f]. reflexivity.
Qed.

Lemma diag_loop_fact (k : nat) : snd (diag_loop k) = 2 * INR k + 1.
Proof.
  induction k as [|k IH]; [unfold diag_loop; simpl; lra|].
  rewrite diag_loop_S. cbn [snd]. rewrite IH, S_INR. lra.
Qed.

(** The value on the diagonal, [l = m], and the one next to it. *)
Let diag (m : nat) : R :=
  let pmm := sqrt ((2 * INR m + 1) * fst (diag_loop m) / (4 * PI)) in
  if Nat.odd m then - pmm else pmm.

Lemma domain_ok : Rgtb (Rabs x) 1 = false.
Proof. apply Rgtb_false. pose proof (Rabs_le x 1 Hx). lra. Qed.

(** The loop [for (ll=m+2;ll<=l;ll++)], run for [k] passes. *)
Let degree_loop (m k : nat) : R * R * R * R :=
  fold_left (plegendre_step m x) (seq (m + 2) k)
            (diag m, x * sqrt (2 * INR m + 3) * diag m,
             sqrt (2 * INR m + 3), 0).

Lemma plegendre_unfold (l m : nat) :
  (m <= l)%nat ->
  plegendre l m x
  = if (l =? m)%nat then Ok (diag m)
    else if (l =? m + 1)%nat then Ok (x * sqrt (2 * INR m + 3) * diag m)
         else Ok (snd (degree_loop m (l - (m + 1)))).
Proof.
  intros Hml. unfold plegendre. rewrite domain_ok.
  destruct (Nat.ltb_spec l m) as [H|_]; [lia|]. cbn [orb].
  assert (Hp : (if (0 <? m)%nat
                then fst (fold_left
                            (fun (s : R * R) (_ : nat) =>
                               let '(pmm, fact) := s in
                               (pmm * ((1 - x) * (1 + x) * fact / (fact + 1)),
                                fact + 2))
                            (seq 1 m) (1, 1))
                else 1) = fst (diag_loop m)).
  { destruct m as [|m']; [reflexivity|]. reflexivity. }
  cbv zeta. rewrite Hp. fold (diag m).
  destruct (l =? m)%nat; [reflexivity|].
  destruct (l =? m + 1)%nat; [reflexivity|].
  fold (degree_loop m (l - (m + 1))).
  destruct (degree_loop m (l - (m + 1))) as [[[a b] c] d]. reflexivity.
Qed.

Lemma degree_loop_S (m k : nat) :
  degree_loop m (S k)
  = plegendre_step m x (degree_loop m k) (m + 2 + k)%nat.
Proof.
  unfold degree_loop. rewrite seq_S, fold_left_app. reflexivity.
Qed.

(** The factor [fact] of the pass [ll]. *)
Let step_fact (m ll : nat) : R :=
  sqrt ((4 * INR ll * INR ll - 1) / (INR ll * INR ll - INR m * INR m)).

Lemma degree_loop_next (m k : nat) :
  let '(a, b, f, _) := degree_loop m k in
  degree_loop m (S k)
  = (b, (x * b - a / f) * step_fact m (m + 2 + k),
     step_fact m (m + 2 + k),
     (x * b - a / f) * step_fact m (m + 2 + k)).
Proof.
  rewrite degree_loop_S. destruct (degree_loop m k) as [[[a b] f] d].
  reflexivity.
Qed.

Lemma degree_loop_last (m k : nat) :
  (1 <= k)%nat ->
  snd (degree_loop m k) = snd (fst (fst (degree_loop m k))).
Proof.
  destruct k as [|k]; [lia|]. intros _.
  pose proof (degree_loop_next m k) as H.
  destruct (degree_loop m k) as [[[a b] f] d]. rewrite H. reflexivity.
Qed.

Lemma degree_loop_fact (m k : nat) :
  snd (fst (degree_loop m k))
  = if (k =? 0)%nat then sqrt (2 * INR m + 3) else step_fact m (m + 1 + k).
Proof.
  destruct k as [|k]; [reflexivity|].
  pose proof (degree_loop_next m k) as H.
  destruct (degree_loop m k) as [[[a b] f] d]. rewrite H. cbn [fst snd Nat.eqb].
  replace (m + 1 + S k)%nat with (m + 2 + k)%nat by lia. reflexivity.
Qed.

(** The two values the loop carries are those of the degrees [m + k] and
    [m + k + 1]. *)
Lemma degree_loop_values (m k : nat) :
  plegendre (m + k) m x = Ok (fst (fst (fst (degree_loop m k))))
  /\ plegendre (m + k + 1) m x = Ok (snd (fst (fst (degree_loop m k)))).
Proof.
  assert (H2 : forall k, plegendre (m + k + 1) m x
                         = Ok (snd (fst (fst (degree_loop m k))))).
  { intros j. rewrite plegendre_unfold by lia.
    destruct (Nat.eqb_spec (m + j + 1) m) as [E|_]; [lia|].
    destruct (Nat.eqb_spec (m + j + 1) (m + 1)) as [E|NE].
    - assert (j = 0)%nat by lia. subst j. reflexivity.
    - replace (m + j + 1 - (m + 1))%nat with j by lia.
      rewrite degree_loop_last by lia. reflexivity. }
  split; [|apply H2].
  destruct k as [|k].
  - rewrite Nat.add_0_r, plegendre_unfold by lia.
    rewrite Nat.eqb_refl. reflexivity.
  - replace (m + S k)%nat with (m + k + 1)%nat by lia. rewrite H2.
    pose proof (degree_loop_next m k) as H.
    destruct (degree_loop m k) as [[[a b] f] d]. rewrite H. reflexivity.
Qed.

Lemma first_step_fact (m : nat) :
  sqrt ((4 * (INR (m + 2) - 1) * (INR (m + 2) - 1) - 1)
        / ((INR (m + 2) - 1) * (INR (m + 2) - 1) - INR m * INR m))
  = sqrt (2 * INR m + 3).
Proof.
  f_equal. rewrite plus_INR. simpl INR. pose proof (pos_INR m). field. lra.
Qed.

(** The three-term recurrence in the degree. *)
Lemma kernel_three_term (l m : nat) :
  (m + 2 <= l)%nat ->
  exists p p1 p2,
    plegendre l m x = Ok p
    /\ plegendre (l - 1) m x = Ok p1
    /\ plegendre (l - 2) m x = Ok p2
    /\ p = plegendre_recycle l m x p1 p2.
Proof.
  intros Hl. set (k := (l - (m + 2))%nat).
  destruct (degree_loop_values m k) as [Ha Hb].
  destruct (degree_loop_values m (S k)) as [_ Hc].
  pose proof (degree_loop_next m k) as Hn.
  pose proof (degree_loop_fact m k) as Hf.
  destruct (degree_loop m k) as [[[a b] f] d]. cbn [fst snd] in *.
  rewrite Hn in Hc. cbn [fst snd] in Hc.
  replace (m + S k + 1)%nat with l in Hc by lia.
  replace (m + k + 1)%nat with (l - 1)%nat in Hb by lia.
  replace (m + k)%nat with (l - 2)%nat in Ha by lia.
  replace (m + 2 + k)%nat with l in Hc by lia.
  exists ((x * b - a / f) * step_fact m l), b, a.
  split; [exact Hc|]. split; [exact Hb|]. split; [exact Ha|].
  unfold plegendre_recycle, step_fact. cbv zeta.
  assert (Hold : sqrt ((4 * (INR l - 1) * (INR l - 1) - 1)
                       / ((INR l - 1) * (INR l - 1) - INR m * INR m)) = f).
  { rewrite Hf. destruct (Nat.eqb_spec k 0) as [E|NE].
    - assert (l = m + 2)%nat by lia. subst l. apply first_step_fact.
    - replace (INR l - 1) with (INR (m + 1 + k)).
      + reflexivity.
      + replace l with (S (m + 1 + k)) by lia. rewrite S_INR. lra. }
  rewrite Hold. reflexivity.
Qed.

(** The entry next to the diagonal. *)
Lemma kernel_subdiagonal (l : nat) :
  (1 <= l)%nat ->
  exists p p1,
    plegendre l (l - 1) x = Ok p
    /\ plegendre (l - 1) (l - 1) x = Ok p1
    /\ p = x * sqrt (2 * (INR l - 1) + 3) * p1.
Proof.
  intros Hl. exists (x * sqrt (2 * INR (l - 1) + 3) * diag (l - 1)), (diag (l - 1)).
  rewrite !plegendre_unfold by lia.
  destruct (Nat.eqb_spec l (l - 1)) as [E|_]; [lia|].
  destruct (Nat.eqb_spec l (l - 1 + 1)) as [_|NE]; [|lia].
  rewrite Nat.eqb_refl. split; [reflexivity|]. split; [reflexivity|].
  replace (INR (l - 1)) with (INR l - 1); [reflexivity|].
  rewrite minus_INR by lia. simpl. lra.
Qed.

End Kernel.

(** ** The Legendre kernel of [ComputeShcoeff] *)

(** X1.  Within the domain [|x| <= 1] the value [plegendre] computes for degree
    [l] and order [m <= l - 2] is the one [plegendre_recycle] derives from
    the values at the degrees [l - 1] and [l - 2] of the same order: the
    recycling routine continues the recurrence of [plegendre] exactly. *)
Theorem plegendre_recycle_continues (x : R) (l m : nat) :
  -1 <= x <= 1 -> (m + 2 <= l)%nat ->
  exists p p1 p2,
    ComputeShcoeff.plegendre l m x = Ok p
    /\ ComputeShcoeff.plegendre (l - 1) m x = Ok p1
    /\ ComputeShcoeff.plegendre (l - 2) m x = Ok p2
    /\ ComputeShcoeff.plegendre_recycle l m x p1 p2 = p.
Proof.
  intros Hx Hl.
  destruct (kernel_three_term x Hx l m Hl) as (p & p1 & p2 & E & E1 & E2 & Hp).
  exists p, p1, p2. repeat split; try assumption. symmetry. exact Hp.
Qed.

Lemma plegendre_recycle_continues_witness :
  -1 <= 1 / 2 <= 1 /\ (1 + 2 <= 4)%nat
  /\ exists p p1 p2,
       ComputeShcoeff.plegendre 4 1 (1 / 2) = Ok p
       /\ ComputeShcoeff.plegendre (4 - 1) 1 (1 / 2) = Ok p1
       /\ ComputeShcoeff.plegendre (4 - 2) 1 (1 / 2) = Ok p2
       /\ ComputeShcoeff.plegendre_recycle 4 1 (1 / 2) p1 p2 = p.
Proof.
  assert (Hx : -1 <= 1 / 2 <= 1) by lra.
  assert (Hl : (1 + 2 <= 4)%nat) by lia.
  split; [exact Hx|]. split; [exact Hl|].
  exact (plegendre_recycle_continues (1 / 2) 4 1 Hx Hl).
Defined.

(** X2.  Within the domain, the value next to the diagonal, of degree
    [l >= 1] and order [l - 1], is [x sqrt(2 (l - 1) + 3)] times the
    diagonal value of degree [l - 1], the expression the radius routines
    use for the order [m = n - 1]. *)
Theorem plegendre_subdiagonal (x : R) (l : nat) :
  -1 <= x <= 1 -> (1 <= l)%nat ->
  exists pl1 p11,
    ComputeShcoeff.plegendre l (l - 1) x = Ok pl1
    /\ ComputeShcoeff.plegendre (l - 1) (l - 1) x = Ok p11
    /\ pl1 = x * sqrt (2 * (INR l - 1) + 3) * p11.
Proof.
  intros Hx Hl. exact (kernel_subdiagonal x Hx l Hl).
Qed.

Lemma plegendre_subdiagonal_witness :
  -1 <= 1 / 2 <= 1 /\ (1 <= 3)%nat
  /\ exists pl1 p11,
       ComputeShcoeff.plegendre 3 (3 - 1) (1 / 2) = Ok pl1
       /\ ComputeShcoeff.plegendre (3 - 1) (3 - 1) (1 / 2) = Ok p11
       /\ pl1 = 1 / 2 * sqrt (2 * (INR 3 - 1) + 3) * p11.
Proof.
  assert (Hx : -1 <= 1 / 2 <= 1) by lra.
  assert (Hl : (1 <= 3)%nat) by lia.
  split; [exact Hx|]. split; [exact Hl|].
  exact (plegendre_subdiagonal (1 / 2) 3 Hx Hl).
Defined.


(** ** The grid loops of [calcexpansionfactors_gauss] *)

Lemma fold_left_ignore {St A : Type} (F : St -> St) (l : list A) (s : St) :
  fold_left (fun s _ => F s) l s = Nat.iter (List.length l) F s.
Proof.
  revert s. induction l as [|a l IH]; intros s; [reflexivity|].
  cbn [fold_left List.length]. rewrite IH. symmetry. apply Nat.iter_succ_r.
Qed.

Lemma iter_mul {St : Type} (F : St -> St) (p q : nat) (s : St) :
  Nat.iter p (Nat.iter q F) s = Nat.iter (p * q) F s.
Proof.
  induction p as [|p IH]; [reflexivity|].
  rewrite Nat.iter_succ. change (S p * q)%nat with (q + p * q)%nat.
  rewrite Nat.iter_add, IH. reflexivity.
Qed.

Lemma grid_loop_flat {St : Type} (F : St -> St) (Q : nat) (s : St) :
  fold_left (fun s (_ : nat) => fold_left (fun s (_ : nat) => F s) (seq 0 Q) s)
            (seq 0 Q) s
  = Nat.iter (Q * Q) F s.
Proof.
  rewrite (fold_left_ignore (fun s => fold_left (fun s (_ : nat) => F s)
                                                (seq 0 Q) s)).
  rewrite length_seq. rewrite <- iter_mul.
  assert (H : forall n t,
             Nat.iter n (fun s0 => fold_left (fun s1 (_ : nat) => F s1)
                                             (seq 0 Q) s0) t
             = Nat.iter n (Nat.iter Q F) t).
  { induction n as [|n IH]; intros t; [reflexivity|].
    rewrite !Nat.iter_succ. rewrite (fold_left_ignore F), length_seq. f_equal.
    apply IH. }
  apply H.
Qed.

Section GridPoints.
Context {MS : MathSpherharm}.
Variable a : AtomVecSpherharm.
Variable sht : nat.

(** Degree [n] added, in the direction of the grid point [k]. *)
Let D (n k : nat) (r : R) : R :=
  add_degree a sht n (cos (nth k (fst (angles a)) 0))
             (nth k (snd (angles a)) 0) r.

(** A degree below the last one: radii, radii one degree higher, ratios. *)
Lemma grid_points_below (n cnt : nat) (g : expfac_grid) :
  below_last a n = true -> grid_k g = 0%nat ->
  (cnt <= List.length (r_n g))%nat -> (cnt <= List.length (r_npo g))%nat ->
  (cnt <= List.length (ratios g))%nat ->
  let g' := Nat.iter cnt (expfac_point a sht n) g in
  grid_k g' = cnt
  /\ List.length (r_n g') = List.length (r_n g)
  /\ List.length (r_npo g') = List.length (r_npo g)
  /\ List.length (ratios g') = List.length (ratios g)
  /\ maxrad g' = maxrad g
  /\ (forall k, (k < cnt)%nat ->
        nth k (r_n g') 0 = D n k (nth k (r_n g) 0)
        /\ nth k (r_npo g') 0 = D (n + 1) k (nth k (r_n g') 0)
        /\ nth k (ratios g') 0 = nth k (r_npo g') 0 / nth k (r_n g') 0)
  /\ (forall k, (cnt <= k)%nat ->
        nth k (r_n g') 0 = nth k (r_n g) 0
        /\ nth k (r_npo g') 0 = nth k (r_npo g) 0
        /\ nth k (ratios g') 0 = nth k (ratios g) 0).
Proof.
  intros Hb H0. cbv zeta. induction cnt as [|cnt IH]; intros Hl1 Hl2 Hl3.
  - unfold Nat.iter; cbn [nat_rect]. repeat split; try assumption; try reflexivity; intros; lia.
  - rewrite Nat.iter_succ.
    destruct IH as (Hk & L1 & L2 & L3 & Hmr & Hin & Hout); try lia.
    set (g1 := Nat.iter cnt (expfac_point a sht n) g) in *.
    unfold expfac_point. rewrite Hb, Hk.
    cbn [grid_k r_n r_npo ratios maxrad].
    destruct (Hout cnt (le_n _)) as (O1 & O2 & O3).
    rewrite !length_upd.
    split; [reflexivity|]. split; [exact L1|]. split; [exact L2|].
    split; [exact L3|]. split; [exact Hmr|]. split.
    + intros k Hk'. destruct (Nat.eq_dec k cnt) as [->|Hne].
      * rewrite !nth_upd_eq by (rewrite ?length_upd; lia).
        rewrite O1. split; [reflexivity|]. split; reflexivity.
      * rewrite !nth_upd_neq by lia. apply Hin. lia.
    + intros k Hk'. rewrite !nth_upd_neq by lia. apply Hout. lia.
Qed.

(** The last degree: radii and the running maximum. *)
Lemma grid_points_last (n cnt : nat) (g : expfac_grid) :
  below_last a n = false -> grid_k g = 0%nat ->
  (cnt <= List.length (r_n g))%nat -> (sht < List.length (maxrad g))%nat ->
  let g' := Nat.iter cnt (expfac_point a sht n) g in
  grid_k g' = cnt
  /\ List.length (r_n g') = List.length (r_n g)
  /\ r_npo g' = r_npo g /\ ratios g' = ratios g
  /\ List.length (maxrad g') = List.length (maxrad g)
  /\ (forall s, s <> sht -> nth s (maxrad g') 0 = nth s (maxrad g) 0)
  /\ nth sht (maxrad g) 0 <= nth sht (maxrad g') 0
  /\ (forall k, (k < cnt)%nat ->
        nth k (r_n g') 0 = D n k (nth k (r_n g) 0)
        /\ nth k (r_n g') 0 <= nth sht (maxrad g') 0)
  /\ (forall k, (cnt <= k)%nat -> nth k (r_n g') 0 = nth k (r_n g) 0).
Proof.
  intros Hb H0. cbv zeta. induction cnt as [|cnt IH]; intros Hl1 Hs.
  - unfold Nat.iter; cbn [nat_rect].
    repeat split; try assumption; try reflexivity; try lra; intros; lia.
  - rewrite Nat.iter_succ.
    destruct IH as (Hk & L1 & E2 & E3 & Lm & Hoth & Hge & Hin & Hout);
      try lia.
    set (g1 := Nat.iter cnt (expfac_point a sht n) g) in *.
    unfold expfac_point. rewrite Hb, Hk.
    rewrite (Hout cnt (le_n _)).
    set (v := add_degree a sht n (cos (nth cnt (fst (angles a)) 0))
                         (nth cnt (snd (angles a)) 0) (nth cnt (r_n g) 0)).
    assert (Hv : nth cnt (upd cnt v (r_n g1)) 0 = v)
      by (apply nth_upd_eq; lia).
    rewrite Hv.
    destruct (Rgtb v (nth sht (maxrad g1) 0)) eqn:Hgt;
      cbn [grid_k r_n r_npo ratios maxrad]; rewrite ?length_upd.
    + apply Rgtb_true in Hgt.
      split; [reflexivity|]. split; [exact L1|]. split; [exact E2|].
      split; [exact E3|]. split; [exact Lm|]. split.
      { intros s Hs'. rewrite nth_upd_neq by congruence. apply Hoth. exact Hs'. }
      rewrite nth_upd_eq by lia. split; [lra|]. split.
      * intros k Hk'. destruct (Nat.eq_dec k cnt) as [->|Hne].
        -- rewrite Hv. split; [reflexivity | lra].
        -- rewrite nth_upd_neq by lia.
           destruct (Hin k ltac:(lia)) as [E1 Hle]. split; [exact E1 | lra].
      * intros k Hk'. rewrite nth_upd_neq by lia. apply Hout. lia.
    + apply Rgtb_false in Hgt.
      split; [reflexivity|]. split; [exact L1|]. split; [exact E2|].
      split; [exact E3|]. split; [exact Lm|]. split; [exact Hoth|].
      split; [exact Hge|]. split.
      * intros k Hk'. destruct (Nat.eq_dec k cnt) as [->|Hne].
        -- rewrite Hv. split; [reflexivity | lra].
        -- rewrite nth_upd_neq by lia. apply Hin. lia.
      * intros k Hk'. rewrite nth_upd_neq by lia. apply Hout. lia.
Qed.

End GridPoints.


Lemma max_ratio_ge (rat : list R) (cnt : nat) :
  0 <= max_ratio rat cnt
  /\ forall k, (k < cnt)%nat -> nth k rat 0 <= max_ratio rat cnt.
Proof.
  unfold max_ratio. induction cnt as [|cnt [IH0 IH]].
  - simpl. split; [lra | intros; lia].
  - rewrite seq_S, fold_left_app. cbn [fold_left Nat.add].
    set (mv := fold_left _ (seq 0 cnt) 0) in *.
    destruct (Rgtb (nth cnt rat 0) mv) eqn:Hgt.
    + apply Rgtb_true in Hgt. split; [lra|].
      intros k Hk. destruct (Nat.eq_dec k cnt) as [->|Hne]; [lra|].
      specialize (IH k ltac:(lia)). lra.
    + apply Rgtb_false in Hgt. split; [exact IH0|].
      intros k Hk. destruct (Nat.eq_dec k cnt) as [->|Hne]; [lra|].
      apply IH. lia.
Qed.

Section GridDegrees.
Context {MS : MathSpherharm}.
Variable a : AtomVecSpherharm.
Variable sht : nat.

Let N := maxshexpan a.
Let Q2 := (num_quadrature a * num_quadrature a)%nat.
Let D (n k : nat) (r : R) : R :=
  add_degree a sht n (cos (nth k (fst (angles a)) 0))
             (nth k (snd (angles a)) 0) r.
(** The degrees below [m] added from 0 at the grid point [k]. *)
Let below (k m : nat) : R := fold_left (fun r j => D j k r) (seq 0 m) 0.

Lemma below_S (k m : nat) : below k (S m) = D m k (below k m).
Proof. unfold below. rewrite seq_S, fold_left_app. reflexivity. Qed.

Lemma grid_radius_below (k n : nat) : grid_radius a sht k n = below k (n + 1).
Proof. reflexivity. Qed.

(** What one degree does to the grid and to [expfactors]. *)
Lemma expfac_degree_grid (g : expfac_grid) (e : list R) (n : nat) :
  List.length (r_n g) = Q2 -> List.length (r_npo g) = Q2 ->
  List.length (ratios g) = Q2 -> (sht < List.length (maxrad g))%nat ->
  (N < List.length e)%nat ->
  let g' := fst (expfac_degree a sht (g, e) n) in
  let e' := snd (expfac_degree a sht (g, e) n) in
  List.length (r_n g') = Q2 /\ List.length (r_npo g') = Q2
  /\ List.length (ratios g') = Q2
  /\ List.length (maxrad g') = List.length (maxrad g)
  /\ List.length e' = List.length e
  /\ (forall k, (k < Q2)%nat -> nth k (r_n g') 0 = D n k (nth k (r_n g) 0))
  /\ (forall s, s <> sht -> nth s (maxrad g') 0 = nth s (maxrad g) 0)
  /\ (forall j, j <> n -> nth j e' 0 = nth j e 0)
  /\ ((n < N)%nat ->
      maxrad g' = maxrad g
      /\ 1 <= nth n e' 0
      /\ forall k, (k < Q2)%nat ->
           D (n + 1) k (nth k (r_n g') 0) / nth k (r_n g') 0 <= nth n e' 0)
  /\ (~ (n < N)%nat ->
      e' = e
      /\ nth sht (maxrad g) 0 <= nth sht (maxrad g') 0
      /\ forall k, (k < Q2)%nat ->
           nth k (r_n g') 0 <= nth sht (maxrad g') 0).
Proof.
  intros L1 L2 L3 Ls Le. cbv zeta. unfold expfac_degree.
  rewrite (grid_loop_flat (expfac_point a sht n)). fold Q2.
  set (g0 := {| r_n := r_n g; r_npo := r_npo g; ratios := ratios g;
                maxrad := maxrad g; grid_k := 0 |}).
  destruct (below_last a n) eqn:Hb.
  - assert (HnN : (n < N)%nat) by (apply below_last_lt; exact Hb).
    destruct (@grid_points_below MS a sht n Q2 g0 Hb eq_refl)
      as (Hk & M1 & M2 & M3 & Hmr & Hin & _);
      try (cbn [r_n r_npo ratios g0]; lia).
    set (g1 := Nat.iter Q2 (expfac_point a sht n) g0) in *.
    cbn [r_n r_npo ratios maxrad g0] in M1, M2, M3, Hmr, Hin.
    rewrite Hk.
    destruct (max_ratio_ge (ratios g1) Q2) as [Hm0 Hmk].
    assert (He' : forall e1, e1 = (if Rltb (nth n (upd n (max_ratio (ratios g1) Q2) e) 0) 1
                                   then upd n 1 (upd n (max_ratio (ratios g1) Q2) e)
                                   else upd n (max_ratio (ratios g1) Q2) e) ->
                  List.length e1 = List.length e
                  /\ (forall j, j <> n -> nth j e1 0 = nth j e 0)
                  /\ 1 <= nth n e1 0 /\ max_ratio (ratios g1) Q2 <= nth n e1 0).
    { intros e1 ->.
      rewrite nth_upd_eq by (unfold N in *; lia).
      destruct (Rltb (max_ratio (ratios g1) Q2) 1) eqn:Hc.
      - apply Rltb_true in Hc. rewrite !length_upd. split; [reflexivity|].
        split; [intros j Hj; rewrite !nth_upd_neq by congruence; reflexivity|].
        rewrite nth_upd_eq by (rewrite length_upd; unfold N in *; lia). lra.
      - apply Rltb_false in Hc. rewrite !length_upd. split; [reflexivity|].
        split; [intros j Hj; rewrite !nth_upd_neq by congruence; reflexivity|].
        rewrite nth_upd_eq by (unfold N in *; lia). lra. }
    destruct (He' _ eq_refl) as (E1 & E2 & E3 & E4).
    cbn [fst snd];
      (split; [lia|]); (split; [lia|]); (split; [lia|]);
      (split; [rewrite Hmr; reflexivity|]); (split; [exact E1|]);
      (split; [intros k Hk'; apply Hin; exact Hk'|]);
      (split; [intros s Hs; rewrite Hmr; reflexivity|]);
      (split; [exact E2|]);
      (split; [|intros; contradiction]);
      intros _; (split; [exact Hmr|]); (split; [exact E3|]);
      intros k Hk'; destruct (Hin k Hk') as (F1 & F2 & F3);
      specialize (Hmk k Hk'); rewrite F3, F2 in Hmk;
      exact (Rle_trans _ _ _ Hmk E4).
  - assert (HnN : ~ (n < N)%nat).
    { intros H. apply below_last_lt in H. congruence. }
    destruct (@grid_points_last MS a sht n Q2 g0 Hb eq_refl)
      as (Hk & M1 & E2 & E3 & Lm & Hoth & Hge & Hin & _);
      try (cbn [r_n maxrad g0]; lia).
    set (g1 := Nat.iter Q2 (expfac_point a sht n) g0) in *.
    cbn [r_n r_npo ratios maxrad g0] in M1, E2, E3, Lm, Hoth, Hge, Hin.
    cbn [fst snd].
    split; [lia|]. split; [rewrite E2; exact L2|].
    split; [rewrite E3; exact L3|]. split; [exact Lm|].
    split; [reflexivity|].
    split; [intros k Hk'; apply Hin; exact Hk'|].
    split; [exact Hoth|]. split; [reflexivity|].
    split; [intros; contradiction|]. intros _.
    split; [reflexivity|]. split; [exact Hge|].
    intros k Hk'. apply Hin. exact Hk'.
Qed.

(** The loop over the degrees [0 .. m-1], from radii that are zero. *)
Lemma expfac_degrees_grid (g : expfac_grid) (e : list R) (m : nat) :
  List.length (r_n g) = Q2 -> List.length (r_npo g) = Q2 ->
  List.length (ratios g) = Q2 -> (sht < List.length (maxrad g))%nat ->
  (N < List.length e)%nat ->
  (forall k, (k < Q2)%nat -> nth k (r_n g) 0 = 0) ->
  (m <= N + 1)%nat ->
  let g' := fst (fold_left (expfac_degree a sht) (seq 0 m) (g, e)) in
  let e' := snd (fold_left (expfac_degree a sht) (seq 0 m) (g, e)) in
  (List.length (r_n g') = Q2 /\ List.length (r_npo g') = Q2
   /\ List.length (ratios g') = Q2
   /\ List.length (maxrad g') = List.length (maxrad g)
   /\ List.length e' = List.length e)
  /\ (forall k, (k < Q2)%nat -> nth k (r_n g') 0 = below k m)
  /\ (forall s, s <> sht -> nth s (maxrad g') 0 = nth s (maxrad g) 0)
  /\ (forall j, (m <= j \/ N <= j)%nat -> nth j e' 0 = nth j e 0)
  /\ (forall n, (n < m)%nat -> (n < N)%nat ->
        1 <= nth n e' 0
        /\ forall k, (k < Q2)%nat ->
             below k (n + 2) / below k (n + 1) <= nth n e' 0)
  /\ ((m <= N)%nat -> maxrad g' = maxrad g)
  /\ (m = (N + 1)%nat ->
      nth sht (maxrad g) 0 <= nth sht (maxrad g') 0
      /\ forall k, (k < Q2)%nat -> below k (N + 1) <= nth sht (maxrad g') 0).
Proof.
  intros L1 L2 L3 Ls Le Hz. cbv zeta. induction m as [|m IH]; intros Hm.
  - cbn [seq fold_left fst snd].
    split; [repeat split; assumption|].
    split; [intros k Hk; rewrite Hz by exact Hk; reflexivity|].
    split; [reflexivity|]. split; [reflexivity|].
    split; [intros; lia|]. split; [reflexivity|]. intros; lia.
  - rewrite seq_S, fold_left_app, Nat.add_0_l. cbn [fold_left].
    destruct IH as ((M1 & M2 & M3 & Mm & Me) & Hr & Hoth & Hkeep & Hfac
                    & Hmr & _); [lia|].
    destruct (fold_left (expfac_degree a sht) (seq 0 m) (g, e)) as [g1 e1].
    cbn [fst snd] in *.
    destruct (expfac_degree_grid g1 e1 m M1 M2 M3 ltac:(lia) ltac:(lia))
      as (N1 & N2 & N3 & Nm & Ne & Hr' & Hoth' & Hkeep' & Hlow & Hlast).
    split; [repeat split; lia|]. split.
    { intros k Hk. rewrite Hr' by exact Hk. rewrite Hr by exact Hk.
      symmetry. apply below_S. }
    split.
    { intros s Hs. rewrite Hoth' by exact Hs. apply Hoth. exact Hs. }
    split.
    { intros j Hj. destruct (Nat.eq_dec j m) as [->|Hne].
      - destruct (Hlast ltac:(lia)) as (E & _). rewrite E.
        apply Hkeep. lia.
      - rewrite Hkeep' by exact Hne. apply Hkeep. lia. }
    split.
    { intros n Hn HnN. destruct (Nat.eq_dec n m) as [->|Hne].
      - destruct (Hlow HnN) as (_ & H1 & Hrat). split; [exact H1|].
        intros k Hk. specialize (Hrat k Hk).
        rewrite Hr' in Hrat by exact Hk. rewrite Hr in Hrat by exact Hk.
        rewrite <- below_S in Hrat.
        replace (m + 1)%nat with (S m) in Hrat by lia.
        rewrite <- below_S in Hrat.
        replace (m + 2)%nat with (S (S m)) by lia.
        replace (m + 1)%nat with (S m) by lia. exact Hrat.
      - rewrite Hkeep' by exact Hne. apply Hfac; lia. }
    split.
    { intros HmN. destruct (Hlow ltac:(lia)) as (E & _). rewrite E.
      apply Hmr. lia. }
    intros HmN. assert (m = N) by lia. subst m.
    destruct (Hlast ltac:(lia)) as (_ & Hge & Hmax).
    rewrite Hmr in Hge by lia. split; [exact Hge|].
    intros k Hk. specialize (Hmax k Hk).
    rewrite Hr' in Hmax by exact Hk. rewrite Hr in Hmax by exact Hk.
    rewrite <- below_S in Hmax.
    replace (N + 1)%nat with (S N) by lia. exact Hmax.
Qed.

(** The running product, with the value every entry gets. *)
Lemma expfac_accumulate_exact (len : nat) :
  forall (m : nat) (factor : R) (e : list R) (b : list (list R)),
    (m + len = N)%nat -> (sht < List.length b)%nat ->
    (N < List.length (nth sht b []))%nat ->
    let st := fold_left (expfac_accumulate sht) (rev (seq m len))
                        (factor, e, b) in
    let factor' := fst (fst st) in
    let e' := snd (fst st) in
    let b' := snd st in
    factor' = (if (len =? 0)%nat then factor else at2 b' sht m)
    /\ List.length e' = List.length e
    /\ (forall k, (k < m)%nat -> nth k e' 0 = nth k e 0)
    /\ List.length b' = List.length b
    /\ (forall s, List.length (nth s b' []) = List.length (nth s b []))
    /\ (forall s, s <> sht -> nth s b' [] = nth s b [])
    /\ (forall n, (n < m \/ N <= n)%nat -> at2 b' sht n = at2 b sht n)
    /\ (forall n, (m <= n < N)%nat ->
          at2 b' sht n
          = (if (n + 1 <? N)%nat then at2 b' sht (n + 1) else factor)
            * (nth n e 0 * safety_factor)).
Proof.
  induction len as [|len IH]; intros m factor e b Hm Hs Hrow; cbv zeta.
  - simpl. repeat split; try reflexivity; intros; lia.
  - cbn [seq rev]. rewrite fold_left_app. cbn [fold_left].
    destruct (IH (S m) factor e b ltac:(lia) Hs Hrow)
      as (Hf & Hle & Hek & Hlb & Hrl & Hro & Hsame & Hrec).
    destruct (fold_left (expfac_accumulate sht) (rev (seq (S m) len))
                        (factor, e, b)) as [[f1 e1] b1].
    cbn [fst snd] in *. unfold expfac_accumulate. cbn [fst snd].
    assert (Hin : (m < List.length (nth sht b1 []))%nat)
      by (rewrite Hrl; lia).
    split; [rewrite at2_upd2_same by lia; reflexivity|].
    split; [rewrite length_upd; exact Hle|]. split.
    { intros k Hk. rewrite nth_upd_neq by lia. apply Hek. lia. }
    split; [rewrite upd2_length; exact Hlb|]. split.
    { intros s. rewrite row_upd2_length. apply Hrl. }
    split.
    { intros s Hne. rewrite row_upd2_other by congruence. apply Hro. exact Hne. }
    split.
    { intros n Hn. rewrite at2_upd2_other_index by lia. apply Hsame. lia. }
    intros n Hn. destruct (Nat.eq_dec n m) as [->|Hne].
    + rewrite at2_upd2_same by lia. rewrite (Hek m) by lia. rewrite Hf.
      destruct (Nat.eqb_spec len 0) as [E|NE];
        destruct (Nat.ltb_spec (m + 1) N) as [Hlt|Hge]; try lia.
      * reflexivity.
      * rewrite at2_upd2_other_index by lia.
        replace (S m) with (m + 1)%nat by lia. reflexivity.
    + rewrite at2_upd2_other_index by lia. rewrite Hrec by lia.
      destruct (Nat.ltb_spec (n + 1) N) as [Hlt|Hge]; [|reflexivity].
      rewrite at2_upd2_other_index by lia. reflexivity.
Qed.

(** One shape: the maximum covers the radius at every grid point, and each
    stored factor is the next one times a factor that is at least 1 and at
    least the ratio of the radii of two successive degrees at every grid
    point. *)
Lemma expfac_shape_grid (g : expfac_grid) (e : list R) (b : list (list R)) :
  List.length (r_n g) = (num_quadrature a * num_quadrature a)%nat ->
  List.length (r_npo g) = (num_quadrature a * num_quadrature a)%nat ->
  List.length (ratios g) = (num_quadrature a * num_quadrature a)%nat ->
  (sht < List.length (maxrad g))%nat ->
  List.length e = (maxshexpan a + 1)%nat -> nth (maxshexpan a) e 0 = 1 ->
  (sht < List.length b)%nat ->
  (maxshexpan a < List.length (nth sht b []))%nat ->
  let g' := fst (fst (expfac_shape a (g, e, b) sht)) in
  let b' := snd (expfac_shape a (g, e, b) sht) in
  (List.length (r_n g') = (num_quadrature a * num_quadrature a)%nat
   /\ List.length (r_npo g') = (num_quadrature a * num_quadrature a)%nat
   /\ List.length (ratios g') = (num_quadrature a * num_quadrature a)%nat
   /\ List.length (maxrad g') = List.length (maxrad g))
  /\ (forall s, s <> sht -> nth s (maxrad g') 0 = nth s (maxrad g) 0)
  /\ nth sht (maxrad g) 0 <= nth sht (maxrad g') 0
  /\ (forall k, (k < num_quadrature a * num_quadrature a)%nat ->
        grid_radius a sht k (maxshexpan a) <= nth sht (maxrad g') 0)
  /\ exists f : nat -> R,
      (forall n, (n < maxshexpan a)%nat ->
         1 <= f n
         /\ forall k, (k < num_quadrature a * num_quadrature a)%nat ->
              grid_radius a sht k (n + 1) / grid_radius a sht k n <= f n)
      /\ (forall n, (n < maxshexpan a)%nat ->
            at2 b' sht n = at2 b' sht (n + 1) * (f n * safety_factor)).
Proof.
  fold N. fold Q2. intros L1 L2 L3 Ls Le HeN Hs Hrow. cbv zeta.
  unfold expfac_shape. fold N.
  set (g0 := {| r_n := map (fun _ : R => 0) (r_n g); r_npo := r_npo g;
                ratios := ratios g; maxrad := maxrad g;
                grid_k := grid_k g |}).
  destruct (expfac_degrees_grid g0 e (N + 1))
    as ((M1 & M2 & M3 & Mm & Me) & Hr & Hoth & Hkeep & Hfac & _ & Hlast);
    try (cbn [r_n r_npo ratios maxrad g0]; rewrite ?length_map; lia).
  { intros k Hk. cbn [r_n g0].
    destruct (nth_in_or_default k (map (fun _ : R => 0) (r_n g)) 0)
      as [Hin|Hd]; [|exact Hd].
    apply in_map_iff in Hin. destruct Hin as (y & Hy & _).
    symmetry. exact Hy. }
  destruct (fold_left (expfac_degree a sht) (seq 0 (N + 1)) (g0, e))
    as [g1 e1].
  cbn [fst snd r_n r_npo ratios maxrad g0] in *.
  destruct (Hlast eq_refl) as [Hge Hmax].
  assert (HN1 : nth N e1 0 = 1) by (rewrite Hkeep by lia; exact HeN).
  destruct (expfac_accumulate_exact N 0 (nth N e1 0) e1 b)
    as (_ & _ & _ & Hlb & Hrl & _ & Hsame & Hrec); try lia.
  destruct (fold_left (expfac_accumulate sht) (rev (seq 0 N))
                      (nth N e1 0, e1, b)) as [[f2 e2] b2].
  cbn [fst snd r_n r_npo ratios maxrad] in *.
  split; [repeat split; try lia; rewrite length_upd; lia|]. split.
  { intros s Hne. rewrite nth_upd_neq by congruence. apply Hoth. exact Hne. }
  rewrite nth_upd_eq by lia. unfold safety_factor at 1 2.
  split; [lra|]. split.
  { intros k Hk. specialize (Hmax k Hk). rewrite grid_radius_below. lra. }
  exists (fun n => nth n e1 0). split.
  - intros n Hn. destruct (Hfac n ltac:(lia) Hn) as [H1 Hrat].
    split; [exact H1|]. intros k Hk. specialize (Hrat k Hk).
    rewrite !grid_radius_below.
    replace (n + 1 + 1)%nat with (n + 2)%nat by lia. exact Hrat.
  - intros n Hn. rewrite at2_upd2_other_index by lia.
    rewrite Hrec by lia.
    destruct (Nat.ltb_spec (n + 1) N) as [Hlt|Hge'].
    + rewrite at2_upd2_other_index by lia. reflexivity.
    + replace (n + 1)%nat with N by lia.
      rewrite at2_upd2_same by (rewrite ?Hlb, ?Hrl; lia).
      rewrite HN1. lra.
Qed.

End GridDegrees.

(** The stored factors dominate the growth of the radius: with positive
    partial sums [r], factors [f] that bound the ratios, and stored values
    [e] that are the suffix products of the factors. *)
Lemma suffix_product_bound (N : nat) (r e f : nat -> R) :
  e N = 1 ->
  (forall n, (n < N)%nat -> e n = e (n + 1)%nat * (f n * safety_factor)) ->
  (forall n, (n < N)%nat -> 1 <= f n /\ r (n + 1)%nat / r n <= f n) ->
  (forall n, (n <= N)%nat -> 0 < r n) ->
  forall n, (n <= N)%nat -> 1 <= e n /\ r N <= e n * r n.
Proof.
  intros HN Hrec Hf Hpos.
  assert (H : forall d n, (n + d = N)%nat -> 1 <= e n /\ r N <= e n * r n).
  { induction d as [|d IH]; intros n Hn.
    - replace n with N by lia. rewrite HN. split; lra.
    - destruct (IH (n + 1)%nat ltac:(lia)) as [H1 H2].
      destruct (Hf n ltac:(lia)) as [F1 F2].
      pose proof (Hpos n ltac:(lia)) as Pn.
      pose proof (Hpos (n + 1)%nat ltac:(lia)) as Pn1.
      rewrite (Hrec n) by lia. unfold safety_factor.
      assert (Hr : r (n + 1)%nat <= f n * r n).
      { apply (Rmult_le_compat_r (r n)) in F2; [|lra].
        replace (r (n + 1)%nat / r n * r n) with (r (n + 1)%nat) in F2
          by (field; lra).
        exact F2. }
      split; [nra|].
      apply Rle_trans with (1 := H2).
      replace (e (n + 1)%nat * (f n * 1.00) * r n)
        with (e (n + 1)%nat * (f n * r n)) by lra.
      apply Rmult_le_compat_l; lra. }
  intros n Hn. apply (H (N - n)%nat). lia.
Qed.

Section GridShapes.
Context {MS : MathSpherharm}.
Variable a : AtomVecSpherharm.

Let N := maxshexpan a.
Let Q2 := (num_quadrature a * num_quadrature a)%nat.

(** What the pass over one shape establishes for that shape. *)
Let covered (s : nat) (mr : list R) (b : list (list R)) : Prop :=
  (forall k, (k < Q2)%nat -> grid_radius a s k N <= nth s mr 0)
  /\ forall k, (k < Q2)%nat ->
       (forall n, (n <= N)%nat -> 0 < grid_radius a s k n) ->
       forall n, (n <= N)%nat ->
         grid_radius a s k N <= at2 b s n * grid_radius a s k n.

Lemma expfac_shape_covered (g : expfac_grid) (e : list R)
      (b : list (list R)) (sht : nat) :
  List.length (r_n g) = Q2 -> List.length (r_npo g) = Q2 ->
  List.length (ratios g) = Q2 -> (sht < List.length (maxrad g))%nat ->
  List.length e = (N + 1)%nat -> nth N e 0 = 1 ->
  (sht < List.length b)%nat ->
  (N < List.length (nth sht b []))%nat ->
  let st := expfac_shape a (g, e, b) sht in
  let g' := fst (fst st) in
  let e' := snd (fst st) in
  let b' := snd st in
  (List.length (r_n g') = Q2 /\ List.length (r_npo g') = Q2
   /\ List.length (ratios g') = Q2
   /\ List.length (maxrad g') = List.length (maxrad g)
   /\ List.length e' = (N + 1)%nat /\ nth N e' 0 = 1
   /\ List.length b' = List.length b
   /\ (forall s, List.length (nth s b' []) = List.length (nth s b [])))
  /\ (forall s, s <> sht ->
        nth s (maxrad g') 0 = nth s (maxrad g) 0
        /\ nth s b' [] = nth s b [])
  /\ covered sht (maxrad g') b'.
Proof.
  intros L1 L2 L3 Ls Le HeN Hs Hrow. cbv zeta.
  destruct (@expfac_shape_spec MS a g e b sht Le HeN Hs Hrow)
    as (E1 & E2 & E3 & E4 & E5 & _ & E6).
  destruct (@expfac_shape_grid MS a sht g e b L1 L2 L3 Ls Le HeN Hs Hrow)
    as ((M1 & M2 & M3 & M4) & Hoth & _ & Hmax & f & Hf & Hrec).
  split; [repeat split; assumption|]. split.
  { intros s Hne. split; [apply Hoth | apply E5]; exact Hne. }
  split; [exact Hmax|].
  intros k Hk Hpos n Hn.
  apply (suffix_product_bound N (fun n => grid_radius a sht k n)
           (fun n => at2 (snd (expfac_shape a (g, e, b) sht)) sht n) f);
    try assumption.
  intros j Hj. destruct (Hf j Hj) as [F1 F2]. split; [exact F1|].
  apply F2. exact Hk.
Qed.

(** The loop over the shapes [0 .. m-1]. *)
Lemma expfac_shapes_covered (m : nat) (g : expfac_grid) (e : list R)
      (b : list (list R)) :
  List.length (r_n g) = Q2 -> List.length (r_npo g) = Q2 ->
  List.length (ratios g) = Q2 -> (m <= List.length (maxrad g))%nat ->
  List.length e = (N + 1)%nat -> nth N e 0 = 1 ->
  (m <= List.length b)%nat ->
  (forall s, (s < m)%nat -> (N < List.length (nth s b []))%nat) ->
  let st := fold_left (expfac_shape a) (seq 0 m) (g, e, b) in
  let g' := fst (fst st) in
  let e' := snd (fst st) in
  let b' := snd st in
  (List.length (r_n g') = Q2 /\ List.length (r_npo g') = Q2
   /\ List.length (ratios g') = Q2
   /\ List.length (maxrad g') = List.length (maxrad g)
   /\ List.length e' = (N + 1)%nat /\ nth N e' 0 = 1
   /\ List.length b' = List.length b
   /\ (forall s, List.length (nth s b' []) = List.length (nth s b [])))
  /\ (forall s, (s < m)%nat -> covered s (maxrad g') b').
Proof.
  intros L1 L2 L3. cbv zeta.
  induction m as [|m IH]; intros Ls Le HeN Hb Hrows.
  - cbn [seq fold_left fst snd].
    split; [repeat split; assumption | intros; lia].
  - rewrite seq_S, fold_left_app, Nat.add_0_l. cbn [fold_left].
    destruct IH as ((M1 & M2 & M3 & M4 & M5 & M6 & M7 & M8) & Hcov);
      [lia | exact Le | exact HeN | lia | intros; apply Hrows; lia |].
    destruct (fold_left (expfac_shape a) (seq 0 m) (g, e, b))
      as [[g1 e1] b1].
    cbn [fst snd] in *.
    destruct (expfac_shape_covered g1 e1 b1 m M1 M2 M3 ltac:(lia) M5 M6
                ltac:(lia) ltac:(rewrite M8; apply Hrows; lia))
      as ((K1 & K2 & K3 & K4 & K5 & K6 & K7 & K8) & Hoth & Hnew).
    split.
    { repeat split; try assumption; try lia.
      intros s. rewrite K8. apply M8. }
    intros s Hs. destruct (Nat.eq_dec s m) as [->|Hne]; [exact Hnew|].
    destruct (Hoth s Hne) as [O1 O2].
    destruct (Hcov s ltac:(lia)) as [C1 C2]. split.
    + intros k Hk. rewrite O1. apply C1. exact Hk.
    + intros k Hk Hpos n Hn. unfold at2. rewrite O2.
      apply (C2 k Hk Hpos n Hn).
Qed.

(** [calcexpansionfactors_gauss]: on every direction of the quadrature grid
    the full radius is at most the stored maximum, and, where the partial
    sums are positive, at most every partial sum times its stored factor. *)
Lemma calcexpansionfactors_gauss_covered (sht : nat) :
  (nshtypes a <= List.length (maxrad_byshape a))%nat ->
  (nshtypes a <= List.length (expfacts_byshape a))%nat ->
  (forall s, (s < nshtypes a)%nat ->
             (N < List.length (nth s (expfacts_byshape a) []))%nat) ->
  (sht < nshtypes a)%nat ->
  covered sht (maxrad_byshape (calcexpansionfactors_gauss a))
          (expfacts_byshape (calcexpansionfactors_gauss a)).
Proof.
  intros Hmr Hlen Hrows Hs. unfold calcexpansionfactors_gauss. fold N Q2.
  match goal with
  | |- context [fold_left (expfac_shape a) _ (?g0, ?e0, ?b0)] =>
    destruct (expfac_shapes_covered (nshtypes a) g0 e0 b0) as (_ & Hcov);
    [ apply repeat_length | apply repeat_length | apply repeat_length
    | exact Hmr
    | rewrite length_upd, repeat_length; reflexivity
    | rewrite nth_upd_eq by (rewrite repeat_length; lia); lra
    | exact Hlen
    | exact Hrows
    | destruct (fold_left (expfac_shape a) (seq 0 (nshtypes a)) (g0, e0, b0))
        as [[g1 e1] b1] ]
  end.
  cbn [fst snd set_expfacts expfacts_byshape maxrad_byshape] in *.
  apply Hcov. exact Hs.
Qed.

End GridShapes.

(** ** The initialised shape on its quadrature grid *)

Lemma get_shape_radius_ext {MS : MathSpherharm} (a a' : AtomVecSpherharm)
      (sht : nat) (theta phi : R) :
  maxshexpan a = maxshexpan a' -> shcoeffs_byshape a = shcoeffs_byshape a' ->
  get_shape_radius a sht theta phi = get_shape_radius a' sht theta phi.
Proof.
  intros H1 H2. destruct a, a'. simpl in H1, H2. subst. reflexivity.
Qed.

Lemma direct_radius_ext {MS : MathSpherharm} (a a' : AtomVecSpherharm)
      (sht : nat) (x_val phi : R) (n : nat) :
  shcoeffs_byshape a = shcoeffs_byshape a' ->
  direct_radius a sht x_val phi n = direct_radius a' sht x_val phi n.
Proof.
  intros H1. destruct a, a'. simpl in H1. subst. reflexivity.
Qed.

(** Two nested loops that store [F s k] at [q[s][k]]. *)
Lemma fill_rows (F : nat -> nat -> R) (c m : nat) (q : list (list R)) :
  (m <= List.length q)%nat ->
  (forall s, (s < m)%nat -> (c <= List.length (nth s q []))%nat) ->
  forall s k, (s < m)%nat -> (k < c)%nat ->
    at2 (fold_left
           (fun (q : list (list R)) (s : nat) =>
              fold_left (fun (q : list (list R)) (k : nat) =>
                           upd2 s k (F s k) q) (seq 0 c) q)
           (seq 0 m) q) s k = F s k.
Proof.
  assert (Hrow : forall s j (q : list (list R)),
             let q' := fold_left (fun (q : list (list R)) (k : nat) =>
                                    upd2 s k (F s k) q) (seq 0 j) q in
             List.length q' = List.length q
             /\ (forall t, List.length (nth t q' []) = List.length (nth t q []))
             /\ (forall t, t <> s -> nth t q' [] = nth t q [])
             /\ ((s < List.length q)%nat ->
                 (j <= List.length (nth s q []))%nat ->
                 forall k, (k < j)%nat -> at2 q' s k = F s k)).
  { intros s j q0. cbv zeta. induction j as [|j IH].
    - cbn [seq fold_left]. repeat split; intros; lia.
    - rewrite seq_S, fold_left_app, Nat.add_0_l. cbn [fold_left].
      destruct IH as (I1 & I2 & I3 & I4).
      split; [rewrite upd2_length; exact I1|]. split.
      { intros t. rewrite row_upd2_length. apply I2. }
      split.
      { intros t Ht. rewrite row_upd2_other by congruence. apply I3. exact Ht. }
      intros Hs Hj k Hk. destruct (Nat.eq_dec k j) as [->|Hne].
      + apply at2_upd2_same; [rewrite I1; exact Hs | rewrite I2; lia].
      + rewrite at2_upd2_other_index by (rewrite ?I1; congruence || lia).
        apply I4; lia. }
  induction m as [|m IH]; intros Hm Hrows s k Hs Hk; [lia|].
  rewrite seq_S, fold_left_app, Nat.add_0_l. cbn [fold_left].
  set (q1 := fold_left _ (seq 0 m) q) in *.
  assert (Hq1 : List.length q1 = List.length q
                /\ forall t, List.length (nth t q1 []) = List.length (nth t q [])).
  { unfold q1. clear - Hrow. induction m as [|m IH].
    - split; reflexivity.
    - rewrite seq_S, fold_left_app, Nat.add_0_l. cbn [fold_left].
      destruct IH as [I1 I2].
      destruct (Hrow m c (fold_left
           (fun (q : list (list R)) (s : nat) =>
              fold_left (fun (q : list (list R)) (k : nat) =>
                           upd2 s k (F s k) q) (seq 0 c) q)
           (seq 0 m) q)) as (R1 & R2 & _).
      split; [rewrite R1; exact I1 | intros t; rewrite R2; apply I2]. }
  destruct Hq1 as [Q1 Q2].
  destruct (Hrow m c q1) as (R1 & R2 & R3 & R4).
  destruct (Nat.eq_dec s m) as [->|Hne].
  - apply R4; [rewrite Q1; lia | rewrite Q2; apply Hrows; lia | exact Hk].
  - unfold at2. rewrite R3 by exact Hne.
    apply (IH ltac:(lia) ltac:(intros; apply Hrows; lia) s k ltac:(lia) Hk).
Qed.

(** What [get_quadrature_values] leaves alone and what it stores. *)
Lemma get_quadrature_values_fields {MS : MathSpherharm}
      (a : AtomVecSpherharm) :
  let a' := get_quadrature_values a in
  maxshexpan a' = maxshexpan a /\ num_quadrature a' = num_quadrature a
  /\ nshtypes a' = nshtypes a /\ shcoeffs_byshape a' = shcoeffs_byshape a
  /\ expfacts_byshape a' = expfacts_byshape a
  /\ maxrad_byshape a' = maxrad_byshape a
  /\ ((nshtypes a <= List.length (quad_rads_byshape a))%nat ->
      (forall s, (s < nshtypes a)%nat ->
         (num_quadrature a * num_quadrature a
          <= List.length (nth s (quad_rads_byshape a) []))%nat) ->
      forall s k, (s < nshtypes a)%nat ->
        (k < num_quadrature a * num_quadrature a)%nat ->
        at2 (quad_rads_byshape a') s k
        = get_shape_radius a s (nth k (fst (angles a')) 0)
                           (nth k (snd (angles a')) 0)).
Proof.
  cbv zeta. unfold get_quadrature_values.
  destruct (quadrature_nodes _ _) as [w ab].
  destruct (quadrature_angles _ _ _) as [[a0 a1] c].
  cbn [set_quadrature maxshexpan num_quadrature nshtypes shcoeffs_byshape
       expfacts_byshape maxrad_byshape quad_rads_byshape angles fst snd].
  repeat (split; [reflexivity|]).
  intros Hl Hrows s k Hs Hk.
  apply (fill_rows (fun s k => get_shape_radius a s (nth k a0 0) (nth k a1 0))
           (num_quadrature a * num_quadrature a) (nshtypes a)
           (quad_rads_byshape a) Hl Hrows s k Hs Hk).
Qed.

Lemma calcexpansionfactors_gauss_fields {MS : MathSpherharm}
      (a : AtomVecSpherharm) :
  let a' := calcexpansionfactors_gauss a in
  maxshexpan a' = maxshexpan a /\ num_quadrature a' = num_quadrature a
  /\ nshtypes a' = nshtypes a /\ shcoeffs_byshape a' = shcoeffs_byshape a
  /\ quad_rads_byshape a' = quad_rads_byshape a
  /\ angles a' = angles a /\ weights a' = weights a.
Proof.
  cbv zeta. unfold calcexpansionfactors_gauss.
  destruct (fold_left _ _ _) as [[g e] b].
  repeat split.
Qed.

Section Initialised.
Context {MS : MathSpherharm}.
Variables (Q nsh : nat) (coeffs : list (list R)).

Let avec := initialise Q nsh coeffs.
Let a0 := get_quadrature_values (process_args_allocate Q nsh coeffs).

Lemma initialise_fields :
  maxshexpan avec = 20%nat /\ num_quadrature avec = Q /\ nshtypes avec = nsh
  /\ shcoeffs_byshape avec = coeffs /\ angles avec = angles a0
  /\ shcoeffs_byshape a0 = coeffs /\ maxshexpan a0 = 20%nat
  /\ num_quadrature a0 = Q /\ nshtypes a0 = nsh.
Proof.
  destruct (calcexpansionfactors_gauss_fields a0)
    as (C1 & C2 & C3 & C4 & _ & C6 & _).
  destruct (get_quadrature_values_fields (process_args_allocate Q nsh coeffs))
    as (G1 & G2 & G3 & G4 & _).
  fold a0 in G1, G2, G3, G4.
  cbn [process_args_allocate maxshexpan num_quadrature nshtypes
       shcoeffs_byshape] in G1, G2, G3, G4.
  unfold avec, initialise. fold a0.
  rewrite C1, C2, C3, C4, C6, G1, G2, G3, G4. repeat split.
Qed.

(** The radius [calcexpansionfactors_gauss] sums at a grid point is at
    most the maximum it records. *)
Lemma initialise_grid_max (sht k : nat) :
  (sht < nsh)%nat -> (k < Q * Q)%nat ->
  grid_radius avec sht k 20 <= nth sht (maxrad_byshape avec) 0.
Proof.
  intros Hs Hk.
  destruct initialise_fields
    as (F1 & F2 & F3 & F4 & F5 & F6 & F7 & F8 & F9).
  destruct (get_quadrature_values_fields (process_args_allocate Q nsh coeffs))
    as (_ & _ & _ & _ & G5 & G6 & _).
  fold a0 in G5, G6.
  cbn [process_args_allocate expfacts_byshape maxrad_byshape] in G5, G6.
  pose proof (@calcexpansionfactors_gauss_covered MS a0 sht) as H.
  cbv zeta in H. rewrite F7, F8, F9, G5, G6 in H.
  destruct H as [Hmax _].
  { rewrite repeat_length. lia. }
  { rewrite repeat_length. lia. }
  { intros s Hs'. rewrite nth_repeat_lt by exact Hs'.
    rewrite repeat_length. lia. }
  { exact Hs. }
  specialize (Hmax k Hk).
  replace (grid_radius avec sht k 20) with (grid_radius a0 sht k 20).
  - exact Hmax.
  - unfold grid_radius. rewrite F5. apply direct_radius_ext.
    rewrite F4, F6. reflexivity.
Qed.

(** The stored quadrature radii are the values of [get_shape_radius] on
    the grid. *)
Lemma initialise_quad_rads (sht k : nat) :
  (sht < nsh)%nat -> (k < Q * Q)%nat ->
  at2 (quad_rads_byshape avec) sht k
  = get_shape_radius avec sht (nth k (fst (angles avec)) 0)
                     (nth k (snd (angles avec)) 0).
Proof.
  intros Hs Hk.
  destruct initialise_fields as (F1 & _ & _ & F4 & F5 & _).
  destruct (calcexpansionfactors_gauss_fields a0)
    as (_ & _ & _ & _ & C5 & _).
  fold a0 in C5.
  unfold avec at 1. unfold initialise. fold a0. rewrite C5, F5.
  destruct (get_quadrature_values_fields
              (process_args_allocate Q nsh coeffs))
    as (_ & _ & _ & _ & _ & _ & G).
  fold a0 in G.
  cbn [process_args_allocate nshtypes num_quadrature quad_rads_byshape] in G.
  rewrite G.
  - apply get_shape_radius_ext.
    + rewrite F1. reflexivity.
    + rewrite F4. reflexivity.
  - rewrite repeat_length. lia.
  - intros s Hs'. rewrite nth_repeat_lt by exact Hs'.
    rewrite repeat_length. lia.
  - exact Hs.
  - exact Hk.
Qed.

End Initialised.

(** X4.  After [process_args] the quadrature radii stored for a shape are
    the values of [get_shape_radius] on the grid of [angles], and the
    radius [calcexpansionfactors_gauss] sums there through the last
    degree, calling [plegendre] afresh for every term, is at most the
    maximal radius recorded for the shape. *)
Theorem initialise_quad_rads_grid_max {MS : MathSpherharm} (Q nsh : nat)
        (coeffs : list (list R)) (sht k : nat) :
  (sht < nsh)%nat -> (k < Q * Q)%nat ->
  let avec := initialise Q nsh coeffs in
  let theta := nth k (fst (angles avec)) 0 in
  let phi := nth k (snd (angles avec)) 0 in
  at2 (quad_rads_byshape avec) sht k = get_shape_radius avec sht theta phi
  /\ grid_radius avec sht k (maxshexpan avec)
     <= nth sht (maxrad_byshape avec) 0.
Proof.
  intros Hs Hk. cbv zeta. split.
  - apply initialise_quad_rads; assumption.
  - destruct (@initialise_fields MS Q nsh coeffs) as (F1 & _).
    rewrite F1. apply initialise_grid_max; assumption.
Qed.

Lemma initialise_quad_rads_grid_max_witness :
  (0 < 1)%nat /\ (0 < 1 * 1)%nat
  /\ at2 (quad_rads_byshape Concrete.elongated) 0 0
     = get_shape_radius Concrete.elongated 0
         (nth 0 (fst (angles Concrete.elongated)) 0)
         (nth 0 (snd (angles Concrete.elongated)) 0)
  /\ grid_radius Concrete.elongated 0 0 (maxshexpan Concrete.elongated)
     <= nth 0 (maxrad_byshape Concrete.elongated) 0.
Proof.
  split; [lia|]. split; [simpl; lia|].
  unfold Concrete.elongated.
  exact (@initialise_quad_rads_grid_max Concrete.math_spherharm 1 1
           [Concrete.spheroid_coeffs (3 / 2 * sqrt (4 * PI))
                                     (sqrt (4 * PI / 5))]
           0%nat 0%nat (Nat.lt_0_1) (Nat.lt_0_1)).
Defined.

(** ** [get_shape_radius_and_normal] and [get_normal] *)

Lemma fold_left_sim {A B C : Type} (Rel : A -> B -> Prop)
      (f : A -> C -> A) (g : B -> C -> B) (l : list C) :
  (forall a b c, Rel a b -> Rel (f a c) (g b c)) ->
  forall a b, Rel a b -> Rel (fold_left f l a) (fold_left g l b).
Proof.
  intros Hstep. induction l as [|c l IH]; intros a b Hab; simpl;
    [exact Hab|].
  apply IH. apply Hstep. exact Hab.
Qed.

Section NormalRadius.
Context {MS : MathSpherharm}.
Variable avec : AtomVecSpherharm.
Variable sht : nat.

(** The buffers of the two routines hold the same radius and the same
    Legendre values. *)
Let same (s : sh_grad_buf) (b : sh_buf) : Prop :=
  g_rad s = rad_val b /\ g_m1 s = Pnm_m1 b /\ g_m2 s = Pnm_m2 b
  /\ g_nn s = Pnm_nn b.

Lemma normal_degree_same (phi x_val st : R) (n : nat)
      (s : sh_grad_buf) (b : sh_buf) :
  same s b ->
  same (get_shape_radius_and_normal_degree avec sht phi x_val st s n)
       (get_shape_radius_degree avec sht phi x_val b n).
Proof.
  destruct s as [r dp dt m2 m1 nn]. destruct b as [r' m2' m1' nn'].
  unfold same. cbn [g_rad g_m1 g_m2 g_nn rad_val Pnm_m1 Pnm_m2 Pnm_nn].
  intros (<- & <- & <- & <-).
  unfold get_shape_radius_and_normal_degree, get_shape_radius_degree.
  cbv zeta. cbn [g_rad g_m1 g_m2 g_nn g_dphi g_dtheta rad_val Pnm_m1 Pnm_m2
                 Pnm_nn].
  destruct (n =? 1)%nat.
  { cbn [g_rad g_m1 g_m2 g_nn rad_val Pnm_m1 Pnm_m2 Pnm_nn].
    repeat split. }
  destruct (n =? 2)%nat.
  { cbn [fold_left].
    cbn [g_rad g_m1 g_m2 g_nn rad_val Pnm_m1 Pnm_m2 Pnm_nn].
    repeat split. }
  match goal with
  | |- context [fold_left ?f ?l ?s0] =>
    match goal with
    | |- context [fold_left ?g l ?t0] =>
      lazymatch type of t0 with
      | (R * list R * list R * nat)%type =>
        pose proof (@fold_left_sim _ _ _
          (fun (t : R * R * R * list R * list R * nat)
               (u : R * list R * list R * nat) =>
             fst (fst (fst (fst (fst t)))) = fst (fst (fst u))
             /\ snd (fst (fst t)) = snd (fst (fst u))
             /\ snd (fst t) = snd (fst u) /\ snd t = snd u)
          f g l) as Hsim;
        specialize (Hsim
          ltac:(intros [[[[[a1 a2] a3] a4] a5] a6] [[[b1 b4] b5] b6] c;
                cbn [fst snd]; intros (-> & -> & -> & ->);
                repeat split) s0 t0
          ltac:(cbn [fst snd]; repeat split));
        destruct (fold_left f l s0) as [[[[[a1 a2] a3] a4] a5] a6];
        destruct (fold_left g l t0) as [[[b1 b4] b5] b6];
        cbn [fst snd] in Hsim; destruct Hsim as (-> & -> & -> & ->)
      end
    end
  end.
  cbn [g_rad g_m1 g_m2 g_nn rad_val Pnm_m1 Pnm_m2 Pnm_nn].
  repeat split.
Qed.

Lemma normal_run_same (phi x_val st : R) (l : list nat)
      (s : sh_grad_buf) (b : sh_buf) :
  same s b ->
  same (fold_left (get_shape_radius_and_normal_degree avec sht phi x_val st)
                  l s)
       (fold_left (get_shape_radius_degree avec sht phi x_val) l b).
Proof.
  apply fold_left_sim. intros a b' c. apply normal_degree_same.
Qed.

Lemma normal_radius (theta phi : R) :
  fst (get_shape_radius_and_normal avec sht theta phi)
  = get_shape_radius avec sht
      (if Reqb (sin theta) 0 then theta + 1.0e-5 else theta)
      (if Reqb (sin phi) 0 then phi + 1.0e-5 else phi).
Proof.
  unfold get_shape_radius_and_normal, get_shape_radius. cbv zeta. cbn [fst].
  match goal with
  | |- g_rad (fold_left _ ?l ?s) = rad_val (fold_left _ ?l ?b) =>
    destruct (normal_run_same
                (if Reqb (sin phi) 0 then phi + 1.0e-5 else phi)
                (cos (if Reqb (sin theta) 0 then theta + 1.0e-5 else theta))
                (sin (if Reqb (sin theta) 0 then theta + 1.0e-5 else theta))
                l s b) as [H _]
  end.
  - unfold same, sh_buf_init, MY_4PI.
    cbn [g_rad g_m1 g_m2 g_nn rad_val Pnm_m1 Pnm_m2 Pnm_nn].
    repeat split.
  - exact H.
Qed.

End NormalRadius.

(** X6.  The radius [get_shape_radius_and_normal] returns is the value of
    [get_shape_radius] for the same shape in the direction the routine
    actually uses: an angle whose sine is zero is first moved by [1e-5];
    off those directions the two routines return the same radius. *)
Theorem get_shape_radius_and_normal_radius {MS : MathSpherharm}
        (avec : AtomVecSpherharm) (sht : nat) (theta phi : R) :
  fst (get_shape_radius_and_normal avec sht theta phi)
  = get_shape_radius avec sht
      (if Reqb (sin theta) 0 then theta + 1.0e-5 else theta)
      (if Reqb (sin phi) 0 then phi + 1.0e-5 else phi)
  /\ (sin theta <> 0 -> sin phi <> 0 ->
      fst (get_shape_radius_and_normal avec sht theta phi)
      = get_shape_radius avec sht theta phi).
Proof.
  split; [apply normal_radius|].
  intros Ht Hp. rewrite normal_radius. unfold Reqb.
  destruct (Req_dec_T (sin theta) 0) as [E|_]; [contradiction|].
  destruct (Req_dec_T (sin phi) 0) as [E|_]; [contradiction|].
  reflexivity.
Qed.

Lemma get_shape_radius_and_normal_radius_witness :
  sin (PI / 2) <> 0
  /\ fst (get_shape_radius_and_normal Concrete.elongated 0 (PI / 2) (PI / 2))
     = get_shape_radius Concrete.elongated 0 (PI / 2) (PI / 2).
Proof.
  assert (H : sin (PI / 2) <> 0) by (rewrite sin_PI2; lra).
  split; [exact H|].
  exact (proj2 (@get_shape_radius_and_normal_radius Concrete.math_spherharm
                  Concrete.elongated 0%nat (PI / 2) (PI / 2)) H H).
Defined.

(** ** What the radial bisection brackets *)

Lemma while_loop_ok_iter {St : Type} (cond : St -> bool) (body : St -> St)
      (fuel : nat) (s s' : St) :
  while_loop cond body fuel s = Ok s' ->
  exists k, (k <= fuel)%nat /\ s' = Nat.iter k body s /\ cond s' = false.
Proof.
  revert s. induction fuel as [|fuel IH]; intros s H; simpl in H.
  - destruct (cond s) eqn:E; [discriminate|]. injection H as <-.
    exists 0%nat. repeat split; [lia | exact E].
  - destruct (cond s) eqn:E.
    + destruct (IH _ H) as (k & Hk & -> & Hc).
      exists (S k). split; [lia|]. split; [|exact Hc].
      rewrite Nat.iter_succ_r. reflexivity.
    + injection H as <-. exists 0%nat. repeat split; [lia | exact E].
Qed.

Section BisectionBracket.
Context {MS : MathSpherharm} {CM : Cmath}.
Variable avec : AtomVecSpherharm.
Variables (jshtype : nat) (radj : R) (xi xj : vec3 R) (jrot : mat3 R).
Variables (theta_sf phi_sf rad_body : R).
Hypothesis rad_body_nonneg : 0 <= rad_body.

Let body := bisect_body avec jshtype radj xi xj jrot theta_sf phi_sf.
(** The answer of the contact test at the radius [r] of the ray. *)
Let test (r : R) : option bool :=
  contact_at avec jshtype radj xj jrot (ray_point r theta_sf phi_sf xi).

(** The bracket lies in [[0, rad_body]], the sample is between its ends,
    the upper end is the start or a radius found in contact, and the
    lower end is 0 or a radius found out of contact. *)
Let bracket (s : bisect_state) : Prop :=
  0 <= lower_bound s /\ lower_bound s <= rad_sample s
  /\ rad_sample s <= upper_bound s /\ upper_bound s <= rad_body
  /\ (upper_bound s = rad_body \/ test (upper_bound s) = Some true)
  /\ (lower_bound s = 0 \/ test (lower_bound s) <> Some true).

Lemma bracket_init : bracket (bisect_init rad_body).
Proof.
  unfold bracket, bisect_init. cbn [upper_bound lower_bound rad_sample].
  do 4 (split; [lra|]). split; left; [reflexivity | lra].
Qed.

Lemma bracket_body (s : bisect_state) : bracket s -> bracket (body s).
Proof.
  intros (H0 & H1 & H2 & H3 & Hu & Hl).
  unfold bracket, body, bisect_body. fold (test (rad_sample s)).
  destruct (test (rad_sample s)) as [[|]|] eqn:E;
    cbn [upper_bound lower_bound rad_sample].
  - do 4 (split; [lra|]). split; [right; exact E | exact Hl].
  - do 4 (split; [lra|]).
    split; [exact Hu | right; rewrite E; discriminate].
  - do 4 (split; [lra|]).
    split; [exact Hu | right; rewrite E; discriminate].
Qed.

Lemma bracket_iter (k : nat) : bracket (Nat.iter k body (bisect_init rad_body)).
Proof.
  induction k as [|k IH]; [exact bracket_init|].
  rewrite Nat.iter_succ. apply bracket_body. exact IH.
Qed.

Lemma bisection_returns_bracket (radtol : R) (fuel : nat) (s : bisect_state) :
  while_loop (bisect_cond radtol) body fuel (bisect_init rad_body) = Ok s ->
  bracket s /\ bisect_cond radtol s = false.
Proof.
  intros H. destruct (while_loop_ok_iter _ _ _ _ _ H) as (k & _ & -> & Hc).
  split; [apply bracket_iter | exact Hc].
Qed.

End BisectionBracket.

(** X7.  Whenever the bisection of [calc_force_torque], started from a ray
    radius that is not negative, returns, it returns a bracket inside
    [[0, rad_body]] with the sampled radius between its ends, on which the
    loop test [upper_bound - lower_bound > radtol] fails; the upper end is
    [rad_body] or a radius whose point was found in contact, the lower end
    is 0 or a radius whose point was not. *)
Theorem bisection_brackets_surface {MS : MathSpherharm} {CM : Cmath}
        (avec : AtomVecSpherharm) (jshtype : nat) (radj : R)
        (xi xj : vec3 R) (jrot : mat3 R)
        (theta_sf phi_sf rad_body radtol : R) (fuel : nat)
        (s : bisect_state) :
  0 <= rad_body ->
  while_loop (bisect_cond radtol)
             (bisect_body avec jshtype radj xi xj jrot theta_sf phi_sf)
             fuel (bisect_init rad_body) = Ok s ->
  let test := fun r : R =>
    contact_at avec jshtype radj xj jrot (ray_point r theta_sf phi_sf xi) in
  0 <= lower_bound s /\ lower_bound s <= rad_sample s
  /\ rad_sample s <= upper_bound s /\ upper_bound s <= rad_body
  /\ bisect_cond radtol s = false
  /\ (upper_bound s = rad_body \/ test (upper_bound s) = Some true)
  /\ (lower_bound s = 0 \/ test (lower_bound s) <> Some true).
Proof.
  intros Hrad Hrun. cbv zeta.
  destruct (@bisection_returns_bracket MS CM avec jshtype radj xi xj jrot
              theta_sf phi_sf rad_body Hrad radtol fuel s Hrun)
    as [Hb Hc].
  cbv zeta in Hb. destruct Hb as (H0 & H1 & H2 & H3 & Hu & Hl).
  repeat split; assumption.
Qed.

Lemma bisection_brackets_surface_witness :
  exists s : bisect_state,
    (0 <= 2
     /\ while_loop (bisect_cond (1e-3 * 1))
                   (bisect_body Concrete.elongated 0 1 (V3 0 0 0)
                                (V3 0 0 (5 / 3)) Concrete.identity_mat 0 0)
                   11 (bisect_init 2) = Ok s)
    /\ 0 <= lower_bound s /\ lower_bound s <= rad_sample s
    /\ rad_sample s <= upper_bound s /\ upper_bound s <= 2
    /\ bisect_cond (1e-3 * 1) s = false.
Proof.
  destruct (@bisect_passes_bound Concrete.math_spherharm Concrete.cmath
              Concrete.elongated 0%nat 1 (V3 0 0 0) (V3 0 0 (5 / 3))
              Concrete.identity_mat 0 0 (1e-3 * 1) 2 11
              ltac:(lra) ltac:(simpl; lra))
    as (k & Hk & Hok & _).
  exists (Nat.iter k
            (bisect_body Concrete.elongated 0 1 (V3 0 0 0) (V3 0 0 (5 / 3))
                         Concrete.identity_mat 0 0)
            (bisect_init 2)).
  assert (H2 : 0 <= 2) by lra.
  pose proof (Hok 11%nat Hk) as Hrun.
  split; [split; [exact H2 | exact Hrun]|].
  destruct (@bisection_brackets_surface Concrete.math_spherharm Concrete.cmath
              Concrete.elongated 0%nat 1 (V3 0 0 0) (V3 0 0 (5 / 3))
              Concrete.identity_mat 0 0 2 (1e-3 * 1) 11 _ H2 Hrun)
    as (A & B & C & D & E & _).
  repeat split; assumption.
Defined.

(** X8.  When [abscissa] holds [num_pole_quad] values, [refine_cap_angle]
    never fails and returns the outermost ring on which some point of the
    loop over [ll] is in contact: it answers 1 with [kk_count = kk + 1] for
    the largest [kk] below [num_pole_quad] whose ring has such a point, so
    that [1 <= kk_count <= num_pole_quad], and it answers 0 and leaves
    [kk_count] as it was when no ring has one. *)
Theorem refine_cap_angle_outermost_contact {MS : MathSpherharm} {CM : Cmath}
        (avec : AtomVecSpherharm) (pair : PairSH) (kk_count : Z)
        (ishtype jshtype : nat) (iang radj : R)
        (iquat_cont iquat_sf_bf : quat4 R) (xi xj : vec3 R) (jrot : mat3 R) :
  Z.of_nat (List.length (abscissa pair)) = num_pole_quad pair ->
  let n := (2 * (num_pole_quad pair - 1))%Z in
  let ring := fun kk : Z =>
    refine_ll avec ishtype jshtype radj xi xj jrot
      (MathExtra.quat_to_mat
         (MathExtra.qnormalize (MathExtra.quatquat iquat_sf_bf iquat_cont)))
      (MathExtra.quat_to_mat iquat_cont)
      (acos ((nth (Z.to_nat kk) (abscissa pair) 0
              * ((1.0 - cos iang) / 2.0))
             + ((1.0 + cos iang) / 2.0)))
      n (zrange 1 (n + 1)) in
  let res := refine_cap_angle avec pair kk_count ishtype jshtype iang radj
                              iquat_cont iquat_sf_bf xi xj jrot in
  (exists kk, (0 <= kk < num_pole_quad pair)%Z /\ ring kk = true
              /\ (forall kk', (kk < kk' < num_pole_quad pair)%Z ->
                              ring kk' = false)
              /\ res = Ok (true, (kk + 1)%Z))
  \/ ((forall kk, (0 <= kk < num_pole_quad pair)%Z -> ring kk = false)
      /\ res = Ok (false, kk_count)).
Proof.
  intros Hlen. exact (refine_cap_angle_search avec pair kk_count ishtype
                        jshtype iang radj iquat_cont iquat_sf_bf xi xj jrot
                        Hlen).
Qed.

Lemma refine_cap_angle_outermost_contact_witness :
  let pair := @init_style Concrete.math_spherharm 1.5 (fun _ _ => 1) in
  Z.of_nat (List.length (abscissa pair)) = num_pole_quad pair
  /\ let n := (2 * (num_pole_quad pair - 1))%Z in
     let ring := fun kk : Z =>
       refine_ll Concrete.unit_sphere 0 0 1 (V3 0 0 0) (V3 0 0 (sqrt 2))
         Concrete.identity_mat
         (MathExtra.quat_to_mat
            (MathExtra.qnormalize
               (MathExtra.quatquat Concrete.identity_quat
                                   Concrete.identity_quat)))
         (MathExtra.quat_to_mat Concrete.identity_quat)
         (acos ((nth (Z.to_nat kk) (abscissa pair) 0
                 * ((1.0 - cos (asin (1 / sqrt 2))) / 2.0))
                + ((1.0 + cos (asin (1 / sqrt 2))) / 2.0)))
         n (zrange 1 (n + 1)) in
     let res := refine_cap_angle Concrete.unit_sphere pair (-1) 0 0
                                 (asin (1 / sqrt 2)) 1
                                 Concrete.identity_quat Concrete.identity_quat
                                 (V3 0 0 0) (V3 0 0 (sqrt 2))
                                 Concrete.identity_mat in
     (exists kk, (0 <= kk < num_pole_quad pair)%Z /\ ring kk = true
                 /\ (forall kk', (kk < kk' < num_pole_quad pair)%Z ->
                                 ring kk' = false)
                 /\ res = Ok (true, (kk + 1)%Z))
     \/ ((forall kk, (0 <= kk < num_pole_quad pair)%Z -> ring kk = false)
         /\ res = Ok (false, (-1)%Z)).
Proof.
  intros pair.
  assert (Hlen : Z.of_nat (List.length (abscissa pair)) = num_pole_quad pair).
  { destruct (@init_style_fields Concrete.math_spherharm 1.5 (fun _ _ => 1))
      as (Hn & _ & Hl & _).
    unfold pair. rewrite Hn, Hl. reflexivity. }
  split; [exact Hlen|].
  exact (@refine_cap_angle_outermost_contact Concrete.math_spherharm
           Concrete.cmath Concrete.unit_sphere pair (-1)%Z 0%nat 0%nat
           (asin (1 / sqrt 2)) 1 Concrete.identity_quat Concrete.identity_quat
           (V3 0 0 0) (V3 0 0 (sqrt 2)) Concrete.identity_mat Hlen).
Defined.

(** ** The layout of the coefficients *)

Lemma write_in_range (name : string) (l : list R) (i : Z) (v : R) :
  (0 <= i < Z.of_nat (List.length l))%Z ->
  write name l i v = Ok (upd (Z.to_nat i) v l).
Proof.
  intros Hi. unfold write.
  destruct (Z.ltb_spec i 0) as [H|_]; [lia|].
  destruct (Z.leb_spec (Z.of_nat (List.length l)) i) as [H|_]; [lia|].
  reflexivity.
Qed.

Lemma write_past_end (name : string) (l : list R) (i : Z) (v : R) :
  (Z.of_nat (List.length l) <= i)%Z ->
  write name l i v = Err (OutOfBounds name i).
Proof.
  intros Hi. unfold write.
  destruct (Z.leb_spec (Z.of_nat (List.length l)) i) as [_|H]; [|lia].
  rewrite orb_true_r. reflexivity.
Qed.

(** The slots of two different coefficients do not meet. *)
Lemma sh_entry_block (n m : nat) :
  (m <= n)%nat ->
  (Z.of_nat (n * (n + 1)) <= sh_entry (Z.of_nat n) (Z.of_nat m)
   <= Z.of_nat (n * (n + 1) + 2 * n))%Z
  /\ Z.to_nat (sh_entry (Z.of_nat n) (Z.of_nat m))
     = (n * (n + 1) + 2 * (n - m))%nat.
Proof. intros H. unfold sh_entry. split; [nia | nia]. Qed.

Lemma sh_entry_apart (n m n' m' : nat) :
  (m <= n)%nat -> (m' <= n')%nat -> (n, m) <> (n', m') ->
  let e := Z.to_nat (sh_entry (Z.of_nat n) (Z.of_nat m)) in
  let e' := Z.to_nat (sh_entry (Z.of_nat n') (Z.of_nat m')) in
  e <> e' /\ e <> (e' + 1)%nat /\ (e + 1)%nat <> e'.
Proof.
  intros Hm Hm' Hne. cbv zeta.
  destruct (sh_entry_block n m Hm) as [_ ->].
  destruct (sh_entry_block n' m' Hm') as [_ ->].
  assert (Hcase : (n < n')%nat \/ (n' < n)%nat \/ (n = n' /\ m <> m')).
  { destruct (Nat.lt_trichotomy n n') as [H|[H|H]]; [tauto | | tauto].
    right. right. split; [exact H|]. intros ->. apply Hne. subst. reflexivity. }
  destruct Hcase as [H|[H|[-> H]]]; [nia | nia | lia].
Qed.

Lemma find_append {A : Type} (f : A -> bool) (l1 l2 : list A) :
  find f (l1 ++ l2)
  = match find f l1 with
    | Some x => Some x
    | None => find f l2
    end.
Proof.
  induction l1 as [|a l1 IH]; simpl; [reflexivity|].
  destruct (f a); [reflexivity | exact IH].
Qed.

Section ReadLines.
Variable N : nat.

(** A line the loop can store or skip: a degree within [0, N] with an
    order at most the degree, or any line with a negative order and a
    degree at most [N]. *)
Let valid (l : sh_line) : Prop :=
  (ln_nn l <= Z.of_nat N)%Z
  /\ ((ln_mm l < 0)%Z \/ (0 <= ln_mm l <= ln_nn l)%Z).

(** The line names the coefficient [(n, m)]. *)
Let names (n m : nat) (l : sh_line) : bool :=
  ((ln_nn l =? Z.of_nat n) && (ln_mm l =? Z.of_nat m))%Z.

Lemma read_line_valid (l : sh_line) (lines : list sh_line) (row : list R) :
  valid l -> List.length row = ((N + 1) * (N + 2))%nat ->
  exists row1,
    read_sh_coeffs_lines N (l :: lines) row = read_sh_coeffs_lines N lines row1
    /\ List.length row1 = List.length row
    /\ forall n m, (m <= n)%nat -> (n <= N)%nat ->
         let e := Z.to_nat (sh_entry (Z.of_nat n) (Z.of_nat m)) in
         (nth e row1 0, nth (e + 1) row1 0)
         = if names n m l then (ln_real l, ln_imag l)
           else (nth e row 0, nth (e + 1) row 0).
Proof.
  intros [Hnn Hmm] Hlen. cbn [read_sh_coeffs_lines].
  destruct (Z.gtb_spec (ln_nn l) (Z.of_nat N)) as [H|_]; [lia|].
  destruct (Z.geb_spec (ln_mm l) 0) as [Hpos|Hneg].
  - destruct Hmm as [Hmm|Hmm]; [lia|].
    set (nn := Z.to_nat (ln_nn l)). set (mm := Z.to_nat (ln_mm l)).
    assert (Enn : ln_nn l = Z.of_nat nn) by (unfold nn; lia).
    assert (Emm : ln_mm l = Z.of_nat mm) by (unfold mm; lia).
    assert (Hm : (mm <= nn)%nat) by lia.
    assert (Hn : (nn <= N)%nat) by lia.
    destruct (sh_entry_block nn mm Hm) as [[Hlo Hhi] He].
    rewrite Enn, Emm.
    set (e0 := sh_entry (Z.of_nat nn) (Z.of_nat mm)) in *.
    assert (Hin : (0 <= e0 /\ e0 + 1 < Z.of_nat (List.length row))%Z).
    { rewrite Hlen. split; [lia|]. nia. }
    rewrite write_in_range by lia. cbn [bind].
    rewrite write_in_range by (rewrite length_upd; lia). cbn [bind].
    eexists. split; [reflexivity|].
    split; [rewrite !length_upd; reflexivity|].
    intros n m Hmn HnN. cbv zeta. unfold names. rewrite Enn, Emm.
    replace (Z.to_nat (e0 + 1)) with (Z.to_nat e0 + 1)%nat by lia.
    destruct (Z.eqb_spec (Z.of_nat nn) (Z.of_nat n)) as [E1|E1];
      [destruct (Z.eqb_spec (Z.of_nat mm) (Z.of_nat m)) as [E2|E2]|];
      cbn [andb].
    + assert (nn = n) by lia. assert (mm = m) by lia. subst n m.
      fold e0. rewrite nth_upd_eq by (rewrite length_upd; lia).
      rewrite nth_upd_neq by lia. rewrite nth_upd_eq by lia. reflexivity.
    + destruct (sh_entry_apart n m nn mm Hmn Hm) as (A1 & A2 & A3).
      { intros E. injection E as -> ->. lia. }
      fold e0 in A1, A2, A3.
      rewrite !nth_upd_neq by lia. reflexivity.
    + destruct (sh_entry_apart n m nn mm Hmn Hm) as (A1 & A2 & A3).
      { intros E. injection E as -> ->. lia. }
      fold e0 in A1, A2, A3.
      rewrite !nth_upd_neq by lia. reflexivity.
  - exists row. split; [reflexivity|]. split; [reflexivity|].
    intros n m Hmn HnN. cbv zeta. unfold names.
    destruct (Z.eqb_spec (ln_mm l) (Z.of_nat m)) as [E|_]; [lia|].
    rewrite andb_false_r. reflexivity.
Qed.

Lemma read_lines_valid (lines : list sh_line) :
  forall row : list R,
    Forall valid lines -> List.length row = ((N + 1) * (N + 2))%nat ->
    exists row',
      read_sh_coeffs_lines N lines row = Ok row'
      /\ List.length row' = List.length row
      /\ forall n m, (m <= n)%nat -> (n <= N)%nat ->
           let e := Z.to_nat (sh_entry (Z.of_nat n) (Z.of_nat m)) in
           (nth e row' 0, nth (e + 1) row' 0)
           = match find (names n m) (rev lines) with
             | Some l => (ln_real l, ln_imag l)
             | None => (nth e row 0, nth (e + 1) row 0)
             end.
Proof.
  induction lines as [|l lines IH]; intros row Hv Hlen.
  - exists row. repeat split.
  - inversion Hv as [|l' ls Hl Hls]; subst.
    destruct (read_line_valid l lines row Hl Hlen) as (row1 & E & L1 & H1).
    destruct (IH row1 Hls ltac:(lia)) as (row' & E' & L' & H').
    exists row'. split; [rewrite E; exact E'|]. split; [lia|].
    intros n m Hmn HnN. cbv zeta. rewrite (H' n m Hmn HnN).
    cbn [rev]. rewrite find_append.
    destruct (find (names n m) (rev lines)) as [l1|]; [reflexivity|].
    cbn [find]. rewrite (H1 n m Hmn HnN).
    destruct (names n m l); reflexivity.
Qed.

(** A line of a degree above [N] ends the reading. *)
Lemma read_lines_break (pre post : list sh_line) (l : sh_line)
      (row : list R) :
  (ln_nn l > Z.of_nat N)%Z ->
  read_sh_coeffs_lines N (pre ++ l :: post) row
  = read_sh_coeffs_lines N pre row.
Proof.
  intros Hl. revert row. induction pre as [|p pre IH]; intros row.
  - cbn [app read_sh_coeffs_lines].
    destruct (Z.gtb_spec (ln_nn l) (Z.of_nat N)) as [_|H]; [reflexivity|lia].
  - cbn [app read_sh_coeffs_lines].
    destruct (ln_nn p >? Z.of_nat N)%Z; [reflexivity|].
    destruct (ln_mm p >=? 0)%Z; [|apply IH].
    destruct (write _ row _ _) as [row1|e]; [|reflexivity]. cbn [bind].
    destruct (write _ row1 _ _) as [row2|e]; [|reflexivity]. cbn [bind].
    apply IH.
Qed.

End ReadLines.

(** ** [get_coefficients] *)

Section GetCoefficients.
Context {MS : MathSpherharm}.
Variable a : AtomVecSpherharm.
Variable sht : nat.

Let inner (st : list R * nat) (_ : nat) : result (list R * nat) :=
  let '(coeff, loc) := st in
  do coeff <- write "coeff" coeff (Z.of_nat loc) (shcoeffs a sht loc);
  do coeff <- write "coeff" coeff (Z.of_nat (loc + 1))
                    (shcoeffs a sht (loc + 1));
  Ok (coeff, (loc + 2)%nat).

(** [coeff'] holds the coefficients of the shape below [hi] and agrees
    with [coeff] from [hi] on. *)
Let copied (hi : nat) (coeff coeff' : list R) : Prop :=
  List.length coeff' = List.length coeff
  /\ (forall j, (j < hi)%nat -> (j < List.length coeff)%nat ->
                nth j coeff' 0 = shcoeffs a sht j)
  /\ (forall j, (hi <= j)%nat -> nth j coeff' 0 = nth j coeff 0).

Lemma get_coefficients_inner (l : list nat) :
  forall (coeff0 coeff : list R) (loc : nat),
    copied loc coeff0 coeff -> (loc <= List.length coeff0)%nat ->
    if (loc + 2 * List.length l <=? List.length coeff0)%nat
    then exists coeff',
        for_each inner l (coeff, loc)
        = Ok (coeff', (loc + 2 * List.length l)%nat)
        /\ copied (loc + 2 * List.length l) coeff0 coeff'
    else for_each inner l (coeff, loc)
         = Err (OutOfBounds "coeff" (Z.of_nat (List.length coeff0))).
Proof.
  induction l as [|x l IH]; intros coeff0 coeff loc Hc Hloc.
  - cbn [List.length for_each].
    replace (loc + 2 * 0)%nat with loc by lia.
    destruct (Nat.leb_spec loc (List.length coeff0)) as [_|H]; [|lia].
    exists coeff. split; [reflexivity | exact Hc].
  - cbn [List.length for_each].
    change (inner (coeff, loc) x)
      with (do c1 <- write "coeff" coeff (Z.of_nat loc) (shcoeffs a sht loc);
            do c2 <- write "coeff" c1 (Z.of_nat (loc + 1))
                           (shcoeffs a sht (loc + 1));
            Ok (c2, (loc + 2)%nat)).
    destruct Hc as (Hl & Hlow & Hhigh).
    destruct (Nat.eq_dec loc (List.length coeff0)) as [E0|N0].
    { rewrite write_past_end by lia. cbn [bind].
      destruct (Nat.leb_spec (loc + 2 * S (List.length l))
                             (List.length coeff0)) as [H|_]; [lia|].
      rewrite E0. reflexivity. }
    rewrite write_in_range by lia. cbn [bind].
    destruct (Nat.eq_dec (loc + 1) (List.length coeff0)) as [E1|N1].
    { rewrite write_past_end by (rewrite length_upd; lia). cbn [bind].
      destruct (Nat.leb_spec (loc + 2 * S (List.length l))
                             (List.length coeff0)) as [H|_]; [lia|].
      rewrite <- E1. reflexivity. }
    rewrite write_in_range by (rewrite length_upd; lia). cbn [bind].
    rewrite !Nat2Z.id.
    specialize (IH coeff0
                   (upd (loc + 1) (shcoeffs a sht (loc + 1))
                        (upd loc (shcoeffs a sht loc) coeff))
                   (loc + 2)%nat).
    replace (loc + 2 + 2 * List.length l)%nat
      with (loc + 2 * S (List.length l))%nat in IH by lia.
    apply IH; [|lia].
    split; [rewrite !length_upd; exact Hl|]. split.
    + intros j Hj Hjl.
      destruct (Nat.eq_dec j (loc + 1)) as [->|Hne1].
      * apply nth_upd_eq. rewrite length_upd. lia.
      * rewrite nth_upd_neq by lia.
        destruct (Nat.eq_dec j loc) as [->|Hne0].
        -- apply nth_upd_eq. lia.
        -- rewrite nth_upd_neq by lia. apply Hlow; lia.
    + intros j Hj. rewrite !nth_upd_neq by lia. apply Hhigh. lia.
Qed.

Lemma get_coefficients_outer (len : nat) :
  forall (n0 : nat) (coeff0 coeff : list R),
    copied (n0 * (n0 + 1)) coeff0 coeff ->
    (n0 * (n0 + 1) <= List.length coeff0)%nat ->
    let body := fun (coeff : list R) (n : nat) =>
      do st <- for_each inner (rev (seq 0 (n + 1)))
                        (coeff, (n * (n + 1))%nat);
      Ok (fst st) in
    if ((n0 + len) * (n0 + len + 1) <=? List.length coeff0)%nat
    then exists coeff',
        for_each body (seq n0 len) coeff = Ok coeff'
        /\ copied ((n0 + len) * (n0 + len + 1)) coeff0 coeff'
    else for_each body (seq n0 len) coeff
         = Err (OutOfBounds "coeff" (Z.of_nat (List.length coeff0))).
Proof.
  induction len as [|len IH]; intros n0 coeff0 coeff Hc Hn0; cbv zeta.
  - replace (n0 + 0)%nat with n0 by lia. cbn [seq for_each].
    destruct (Nat.leb_spec (n0 * (n0 + 1)) (List.length coeff0)) as [_|H];
      [|lia].
    exists coeff. split; [reflexivity | exact Hc].
  - cbn [seq for_each].
    pose proof (get_coefficients_inner (rev (seq 0 (n0 + 1))) coeff0 coeff
                  (n0 * (n0 + 1)) Hc Hn0) as Hin.
    rewrite length_rev, length_seq in Hin.
    replace (n0 * (n0 + 1) + 2 * (n0 + 1))%nat
      with (S n0 * (S n0 + 1))%nat in Hin by nia.
    destruct (Nat.leb_spec (S n0 * (S n0 + 1)) (List.length coeff0))
      as [Hfit|Hover].
    + destruct Hin as (coeff1 & E1 & Hc1). rewrite E1. cbn [bind fst].
      specialize (IH (S n0) coeff0 coeff1 Hc1 Hfit). cbv zeta in IH.
      replace (S n0 + len)%nat with (n0 + S len)%nat in IH by lia.
      exact IH.
    + rewrite Hin. cbn [bind].
      destruct (Nat.leb_spec ((n0 + S len) * (n0 + S len + 1))
                             (List.length coeff0)) as [H|_]; [nia|].
      reflexivity.
Qed.

Lemma get_coefficients_spec (coeff : list R) :
  let numcoeffs := ((maxshexpan a + 1) * (maxshexpan a + 2))%nat in
  if (numcoeffs <=? List.length coeff)%nat
  then exists coeff',
      get_coefficients a sht coeff = Ok coeff'
      /\ List.length coeff' = List.length coeff
      /\ (forall j, (j < numcoeffs)%nat -> nth j coeff' 0 = shcoeffs a sht j)
      /\ (forall j, (numcoeffs <= j)%nat -> nth j coeff' 0 = nth j coeff 0)
  else get_coefficients a sht coeff
       = Err (OutOfBounds "coeff" (Z.of_nat (List.length coeff))).
Proof.
  cbv zeta. unfold get_coefficients.
  pose proof (get_coefficients_outer (maxshexpan a + 1) 0 coeff coeff) as H.
  cbv zeta in H. cbn [Nat.add Nat.mul] in H.
  replace ((maxshexpan a + 1) * (maxshexpan a + 1 + 1))%nat
    with ((maxshexpan a + 1) * (maxshexpan a + 2))%nat in H by lia.
  specialize (H ltac:(repeat split; intros; lia) ltac:(lia)).
  destruct (Nat.leb_spec ((maxshexpan a + 1) * (maxshexpan a + 2))
                         (List.length coeff)) as [Hfit|Hover].
  - destruct H as (coeff' & E & Hl & Hlow & Hhigh).
    exists coeff'. split; [exact E|]. split; [exact Hl|].
    split; [|exact Hhigh]. intros j Hj. apply Hlow; lia.
  - exact H.
Qed.

End GetCoefficients.

(** X9.  Reading a file whose lines all have a degree of at most
    [maxshexpan] and an order that is negative or between 0 and the degree
    succeeds on a row of [(maxshexpan+1)(maxshexpan+2)] values, touches no
    other shape, and leaves in the two slots of every coefficient [(n, m)]
    the values of the last line that names it, or what the row held when
    no line does. *)
Theorem read_sh_coeffs_stores_last_line (a : AtomVecSpherharm)
        (lines : list sh_line) (shapenum : nat) :
  Forall (fun l => (ln_nn l <= Z.of_nat (maxshexpan a))%Z
                   /\ ((ln_mm l < 0)%Z \/ (0 <= ln_mm l <= ln_nn l)%Z))
         lines ->
  (shapenum < List.length (shcoeffs_byshape a))%nat ->
  List.length (nth shapenum (shcoeffs_byshape a) [])
  = ((maxshexpan a + 1) * (maxshexpan a + 2))%nat ->
  exists a',
    read_sh_coeffs a lines shapenum = Ok a'
    /\ maxshexpan a' = maxshexpan a
    /\ (forall s, s <> shapenum ->
                  nth s (shcoeffs_byshape a') [] = nth s (shcoeffs_byshape a) [])
    /\ forall n m, (m <= n)%nat -> (n <= maxshexpan a)%nat ->
         let e := Z.to_nat (sh_entry (Z.of_nat n) (Z.of_nat m)) in
         (shcoeffs a' shapenum e, shcoeffs a' shapenum (e + 1))
         = match find (fun l => ((ln_nn l =? Z.of_nat n)
                                 && (ln_mm l =? Z.of_nat m))%Z)
                      (rev lines) with
           | Some l => (ln_real l, ln_imag l)
           | None => (shcoeffs a shapenum e, shcoeffs a shapenum (e + 1))
           end.
Proof.
  intros Hv Hs Hlen.
  destruct (read_lines_valid (maxshexpan a) lines
              (nth shapenum (shcoeffs_byshape a) []) Hv Hlen)
    as (row' & E & _ & H).
  unfold read_sh_coeffs. rewrite E. cbn [bind].
  eexists. split; [reflexivity|].
  cbn [maxshexpan shcoeffs_byshape]. split; [reflexivity|]. split.
  - intros s Hne. apply nth_upd_neq. congruence.
  - intros n m Hm Hn. cbv zeta. unfold shcoeffs, at2.
    cbn [shcoeffs_byshape]. rewrite nth_upd_eq by exact Hs.
    apply (H n m Hm Hn).
Qed.

Lemma read_sh_coeffs_stores_last_line_witness :
  let a := process_args_allocate 1 1 [repeat 0 462] in
  let lines := [ {| ln_nn := 0; ln_mm := 0; ln_real := 1; ln_imag := 0 |};
                 {| ln_nn := 2; ln_mm := -1; ln_real := 5; ln_imag := 5 |};
                 {| ln_nn := 2; ln_mm := 1; ln_real := 3; ln_imag := 4 |} ] in
  Forall (fun l => (ln_nn l <= Z.of_nat (maxshexpan a))%Z
                   /\ ((ln_mm l < 0)%Z \/ (0 <= ln_mm l <= ln_nn l)%Z))
         lines
  /\ (0 < List.length (shcoeffs_byshape a))%nat
  /\ List.length (nth 0 (shcoeffs_byshape a) [])
     = ((maxshexpan a + 1) * (maxshexpan a + 2))%nat
  /\ exists a',
    read_sh_coeffs a lines 0 = Ok a'
    /\ maxshexpan a' = maxshexpan a
    /\ (forall s, s <> 0%nat ->
                  nth s (shcoeffs_byshape a') [] = nth s (shcoeffs_byshape a) [])
    /\ forall n m, (m <= n)%nat -> (n <= maxshexpan a)%nat ->
         let e := Z.to_nat (sh_entry (Z.of_nat n) (Z.of_nat m)) in
         (shcoeffs a' 0 e, shcoeffs a' 0 (e + 1))
         = match find (fun l => ((ln_nn l =? Z.of_nat n)
                                 && (ln_mm l =? Z.of_nat m))%Z)
                      (rev lines) with
           | Some l => (ln_real l, ln_imag l)
           | None => (shcoeffs a 0 e, shcoeffs a 0 (e + 1))
           end.
Proof.
  intros a lines.
  assert (Hv : Forall (fun l => (ln_nn l <= Z.of_nat (maxshexpan a))%Z
                   /\ ((ln_mm l < 0)%Z \/ (0 <= ln_mm l <= ln_nn l)%Z))
                      lines).
  { unfold lines, a. repeat constructor; cbn; lia. }
  assert (Hs : (0 < List.length (shcoeffs_byshape a))%nat)
    by (unfold a; cbn; lia).
  assert (Hl : List.length (nth 0 (shcoeffs_byshape a) [])
               = ((maxshexpan a + 1) * (maxshexpan a + 2))%nat).
  { unfold a. cbn [process_args_allocate shcoeffs_byshape maxshexpan nth].
    rewrite repeat_length. reflexivity. }
  split; [exact Hv|]. split; [exact Hs|]. split; [exact Hl|].
  exact (read_sh_coeffs_stores_last_line a lines 0 Hv Hs Hl).
Defined.

(** X10.  A line whose degree exceeds [maxshexpan] ends the reading of the
    file: the lines after it are never stored, whatever their degree. *)
Theorem read_sh_coeffs_stops_at_high_degree (a : AtomVecSpherharm)
        (pre post : list sh_line) (l : sh_line) (shapenum : nat) :
  (ln_nn l > Z.of_nat (maxshexpan a))%Z ->
  read_sh_coeffs a (pre ++ l :: post) shapenum
  = read_sh_coeffs a pre shapenum.
Proof.
  intros Hl. unfold read_sh_coeffs.
  rewrite (read_lines_break (maxshexpan a) pre post l _ Hl). reflexivity.
Qed.

Lemma read_sh_coeffs_stops_at_high_degree_witness :
  let a := process_args_allocate 1 1 [repeat 0 462] in
  let l := {| ln_nn := 21; ln_mm := 0; ln_real := 1; ln_imag := 0 |} in
  let post := [ {| ln_nn := 1; ln_mm := 0; ln_real := 2; ln_imag := 0 |} ] in
  (ln_nn l > Z.of_nat (maxshexpan a))%Z
  /\ read_sh_coeffs a ([] ++ l :: post) 0 = read_sh_coeffs a [] 0.
Proof.
  intros a l post.
  assert (Hl : (ln_nn l > Z.of_nat (maxshexpan a))%Z) by (cbn; lia).
  split; [exact Hl|].
  exact (read_sh_coeffs_stops_at_high_degree a [] post l 0 Hl).
Defined.

(** X11.  [get_coefficients] copies the [(maxshexpan+1)(maxshexpan+2)]
    coefficients of the shape to the front of the caller's array, in
    storage order and without a gap, and leaves the rest of the array
    alone; on a shorter array its first write outside the array is at the
    index just past the end. *)
Theorem get_coefficients_copies {MS : MathSpherharm} (a : AtomVecSpherharm)
        (sht : nat) (coeff : list R) :
  let numcoeffs := ((maxshexpan a + 1) * (maxshexpan a + 2))%nat in
  ((numcoeffs <= List.length coeff)%nat
   /\ exists coeff',
       get_coefficients a sht coeff = Ok coeff'
       /\ List.length coeff' = List.length coeff
       /\ (forall j, (j < numcoeffs)%nat -> nth j coeff' 0 = shcoeffs a sht j)
       /\ (forall j, (numcoeffs <= j)%nat -> nth j coeff' 0 = nth j coeff 0))
  \/ ((List.length coeff < numcoeffs)%nat
      /\ get_coefficients a sht coeff
         = Err (OutOfBounds "coeff" (Z.of_nat (List.length coeff)))).
Proof.
  cbv zeta. pose proof (get_coefficients_spec a sht coeff) as H.
  cbv zeta in H.
  destruct (Nat.leb_spec ((maxshexpan a + 1) * (maxshexpan a + 2))
                         (List.length coeff)) as [Hfit|Hover].
  - left. split; [exact Hfit | exact H].
  - right. split; [exact Hover | exact H].
Qed.

(** ** [PairSH::matchtype] *)

Lemma for_each_app {A St : Type} (body : St -> A -> result St)
      (l1 l2 : list A) (s : St) :
  for_each body (l1 ++ l2) s
  = do s' <- for_each body l1 s; for_each body l2 s'.
Proof.
  revert s. induction l1 as [|x l1 IH]; intros s; cbn [app for_each bind];
    [reflexivity|].
  destruct (body s x) as [s'|e]; cbn [bind]; [apply IH | reflexivity].
Qed.

Lemma nth_upd_same_Z (i : nat) (v : Z) (l : list Z) :
  (i < List.length l)%nat -> nth i (upd i v l) 0%Z = v.
Proof. apply nth_upd_eq. Qed.

Section MatchType.
Variables (ntypes : nat) (type : list nat) (shtype : list Z).

Let ty (i : nat) : nat := nth i type 0%nat.
Let sh (i : nat) : Z := nth i shtype 0%Z.

(** Two atoms of one type, the earlier with a shape and the later with
    another value. *)
Let clash (k : nat) : Prop :=
  exists i j, (i < j < k)%nat /\ ty i = ty j /\ sh i <> (-1)%Z
              /\ sh j <> sh i.
(** Among the first [k] atoms, those of one type follow a run of atoms
    without a shape with atoms of one and the same shape. *)
Let agree (k : nat) : Prop :=
  forall i j, (i < j < k)%nat -> ty i = ty j ->
              sh i = (-1)%Z \/ sh j = sh i.
(** [typetosh] after the first [k] atoms. *)
Let matched (k : nat) (st : list Z) : Prop :=
  List.length st = (ntypes + 1)%nat
  /\ (forall i, (i < k)%nat -> sh i <> (-1)%Z -> nth (ty i) st 0%Z = sh i)
  /\ (forall t, (t <= ntypes)%nat ->
                (forall i, (i < k)%nat -> ty i = t -> sh i = (-1)%Z) ->
                nth t st 0%Z = (-1)%Z).

Let run (k : nat) : result (list Z) :=
  for_each (fun (typetosh : list Z) (i : nat) =>
              matchtype_atom typetosh (nth i type 0%nat) (nth i shtype 0%Z))
           (seq 0 k) (repeat (-1)%Z (ntypes + 1)).

Lemma matchtype_loop (k : nat) :
  (forall i, (i < k)%nat -> (ty i <= ntypes)%nat) ->
  (clash k /\ run k = Err types_mismatch)
  \/ (agree k /\ exists st, run k = Ok st /\ matched k st).
Proof.
  induction k as [|k IH]; intros Hty.
  - right. split; [intros i j Hij; lia|].
    exists (repeat (-1)%Z (ntypes + 1)). split; [reflexivity|].
    split; [apply repeat_length|]. split; [intros; lia|].
    intros t Ht _. apply nth_repeat_lt. lia.
  - unfold run. rewrite seq_S, for_each_app, Nat.add_0_l. fold (run k).
    destruct (IH ltac:(intros; apply Hty; lia))
      as [[(i & j & Hij & Ht & Hs & Hd) E]|[Hag (st & E & Hl & Hsome & Hnone)]].
    + left. split; [exists i, j; repeat split; try assumption; lia|].
      rewrite E. reflexivity.
    + rewrite E. cbn [bind for_each]. fold (ty k). fold (sh k).
      unfold matchtype_atom.
      pose proof (Hty k ltac:(lia)) as Htk.
      destruct (Z.eqb_spec (nth (ty k) st 0%Z) (-1)) as [Hm1|Hset].
      * (* no atom of this type has a shape so far *)
        assert (Hprev : forall i, (i < k)%nat -> ty i = ty k ->
                                  sh i = (-1)%Z).
        { intros i Hi Ht. destruct (Z.eq_dec (sh i) (-1)) as [H|H]; [exact H|].
          specialize (Hsome i Hi H). rewrite Ht in Hsome. congruence. }
        right. split.
        { intros i j Hij Ht. destruct (Nat.eq_dec j k) as [->|Hne].
          - left. apply Hprev; [lia | exact Ht].
          - apply Hag; [lia | exact Ht]. }
        cbn [bind]. exists (upd (ty k) (sh k) st). split; [reflexivity|].
        split; [rewrite length_upd; exact Hl|]. split.
        { intros i Hi Hs. destruct (Nat.eq_dec (ty i) (ty k)) as [Ht|Ht].
          - rewrite Ht. rewrite nth_upd_same_Z by lia.
            destruct (Nat.eq_dec i k) as [->|Hne]; [reflexivity|].
            exfalso. apply Hs. apply Hprev; [lia | exact Ht].
          - rewrite nth_upd_neq by congruence. apply Hsome; [|exact Hs].
            destruct (Nat.eq_dec i k) as [->|Hne]; [congruence | lia]. }
        { intros t Htn Hall. destruct (Nat.eq_dec t (ty k)) as [->|Hne].
          - rewrite nth_upd_same_Z by lia. apply Hall; [lia | reflexivity].
          - rewrite nth_upd_neq by congruence. apply Hnone; [exact Htn|].
            intros i Hi Ht. apply Hall; [lia | exact Ht]. }
      * (* a shape is recorded for the type *)
        assert (Hwit : exists i, (i < k)%nat /\ ty i = ty k
                                 /\ sh i <> (-1)%Z).
        { assert (Hdec : forall n, (n <= k)%nat ->
                    (forall i, (i < n)%nat -> ty i = ty k -> sh i = (-1)%Z)
                    \/ exists i, (i < n)%nat /\ ty i = ty k
                                 /\ sh i <> (-1)%Z).
          { induction n as [|n IHn]; intros Hn.
            - left. intros; lia.
            - destruct (IHn ltac:(lia)) as [Hall|(i & Hi & Ht & Hs)].
              + destruct (Nat.eq_dec (ty n) (ty k)) as [Ht|Ht].
                * destruct (Z.eq_dec (sh n) (-1)) as [Hs|Hs].
                  -- left. intros i Hi Hti.
                     destruct (Nat.eq_dec i n) as [->|Hne]; [exact Hs|].
                     apply Hall; [lia | exact Hti].
                  -- right. exists n. repeat split; [lia | exact Ht | exact Hs].
                * left. intros i Hi Hti.
                  destruct (Nat.eq_dec i n) as [->|Hne]; [congruence|].
                  apply Hall; [lia | exact Hti].
              + right. exists i. repeat split; [lia | exact Ht | exact Hs]. }
          destruct (Hdec k ltac:(lia)) as [Hall|H]; [|exact H].
          exfalso. apply Hset. apply Hnone; [exact Htk | exact Hall]. }
        destruct Hwit as (i0 & Hi0 & Ht0 & Hs0).
        pose proof (Hsome i0 Hi0 Hs0) as Hst. rewrite Ht0 in Hst.
        destruct (Z.eqb_spec (nth (ty k) st 0%Z) (sh k)) as [Heq|Hneq];
          cbn [negb bind].
        -- right. split.
           { intros i j Hij Ht. destruct (Nat.eq_dec j k) as [->|Hne].
             - destruct (Z.eq_dec (sh i) (-1)) as [H|H]; [left; exact H|].
               right. pose proof (Hsome i ltac:(lia) H) as Hi.
               rewrite Ht in Hi. congruence.
             - apply Hag; [lia | exact Ht]. }
           exists st. split; [reflexivity|]. split; [exact Hl|]. split.
           { intros i Hi Hs. destruct (Nat.eq_dec i k) as [->|Hne];
               [exact Heq | apply Hsome; [lia | exact Hs]]. }
           { intros t Htn Hall. apply Hnone; [exact Htn|]. intros i Hi Ht.
             apply Hall; [lia | exact Ht]. }
        -- left. split; [|reflexivity].
           exists i0, k. repeat split; try assumption; try lia.
Qed.

End MatchType.

(** ** [PairSH::coeff] *)

Section CoeffLoops.
Variables (max_rad : list R) (typetosh : list Z) (one : R).

(** The type has a shape whose maximal radius can be read. *)
Let shaped (t : nat) : Prop :=
  (0 <= nth t typetosh 0 < Z.of_nat (List.length max_rad))%Z.
Let rad (t : nat) : R := nth (Z.to_nat (nth t typetosh 0%Z)) max_rad 0.

Let arrays : Type :=
  ((nat -> nat -> R) * (nat -> nat -> Z) * (nat -> nat -> R) * Z)%type.

(** The arrays [st'] are [st] with the pairs of [P] set. *)
Let filled (P : nat -> nat -> Prop) (st st' : arrays) : Prop :=
  forall i j,
    (P i j ->
     fst (fst (fst st')) i j = rad i + rad j
     /\ snd (fst (fst st')) i j = 1%Z /\ snd (fst st') i j = one)
    /\ (~ P i j ->
        fst (fst (fst st')) i j = fst (fst (fst st)) i j
        /\ snd (fst (fst st')) i j = snd (fst (fst st)) i j
        /\ snd (fst st') i j = snd (fst st) i j).

Lemma set2_same {A : Type} (a : nat -> nat -> A) (i j : nat) (v : A) :
  set2 a i j v i j = v.
Proof. unfold set2. rewrite !Nat.eqb_refl. reflexivity. Qed.

Lemma set2_other {A : Type} (a : nat -> nat -> A) (i j i' j' : nat) (v : A) :
  ~ (i' = i /\ j' = j) -> set2 a i j v i' j' = a i' j'.
Proof.
  intros H. unfold set2.
  destruct (Nat.eqb_spec i' i) as [Ei|Ei];
    destruct (Nat.eqb_spec j' j) as [Ej|Ej]; cbn [andb]; try reflexivity.
  exfalso. apply H. split; assumption.
Qed.

Lemma coeff_pair_shaped (i j : nat) (st : arrays) :
  shaped i -> shaped j ->
  coeff_pair max_rad typetosh one i st j
  = Ok (set2 (fst (fst (fst st))) i j (rad i + rad j),
        set2 (snd (fst (fst st))) i j 1%Z,
        set2 (snd (fst st)) i j one, (snd st + 1)%Z).
Proof.
  intros Hi Hj. destruct st as [[[c s] n] k]. unfold coeff_pair.
  cbv zeta. rewrite !read_in_range by assumption. reflexivity.
Qed.

Lemma coeff_pair_shapeless (i j : nat) (st : arrays) :
  ~ (shaped i /\ shaped j) ->
  exists z, coeff_pair max_rad typetosh one i st j
            = Err (OutOfBounds "maxrad_byshape" z)
            /\ ~ (0 <= z < Z.of_nat (List.length max_rad))%Z.
Proof.
  intros H. destruct st as [[[c s] n] k]. unfold coeff_pair. cbv zeta.
  assert (Hread : forall z, ~ (0 <= z < Z.of_nat (List.length max_rad))%Z ->
                            read "maxrad_byshape" max_rad z
                            = Err (OutOfBounds "maxrad_byshape" z)).
  { intros z Hz. destruct (Z_lt_dec z 0) as [Hneg|Hpos].
    - unfold read. destruct (Z.ltb_spec z 0); [reflexivity | lia].
    - apply read_past_end. lia. }
  destruct (Z_lt_dec (nth i typetosh 0%Z) 0) as [Hneg|Hnn];
    [exists (nth i typetosh 0%Z); rewrite Hread by lia; split;
       [reflexivity | lia]|].
  destruct (Z_lt_dec (nth i typetosh 0%Z) (Z.of_nat (List.length max_rad)))
    as [Hin|Hout];
    [|exists (nth i typetosh 0%Z); rewrite Hread by lia; split;
        [reflexivity | lia]].
  rewrite read_in_range by lia. cbn [bind].
  assert (Hj : ~ shaped j) by (intros Hj; apply H; split; [split; lia|exact Hj]).
  exists (nth j typetosh 0%Z). rewrite Hread by exact Hj.
  split; [reflexivity | exact Hj].
Qed.

Lemma filled_refl (P : nat -> nat -> Prop) (st : arrays) :
  (forall i j, ~ P i j) -> filled P st st.
Proof.
  intros H i j. split; [intros HP; exfalso; exact (H i j HP)|].
  intros _. repeat split.
Qed.

Lemma filled_trans (P Q PQ : nat -> nat -> Prop) (st st1 st2 : arrays) :
  (forall i j, PQ i j <-> P i j \/ Q i j) ->
  (forall i j, Q i j \/ ~ Q i j) ->
  filled P st st1 -> filled Q st1 st2 -> filled PQ st st2.
Proof.
  intros HPQ Hdec H1 H2 i j.
  destruct (H1 i j) as [H1y H1n]. destruct (H2 i j) as [H2y H2n]. split.
  - intros H. apply HPQ in H. destruct (Hdec i j) as [HQ|HQ];
      [exact (H2y HQ)|].
    destruct H as [HP|HQ']; [|contradiction].
    destruct (H2n HQ) as (A & B & C). destruct (H1y HP) as (A' & B' & C').
    rewrite A, B, C. repeat split; assumption.
  - intros H.
    assert (HP : ~ P i j) by (intros HP; apply H, HPQ; left; exact HP).
    assert (HQ : ~ Q i j) by (intros HQ; apply H, HPQ; right; exact HQ).
    destruct (H2n HQ) as (A & B & C). destruct (H1n HP) as (A' & B' & C').
    rewrite A, B, C. repeat split; assumption.
Qed.

Lemma shaped_dec (t : nat) : shaped t \/ ~ shaped t.
Proof. unfold shaped. lia. Qed.

Lemma coeff_inner_ok (i : nat) (js : list nat) :
  forall st : arrays,
    (forall j, In j js -> shaped i /\ shaped j) ->
    exists st',
      for_each (coeff_pair max_rad typetosh one i) js st = Ok st'
      /\ snd st' = (snd st + Z.of_nat (List.length js))%Z
      /\ filled (fun i' j' => i' = i /\ In j' js) st st'.
Proof.
  induction js as [|j js IH]; intros st Hall.
  - exists st. split; [reflexivity|]. split; [cbn; lia|].
    apply filled_refl. intros i' j' [_ []].
  - destruct (Hall j (or_introl eq_refl)) as [Hi Hj].
    cbn [for_each]. rewrite coeff_pair_shaped by assumption. cbn [bind].
    set (st1 := (set2 (fst (fst (fst st))) i j (rad i + rad j),
                 set2 (snd (fst (fst st))) i j 1%Z,
                 set2 (snd (fst st)) i j one, (snd st + 1)%Z)).
    destruct (IH st1 ltac:(intros j' Hj'; apply Hall; right; exact Hj'))
      as (st' & E & Hc & Hf).
    exists st'. split; [exact E|]. cbn [snd st1] in Hc.
    split; [rewrite Hc; cbn [List.length]; lia|].
    apply (@filled_trans (fun i' j' => i' = i /\ j' = j)
                         (fun i' j' => i' = i /\ In j' js) _ st st1 st').
    + intros i' j'. cbn [In]. split.
      * intros [Ei [Ej|Hin]]; [left; split; congruence | right; tauto].
      * intros [[Ei Ej]|[Ei Hin]]; [split; [exact Ei | left; congruence]
                                   | split; [exact Ei | right; exact Hin]].
    + intros i' j'. destruct (Nat.eq_dec i' i) as [->|Hne]; [|right; tauto].
      destruct (in_dec Nat.eq_dec j' js) as [Hin|Hnin];
        [left; tauto | right; tauto].
    + intros i' j'. unfold st1. cbn [fst snd]. split.
      * intros [-> ->]. rewrite !set2_same. repeat split.
      * intros Hne. rewrite !set2_other by exact Hne. repeat split.
    + exact Hf.
Qed.

Lemma coeff_inner_err (i : nat) (js : list nat) :
  forall st : arrays,
    (exists j, In j js /\ ~ (shaped i /\ shaped j)) ->
    exists z,
      for_each (coeff_pair max_rad typetosh one i) js st
      = Err (OutOfBounds "maxrad_byshape" z)
      /\ ~ (0 <= z < Z.of_nat (List.length max_rad))%Z.
Proof.
  induction js as [|j js IH]; intros st (j0 & Hin & Hbad); [destruct Hin|].
  cbn [for_each].
  assert (Hd : (shaped i /\ shaped j) \/ ~ (shaped i /\ shaped j)).
  { destruct (shaped_dec i), (shaped_dec j); tauto. }
  destruct Hd as [[Hi Hj]|Hno].
  - rewrite coeff_pair_shaped by assumption. cbn [bind]. apply IH.
    exists j0. split; [|exact Hbad].
    destruct Hin as [->|Hin]; [tauto | exact Hin].
  - destruct (coeff_pair_shapeless i j st Hno) as (z & E & Hz).
    exists z. rewrite E. split; [reflexivity | exact Hz].
Qed.

Variable js : nat -> list nat.

Lemma coeff_outer_ok (il : list nat) :
  forall st : arrays,
    (forall i j, In i il -> In j (js i) -> shaped i /\ shaped j) ->
    exists st',
      for_each (fun st i =>
                  for_each (coeff_pair max_rad typetosh one i) (js i) st)
               il st = Ok st'
      /\ snd st' = (snd st + Z.of_nat (List.length (flat_map js il)))%Z
      /\ filled (fun i' j' => In i' il /\ In j' (js i')) st st'.
Proof.
  induction il as [|i il IH]; intros st Hall.
  - exists st. split; [reflexivity|]. split; [cbn; lia|].
    apply filled_refl. intros i' j' [[] _].
  - cbn [for_each].
    destruct (coeff_inner_ok i (js i) st
                ltac:(intros j Hj; apply Hall; [left; reflexivity | exact Hj]))
      as (st1 & E1 & C1 & F1).
    rewrite E1. cbn [bind].
    destruct (IH st1 ltac:(intros i' j Hi' Hj; apply Hall;
                           [right; exact Hi' | exact Hj]))
      as (st' & E & Hc & Hf).
    exists st'. split; [exact E|].
    split; [rewrite Hc, C1; cbn [flat_map]; rewrite length_app; lia|].
    apply (@filled_trans (fun i' j' => i' = i /\ In j' (js i))
                         (fun i' j' => In i' il /\ In j' (js i')) _
                         st st1 st'); [| | exact F1 |].
    + intros i' j'. cbn [In]. split.
      * intros [[Ei|Hin] Hj]; [left; subst; tauto | right; tauto].
      * intros [[Ei Hj]|[Hin Hj]]; [subst; tauto | tauto].
    + intros i' j'. destruct (in_dec Nat.eq_dec i' il) as [Hin|Hnin];
        [|right; tauto].
      destruct (in_dec Nat.eq_dec j' (js i')) as [Hj|Hnj];
        [left; tauto | right; tauto].
    + exact Hf.
Qed.

Lemma coeff_outer_err (il : list nat) :
  forall st : arrays,
    (exists i j, In i il /\ In j (js i) /\ ~ (shaped i /\ shaped j)) ->
    exists z,
      for_each (fun st i =>
                  for_each (coeff_pair max_rad typetosh one i) (js i) st)
               il st = Err (OutOfBounds "maxrad_byshape" z)
      /\ ~ (0 <= z < Z.of_nat (List.length max_rad))%Z.
Proof.
  induction il as [|i il IH]; intros st (i0 & j0 & Hi & Hj & Hbad);
    [destruct Hi|].
  cbn [for_each].
  assert (Hd : (forall j, In j (js i) -> shaped i /\ shaped j)
               \/ exists j, In j (js i) /\ ~ (shaped i /\ shaped j)).
  { clear. induction (js i) as [|j l IHl].
    - left. intros j [].
    - destruct IHl as [Hall|(j1 & Hin & Hb)].
      + destruct (shaped_dec i) as [Si|Si], (shaped_dec j) as [Sj|Sj].
        * left. intros j1 [<-|Hin]; [tauto | apply Hall; exact Hin].
        * right. exists j. split; [left; reflexivity | tauto].
        * right. exists j. split; [left; reflexivity | tauto].
        * right. exists j. split; [left; reflexivity | tauto].
      + right. exists j1. split; [right; exact Hin | exact Hb]. }
  destruct Hd as [Hall|Hex].
  - destruct (coeff_inner_ok i (js i) st Hall) as (st1 & E1 & _).
    rewrite E1. cbn [bind]. apply IH.
    destruct Hi as [->|Hi].
    + exfalso. apply Hbad. apply Hall. exact Hj.
    + exists i0, j0. tauto.
  - destruct (coeff_inner_err i (js i) st Hex) as (z & E & Hz).
    exists z. rewrite E. split; [reflexivity | exact Hz].
Qed.

End CoeffLoops.

Lemma Reqb_true (a b : R) : Reqb a b = true <-> a = b.
Proof.
  unfold Reqb. destruct (Req_dec_T a b); split; intros; try discriminate;
    tauto.
Qed.

Lemma Reqb_false (a b : R) : Reqb a b = false <-> a <> b.
Proof.
  unfold Reqb. destruct (Req_dec_T a b); split; intros; try discriminate;
    tauto.
Qed.

Section Coeff.
Variables (ntypes nlocal : nat) (type : list nat) (shtype : list Z).
Variables (ranks : list (list Z)) (max_rad : list R) (p : PairSetup).
Variables (ilo ihi jlo jhi : nat) (one exponent_in : R).
Variable typetosh : list Z.

Hypothesis exponent_ok :
  ps_exponent p = -1 \/ ps_exponent p = exponent_in.
Hypothesis types_matched :
  (ps_matchtypes p = true /\ ps_typetosh p = typetosh)
  \/ (ps_matchtypes p = false
      /\ matchtype ntypes nlocal type shtype ranks = Ok typetosh).

Let shaped (t : nat) : Prop :=
  (0 <= nth t typetosh 0 < Z.of_nat (List.length max_rad))%Z.
Let rad (t : nat) : R := nth (Z.to_nat (nth t typetosh 0%Z)) max_rad 0.
(** The pairs the two loops visit. *)
Let visited (i j : nat) : Prop :=
  (ilo <= i <= ihi)%nat /\ (jlo <= j <= jhi)%nat /\ (i <= j)%nat.

Let js (i : nat) : list nat := seq (Nat.max jlo i) (jhi + 1 - Nat.max jlo i).
Let il : list nat := seq ilo (ihi + 1 - ilo).

Lemma visited_in (i j : nat) : visited i j <-> In i il /\ In j (js i).
Proof. unfold visited, il, js. rewrite !in_seq. lia. Qed.

Lemma coeff_steps :
  coeff ntypes nlocal type shtype ranks max_rad p ilo ihi jlo jhi one
        exponent_in
  = do st <-
       for_each (fun st i =>
                   for_each (coeff_pair max_rad typetosh one i) (js i) st)
                il (ps_cut p, ps_setflag p, ps_normal_coeffs p, 0%Z);
    let '(cut, setflag, normal, count) := st in
    if (count =? 0)%Z then Err incorrect_coeff_args
    else Ok {| ps_exponent := exponent_in;
               ps_matchtypes := true;
               ps_typetosh := typetosh;
               ps_setflag := setflag;
               ps_cut := cut;
               ps_normal_coeffs := normal |}.
Proof.
  unfold coeff.
  assert (E1 : (if Reqb (ps_exponent p) (-1) then Ok exponent_in
                else if negb (Reqb (ps_exponent p) exponent_in)
                     then Err exponent_mixing
                     else Ok (ps_exponent p)) = Ok exponent_in).
  { destruct (Reqb (ps_exponent p) (-1)) eqn:Em; [reflexivity|].
    apply Reqb_false in Em. destruct exponent_ok as [H|H]; [contradiction|].
    apply Reqb_true in H. rewrite H. cbn [negb].
    apply Reqb_true in H. rewrite H. reflexivity. }
  rewrite E1. cbn [bind].
  assert (E2 : (if negb (ps_matchtypes p)
                then matchtype ntypes nlocal type shtype ranks
                else Ok (ps_typetosh p)) = Ok typetosh).
  { destruct types_matched as [[Hm Ht]|[Hm Ht]]; rewrite Hm; cbn [negb];
      [rewrite Ht; reflexivity | exact Ht]. }
  rewrite E2. cbn [bind]. reflexivity.
Qed.

Lemma coeff_shaped :
  (forall i j, visited i j -> shaped i /\ shaped j) ->
  ((forall i j, ~ visited i j)
   /\ coeff ntypes nlocal type shtype ranks max_rad p ilo ihi jlo jhi one
            exponent_in = Err incorrect_coeff_args)
  \/ ((exists i j, visited i j)
      /\ exists p',
          coeff ntypes nlocal type shtype ranks max_rad p ilo ihi jlo jhi
                one exponent_in = Ok p'
          /\ ps_exponent p' = exponent_in /\ ps_matchtypes p' = true
          /\ ps_typetosh p' = typetosh
          /\ forall i j,
              (visited i j ->
               ps_cut p' i j = rad i + rad j
               /\ ps_setflag p' i j = 1%Z /\ ps_normal_coeffs p' i j = one)
              /\ (~ visited i j ->
                  ps_cut p' i j = ps_cut p i j
                  /\ ps_setflag p' i j = ps_setflag p i j
                  /\ ps_normal_coeffs p' i j = ps_normal_coeffs p i j)).
Proof.
  intros Hall. rewrite coeff_steps.
  destruct (@coeff_outer_ok max_rad typetosh one js il
              (ps_cut p, ps_setflag p, ps_normal_coeffs p, 0%Z))
    as (st' & E & Hc & Hf).
  { intros i j Hi Hj. apply Hall. apply visited_in. tauto. }
  rewrite E. cbn [bind]. destruct st' as [[[cut setflag] normal] count].
  cbn [fst snd] in Hc, Hf.
  destruct (flat_map js il) as [|j0 l] eqn:Efm.
  - left. cbn in Hc. subst count. split; [|reflexivity].
    intros i j Hv. apply visited_in in Hv.
    assert (Hin : In j (flat_map js il))
      by (apply in_flat_map; exists i; exact Hv).
    rewrite Efm in Hin. destruct Hin.
  - right. split.
    + assert (Hin : In j0 (flat_map js il)) by (rewrite Efm; left; reflexivity).
      apply in_flat_map in Hin. destruct Hin as (i & Hi & Hj).
      exists i, j0. apply visited_in. tauto.
    + cbn [List.length] in Hc.
      destruct (Z.eqb_spec count 0) as [H0|_]; [lia|].
      eexists. split; [reflexivity|].
      cbn [ps_exponent ps_matchtypes ps_typetosh ps_cut ps_setflag
           ps_normal_coeffs].
      repeat (split; [reflexivity|]).
      intros i j. destruct (Hf i j) as [Hy Hn]. split.
      * intros Hv. apply Hy. apply visited_in. exact Hv.
      * intros Hv. apply Hn. intros H. apply Hv, visited_in. exact H.
Qed.

Lemma coeff_shapeless :
  (exists i j, visited i j /\ ~ (shaped i /\ shaped j)) ->
  exists z,
    coeff ntypes nlocal type shtype ranks max_rad p ilo ihi jlo jhi one
          exponent_in = Err (OutOfBounds "maxrad_byshape" z)
    /\ ~ (0 <= z < Z.of_nat (List.length max_rad))%Z.
Proof.
  intros (i & j & Hv & Hbad). rewrite coeff_steps.
  destruct (@coeff_outer_err max_rad typetosh one js il
              (ps_cut p, ps_setflag p, ps_normal_coeffs p, 0%Z))
    as (z & E & Hz).
  { exists i, j. apply visited_in in Hv. destruct Hv as [Hi Hj].
    split; [exact Hi|]. split; [exact Hj | exact Hbad]. }
  exists z. rewrite E. split; [reflexivity | exact Hz].
Qed.

End Coeff.

(** X12.  [matchtype] on one process, every atom type being at most
    [ntypes]: it stops with the error of mismatched types exactly when an
    atom with a shape is followed by an atom of the same type with another
    value of [shtype]; otherwise it returns an array of [ntypes + 1]
    entries that holds, for every atom with a shape, that shape at the
    type of the atom, and -1 at every type none of whose atoms has a
    shape. *)
Theorem matchtype_single_process (ntypes nlocal : nat) (type : list nat)
        (shtype : list Z) :
  (forall i, (i < nlocal)%nat -> (nth i type 0 <= ntypes)%nat) ->
  let ty := fun i : nat => nth i type 0%nat in
  let sh := fun i : nat => nth i shtype 0%Z in
  ((exists i j, (i < j < nlocal)%nat /\ ty i = ty j /\ sh i <> (-1)%Z
                /\ sh j <> sh i)
   /\ matchtype ntypes nlocal type shtype [] = Err types_mismatch)
  \/ ((forall i j, (i < j < nlocal)%nat -> ty i = ty j ->
                   sh i = (-1)%Z \/ sh j = sh i)
      /\ exists st,
          matchtype ntypes nlocal type shtype [] = Ok st
          /\ List.length st = (ntypes + 1)%nat
          /\ (forall i, (i < nlocal)%nat -> sh i <> (-1)%Z ->
                        nth (ty i) st 0%Z = sh i)
          /\ (forall t, (t <= ntypes)%nat ->
                        (forall i, (i < nlocal)%nat -> ty i = t ->
                                   sh i = (-1)%Z) ->
                        nth t st 0%Z = (-1)%Z)).
Proof.
  intros Hty. cbv zeta.
  destruct (matchtype_loop ntypes type shtype nlocal Hty)
    as [[Hclash E]|[Hagree (st & E & Hm)]].
  - left. split; [exact Hclash|]. unfold matchtype. rewrite E. reflexivity.
  - right. split; [exact Hagree|]. exists st. split; [|exact Hm].
    unfold matchtype. rewrite E. reflexivity.
Qed.

Lemma matchtype_single_process_witness :
  (forall i, (i < 3)%nat -> (nth i [1; 2; 1]%nat 0 <= 2)%nat)
  /\ matchtype 2 3 [1; 2; 1]%nat [0; 1; 0]%Z [] = Ok [-1; 0; 1]%Z
  /\ matchtype 2 3 [1; 2; 1]%nat [0; 1; 1]%Z [] = Err types_mismatch
  /\ exists st,
      matchtype 2 3 [1; 2; 1]%nat [0; 1; 0]%Z [] = Ok st
      /\ List.length st = 3%nat
      /\ forall i, (i < 3)%nat -> nth i [0; 1; 0]%Z 0%Z <> (-1)%Z ->
                   nth (nth i [1; 2; 1]%nat 0%nat) st 0%Z
                   = nth i [0; 1; 0]%Z 0%Z.
Proof.
  assert (Hty : forall i, (i < 3)%nat -> (nth i [1; 2; 1]%nat 0 <= 2)%nat).
  { intros i Hi. destruct i as [|[|[|i]]]; simpl; lia. }
  split; [exact Hty|]. split; [reflexivity|]. split; [reflexivity|].
  destruct (matchtype_single_process 2 3 [1; 2; 1]%nat [0; 1; 0]%Z Hty)
    as [[_ E]|[_ (st & E & Hl & Hs & _)]].
  - discriminate E.
  - exists st. split; [exact E|]. split; [exact Hl | exact Hs].
Defined.

(** X13.  [coeff] with an exponent that fits the one already set and an
    array [typetosh] that gives every type of the visited pairs
    [ilo <= i <= ihi], [max(jlo, i) <= j <= jhi] a shape of
    [maxrad_byshape]: with no such pair it stops with the error of
    incorrect arguments; otherwise it sets, for every visited pair, the
    cutoff to the sum of the two maximal radii, the flag to 1 and the
    coefficient to the given one, and leaves every other entry alone. *)
Theorem coeff_sets_visited_pairs (ntypes nlocal : nat) (type : list nat)
        (shtype : list Z) (ranks : list (list Z)) (max_rad : list R)
        (p : PairSetup) (ilo ihi jlo jhi : nat) (one exponent_in : R)
        (typetosh : list Z) :
  ps_exponent p = -1 \/ ps_exponent p = exponent_in ->
  (ps_matchtypes p = true /\ ps_typetosh p = typetosh)
  \/ (ps_matchtypes p = false
      /\ matchtype ntypes nlocal type shtype ranks = Ok typetosh) ->
  let shaped := fun t : nat =>
    (0 <= nth t typetosh 0 < Z.of_nat (List.length max_rad))%Z in
  let rad := fun t : nat => nth (Z.to_nat (nth t typetosh 0%Z)) max_rad 0 in
  let visited := fun i j : nat =>
    (ilo <= i <= ihi)%nat /\ (jlo <= j <= jhi)%nat /\ (i <= j)%nat in
  (forall i j, visited i j -> shaped i /\ shaped j) ->
  ((forall i j, ~ visited i j)
   /\ coeff ntypes nlocal type shtype ranks max_rad p ilo ihi jlo jhi one
            exponent_in = Err incorrect_coeff_args)
  \/ ((exists i j, visited i j)
      /\ exists p',
          coeff ntypes nlocal type shtype ranks max_rad p ilo ihi jlo jhi
                one exponent_in = Ok p'
          /\ ps_exponent p' = exponent_in /\ ps_matchtypes p' = true
          /\ ps_typetosh p' = typetosh
          /\ forall i j,
              (visited i j ->
               ps_cut p' i j = rad i + rad j
               /\ ps_setflag p' i j = 1%Z /\ ps_normal_coeffs p' i j = one)
              /\ (~ visited i j ->
                  ps_cut p' i j = ps_cut p i j
                  /\ ps_setflag p' i j = ps_setflag p i j
                  /\ ps_normal_coeffs p' i j = ps_normal_coeffs p i j)).
Proof.
  intros Hexp Hmatch. cbv zeta. intros Hall.
  exact (coeff_shaped ntypes nlocal type shtype ranks max_rad p ilo ihi jlo
                      jhi one exponent_in typetosh Hexp Hmatch Hall).
Qed.

(** X14.  When some visited pair has a type to which [typetosh] gives no
    shape of [maxrad_byshape], -1 for a type without atoms, [coeff] reads
    [max_rad] outside the array. *)
Theorem coeff_reads_outside_maxrad (ntypes nlocal : nat) (type : list nat)
        (shtype : list Z) (ranks : list (list Z)) (max_rad : list R)
        (p : PairSetup) (ilo ihi jlo jhi : nat) (one exponent_in : R)
        (typetosh : list Z) :
  ps_exponent p = -1 \/ ps_exponent p = exponent_in ->
  (ps_matchtypes p = true /\ ps_typetosh p = typetosh)
  \/ (ps_matchtypes p = false
      /\ matchtype ntypes nlocal type shtype ranks = Ok typetosh) ->
  let shaped := fun t : nat =>
    (0 <= nth t typetosh 0 < Z.of_nat (List.length max_rad))%Z in
  let visited := fun i j : nat =>
    (ilo <= i <= ihi)%nat /\ (jlo <= j <= jhi)%nat /\ (i <= j)%nat in
  (exists i j, visited i j /\ ~ (shaped i /\ shaped j)) ->
  exists z,
    coeff ntypes nlocal type shtype ranks max_rad p ilo ihi jlo jhi one
          exponent_in = Err (OutOfBounds "maxrad_byshape" z)
    /\ ~ (0 <= z < Z.of_nat (List.length max_rad))%Z.
Proof.
  intros Hexp Hmatch. cbv zeta. intros Hbad.
  exact (coeff_shapeless ntypes nlocal type shtype ranks max_rad p ilo ihi
                         jlo jhi one exponent_in typetosh Hexp Hmatch Hbad).
Qed.

Section PairSetupWitness.

(** The pair style before the first [pair_coeff]: [exponent = -1] and
    nothing set. *)
Let fresh : PairSetup :=
  {| ps_exponent := -1;
     ps_matchtypes := false;
     ps_typetosh := [];
     ps_setflag := fun _ _ => 0%Z;
     ps_cut := fun _ _ => 0;
     ps_normal_coeffs := fun _ _ => 0 |}.

Lemma coeff_sets_visited_pairs_witness :
  (ps_exponent fresh = -1 \/ ps_exponent fresh = 1.5)
  /\ ((ps_matchtypes fresh = true /\ ps_typetosh fresh = [-1; 0; 0]%Z)
      \/ (ps_matchtypes fresh = false
          /\ matchtype 2 2 [1; 2]%nat [0; 0]%Z [] = Ok [-1; 0; 0]%Z))
  /\ (forall i j,
         (1 <= i <= 2)%nat /\ (1 <= j <= 2)%nat /\ (i <= j)%nat ->
         (0 <= nth i [-1; 0; 0]%Z 0 < Z.of_nat (List.length [1]))%Z
         /\ (0 <= nth j [-1; 0; 0]%Z 0 < Z.of_nat (List.length [1]))%Z)
  /\ exists p',
      coeff 2 2 [1; 2]%nat [0; 0]%Z [] [1] fresh 1 2 1 2 100 1.5 = Ok p'
      /\ ps_exponent p' = 1.5
      /\ ps_cut p' 1%nat 2%nat = 1 + 1
      /\ ps_setflag p' 1%nat 2%nat = 1%Z
      /\ ps_normal_coeffs p' 1%nat 2%nat = 100
      /\ ps_setflag p' 2%nat 1%nat = 0%Z.
Proof.
  assert (Hexp : ps_exponent fresh = -1 \/ ps_exponent fresh = 1.5)
    by (left; reflexivity).
  assert (Hm : (ps_matchtypes fresh = true
                /\ ps_typetosh fresh = [-1; 0; 0]%Z)
               \/ (ps_matchtypes fresh = false
                   /\ matchtype 2 2 [1; 2]%nat [0; 0]%Z []
                      = Ok [-1; 0; 0]%Z))
    by (right; split; reflexivity).
  assert (Hsh : forall i j,
             (1 <= i <= 2)%nat /\ (1 <= j <= 2)%nat /\ (i <= j)%nat ->
             (0 <= nth i [-1; 0; 0]%Z 0 < Z.of_nat (List.length [1]))%Z
             /\ (0 <= nth j [-1; 0; 0]%Z 0 < Z.of_nat (List.length [1]))%Z).
  { intros i j (Hi & Hj & _).
    destruct i as [|[|[|i]]]; destruct j as [|[|[|j]]]; simpl; lia. }
  split; [exact Hexp|]. split; [exact Hm|]. split; [exact Hsh|].
  destruct (coeff_sets_visited_pairs 2 2 [1; 2]%nat [0; 0]%Z [] [1] fresh
              1 2 1 2 100 1.5 [-1; 0; 0]%Z Hexp Hm Hsh)
    as [[Hnone _]|[_ (p' & E & He & _ & _ & Hp)]].
  - exfalso. apply (Hnone 1%nat 1%nat). lia.
  - exists p'. split; [exact E|]. split; [exact He|].
    destruct (Hp 1%nat 2%nat) as [Hv _].
    destruct (Hv ltac:(lia)) as (Hc & Hf & Hn).
    destruct (Hp 2%nat 1%nat) as [_ Hnv].
    destruct (Hnv ltac:(lia)) as (_ & Hf' & _).
    split; [rewrite Hc; simpl; reflexivity|].
    split; [exact Hf|]. split; [exact Hn|].
    rewrite Hf'. reflexivity.
Defined.

Lemma coeff_reads_outside_maxrad_witness :
  (ps_exponent fresh = -1 \/ ps_exponent fresh = 1.5)
  /\ ((ps_matchtypes fresh = true /\ ps_typetosh fresh = [-1; 0; -1]%Z)
      \/ (ps_matchtypes fresh = false
          /\ matchtype 2 1 [1]%nat [0]%Z [] = Ok [-1; 0; -1]%Z))
  /\ (exists i j,
         ((1 <= i <= 2)%nat /\ (1 <= j <= 2)%nat /\ (i <= j)%nat)
         /\ ~ ((0 <= nth i [-1; 0; -1]%Z 0 < Z.of_nat (List.length [1]))%Z
               /\ (0 <= nth j [-1; 0; -1]%Z 0
                   < Z.of_nat (List.length [1]))%Z))
  /\ exists z,
      coeff 2 1 [1]%nat [0]%Z [] [1] fresh 1 2 1 2 100 1.5
      = Err (OutOfBounds "maxrad_byshape" z)
      /\ ~ (0 <= z < Z.of_nat (List.length [1]))%Z.
Proof.
  assert (Hexp : ps_exponent fresh = -1 \/ ps_exponent fresh = 1.5)
    by (left; reflexivity).
  assert (Hm : (ps_matchtypes fresh = true
                /\ ps_typetosh fresh = [-1; 0; -1]%Z)
               \/ (ps_matchtypes fresh = false
                   /\ matchtype 2 1 [1]%nat [0]%Z [] = Ok [-1; 0; -1]%Z))
    by (right; split; reflexivity).
  assert (Hbad : exists i j,
             ((1 <= i <= 2)%nat /\ (1 <= j <= 2)%nat /\ (i <= j)%nat)
             /\ ~ ((0 <= nth i [-1; 0; -1]%Z 0
                    < Z.of_nat (List.length [1]))%Z
                   /\ (0 <= nth j [-1; 0; -1]%Z 0
                       < Z.of_nat (List.length [1]))%Z)).
  { exists 1%nat, 2%nat. split; [lia|]. simpl. lia. }
  split; [exact Hexp|]. split; [exact Hm|]. split; [exact Hbad|].
  exact (coeff_reads_outside_maxrad 2 1 [1]%nat [0]%Z [] [1] fresh
           1 2 1 2 100 1.5 [-1; 0; -1]%Z Hexp Hm Hbad).
Defined.

End PairSetupWitness.

(** X15.  [init_one] on a pair whose flag is set, or whose two types have
    a shape of [maxrad_byshape]: it returns the cutoff of the pair, which
    is the stored one when the flag is set and the sum of the two maximal
    radii otherwise; it changes no other cutoff, and it copies the
    coefficient of [(i, i)] to [(i, j)] and to [(j, i)]. *)
Theorem init_one_cutoff (max_rad : list R) (p : PairSetup) (i j : nat) :
  let shaped := fun t : nat =>
    (0 <= nth t (ps_typetosh p) 0 < Z.of_nat (List.length max_rad))%Z in
  let rad := fun t : nat =>
    nth (Z.to_nat (nth t (ps_typetosh p) 0%Z)) max_rad 0 in
  ps_setflag p i j <> 0%Z \/ (shaped i /\ shaped j) ->
  exists p',
    init_one max_rad p i j = Ok (p', ps_cut p' i j)
    /\ ps_cut p' i j
       = (if (ps_setflag p i j =? 0)%Z then rad i + rad j else ps_cut p i j)
    /\ (forall i' j', ~ (i' = i /\ j' = j) -> ps_cut p' i' j' = ps_cut p i' j')
    /\ ps_normal_coeffs p' i j = ps_normal_coeffs p i i
    /\ ps_normal_coeffs p' j i = ps_normal_coeffs p i i
    /\ ps_setflag p' = ps_setflag p.
Proof.
  cbv zeta. intros H. unfold init_one.
  assert (Hn : forall (a : nat -> nat -> R) (v : R),
             set2 (set2 a j i v) i j v i j = v
             /\ set2 (set2 a j i v) i j v j i = v).
  { intros a v. unfold set2. rewrite !Nat.eqb_refl. cbn [andb].
    split; [reflexivity|].
    destruct ((j =? i)%nat && (i =? j)%nat); reflexivity. }
  destruct (Z.eqb_spec (ps_setflag p i j) 0) as [E|E].
  - destruct H as [H|[Hi Hj]]; [contradiction|].
    rewrite !read_in_range by assumption. cbn [bind].
    match goal with
    | |- exists p', Ok (?q, _) = _ /\ _ => exists q
    end.
    split; [reflexivity|].
    cbn [ps_cut ps_normal_coeffs ps_setflag].
    split; [unfold set2; rewrite !Nat.eqb_refl; reflexivity|].
    split.
    { intros i' j' Hne. unfold set2.
      destruct (Nat.eqb_spec i' i) as [->|_]; [|reflexivity].
      destruct (Nat.eqb_spec j' j) as [->|_]; [|reflexivity].
      exfalso. apply Hne. split; reflexivity. }
    split; [apply Hn|]. split; [apply Hn | reflexivity].
  - cbn [bind].
    match goal with
    | |- exists p', Ok (?q, _) = _ /\ _ => exists q
    end.
    split; [reflexivity|].
    cbn [ps_cut ps_normal_coeffs ps_setflag].
    split; [reflexivity|]. split; [reflexivity|].
    split; [apply Hn|]. split; [apply Hn | reflexivity].
Qed.

Lemma init_one_cutoff_witness :
  let p := {| ps_exponent := 1.5;
              ps_matchtypes := true;
              ps_typetosh := [-1; 0; 0]%Z;
              ps_setflag := fun _ _ => 0%Z;
              ps_cut := fun _ _ => 0;
              ps_normal_coeffs := fun _ _ => 100 |} in
  (ps_setflag p 1%nat 2%nat <> 0%Z
   \/ ((0 <= nth 1 (ps_typetosh p) 0 < Z.of_nat (List.length [1]))%Z
       /\ (0 <= nth 2 (ps_typetosh p) 0 < Z.of_nat (List.length [1]))%Z))
  /\ exists p',
      init_one [1] p 1 2 = Ok (p', ps_cut p' 1%nat 2%nat)
      /\ ps_cut p' 1%nat 2%nat = 1 + 1
      /\ ps_normal_coeffs p' 2%nat 1%nat = 100.
Proof.
  intros p.
  assert (H : ps_setflag p 1%nat 2%nat <> 0%Z
              \/ ((0 <= nth 1 (ps_typetosh p) 0
                   < Z.of_nat (List.length [1]))%Z
                  /\ (0 <= nth 2 (ps_typetosh p) 0
                      < Z.of_nat (List.length [1]))%Z))
    by (right; simpl; lia).
  split; [exact H|].
  destruct (init_one_cutoff [1] p 1 2 H) as (p' & E & Hc & _ & _ & Hn & _).
  exists p'. split; [exact E|]. split; [|exact Hn].
  rewrite Hc. reflexivity.
Defined.
